(** * IrModifier: a shallow embedding of [src/bin2llvmir/utils/ir_modifier.cpp]

    The development models the fragment of the typed SSA program graph
    that the IR modifier touches (types, constants, values, instructions
    kept in blocks, globals with initializers), the configuration
    database that mirrors it, and the read-only view of the binary image.
    Every operation of the source is a function on that state in a small
    state-and-abort monad. *)

From Stdlib Require Import HexadecimalString.
From stdpp Require Import base decidable option list strings gmap pretty.

Set Warnings "-register-all".
Local Open Scope Z_scope.

(** ** Types

    The type variants follow the IR's: integers of arbitrary width, the
    floating types with their bit widths, typed pointers, arrays and
    structs (the two aggregate kinds), functions and void. *)

Inductive FloatKind := Half | Float | Double | X86_FP80 | FP128 | PPC_FP128.

Inductive Ty :=
  | TVoid
  | TInt (bits : Z)
  | TFloat (k : FloatKind)
  | TPtr (elem : Ty)
  | TArray (elem : Ty) (count : Z)
  | TStruct (fields : list Ty) (packed : bool)
  | TFunction (ret : Ty) (params : list Ty) (vararg : bool).

Global Instance FloatKind_eq_dec : EqDecision FloatKind.
Proof. solve_decision. Defined.

Fixpoint Ty_eq_dec (a b : Ty) : {a = b} + {a <> b}.
Proof.
  decide equality;
    try apply Z.eq_dec; try apply bool_dec; try apply FloatKind_eq_dec;
    apply (List.list_eq_dec Ty_eq_dec).
Defined.

Global Instance Ty_EqDecision : EqDecision Ty := Ty_eq_dec.

Definition isPointerTy (t : Ty) : bool :=
  match t with TPtr _ => true | _ => false end.
Definition isIntegerTy (t : Ty) : bool :=
  match t with TInt _ => true | _ => false end.
Definition isFloatingPointTy (t : Ty) : bool :=
  match t with TFloat _ => true | _ => false end.
(** [Type::isAggregateType]: struct or array. *)
Definition isAggregateType (t : Ty) : bool :=
  match t with TStruct _ _ | TArray _ _ => true | _ => false end.

(** [Type::isEmptyTy]: an array of no elements or of empty elements, a
    struct all of whose fields are empty. *)
Fixpoint isEmptyTy (t : Ty) : bool :=
  match t with
  | TArray e n => (n =? 0) || isEmptyTy e
  | TStruct fs _ => forallb isEmptyTy fs
  | _ => false
  end.

Definition fp_bits (k : FloatKind) : Z :=
  match k with
  | Half => 16 | Float => 32 | Double => 64 | X86_FP80 => 80
  | FP128 => 128 | PPC_FP128 => 128
  end.

Definition getPrimitiveSizeInBits (t : Ty) : Z :=
  match t with TInt b => b | TFloat k => fp_bits k | _ => 0 end.

(** [PointerType::isValidElementType]. *)
Definition isValidElementType (t : Ty) : bool :=
  match t with TVoid => false | _ => true end.

(** [ExtractValueInst::getIndexedType] at the index list [{0}]: the type
    of the first field, when the aggregate has one. *)
Definition getIndexedType0 (t : Ty) : option Ty :=
  match t with
  | TStruct (f :: _) _ => Some f
  | TArray e n => if 0 <? n then Some e else None
  | _ => None
  end.

(** [CompositeType::getTypeAtIndex(0u)] on a struct or an array. *)
Definition getTypeAtIndex0 (t : Ty) : option Ty :=
  match t with
  | TStruct (f :: _) _ => Some f
  | TArray e _ => Some e
  | _ => None
  end.

(** ** Constants, values and instructions *)

Inductive CastOp :=
  | BitCast | PtrToInt | IntToPtr
  | IntegerCast (signed : bool)
  | FPCast
  | IntToFP (signed : bool)
  | FPToInt (signed : bool).

Global Instance CastOp_eq_dec : EqDecision CastOp.
Proof. solve_decision. Defined.

(** A constant carries its type.  A global variable is itself a constant
    (its address), of pointer type. *)
Inductive Constant :=
  | CInt (bits : Z) (value : Z)
  | CFP (k : FloatKind) (payload : Z)
  | CBytes (t : Ty) (data : list Z)
  | CUndef (t : Ty)
  | CGlobal (g : nat) (t : Ty)
  | CFunction (f : nat) (t : Ty)
  | CCast (op : CastOp) (c : Constant) (t : Ty)
  | CExtractValue (agg : Constant) (idx : nat) (t : Ty)
  | CInsertValue (agg elt : Constant) (idx : nat)
  | CAggregate (t : Ty) (elems : list Constant).

Fixpoint Constant_eq_dec (a b : Constant) : {a = b} + {a <> b}.
Proof.
  decide equality;
    try apply Z.eq_dec; try apply Nat.eq_dec; try apply Ty_eq_dec;
    try apply FloatKind_eq_dec; try apply CastOp_eq_dec;
    try apply (List.list_eq_dec Z.eq_dec);
    apply (List.list_eq_dec Constant_eq_dec).
Defined.

Global Instance Constant_EqDecision : EqDecision Constant := Constant_eq_dec.

Fixpoint typeOfC (c : Constant) : Ty :=
  match c with
  | CInt b _ => TInt b
  | CFP k _ => TFloat k
  | CBytes t _ => t
  | CUndef t => t
  | CGlobal _ t => t
  | CFunction _ t => t
  | CCast _ _ t => t
  | CExtractValue _ _ t => t
  | CInsertValue agg _ _ => typeOfC agg
  | CAggregate t _ => t
  end.

(** A value is the result of an instruction, a function argument or a
    constant.  A reference to an instruction or an argument records the
    type of the object it points to, which is fixed when the object is
    created. *)
Inductive Value :=
  | VInst (id : nat) (t : Ty)
  | VArg (f : nat) (idx : nat) (t : Ty)
  | VConst (c : Constant).

Global Instance Value_eq_dec : EqDecision Value.
Proof. solve_decision. Defined.

Definition typeOf (v : Value) : Ty :=
  match v with
  | VInst _ t => t
  | VArg _ _ t => t
  | VConst c => typeOfC c
  end.

Definition dyn_cast_Constant (v : Value) : option Constant :=
  match v with VConst c => Some c | _ => None end.
Definition dyn_cast_Instruction (v : Value) : option nat :=
  match v with VInst id _ => Some id | _ => None end.

(** The instruction kinds the modifier tells apart; every other kind
    (GEP, call, arithmetic, ...) is [KOther], which lists its operands
    together with the operand types its opcode and signature demand. *)
Inductive InstKind :=
  | KAlloca (allocated : Ty)
  | KLoad (ptr : Value)
  | KStore (val ptr : Value)
  | KCast (op : CastOp) (x : Value)
  | KExtractValue (agg : Value) (idx : nat)
  | KInsertValue (agg elt : Value) (idx : nat)
  | KOther (opcode : string) (ops : list Value) (sig : list Ty).

Record Inst := mkInst {
  iid : nat;
  iname : string;
  ikind : InstKind;
  ity : Ty
}.

Definition valueOf (i : Inst) : Value := VInst (iid i) (ity i).

Definition operands (k : InstKind) : list Value :=
  match k with
  | KAlloca _ => []
  | KLoad p => [p]
  | KStore v p => [v; p]
  | KCast _ x => [x]
  | KExtractValue agg _ => [agg]
  | KInsertValue agg elt _ => [agg; elt]
  | KOther _ ops _ => ops
  end.

Inductive Linkage := ExternalLinkage | InternalLinkage | OtherLinkage.

Record Global := mkGlobal {
  gname : string;
  gvalty : Ty;
  gconstant : bool;
  glinkage : Linkage;
  ginit : option Constant
}.

(** The value of a global variable: a pointer to its value type. *)
Definition globalValue (g : nat) (gl : Global) : Constant :=
  CGlobal g (TPtr (gvalty gl)).

Record Function := mkFunction {
  fid : nat;
  fname : string;
  fparams : list Ty;
  fblocks : list (list Inst)
}.

Record Module := mkModule {
  next_id : nat;
  functions : list Function;
  globals : gmap nat Global;
  word_bits : Z
}.

(** [Abi::getDefaultType]: the integer type of the target's word. *)
Definition getDefaultType (m : Module) : Ty := TInt (word_bits m).

(** ** The configuration database, the image and the debug information

    Only [ir_modifier.cpp] is part of the sources at hand; the classes
    [Config], [FileImage] and [DebugFormat] it calls are not.  Their data
    is modelled from the specification's data model. *)

(** Modelled from the spec: a ConfigObject of the ConfigStore (missing:
    [retdec::config::Object] and [Config]).  The entry of a global keeps the
    IR handle it mirrors, its name, its address and the type its
    source-level type string denotes (when the string parses). *)
Record ConfigObject := mkConfigObject {
  co_handle : option nat;
  co_name : string;
  co_addr : Z;
  co_type : option Ty;
  co_fromDebug : bool;
  co_realName : string;
  co_cryptoDesc : string;
  co_wideString : bool
}.

Record CryptoPattern := mkCryptoPattern {
  cp_name : string;
  cp_desc : string;
  cp_type : Ty
}.

(** Modelled from the spec: the ConfigObject of a stack slot (missing:
    [retdec::config::Object] with stack storage): its function, its offset,
    the alloca it mirrors and its name. *)
Record StackObject := mkStackObject {
  so_function : nat;
  so_offset : Z;
  so_alloca : Value;
  so_name : string
}.

(** Modelled from the spec: the ConfigStore (missing: [Config]).  Globals
    are mirrored by address and name, stack slots are keyed by (function,
    offset) and by their IR handle, functions by their entry address. *)
Record Config := mkConfig {
  cfg_globals : list ConfigObject;
  cfg_stack : list StackObject;
  cfg_functions : gmap Z nat;
  cfg_crypto : gmap Z CryptoPattern;
  cfg_isArmOrThumb : bool;
  cfg_isPic32 : bool
}.

Record State := mkState {
  st_module : Module;
  st_config : Config
}.

(** An address of the image; [None] is the undefined address. *)
Definition Address := option Z.

(** Modelled from the spec: the ImageView operations the modifier consumes
    (missing: [FileImage] and the loader's image).  [img_getConstantAt] is
    [getConstant(config, dbgf, addr)], which decides the type itself and
    sees the module as it is at the time of the read. *)
Record FileImage := mkFileImage {
  img_hasDataOnAddress : Z -> bool;
  img_isCode : Z -> bool;
  img_niceStringAt : Z -> bool;
  img_getWord : Z -> option Z;
  img_bytesPerWord : Z;
  img_hasReadOnlyDataOnAddress : Z -> bool;
  img_getConstant : Ty -> Z -> bool -> option Constant;
  img_getConstantAt : State -> Z -> option Constant
}.

Record DebugVar := mkDebugVar {
  dv_name : string;
  dv_type : option Ty
}.

(** The debug information: the global variable it knows at an address. *)
Definition DebugFormat := Z -> option DebugVar.

(** ** The monad of the modifier

    An operation runs on the state and returns a result together with
    the new state, aborts (a failed assertion, a null dereference), or
    runs out of the fuel that bounds its recursion. *)

Inductive Outcome (A : Type) :=
  | Ret (a : A) (st : State)
  | Abort
  | OutOfFuel.
Arguments Ret {A} a st.
Arguments Abort {A}.
Arguments OutOfFuel {A}.

Definition M (A : Type) : Type := State -> Outcome A.

Definition ret {A} (a : A) : M A := fun st => Ret a st.
Definition abort {A} : M A := fun _ => Abort.
Definition out_of_fuel {A} : M A := fun _ => OutOfFuel.
Definition bind {A B} (c : M A) (k : A -> M B) : M B :=
  fun st =>
    match c st with
    | Ret a st' => k a st'
    | Abort => Abort
    | OutOfFuel => OutOfFuel
    end.
Definition get : M State := fun st => Ret st st.
Definition put (st : State) : M unit := fun _ => Ret tt st.

Notation "x <- c1 ;; c2" := (bind c1 (fun x => c2))
  (at level 100, c1 at next level, right associativity).
Notation "c1 ;;; c2" := (bind c1 (fun _ => c2))
  (at level 100, right associativity).

Definition modify_module (f : Module -> Module) : M unit :=
  fun st => Ret tt (mkState (f (st_module st)) (st_config st)).
Definition modify_config (f : Config -> Config) : M unit :=
  fun st => Ret tt (mkState (st_module st) (f (st_config st))).

(** A pointer the code dereferences: null aborts. *)
Definition nonnull {A} (o : option A) : M A :=
  match o with Some a => ret a | None => abort end.

(** ** Editing the instruction lists *)

Definition map_blocks (g : list Inst -> list Inst) (m : Module) : Module :=
  mkModule (next_id m)
    (map (fun f => mkFunction (fid f) (fname f) (fparams f)
                     (map g (fblocks f))) (functions m))
    (globals m) (word_bits m).

Definition function_insts (f : Function) : list Inst := concat (fblocks f).

Definition all_insts (m : Module) : list Inst :=
  concat (map function_insts (functions m)).

Definition lookup_inst (m : Module) (id : nat) : option Inst :=
  List.find (fun i => bool_decide (iid i = id)) (all_insts m).

Definition has_inst (m : Module) (id : nat) : bool :=
  bool_decide (is_Some (lookup_inst m id)).

Fixpoint ins_before (anchor : nat) (i : Inst) (l : list Inst) : list Inst :=
  match l with
  | [] => []
  | x :: r =>
    if bool_decide (iid x = anchor) then i :: x :: r
    else x :: ins_before anchor i r
  end.

Fixpoint ins_after (anchor : nat) (i : Inst) (l : list Inst) : list Inst :=
  match l with
  | [] => []
  | x :: r =>
    if bool_decide (iid x = anchor) then x :: i :: r
    else x :: ins_after anchor i r
  end.

(** [new XInst(...)]: a detached instruction with a fresh identity. *)
Definition newInst (name : string) (k : InstKind) (t : Ty) : M Inst :=
  fun st =>
    let m := st_module st in
    Ret (mkInst (next_id m) name k t)
        (mkState (mkModule (S (next_id m)) (functions m) (globals m)
                    (word_bits m))
                 (st_config st)).

(** [i->insertBefore(b)]; an anchor that is in no block has no parent. *)
Definition insertBefore (i : Inst) (b : nat) : M unit :=
  st <- get ;;
  if has_inst (st_module st) b
  then modify_module (map_blocks (ins_before b i))
  else abort.

Definition insertAfter (i : Inst) (a : nat) : M unit :=
  st <- get ;;
  if has_inst (st_module st) a
  then modify_module (map_blocks (ins_after a i))
  else abort.

Definition eraseFromParent (id : nat) : M unit :=
  modify_module (map_blocks (filter (fun i => iid i <> id))).

(** ** Local functions of the source *)

Definition insertBeforeAfter (i : Inst) (b a : option nat) : M Value :=
  match b with
  | Some b => insertBefore i b
  | None => a <- nonnull a ;; insertAfter i a
  end ;;;
  ret (valueOf i).

(** The operand of a load: [isa<LoadInst>(val)] together with
    [getPointerOperand]. *)
Definition loadPointerOperand (m : Module) (v : Value) : option Value :=
  match v with
  | VInst id _ =>
    match lookup_inst m id with
    | Some i => match ikind i with KLoad p => Some p | _ => None end
    | None => None
    end
  | _ => None
  end.

(** The pattern every primitive case of [convertToType] repeats: a
    constant expression in const-expr mode, a fresh cast instruction
    attached at the anchor otherwise. *)
Definition castStep (op : CastOp) (v : Value) (cval : option Constant)
    (t : Ty) (before after : option nat) (constExpr : bool) : M (option Value) :=
  if constExpr then
    c <- nonnull cval ;; ret (Some (VConst (CCast op c t)))
  else
    i <- newInst "" (KCast op v) t ;;
    conv <- insertBeforeAfter i before after ;;
    ret (Some conv).

Fixpoint convertToType (fuel : nat) (val : option Value) (type : option Ty)
    (before after : option nat) (constExpr : bool) : M (option Value) :=
  match fuel with
  | O => out_of_fuel
  | S fuel =>
    match val, type with
    | Some v, Some t =>
      if negb constExpr && bool_decide (before = None)
         && bool_decide (after = None)
      then ret None
      else
        let cval := dyn_cast_Constant v in
        if constExpr && bool_decide (cval = None) then abort
        else if decide (typeOf v = t) then ret (Some v)
        else if isPointerTy (typeOf v) && isPointerTy t then
          castStep BitCast v cval t before after constExpr
        else if isPointerTy (typeOf v) && isIntegerTy t then
          castStep PtrToInt v cval t before after constExpr
        else if isIntegerTy (typeOf v) && isPointerTy t then
          castStep IntToPtr v cval t before after constExpr
        else if isIntegerTy (typeOf v) && isIntegerTy t then
          castStep (IntegerCast true) v cval t before after constExpr
        else if isIntegerTy (typeOf v) && isFloatingPointTy t then
          let toInt := TInt (getPrimitiveSizeInBits t) in
          r <- convertToType fuel (Some v) (Some toInt) before after constExpr ;;
          szConv <- nonnull r ;;
          if constExpr then
            c <- nonnull (dyn_cast_Constant szConv) ;;
            ret (Some (VConst (CCast BitCast c t)))
          else
            i <- newInst "" (KCast BitCast szConv) t ;;
            a <- (if decide (v = szConv) then ret after
                  else id <- nonnull (dyn_cast_Instruction szConv) ;;
                       ret (Some id)) ;;
            conv <- insertBeforeAfter i before a ;;
            ret (Some conv)
        else if isPointerTy (typeOf v) && isFloatingPointTy t then
          let toInt := TInt (getPrimitiveSizeInBits t) in
          r <- convertToType fuel (Some v) (Some toInt) before after constExpr ;;
          intConv <- nonnull r ;;
          let a := dyn_cast_Instruction intConv in
          convertToType fuel (Some intConv) (Some t) before a constExpr
        else if isFloatingPointTy (typeOf v) && isIntegerTy t then
          let width := getPrimitiveSizeInBits t in
          let viaFloat (ft : Ty) : M (option Value) :=
            if decide (typeOf v <> ft) then
              r <- convertToType fuel (Some v) (Some ft) before after constExpr ;;
              fpConv <- nonnull r ;;
              let a := dyn_cast_Instruction fpConv in
              convertToType fuel (Some fpConv) (Some t) before a constExpr
            else castStep BitCast v cval t before after constExpr in
          if decide (width = 16) then viaFloat (TFloat Half)
          else if decide (width = 32) then viaFloat (TFloat Float)
          else if decide (width = 64) then viaFloat (TFloat Double)
          else if decide (width = 80) then viaFloat (TFloat X86_FP80)
          else
            r <- convertToType fuel (Some v) (Some (TInt 32)) before after
                   constExpr ;;
            fpConv <- nonnull r ;;
            let a := dyn_cast_Instruction fpConv in
            convertToType fuel (Some fpConv) (Some t) before a constExpr
        else if isFloatingPointTy (typeOf v) && isPointerTy t then
          let toInt := TInt (getPrimitiveSizeInBits (typeOf v)) in
          r <- convertToType fuel (Some v) (Some toInt) before after constExpr ;;
          intConv <- nonnull r ;;
          let a := dyn_cast_Instruction intConv in
          convertToType fuel (Some intConv) (Some t) before a constExpr
        else if isFloatingPointTy (typeOf v) && isFloatingPointTy t then
          castStep FPCast v cval t before after constExpr
        else
          st <- get ;;
          let l := loadPointerOperand (st_module st) v in
          if bool_decide (l <> None) && isAggregateType (typeOf v)
             && negb constExpr
          then
            p <- nonnull l ;;
            if negb (isValidElementType t) then abort
            else
              r <- convertToType fuel (Some p) (Some (TPtr t)) before after
                     constExpr ;;
              c <- nonnull r ;;
              cid <- nonnull (dyn_cast_Instruction c) ;;
              lt <- nonnull (match typeOf c with
                             | TPtr e => Some e
                             | _ => None
                             end) ;;
              nl <- newInst "" (KLoad c) lt ;;
              insertAfter nl cid ;;;
              ret (Some (valueOf nl))
          else if isAggregateType (typeOf v) then
            ft <- nonnull (getIndexedType0 (typeOf v)) ;;
            toSimple <-
              (if constExpr then
                 c <- nonnull cval ;; ret (VConst (CExtractValue c 0 ft))
               else
                 i <- newInst "" (KExtractValue v 0) ft ;;
                 insertBeforeAfter i before after) ;;
            let a := dyn_cast_Instruction toSimple in
            convertToType fuel (Some toSimple) (Some t) before a constExpr
          else if isAggregateType t then
            if isEmptyTy t then abort
            else
              idxt <- nonnull (getTypeAtIndex0 t) ;;
              r <- convertToType fuel (Some v) (Some idxt) before after
                     constExpr ;;
              tmp <- nonnull r ;;
              if constExpr then
                c <- nonnull (dyn_cast_Constant tmp) ;;
                ret (Some (VConst (CInsertValue (CUndef t) c 0)))
              else
                i <- newInst "" (KInsertValue (VConst (CUndef t)) tmp 0) t ;;
                a <- (if decide (v = tmp) then ret after
                      else id <- nonnull (dyn_cast_Instruction tmp) ;;
                           ret (Some id)) ;;
                conv <- insertBeforeAfter i before a ;;
                ret (Some conv)
          else abort
    | _, _ => ret None
    end
  end.

(** ** IrModifier: the conversion entry points *)

Definition convertValueToType (fuel : nat) (val : option Value)
    (type : option Ty) (before : option nat) : M (option Value) :=
  convertToType fuel val type before None false.

Definition convertValueToTypeAfter (fuel : nat) (val : option Value)
    (type : option Ty) (after : option nat) : M (option Value) :=
  convertToType fuel val type None after false.

(** [dyn_cast_or_null<Constant>(v)] with the assertion that a non-null
    result of the conversion is a constant. *)
Definition convertConstantToType (fuel : nat) (val : option Constant)
    (type : option Ty) : M (option Constant) :=
  v <- convertToType fuel (VConst <$> val) type None None true ;;
  match v with
  | Some v' => c <- nonnull (dyn_cast_Constant v') ;; ret (Some c)
  | None => ret None
  end.

(** What a completed conversion returns. *)
Definition converted (v : Value) (t : Ty) (ce : bool) (st : State)
    (r : option Value) (st' : State) : Prop :=
  exists v', r = Some v' /\ typeOf v' = t /\
    (typeOf v = t -> v' = v /\ st' = st) /\
    (ce = false -> typeOf v <> t -> exists id, v' = VInst id t) /\
    (ce = true -> st' = st /\ exists c, v' = VConst c).

Definition anchored (ce : bool) (b a : option nat) : Prop :=
  ce = true \/ b <> None \/ a <> None.

(** ** Enough fuel: the recursion of [convertToType] is bounded by the
    nesting of the two types *)

Fixpoint agg_depth (t : Ty) : nat :=
  match t with
  | TStruct (f :: _) _ => S (agg_depth f)
  | TStruct [] _ => 1
  | TArray e _ => S (agg_depth e)
  | _ => 0
  end.

Definition float_of_width (w : Z) : option FloatKind :=
  if decide (w = 16) then Some Half
  else if decide (w = 32) then Some Float
  else if decide (w = 64) then Some Double
  else if decide (w = 80) then Some X86_FP80
  else None.

Definition scalar_rank (s t : Ty) : nat :=
  if isAggregateType s || isAggregateType t then 5%nat
  else
    match s, t with
    | TInt _, TFloat _ => 2
    | TPtr _, TFloat _ => 3
    | TFloat k, TInt w =>
      match float_of_width w with
      | Some k' => if decide (k = k') then 1 else 2
      | None => 3
      end
    | TFloat _, TPtr _ => 4
    | _, _ => 1
    end%nat.

Definition convert_fuel (s t : Ty) : nat :=
  (agg_depth s + agg_depth t + scalar_rank s t)%nat.

(** Every load reads through a pointer-typed operand. *)
Definition loads_wf (m : Module) : Prop :=
  forall i p, i ∈ all_insts m -> ikind i = KLoad p ->
    isPointerTy (typeOf p) = true.

Definition terminates {A} (c : M A) (st : State) : Prop := c st <> OutOfFuel.

Definition is_constant (v : Value) : Prop := exists c, v = VConst c.


(** ** IrModifier::getStackVariable *)

(** Modelled from the spec: [Config::getLlvmStackVariable], the slot
    registered under (function, offset), if any. *)
Definition getLlvmStackVariable (cfg : Config) (fnc : nat) (offset : Z)
    : option Value :=
  so_alloca <$>
    List.find (fun so => bool_decide (so_function so = fnc)
                         && bool_decide (so_offset so = offset))
      (cfg_stack cfg).

(** Modelled from the spec: [Config::getConfigStackVariable], the entry
    keyed by the IR handle. *)
Definition getConfigStackVariable (cfg : Config) (alloca : Value)
    : option StackObject :=
  List.find (fun so => bool_decide (so_alloca so = alloca)) (cfg_stack cfg).

(** Modelled from the spec: [Config::insertStackVariable] registers the
    alloca under (function, offset). *)
Definition insertStackVariable (fnc : nat) (alloca : Inst) (offset : Z)
    : M StackObject :=
  let so := mkStackObject fnc offset (valueOf alloca) (iname alloca) in
  modify_config (fun cfg =>
    mkConfig (cfg_globals cfg) (so :: cfg_stack cfg) (cfg_functions cfg)
      (cfg_crypto cfg) (cfg_isArmOrThumb cfg) (cfg_isPic32 cfg)) ;;;
  ret so.

Definition lookup_function (m : Module) (fnc : nat) : option Function :=
  List.find (fun f => bool_decide (fid f = fnc)) (functions m).

(** [inst_begin(fnc)]: the first instruction of the function. *)
Definition inst_begin (f : Function) : option Inst := head (function_insts f).

Definition getStackVariable (fnc : nat) (offset : Z) (type : Ty)
    (name : string) : M (Value * StackObject) :=
  st <- get ;;
  let type :=
    if negb (isValidElementType type) then getDefaultType (st_module st)
    else type in
  let n := (if bool_decide (name = "") then "stack_var" else name)
             +:+ "_" +:+ pretty offset in
  match getLlvmStackVariable (st_config st) fnc offset with
  | Some ret_ =>
    csv <- nonnull (getConfigStackVariable (st_config st) ret_) ;;
    ret (ret_, csv)
  | None =>
    alloca <- newInst n (KAlloca type) (TPtr type) ;;
    f <- nonnull (lookup_function (st_module st) fnc) ;;
    it <- nonnull (inst_begin f) ;;
    insertBefore alloca (iid it) ;;;
    csv <- insertStackVariable fnc alloca offset ;;
    ret (valueOf alloca, csv)
  end.

(** ** IrModifier::localize *)

(** [User::replaceUsesOfWith]: every operand that is [from] becomes [to]. *)
Definition replace_value (from to v : Value) : Value :=
  if decide (v = from) then to else v.

Definition replaceUsesOfWith (from to : Value) (k : InstKind) : InstKind :=
  let r := replace_value from to in
  match k with
  | KAlloca t => KAlloca t
  | KLoad p => KLoad (r p)
  | KStore v p => KStore (r v) (r p)
  | KCast op x => KCast op (r x)
  | KExtractValue agg idx => KExtractValue (r agg) idx
  | KInsertValue agg elt idx => KInsertValue (r agg) (r elt) idx
  | KOther opcode ops sig => KOther opcode (map r ops) sig
  end.

Definition map_inst (f : InstKind -> InstKind) (i : Inst) : Inst :=
  mkInst (iid i) (iname i) (f (ikind i)) (ity i).

(** [u->replaceUsesOfWith(from, to)] on the instruction [u]; an
    instruction that is in no block any more was freed. *)
Definition instReplaceUsesOfWith (u : nat) (from to : Value) : M unit :=
  st <- get ;;
  if has_inst (st_module st) u then
    modify_module (map_blocks (map (fun i =>
      if bool_decide (iid i = u) then map_inst (replaceUsesOfWith from to) i
      else i)))
  else abort.

Fixpoint forM_ {A} (l : list A) (f : A -> M unit) : M unit :=
  match l with
  | [] => ret tt
  | x :: r => f x ;;; forM_ r f
  end.

(** [definition->getFunction()]. *)
Definition function_of_inst (m : Module) (id : nat) : option Function :=
  List.find (fun f => bool_decide (id ∈ map iid (function_insts f)))
    (functions m).

(** [f->getEntryBlock().front()]. *)
Definition entry_front (f : Function) : option Inst :=
  match fblocks f with
  | (i :: _) :: _ => Some i
  | _ => None
  end.

Definition getPointerElementType (t : Ty) : option Ty :=
  match t with TPtr e => Some e | _ => None end.

Definition localize (definition : nat) (uses : list nat) : M bool :=
  st <- get ;;
  d <- nonnull (lookup_inst (st_module st) definition) ;;
  match ikind d with
  | KStore val ptr =>
    f <- nonnull (function_of_inst (st_module st) definition) ;;
    et <- nonnull (getPointerElementType (typeOf ptr)) ;;
    local <- newInst "" (KAlloca et) (TPtr et) ;;
    front <- nonnull (entry_front f) ;;
    insertBefore local (iid front) ;;;
    store <- newInst "" (KStore val (valueOf local)) TVoid ;;
    insertBefore store definition ;;;
    eraseFromParent definition ;;;
    forM_ uses (fun u => instReplaceUsesOfWith u ptr (valueOf local)) ;;;
    ret true
  | _ => abort
  end.

(** ** Global variables *)

(** Modelled from the spec: [retdec::utils::appendHex] (missing), "name is
    salted with hex(addr)". *)
Definition appendHex (name : string) (a : Z) : string :=
  name +:+ "_" +:+ NilZero.string_of_uint (N.to_hex_uint (Z.to_N a)).

(** Modelled from the spec: [Config::getLlvmGlobalVariable(name, addr)]
    (missing).  The ConfigStore is keyed by IR handle and by binary
    address; a global exists under (name, address) when the store mirrors
    an IR global under that name or at that address. *)
Definition getLlvmGlobalVariable (cfg : Config) (name : string) (addr : Z)
    : option nat :=
  match List.find (fun o => bool_decide (co_name o = name)
                            && bool_decide (co_handle o <> None))
          (cfg_globals cfg) with
  | Some o => co_handle o
  | None =>
    match List.find (fun o => bool_decide (co_addr o = addr)
                              && bool_decide (co_handle o <> None))
            (cfg_globals cfg) with
    | Some o => co_handle o
    | None => None
    end
  end.

(** Modelled from the spec: [Config::getConfigGlobalVariable(addr)]
    (missing), the entry kept for the address. *)
Definition getConfigGlobalVariable (cfg : Config) (addr : Z)
    : option ConfigObject :=
  List.find (fun o => bool_decide (co_addr o = addr)) (cfg_globals cfg).

(** Modelled from the spec: the entry kept for an IR handle (missing:
    [Config::getConfigGlobalVariable(gv)]). *)
Definition getConfigGlobalVariableOf (cfg : Config) (gv : nat)
    : option ConfigObject :=
  List.find (fun o => bool_decide (co_handle o = Some gv)) (cfg_globals cfg).

(** Modelled from the spec: [Config::getGlobalAddress(gv)] (missing). *)
Definition getGlobalAddress (cfg : Config) (gv : nat) : Address :=
  co_addr <$> getConfigGlobalVariableOf cfg gv.

Definition set_cfg_globals (l : list ConfigObject) (cfg : Config) : Config :=
  mkConfig l (cfg_stack cfg) (cfg_functions cfg) (cfg_crypto cfg)
    (cfg_isArmOrThumb cfg) (cfg_isPic32 cfg).

(** Modelled from the spec: [Config::insertGlobalVariable] (missing)
    registers the global under its address, in the place of an entry the
    address already had. *)
Definition insertGlobalVariable (gv : nat) (addr : Z) (isFromDebug : bool)
    (realName cryptoDesc : string) : M ConfigObject :=
  st <- get ;;
  gl <- nonnull (globals (st_module st) !! gv) ;;
  let o := mkConfigObject (Some gv) (gname gl) addr (Some (gvalty gl))
             isFromDebug realName cryptoDesc false in
  modify_config (fun cfg =>
    set_cfg_globals
      (o :: filter (fun o' => co_addr o' <> addr) (cfg_globals cfg)) cfg) ;;;
  ret o.

Definition set_globals (gs : gmap nat Global) (m : Module) : Module :=
  mkModule (next_id m) (functions m) gs (word_bits m).

(** [new GlobalVariable(module, type, isConstant, linkage, init, name)]:
    a fresh global inserted into the module.  The pointer type to the
    value type must exist.  The global is given the name that is asked
    for: the suffix the symbol table of the module appends to a name that
    is already taken is not part of the model, and no statement below
    depends on the name of a global that was created under a name in
    use. *)
Definition newGlobalVariable (t : Ty) (isConstant : bool) (l : Linkage)
    (init : option Constant) (name : string) : M nat :=
  if negb (isValidElementType t) then abort
  else fun st =>
    let m := st_module st in
    Ret (next_id m)
      (mkState
         (mkModule (S (next_id m)) (functions m)
            (<[next_id m := mkGlobal name t isConstant l init]> (globals m))
            (word_bits m))
         (st_config st)).

(** The global [g] occurs in the constant [c], at any depth. *)
Fixpoint mentions (g : nat) (c : Constant) : bool :=
  match c with
  | CGlobal g' _ => bool_decide (g' = g)
  | CCast _ x _ => mentions g x
  | CExtractValue agg _ _ => mentions g agg
  | CInsertValue agg elt _ => mentions g agg || mentions g elt
  | CAggregate _ elems => existsb (mentions g) elems
  | _ => false
  end.

(** The uses of the global [g] that are left in the module: the
    initializers and the operands it occurs in. *)
Definition global_used (m : Module) (g : nat) : bool :=
  existsb (fun p => from_option (mentions g) false (ginit p.2))
    (map_to_list (globals m))
  || existsb (fun i =>
       existsb (fun v => match v with
                         | VConst c => mentions g c
                         | _ => false
                         end) (operands (ikind i)))
       (all_insts m).

(** [gv->eraseFromParent()]: the global is removed from the module and
    destroyed; destroying a value that still has uses fails an assertion
    of the IR library. *)
Definition eraseGlobal (g : nat) : M unit :=
  st <- get ;;
  if global_used (st_module st) g then abort
  else modify_module (fun m => set_globals (delete g (globals m)) m).

Definition dyn_cast_GlobalVariable (c : Constant) : option nat :=
  match c with CGlobal g _ => Some g | _ => None end.

(** The value of the global [g] of the module, a null pointer when the
    module has no such global. *)
Definition global_constant (m : Module) (g : nat) : option Constant :=
  globalValue g <$> globals m !! g.

(** Replacing a constant inside the constants that use it. *)
Fixpoint subst_const (old new c : Constant) : Constant :=
  if decide (c = old) then new
  else
    match c with
    | CCast op x t => CCast op (subst_const old new x) t
    | CExtractValue agg idx t => CExtractValue (subst_const old new agg) idx t
    | CInsertValue agg elt idx =>
      CInsertValue (subst_const old new agg) (subst_const old new elt) idx
    | CAggregate t elems => CAggregate t (map (subst_const old new) elems)
    | _ => c
    end.

Definition subst_value (old new v : Value) : Value :=
  if decide (v = old) then new
  else
    match v, old, new with
    | VConst c, VConst o, VConst n => VConst (subst_const o n c)
    | _, _, _ => v
    end.

Definition map_operands (r : Value -> Value) (k : InstKind) : InstKind :=
  match k with
  | KAlloca t => KAlloca t
  | KLoad p => KLoad (r p)
  | KStore v p => KStore (r v) (r p)
  | KCast op x => KCast op (r x)
  | KExtractValue agg idx => KExtractValue (r agg) idx
  | KInsertValue agg elt idx => KInsertValue (r agg) (r elt) idx
  | KOther opcode ops sig => KOther opcode (map r ops) sig
  end.

Definition subst_init (old new : Value) (gl : Global) : Global :=
  match old, new with
  | VConst o, VConst n =>
    mkGlobal (gname gl) (gvalty gl) (gconstant gl) (glinkage gl)
      (subst_const o n <$> ginit gl)
  | _, _ => gl
  end.

(** [old->replaceAllUsesWith(new)]: every operand and every initializer
    that uses [old], directly or inside a constant, uses [new] instead. *)
Definition replaceAllUsesWith (old new : Value) : M unit :=
  modify_module (fun m =>
    set_globals (subst_init old new <$> globals m)
      (map_blocks (map (map_inst (map_operands (subst_value old new)))) m)).

(** [retdec::utils::Address] holds an unsigned 64-bit integer: a sum or a
    difference of addresses wraps around. *)
Definition wrap64 (z : Z) : Z := z mod 2 ^ 64.

Definition wordHasData (img : FileImage) (a : Z) : bool :=
  match img_getWord img a with
  | Some val => img_hasDataOnAddress img val
  | None => false
  end.

Definition globalVariableCanBeCreated (cfg : Config)
    (objf : option FileImage) (addr : Address) (strict : bool) : bool :=
  match objf, addr with
  | Some img, Some a =>
    if negb (img_hasDataOnAddress img a) then false
    else
      let fnc := cfg_functions cfg !! a in
      if (bool_decide (fnc <> None) || img_isCode img a)
         && negb (img_niceStringAt img a)
      then
        if wordHasData img a then true
        else if wordHasData img (wrap64 (a + img_bytesPerWord img)) then true
        else if wordHasData img (wrap64 (a - img_bytesPerWord img)) then true
        else if (cfg_isArmOrThumb cfg || cfg_isPic32 cfg) && negb strict
        then true
        else false
      else true
  | _, _ => false
  end.

(** The loop of [detectGlobalVariableInitializerCycle]: follow the
    initializers that are themselves global variables until the chain
    ends ([Some false]) or reaches [gv] ([Some true]). *)
Fixpoint initializerChainReaches (fuel : nat) (m : Module) (gv : nat)
    (cgv : option nat) : option bool :=
  match fuel with
  | O => None
  | S fuel =>
    match cgv with
    | None => Some false
    | Some g =>
      if decide (g = gv) then Some true
      else
        match globals m !! g with
        | Some gl =>
          match ginit gl with
          | Some i =>
            initializerChainReaches fuel m gv (dyn_cast_GlobalVariable i)
          | None => Some false
          end
        | None => Some false
        end
    end
  end.

Definition detectGlobalVariableInitializerCycle (fuel : nat)
    (gv : option nat) (c : option Constant) (objf : option FileImage)
    (addr : Address) : M (option Constant) :=
  st <- get ;;
  let m := st_module st in
  match gv, c, objf, addr with
  | Some gv, Some c, Some img, Some a =>
    if decide (dyn_cast_GlobalVariable c = Some gv) then
      ret (img_getConstant img (getDefaultType m) a false)
    else
      match initializerChainReaches fuel m gv (dyn_cast_GlobalVariable c) with
      | None => out_of_fuel
      | Some true => ret (img_getConstant img (getDefaultType m) a false)
      | Some false => ret (Some c)
      end
  | _, _, _, _ => ret None
  end.

(** The local variables of [getGlobalVariable] that describe the global
    to build. *)
Record GlobalDecl := mkGlobalDecl {
  gd_type : Ty;
  gd_init : option Constant;
  gd_name : string;
  gd_realName : string;
  gd_isFromDebug : bool;
  gd_cryptoDesc : string
}.

(** Lines 520-565 of the source: the type, the initializer and the names
    of the global to build, the default overridden by the debug
    information, then by the entry the ConfigStore has for the address,
    then by a crypto pattern. *)
Definition globalDecl (st : State) (img : FileImage)
    (dbgf : option DebugFormat) (a : Z) (name : string) : GlobalDecl :=
  let d := mkGlobalDecl (getDefaultType (st_module st)) None name "" false "" in
  let d :=
    match dbgf ≫= (fun dbg => dbg a) with
    | Some dgv =>
      let t := default (gd_type d) (dv_type dgv) in
      mkGlobalDecl t (img_getConstant img t a false) (dv_name dgv)
        (dv_name dgv) true (gd_cryptoDesc d)
    | None => d
    end in
  let d :=
    match getConfigGlobalVariable (st_config st) a with
    | Some cgv =>
      let t := default (gd_type d) (co_type cgv) in
      mkGlobalDecl t (img_getConstant img t a false) (co_name cgv)
        (co_name cgv) true (gd_cryptoDesc d)
    | None => d
    end in
  match cfg_crypto (st_config st) !! a with
  | Some cp =>
    if negb (gd_isFromDebug d) then
      mkGlobalDecl (cp_type cp)
        (img_getConstant img (cp_type cp) a false) (cp_name cp)
        (cp_name cp) true (cp_desc cp)
    else
      mkGlobalDecl (gd_type d) (gd_init d) (gd_name d) (gd_realName d)
        (gd_isFromDebug d) (cp_desc cp)
  | None => d
  end.

Definition getGlobalVariable (fuel : nat) (objf : option FileImage)
    (dbgf : option DebugFormat) (addr : Address) (strict : bool)
    (name : string) : M (option nat) :=
  st <- get ;;
  if negb (globalVariableCanBeCreated (st_config st) objf addr strict)
  then ret None
  else
    img <- nonnull objf ;;
    a <- nonnull addr ;;
    let name := appendHex name a in
    match getLlvmGlobalVariable (st_config st) name a with
    | Some gv => ret (Some gv)
    | None =>
      let isConstant := img_hasReadOnlyDataOnAddress img a in
      let d := globalDecl st img dbgf a name in
      gv <- newGlobalVariable (gd_type d) isConstant ExternalLinkage
              (gd_init d) (gd_name d) ;;
      match gd_init d with
      | None =>
        st1 <- get ;;
        let c := img_getConstantAt img st1 a in
        c <- detectGlobalVariableInitializerCycle fuel (Some gv) c objf addr ;;
        match c with
        | None =>
          insertGlobalVariable gv a (gd_isFromDebug d) (gd_realName d)
            (gd_cryptoDesc d) ;;;
          ret None
        | Some c =>
          ngv <- newGlobalVariable (typeOfC c) isConstant ExternalLinkage
                   (Some c) (gd_name d) ;;
          let ngvC := CGlobal ngv (TPtr (typeOfC c)) in
          let gvC := CGlobal gv (TPtr (gd_type d)) in
          conv <- convertConstantToType fuel (Some ngvC)
                    (Some (TPtr (gd_type d))) ;;
          (if decide (conv <> Some ngvC) then
             conv <- nonnull conv ;;
             replaceAllUsesWith (VConst gvC) (VConst conv)
           else ret tt) ;;;
          eraseGlobal gv ;;;
          insertGlobalVariable ngv a (gd_isFromDebug d) (gd_realName d)
            (gd_cryptoDesc d) ;;;
          ret (Some ngv)
        end
      | Some _ =>
        insertGlobalVariable gv a (gd_isFromDebug d) (gd_realName d)
          (gd_cryptoDesc d) ;;;
        ret (Some gv)
      end
    end.

(** ** References between global initializers *)



(** Every global that occurs in the constant was created before the
    counter reached [n]. *)
Definition closed_const (n : nat) (c : Constant) : Prop :=
  forall g, mentions g c = true -> (g < n)%nat.

Definition closed_globals (n : nat) (m : Module) : Prop :=
  forall g gl i, globals m !! g = Some gl -> ginit gl = Some i ->
    closed_const n i.

(** ** Changing the type of an object *)

(** A user of a value: an instruction, a global variable (through its
    initializer) or another constant. *)
Inductive User :=
  | UInst (id : nat)
  | UGlobal (g : nat)
  | UConst (c : Constant).

Definition const_operands (c : Constant) : list Constant :=
  match c with
  | CCast _ x _ => [x]
  | CExtractValue agg _ _ => [agg]
  | CInsertValue agg elt _ => [agg; elt]
  | CAggregate _ elems => elems
  | _ => []
  end.

(** The constants inside [c], [c] included, that have [val] as an
    operand. *)
Fixpoint const_users (val c : Constant) : list Constant :=
  (if bool_decide (val ∈ const_operands c) then [c] else [])
  ++ match c with
     | CCast _ x _ => const_users val x
     | CExtractValue agg _ _ => const_users val agg
     | CInsertValue agg elt _ => const_users val agg ++ const_users val elt
     | CAggregate _ elems => flat_map (const_users val) elems
     | _ => []
     end.

Definition operand_const_users (val : Constant) (v : Value) : list User :=
  match v with
  | VConst c => UConst <$> const_users val c
  | _ => []
  end.

(** [val->users()], copied into a list: the instructions that have [val]
    as an operand, and for a constant also the globals initialized with it
    and the constants built from it.  The use list of the IR library is
    ordered by the time a use was made, which the module does not record;
    the list here follows the layout of the module, and the invariants of
    the loop over it speak of membership and multiplicity only, never of
    the position of a user in the list: they hold at the end of the loop
    for every arrangement of the list ([changeUsers_in_any_order]). *)
Definition users_of (m : Module) (val : Value) : list User :=
  flat_map (fun i =>
    flat_map (fun v => if decide (v = val) then [UInst (iid i)] else [])
      (operands (ikind i))) (all_insts m)
  ++ match val with
     | VConst c =>
       flat_map (fun '(g, gl) =>
         match ginit gl with
         | Some i =>
           (if decide (i = c) then [UGlobal g] else [])
           ++ (UConst <$> const_users c i)
         | None => []
         end) (map_to_list (globals m))
       ++ flat_map (fun i =>
            flat_map (operand_const_users c) (operands (ikind i)))
            (all_insts m)
     | _ => []
     end.

Definition set_inst_kind (id : nat) (k : InstKind) : M unit :=
  modify_module (map_blocks (map (fun i =>
    if bool_decide (iid i = id) then mkInst (iid i) (iname i) k (ity i)
    else i))).

Definition set_inst_name (id : nat) (name : string) : M unit :=
  modify_module (map_blocks (map (fun i =>
    if bool_decide (iid i = id) then mkInst (iid i) name (ikind i) (ity i)
    else i))).

Definition set_global (g : nat) (gl : Global) : M unit :=
  modify_module (fun m => set_globals (<[g := gl]> (globals m)) m).

(** Modelled from the spec: [modifyFunctionArgumentType] (missing),
    "rebuild the function signature with the argument at the same
    position retyped"; the argument of the new signature is returned. *)
Definition modifyFunctionArgumentType (f idx : nat) (toType : Ty) : M Value :=
  st <- get ;;
  fn <- nonnull (lookup_function (st_module st) f) ;;
  if bool_decide (idx < length (fparams fn))%nat then
    modify_module (fun m =>
      mkModule (next_id m)
        (map (fun g =>
                if bool_decide (fid g = f)
                then mkFunction (fid g) (fname g) (<[idx := toType]> (fparams g))
                       (fblocks g)
                else g) (functions m))
        (globals m) (word_bits m)) ;;;
    ret (VArg f idx toType)
  else abort.

Definition changeObjectDeclarationType (objf : option FileImage)
    (val : Value) (toType : Ty) (init : option Constant) (wideString : bool)
    : M Value :=
  if decide (typeOf val = toType) then ret val
  else
    st <- get ;;
    match val with
    | VInst id _ =>
      alloca <- nonnull (lookup_inst (st_module st) id) ;;
      match ikind alloca with
      | KAlloca _ =>
        if negb (isValidElementType toType) then abort
        else
          r <- newInst (iname alloca) (KAlloca toType) (TPtr toType) ;;
          insertBefore r id ;;;
          set_inst_name id "" ;;;
          ret (valueOf r)
      | _ => abort
      end
    | VConst (CGlobal ogv _) =>
      old <- nonnull (globals (st_module st) !! ogv) ;;
      init <-
        match init with
        | Some c => ret (Some c)
        | None =>
          img <- nonnull objf ;;
          ret (getGlobalAddress (st_config st) ogv
                 ≫= fun a => img_getConstant img toType a wideString)
        end ;;
      let valty := from_option typeOfC toType init in
      new <- newGlobalVariable valty (gconstant old) (glinkage old) init
               (gname old) ;;
      set_global ogv (mkGlobal "" (gvalty old) (gconstant old) (glinkage old)
                        (ginit old)) ;;;
      match List.find (fun o => bool_decide (co_name o = gname old))
              (cfg_globals (st_config st)) with
      | Some ecgv =>
        let cgv := mkConfigObject (Some new) (co_name ecgv) (co_addr ecgv)
                     (Some valty) false "" "" wideString in
        modify_config (fun cfg =>
          set_cfg_globals
            (cgv :: filter (fun o => co_name o <> co_name ecgv)
                      (cfg_globals cfg)) cfg)
      | None => ret tt
      end ;;;
      ret (VConst (CGlobal new (TPtr valty)))
    | VArg f idx _ => modifyFunctionArgumentType f idx toType
    | _ => abort
    end.

(** [isa<AllocaInst>(val) || isa<GlobalVariable>(val) || isa<Argument>(val)]. *)
Definition isChangeableObject (m : Module) (val : Value) : bool :=
  match val with
  | VInst id _ =>
    match lookup_inst m id with
    | Some i => match ikind i with KAlloca _ => true | _ => false end
    | None => false
    end
  | VConst (CGlobal _ _) => true
  | VArg _ _ _ => true
  | _ => false
  end.

(** An obsolete instruction goes to the caller's container when one is
    given, and is erased otherwise. *)
Definition eraseOrDefer (id : nat) (instToErase : option (list nat))
    : M (option (list nat)) :=
  match instToErase with
  | Some l => ret (Some (id :: l))
  | None => eraseFromParent id ;;; ret None
  end.

(** The body of the loop of [changeObjectType] over the copied users. *)
Definition changeUser (fuel : nat) (val nval : Value) (origType : Ty)
    (user : User) (instToErase : option (list nat))
    : M (option (list nat)) :=
  let newConst := dyn_cast_Constant nval in
  st <- get ;;
  match user with
  | UInst id =>
    i <- nonnull (lookup_inst (st_module st) id) ;;
    match ikind i with
    | KStore src dst =>
      if decide (val = dst) then
        elt <- nonnull (getPointerElementType (typeOf nval)) ;;
        conv <- convertValueToType fuel (Some src) (Some elt) (Some id) ;;
        conv <- nonnull conv ;;
        set_inst_kind id (KStore conv nval) ;;;
        ret instToErase
      else
        conv <- convertValueToType fuel (Some nval) (Some origType) (Some id) ;;
        conv <- nonnull conv ;;
        set_inst_kind id (KStore conv dst) ;;;
        ret instToErase
    | KLoad p =>
      if negb (bool_decide (val = p)) then abort
      else
        lt <- nonnull (getPointerElementType (typeOf nval)) ;;
        newLoad <- newInst "" (KLoad nval) lt ;;
        insertBefore newLoad id ;;;
        conv <- convertValueToType fuel (Some (valueOf newLoad))
                  (Some (ity i)) (Some id) ;;
        conv <- nonnull conv ;;
        if decide (conv <> valueOf i) then
          replaceAllUsesWith (valueOf i) conv ;;;
          eraseOrDefer id instToErase
        else ret instToErase
    | KCast _ _ =>
      if decide (typeOf nval = ity i) then
        if decide (val <> valueOf i) then
          replaceAllUsesWith (valueOf i) nval ;;;
          eraseOrDefer id instToErase
        else ret instToErase
      else
        conv <- convertValueToType fuel (Some nval) (Some (ity i)) (Some id) ;;
        conv <- nonnull conv ;;
        if decide (valueOf i <> conv) then
          replaceAllUsesWith (valueOf i) conv ;;;
          eraseOrDefer id instToErase
        else ret instToErase
    | _ =>
      conv <- convertValueToType fuel (Some nval) (Some origType) (Some id) ;;
      conv <- nonnull conv ;;
      (if decide (val <> conv) then instReplaceUsesOfWith id val conv
       else ret tt) ;;;
      ret instToErase
    end
  | UGlobal g =>
    match newConst with
    | Some nc =>
      gvDeclr <- nonnull (globals (st_module st) !! g) ;;
      conv <- convertConstantToType fuel (Some nc) (Some (gvalty gvDeclr)) ;;
      conv <- nonnull conv ;;
      (if decide (dyn_cast_GlobalVariable conv <> Some g) then
         set_global g
           (mkGlobal (gname gvDeclr) (gvalty gvDeclr) (gconstant gvDeclr)
              (glinkage gvDeclr)
              ((fun i => if decide (VConst i = val) then conv else i)
                 <$> ginit gvDeclr))
       else ret tt) ;;;
      ret instToErase
    | None => abort
    end
  | UConst c =>
    match newConst with
    | Some nc =>
      conv <- convertConstantToType fuel (Some nc) (Some (typeOfC c)) ;;
      conv <- nonnull conv ;;
      (if decide (c <> conv) then replaceAllUsesWith (VConst c) (VConst conv)
       else ret tt) ;;;
      ret instToErase
    | None => abort
    end
  end.

Fixpoint changeUsers (fuel : nat) (val nval : Value) (origType : Ty)
    (users : list User) (instToErase : option (list nat))
    : M (option (list nat)) :=
  match users with
  | [] => ret instToErase
  | user :: rest =>
    e <- changeUser fuel val nval origType user instToErase ;;
    changeUsers fuel val nval origType rest e
  end.

Definition changeObjectType (fuel : nat) (objf : option FileImage)
    (val : Value) (toType : Ty) (init : option Constant)
    (instToErase : option (list nat)) (dbg wideString : bool)
    : M (Value * option (list nat)) :=
  st <- get ;;
  if negb (isChangeableObject (st_module st) val) then abort
  else if decide (typeOf val = toType) then ret (val, instToErase)
  else
    let origType := typeOf val in
    nval <- changeObjectDeclarationType objf val toType init wideString ;;
    st1 <- get ;;
    let users := users_of (st_module st1) val in
    e <- changeUsers fuel val nval origType users instToErase ;;
    ret (nval, e).

(** ** Typing of instructions and initializers *)

(** [CastInst::castIsValid] for the casts of the model. *)
Definition cast_valid (op : CastOp) (s t : Ty) : bool :=
  match op with
  | BitCast =>
    (isPointerTy s && isPointerTy t)
    || ((isIntegerTy s || isFloatingPointTy s)
        && (isIntegerTy t || isFloatingPointTy t)
        && bool_decide (getPrimitiveSizeInBits s = getPrimitiveSizeInBits t))
  | PtrToInt => isPointerTy s && isIntegerTy t
  | IntToPtr => isIntegerTy s && isPointerTy t
  | IntegerCast _ => isIntegerTy s && isIntegerTy t
  | FPCast => isFloatingPointTy s && isFloatingPointTy t
  | IntToFP _ => isIntegerTy s && isFloatingPointTy t
  | FPToInt _ => isFloatingPointTy s && isIntegerTy t
  end.

Definition field_type (t : Ty) (idx : nat) : option Ty :=
  match t with
  | TStruct fs _ => fs !! idx
  | TArray e n => if Z.of_nat idx <? n then Some e else None
  | _ => None
  end.

(** An instruction type-checks: each operand has the type the kind of the
    instruction requires. *)
Definition wt_inst (i : Inst) : Prop :=
  match ikind i with
  | KAlloca t => ity i = TPtr t
  | KLoad p => typeOf p = TPtr (ity i)
  | KStore v p => typeOf p = TPtr (typeOf v)
  | KCast op x => cast_valid op (typeOf x) (ity i) = true
  | KExtractValue agg idx => field_type (typeOf agg) idx = Some (ity i)
  | KInsertValue agg elt idx =>
    typeOf agg = ity i /\ field_type (ity i) idx = Some (typeOf elt)
  | KOther _ ops sig => map typeOf ops = sig
  end.

(** A global type-checks: its initializer has its value type. *)
Definition wt_global (gl : Global) : Prop :=
  forall c, ginit gl = Some c -> typeOfC c = gvalty gl.

(** The instructions that existed when the counter was [n0] type-check,
    and so do the initializers of the globals. *)
Record typed_upto (n0 : nat) (m : Module) : Prop := mk_typed_upto {
  tu_next : (n0 <= next_id m)%nat;
  tu_insts : forall i, i ∈ all_insts m -> (iid i < n0)%nat -> wt_inst i;
  tu_globals : forall g gl, globals m !! g = Some gl -> wt_global gl
}.

(** What an operation that only inserts fresh instructions does to the
    state. *)
Record frame (n0 : nat) (st st' : State) : Prop := mk_frame {
  fr_next : (next_id (st_module st) <= next_id (st_module st'))%nat;
  fr_globals : globals (st_module st') = globals (st_module st);
  fr_config : st_config st' = st_config st;
  fr_insts : forall i, i ∈ all_insts (st_module st') ->
    i ∈ all_insts (st_module st) \/ (n0 <= iid i)%nat
}.

Definition framed {A} (n0 : nat) (c : M A) : Prop :=
  forall st a st',
    (n0 <= next_id (st_module st))%nat -> c st = Ret a st' -> frame n0 st st'.

Global Instance User_eq_dec : EqDecision User.
Proof. solve_decision. Defined.

(** The kind of an instruction without its operands. *)
Definition shape (k : InstKind) : nat :=
  match k with
  | KAlloca _ => 0
  | KLoad _ => 1
  | KStore _ _ => 2
  | KCast _ _ => 3
  | KExtractValue _ _ => 4
  | KInsertValue _ _ _ => 5
  | KOther _ _ _ => 6
  end%nat.

(** The invariant of the loop of [changeObjectType].  [st0] is the state
    in which the users were copied and [n0] its counter; [rest] are the
    users still to visit. *)
Record loop_inv (st0 : State) (val : Value) (s : State) (rest : list User)
    : Prop := mk_loop_inv {
  li_typed : typed_upto (next_id (st_module st0)) (st_module s);
  li_shape : forall i, i ∈ all_insts (st_module s) ->
    (iid i < next_id (st_module st0))%nat ->
    exists i0, i0 ∈ all_insts (st_module st0) /\ iid i0 = iid i /\
      shape (ikind i0) = shape (ikind i);
  li_pending : forall i src dst, i ∈ all_insts (st_module s) ->
    (iid i < next_id (st_module st0))%nat ->
    ikind i = KStore src dst -> UInst (iid i) ∈ rest ->
    dst = val \/ typeOf src = typeOf val;
  li_once : forall i0 src dst, i0 ∈ all_insts (st_module st0) ->
    ikind i0 = KStore src dst ->
    (count_occ User_eq_dec rest (UInst (iid i0)) <= 1)%nat;
  li_ids : forall id, UInst id ∈ rest ->
    exists j, j ∈ all_insts (st_module st0) /\ iid j = id;
  li_consts : forall c, UConst c ∈ rest -> VConst c <> val
}.

(** ** Well-formedness of the instruction lists *)

(** Identities are unique and below the counter of the module, and an
    operand refers to an instruction that was already created. *)
Record wf_ids (m : Module) : Prop := mk_wf_ids {
  wf_nodup : NoDup (map iid (all_insts m));
  wf_fresh : forall i, i ∈ all_insts m -> (iid i < next_id m)%nat;
  wf_scoped : forall i id t, i ∈ all_insts m ->
    VInst id t ∈ operands (ikind i) -> (id < next_id m)%nat
}.

(** The same, as a check that computes. *)
Definition wf_ids_b (m : Module) : bool :=
  bool_decide (NoDup (map iid (all_insts m)))
  && forallb (fun i =>
       (iid i <? next_id m)%nat
       && forallb (fun v =>
            match v with
            | VInst id _ => (id <? next_id m)%nat
            | _ => true
            end) (operands (ikind i)))
     (all_insts m).

(** What [localize] leaves of a block: the alloca before the front of the
    entry block, the new store in the place of the definition, and the
    instructions of the use-set patched. *)
Definition localized_block (definition front : nat) (local store : Inst)
    (ptr : Value) (uses : list nat) (blk : list Inst) : list Inst :=
  map (fun i =>
         if bool_decide (iid i ∈ uses)
         then map_inst (replaceUsesOfWith ptr (valueOf local)) i else i)
    (map (fun i => if bool_decide (iid i = definition) then store else i)
       (ins_before front local blk)).

(** The loop of [localize] over the use-set, seen from one instruction. *)
Fixpoint patch_seq (from to : Value) (uses : list nat) (i : Inst) : Inst :=
  match uses with
  | [] => i
  | u :: r =>
    patch_seq from to r
      (if bool_decide (iid i = u) then map_inst (replaceUsesOfWith from to) i
       else i)
  end.

Definition bump_ids (n : nat) (m : Module) : Module :=
  mkModule (n + next_id m) (functions m) (globals m) (word_bits m).

(** The last part of the claim about [localize], as the specification
    words it: outside the new alloca, the new store and the use-set, no
    instruction has the pointer as an operand. *)
Definition pointer_occurs_nowhere_else (m : Module) (ptr : Value)
    (local store : nat) (uses : list nat) : Prop :=
  forall i, i ∈ all_insts m ->
    iid i <> local -> iid i <> store -> iid i ∉ uses ->
    ptr ∉ operands (ikind i).

(** ** A small program used to exercise the operations

    One function [f(float, i32* )] whose entry block stores to a
    pseudo-global and returns; one global at address 4096. *)

Definition ex_config : Config := mkConfig [] [] ∅ ∅ false false.

Definition ex_ret : Inst := mkInst 0 "" (KOther "ret" [] []) TVoid.

Definition ex_function : Function :=
  mkFunction 0 "f" [TFloat Float; TPtr (TInt 32)] [[ex_ret]].

Definition ex_module : Module := mkModule 1 [ex_function] ∅ 32.

Definition ex_state : State := mkState ex_module ex_config.

Definition ex_float_arg : Value := VArg 0 0 (TFloat Float).

(** ** The float-to-integer routes, as the specification words them

    "Pick Float of matching width if available ... FPCast to matching
    width then BitCast; if unavailable, cast to i32 then to the target
    Integer." *)

Definition bitcastThroughFloat (ft : FloatKind) (v : Value) (w : Z)
    (b a : option nat) (ce : bool) : M (option Value) :=
  if decide (typeOf v = TFloat ft) then
    castStep BitCast v (dyn_cast_Constant v) (TInt w) b a ce
  else
    r <- castStep FPCast v (dyn_cast_Constant v) (TFloat ft) b a ce ;;
    x <- nonnull r ;;
    castStep BitCast x (dyn_cast_Constant x) (TInt w) b
      (dyn_cast_Instruction x) ce.


(** A function that stores to a pseudo-global and loads it back. *)
Definition ex_reg : Value := VConst (CGlobal 0 (TPtr (TInt 32))).

Definition ex_localize_state : State :=
  mkState
    (mkModule 4
       [mkFunction 0 "g" []
          [[mkInst 1 "" (KStore (VConst (CInt 32 7)) ex_reg) TVoid;
            mkInst 2 "" (KLoad ex_reg) (TInt 32);
            mkInst 3 "" (KOther "ret" [VInst 2 (TInt 32)] [TInt 32]) TVoid]]]
       ∅ 32)
    ex_config.

(** An image with data at address 4096 from which no constant can be
    read, and one whose word at 4096 is 7. *)
Definition ex_image_unreadable : FileImage :=
  mkFileImage (fun a => bool_decide (a = 4096)) (fun _ => false)
    (fun _ => false) (fun _ => None) 4 (fun _ => false)
    (fun _ _ _ => None) (fun _ _ => None).

Definition ex_image_word : FileImage :=
  mkFileImage (fun a => bool_decide (a = 4096)) (fun _ => false)
    (fun _ => false) (fun a => if bool_decide (a = 4096) then Some 7 else None)
    4 (fun _ => false)
    (fun t a _ =>
       match t with
       | TInt w => if bool_decide (a = 4096) then Some (CInt w 7) else None
       | _ => None
       end)
    (fun _ a => if bool_decide (a = 4096) then Some (CInt 32 7) else None).

(** The last part of the claim about an unreadable initializer, as the
    specification words it: the partially built global is discarded, that
    is, the module has the globals it had before the call. *)
Definition global_discarded (st st' : State) : Prop :=
  globals (st_module st') = globals (st_module st).



(** The same, read as an integer of the word size: the constant has the
    type of the declaration. *)
Definition ex_image_expr_word : FileImage :=
  mkFileImage (fun a => bool_decide (a = 4096)) (fun _ => false)
    (fun _ => false)
    (fun a => if bool_decide (a = 4096) then Some 4096 else None)
    4 (fun _ => false)
    (fun t a _ =>
       match t with
       | TInt w => if bool_decide (a = 4096) then Some (CInt w 4096) else None
       | _ => None
       end)
    (fun s a =>
       match next_id (st_module s) with
       | S g => if bool_decide (a = 4096)
                then Some (CCast PtrToInt (CGlobal g (TPtr (TInt 32)))
                             (TInt 32))
                else None
       | O => None
       end).

(** A function with a stack slot that is stored to, loaded and cast. *)
Definition ex_slot : Value := VInst 1 (TPtr (TInt 32)).

Definition ex_slot_state : State :=
  mkState
    (mkModule 6
       [mkFunction 0 "h" []
          [[mkInst 1 "x" (KAlloca (TInt 32)) (TPtr (TInt 32));
            mkInst 2 "" (KStore (VConst (CInt 32 7)) ex_slot) TVoid;
            mkInst 3 "" (KLoad ex_slot) (TInt 32);
            mkInst 4 "" (KCast PtrToInt ex_slot) (TInt 64);
            mkInst 5 ""
              (KOther "call" [VInst 3 (TInt 32); VInst 4 (TInt 64); ex_slot]
                 [TInt 32; TInt 64; TPtr (TInt 32)]) TVoid]]]
       ∅ 32)
    ex_config.

(** * Further functions and properties of the modifier *)

(** ** Conversions that are not supported *)

(** The types the cast cases of [convertToType] tell apart. *)
Definition isScalarTy (t : Ty) : bool :=
  isPointerTy t || isIntegerTy t || isFloatingPointTy t.

(** ** The loop of the cycle detection *)

(** Every initializer that is a global variable was created before the
    global it initializes. *)
Definition initializers_descend (m : Module) : Prop :=
  forall g gl g' t,
    globals m !! g = Some gl -> ginit gl = Some (CGlobal g' t) ->
    (g' < g)%nat.

(** A set of globals that the chain of initializers never leaves. *)
Definition chain_closed (m : Module) (S : nat -> Prop) : Prop :=
  forall g, S g ->
    exists gl g' t,
      globals m !! g = Some gl /\ ginit gl = Some (CGlobal g' t) /\ S g'.

(** A module with a global that is its own initializer. *)
Definition ex_cyclic_state : State :=
  mkState
    (mkModule 2 []
       (<[0%nat := mkGlobal "a" (TPtr (TInt 32)) false ExternalLinkage
                     (Some (CGlobal 0 (TPtr (TPtr (TInt 32)))))]> ∅) 32)
    ex_config.

(** A module with a global initialized with the address of an earlier
    one. *)
Definition ex_chain_state : State :=
  mkState
    (mkModule 2 []
       (<[1%nat := mkGlobal "p" (TPtr (TInt 32)) false ExternalLinkage
                     (Some (CGlobal 0 (TPtr (TInt 32))))]>
          (<[0%nat := mkGlobal "x" (TInt 32) false ExternalLinkage
                        (Some (CInt 32 7))]> ∅)) 32)
    ex_config.

(** ** Operations that only add instructions *)

(** What an operation that only inserts new instructions does: the
    globals and the configuration stay, every instruction stays, and an
    instruction that was not there has an identity the counter had not
    given out. *)
Record only_adds (st st' : State) : Prop := mk_only_adds {
  oa_next : (next_id (st_module st) <= next_id (st_module st'))%nat;
  oa_globals : globals (st_module st') = globals (st_module st);
  oa_config : st_config st' = st_config st;
  oa_kept : forall i, i ∈ all_insts (st_module st) ->
    i ∈ all_insts (st_module st');
  oa_fresh : forall i, i ∈ all_insts (st_module st') ->
    i ∈ all_insts (st_module st) \/ (next_id (st_module st) <= iid i)%nat
}.

Definition keeping {A} (c : M A) : Prop :=
  forall st a st', c st = Ret a st' ->
    forall i, i ∈ all_insts (st_module st) -> i ∈ all_insts (st_module st').

(** ** A module that is well formed *)

(** A value refers to an instruction that was created. *)
Definition value_scoped (m : Module) (v : Value) : Prop :=
  forall id t, v = VInst id t -> (id < next_id m)%nat.

(** The number of elements of an array type is not negative. *)
Fixpoint ty_ok (t : Ty) : bool :=
  match t with
  | TArray e n => (0 <=? n) && ty_ok e
  | TStruct fs _ => forallb ty_ok fs
  | TPtr e => ty_ok e
  | TFunction r ps _ => ty_ok r && forallb ty_ok ps
  | _ => true
  end.

(** Identities are unique and scoped, and every instruction type-checks. *)
Record module_ok (m : Module) : Prop := mk_module_ok {
  ok_ids : wf_ids m;
  ok_insts : forall i, i ∈ all_insts m -> wt_inst i
}.

(** What a completed live conversion returns and leaves behind. *)
Definition converted_ok (v : Value) (t : Ty) (st : State)
    (r : option Value) (st' : State) : Prop :=
  exists v', r = Some v' /\ typeOf v' = t /\
    module_ok (st_module st') /\
    (next_id (st_module st) <= next_id (st_module st'))%nat /\
    (typeOf v = t -> v' = v /\ st' = st) /\
    (typeOf v <> t ->
     exists i, i ∈ all_insts (st_module st') /\ v' = valueOf i /\
       (next_id (st_module st) <= iid i)%nat).

(** ** IrModifier::createAlloca *)

(** [fnc->empty() || fnc->getEntryBlock().empty()] is [entry_front]
    finding nothing; the alloca is created before the front of the entry
    block. *)
Definition createAlloca (fnc : nat) (ty : Ty) (name : string)
    : M (option Value) :=
  st <- get ;;
  f <- nonnull (lookup_function (st_module st) fnc) ;;
  match entry_front f with
  | None => ret None
  | Some front =>
    if negb (isValidElementType ty) then abort
    else
      alloca <- newInst name (KAlloca ty) (TPtr ty) ;;
      insertBefore alloca (iid front) ;;;
      ret (Some (valueOf alloca))
  end.

(** A function with an entry block that is empty. *)
Definition ex_empty_entry_state : State :=
  mkState (mkModule 1 [mkFunction 0 "e" [] [[]; [ex_ret]]] ∅ 32) ex_config.

(** ** Operations that erase nothing *)

(** Every identity of the module is still the identity of an instruction. *)
Definition ids_kept (st st' : State) : Prop :=
  forall id, id ∈ map iid (all_insts (st_module st)) ->
    id ∈ map iid (all_insts (st_module st')).

Definition keeps_ids {A} (c : M A) : Prop :=
  forall st a st', c st = Ret a st' -> ids_kept st st'.

(** What an operation returns, whatever the state. *)
Definition yields {A} (c : M A) (Q : A -> Prop) : Prop :=
  forall st a st', c st = Ret a st' -> Q a.

(** ** changeObjectType keeps the module well formed *)

(** What holds between two rounds of the loop of [changeObjectType]:
    the module is well formed, the new object is in scope, and the
    instructions that existed when the users were copied have proper
    types. *)
Record change_inv (n0 : nat) (nval : Value) (s : State) : Prop :=
  mk_change_inv {
  ci_ok : module_ok (st_module s);
  ci_next : (n0 <= next_id (st_module s))%nat;
  ci_nval : value_scoped (st_module s) nval;
  ci_types : forall i, i ∈ all_insts (st_module s) -> (iid i < n0)%nat ->
    ty_ok (ity i) = true
}.

(** ** Where a conversion puts its instructions *)

(** A block with the run [news] immediately before the anchor, and
    immediately after it. *)
Fixpoint place_before (anchor : nat) (news l : list Inst) : list Inst :=
  match l with
  | [] => []
  | x :: r =>
    if bool_decide (iid x = anchor) then news ++ x :: r
    else x :: place_before anchor news r
  end.

Fixpoint place_after (anchor : nat) (news l : list Inst) : list Inst :=
  match l with
  | [] => []
  | x :: r =>
    if bool_decide (iid x = anchor) then x :: news ++ r
    else x :: place_after anchor news r
  end.

(** The anchor [insertBeforeAfter] takes: [before] when there is one,
    [after] otherwise. *)
Definition place (b a : option nat) (news l : list Inst) : list Inst :=
  match b, a with
  | Some b, _ => place_before b news l
  | None, Some a => place_after a news l
  | None, None => l
  end.

(** The state once the fresh instructions [news] stand at the anchor. *)
Definition placed (b a : option nat) (news : list Inst) (st : State) : State :=
  mkState (mkModule (next_id (st_module st) + length news)
             (functions (map_blocks (place b a news) (st_module st)))
             (globals (st_module st)) (word_bits (st_module st)))
          (st_config st).

(** A reference to a load of an aggregate carries the type the load
    yields: the pointee type of the loaded pointer. *)
Definition load_coherent (m : Module) (v : Value) : Prop :=
  isAggregateType (typeOf v) = true ->
  forall p, loadPointerOperand m v = Some p -> typeOf p = TPtr (typeOf v).

(** The run of instructions of one conversion: numbered in the order of
    their creation, each one using only what was defined before it, the
    last one being the result. *)
Record conversion_run (v : Value) (st : State) (news : list Inst)
    (r : option Value) : Prop := mk_conversion_run {
  run_ids : map iid news = seq (next_id (st_module st)) (length news);
  run_operands : forall i id ty, i ∈ news ->
    VInst id ty ∈ operands (ikind i) -> (id < iid i)%nat;
  run_result : r = Some (from_option valueOf v (last news))
}.

(** What a completed live conversion leaves behind: its run, at the
    anchor. *)
Definition laid_out (v : Value) (b a : option nat) (st : State)
    (r : option Value) (st' : State) : Prop :=
  exists news, st' = placed b a news st /\ conversion_run v st news r.

(** ** What the instructions of a conversion use *)

(** Every operand of an instruction that was created since [st] is the
    converted value, the pointer it was loaded from when it is a load of
    an aggregate, an instruction created since [st], or [undef]. *)
Definition sources_ok (v : Value) (st st' : State) : Prop :=
  forall i y, i ∈ all_insts (st_module st') ->
    (next_id (st_module st) <= iid i)%nat -> y ∈ operands (ikind i) ->
    y = v \/
    (isAggregateType (typeOf v) = true /\
     loadPointerOperand (st_module st) v = Some y) \/
    (exists id ty, y = VInst id ty /\ (next_id (st_module st) <= id)%nat) \/
    (exists t, y = VConst (CUndef t)).

(** ** The uses that are left of an object *)

(** Every instruction that has [val] as an operand is among [users]. *)
Definition uses_only (val : Value) (users : list User) (s : State) : Prop :=
  forall i, i ∈ all_insts (st_module s) -> val ∈ operands (ikind i) ->
    UInst (iid i) ∈ users.

(** ** The users of an object whose type was changed *)

(** A value that [changeObjectType] made: the new object, or the result
    of an instruction that was inserted since the counter was [n0]. *)
Definition made_by_change (n0 : nat) (nval y : Value) : Prop :=
  y = nval \/ exists id t, y = VInst id t /\ (n0 <= id)%nat.

(** The users that [changeObjectType] replaces by another value rather
    than patches: the loads and the casts. *)
Definition replaced_kind (k : InstKind) : Prop :=
  shape k = 1%nat \/ shape k = 3%nat.

(** The instruction is in the container of the instructions that are left
    for the caller to erase. *)
Definition deferred (e : option (list nat)) (id : nat) : Prop :=
  exists l, e = Some l /\ id ∈ l.


(** A further invariant of the loop of [changeObjectType] over the users
    copied in [st0].  An instruction that was there and has the old
    object as an operand is still to be visited, or it is a load or a
    cast that was left in the container.  A user that is neither a load
    nor a cast is in the module: with the old object as an operand, and
    then it is still to be visited, or with an operand made by the
    change.  A load or a cast of the old object is still to be visited,
    or it was left in the container, or it is erased.  A global variable
    whose initializer is the old object is still to be visited. *)
Record retarget_inv (st0 : State) (val nval : Value)
    (e : option (list nat)) (s : State) (rest : list User) : Prop :=
  mk_retarget_inv {
  ri_old : forall i, i ∈ all_insts (st_module s) ->
    (iid i < next_id (st_module st0))%nat -> val ∈ operands (ikind i) ->
    UInst (iid i) ∈ rest \/
    (deferred e (iid i) /\
     exists i0, i0 ∈ all_insts (st_module st0) /\ iid i0 = iid i /\
       replaced_kind (ikind i0));
  ri_users : forall i0, i0 ∈ all_insts (st_module st0) ->
    val ∈ operands (ikind i0) -> ~ replaced_kind (ikind i0) ->
    exists i, i ∈ all_insts (st_module s) /\ iid i = iid i0 /\
      ((val ∈ operands (ikind i) /\ UInst (iid i0) ∈ rest) \/
       exists y, y ∈ operands (ikind i) /\
         made_by_change (next_id (st_module st0)) nval y);
  ri_replaced : forall i0, i0 ∈ all_insts (st_module st0) ->
    val ∈ operands (ikind i0) -> replaced_kind (ikind i0) ->
    UInst (iid i0) ∈ rest \/ deferred e (iid i0) \/
    forall i, i ∈ all_insts (st_module s) -> iid i <> iid i0;
  ri_inits : forall g gl c, globals (st_module s) !! g = Some gl ->
    ginit gl = Some c -> VConst c = val -> UGlobal g ∈ rest;
  ri_consts : forall c, UConst c ∈ rest -> const_operands c <> []
}.

(** The object that [changeObjectDeclarationType] returns is an
    instruction, an argument or a global variable. *)
Definition is_object (v : Value) : Prop :=
  (exists id t, v = VInst id t) \/ (exists f idx t, v = VArg f idx t) \/
  (exists g t, v = VConst (CGlobal g t)).

(** The type that a reference to an object records is the type of the
    declaration of the object in the module: the type of the instruction,
    the type of the parameter in the signature of the function, the
    pointer to the value type of the global variable. *)
Definition declared (m : Module) (v : Value) : Prop :=
  match v with
  | VInst id t => exists i, i ∈ all_insts m /\ iid i = id /\ ity i = t
  | VArg f idx t =>
    exists fn, lookup_function m f = Some fn /\ fparams fn !! idx = Some t
  | VConst (CGlobal g t) =>
    exists gl, globals m !! g = Some gl /\ t = TPtr (gvalty gl)
  | VConst _ => True
  end.

(** The signatures of the functions and the value types of the global
    variables of [m] are those of [m']. *)
Definition decls_kept (m m' : Module) : Prop :=
  (forall f fn, lookup_function m f = Some fn ->
     exists fn', lookup_function m' f = Some fn' /\
       fparams fn' = fparams fn) /\
  (forall g gl, globals m !! g = Some gl ->
     exists gl', globals m' !! g = Some gl' /\ gvalty gl' = gvalty gl).

Definition keeps_decls {A} (c : M A) : Prop :=
  forall st a st', c st = Ret a st' ->
    decls_kept (st_module st) (st_module st').
(** * Properties of the conversion engine *)

Lemma bind_Ret {A B} (c : M A) (k : A -> M B) st r st' :
  bind c k st = Ret r st' <->
  exists a st1, c st = Ret a st1 /\ k a st1 = Ret r st'.
Proof.
  unfold bind. split.
  - destruct (c st) as [a st1| |]; try discriminate. eauto.
  - intros (a & st1 & -> & H). exact H.
Qed.

Lemma nonnull_Ret {A} (o : option A) st r st' :
  nonnull o st = Ret r st' <-> o = Some r /\ st' = st.
Proof.
  destruct o; simpl; unfold ret, abort; split; intros H.
  - inversion H; auto.
  - destruct H as [[= ->] ->]; auto.
  - discriminate.
  - destruct H; discriminate.
Qed.

Lemma newInst_Ret name k t st i st' :
  newInst name k t st = Ret i st' ->
  iid i = next_id (st_module st) /\ ikind i = k /\ ity i = t /\
  iname i = name /\ st_config st' = st_config st.
Proof. unfold newInst. intros [= <- <-]. auto. Qed.

Lemma insertBeforeAfter_Ret i b a st v st' :
  insertBeforeAfter i b a st = Ret v st' -> v = valueOf i.
Proof.
  unfold insertBeforeAfter. intros H. apply bind_Ret in H.
  destruct H as (? & ? & _ & H). inversion H; auto.
Qed.

(** Taking a monadic equation apart, one bind at a time. *)
Ltac inv_ret H :=
  match type of H with
  | bind _ _ _ = Ret _ _ =>
    let a := fresh "a" in let s := fresh "st" in
    let H1 := fresh "H" in
    apply bind_Ret in H; destruct H as (a & s & H1 & H);
    inv_ret H1; inv_ret H
  | nonnull _ _ = Ret _ _ =>
    apply nonnull_Ret in H; destruct H as [H ->]
  | ret _ _ = Ret _ _ => unfold ret in H; injection H as <- <-
  | get _ = Ret _ _ => unfold get in H; injection H as <- <-
  | abort _ = Ret _ _ => discriminate H
  | out_of_fuel _ = Ret _ _ => discriminate H
  | Abort = Ret _ _ => discriminate H
  | OutOfFuel = Ret _ _ => discriminate H
  | _ => idtac
  end.

Lemma castStep_Ret op v t b a ce st r st' :
  castStep op v (dyn_cast_Constant v) t b a ce st = Ret r st' ->
  exists v', r = Some v' /\ typeOf v' = t /\
    (ce = false -> exists id, v' = VInst id t) /\
    (ce = true -> st' = st /\ exists c, v' = VConst c).
Proof.
  unfold castStep. destruct ce; intros H; inv_ret H.
  - eexists; split; [reflexivity|]. split; [reflexivity|].
    split; [discriminate|]. eauto.
  - apply newInst_Ret in H0 as (? & ? & Ht & _).
    apply insertBeforeAfter_Ret in H1 as ->.
    eexists; split; [reflexivity|]. unfold valueOf; simpl.
    split; [exact Ht|]. split; [|discriminate].
    intros _. rewrite Ht. eauto.
Qed.

Ltac inst_facts :=
  repeat match goal with
  | H : newInst _ _ _ _ = Ret _ _ |- _ =>
    let Ht := fresh "Hity" in
    apply newInst_Ret in H as (_ & _ & Ht & _);
    try rewrite Ht in *
  | H : insertBeforeAfter _ _ _ _ = Ret _ _ |- _ =>
    apply insertBeforeAfter_Ret in H as ->
  end.

Lemma castStep_converted op v t b a ce st r st' :
  typeOf v <> t ->
  castStep op v (dyn_cast_Constant v) t b a ce st = Ret r st' ->
  converted v t ce st r st'.
Proof.
  intros Hne H. apply castStep_Ret in H as (v' & -> & Ht & Hl & Hc).
  exists v'. split; [reflexivity|]. split; [exact Ht|].
  split; [intros; contradiction|]. split; auto.
Qed.

Section ConvertStep.
Variable fuel : nat.
Hypothesis IH : forall v t b a ce st r st',
    anchored ce b a ->
    convertToType fuel (Some v) (Some t) b a ce st = Ret r st' ->
    converted v t ce st r st'.

  (** Two conversions in a row, the second anchored at the result of the
      first. *)
Lemma convert_via v t1 t b a ce st r st' :
    anchored ce b a ->
    typeOf v <> t -> typeOf v <> t1 -> t1 <> t ->
    (r1 <- convertToType fuel (Some v) (Some t1) b a ce ;;
     x <- nonnull r1 ;;
     convertToType fuel (Some x) (Some t) b (dyn_cast_Instruction x) ce) st
      = Ret r st' ->
    converted v t ce st r st'.
  Proof.
    intros Hanc Hne Hne1 Hne2 H. inv_ret H.
    apply IH in H0 as (x & -> & Hx & _ & Hlive & Hconst); [|exact Hanc].
    injection H1 as <-.
    assert (anchored ce b (dyn_cast_Instruction x)) as Hanc'.
    { destruct ce; [left; reflexivity|]. right.
      destruct (Hlive eq_refl Hne1) as (id & ->). right. discriminate. }
    apply IH in H as (v' & -> & Hv' & _ & Hlive' & Hconst'); [|exact Hanc'].
    exists v'. split; [reflexivity|]. split; [exact Hv'|].
    split; [intros; contradiction|]. split.
    - intros Hce _. apply Hlive'; [exact Hce|]. congruence.
    - intros Hce. destruct (Hconst Hce) as [-> _].
      destruct (Hconst' Hce) as [-> Hc]. auto.
  Qed.

  (** A conversion followed by one wrapping step ([BitCast] to a float,
      [InsertValue] into an undefined aggregate). *)
Lemma convert_then_wrap v t1 t b a ce st r st'
      (wrapC : Constant -> Constant) (wrapI : Value -> InstKind) :
    anchored ce b a ->
    typeOf v <> t ->
    (forall c, typeOfC (wrapC c) = t) ->
    (r1 <- convertToType fuel (Some v) (Some t1) b a ce ;;
     x <- nonnull r1 ;;
     if ce then
       c <- nonnull (dyn_cast_Constant x) ;;
       ret (Some (VConst (wrapC c)))
     else
       i <- newInst "" (wrapI x) t ;;
       a' <- (if decide (v = x) then ret a
              else id <- nonnull (dyn_cast_Instruction x) ;; ret (Some id)) ;;
       conv <- insertBeforeAfter i b a' ;;
       ret (Some conv)) st = Ret r st' ->
    converted v t ce st r st'.
  Proof.
    intros Hanc Hne HwrapC H. inv_ret H.
    apply IH in H0 as (x & -> & Hx & _ & Hlive & Hconst); [|exact Hanc].
    injection H1 as <-. destruct ce; inv_ret H.
    - destruct (Hconst eq_refl) as [-> _].
      eexists. split; [reflexivity|]. simpl. split; [apply HwrapC|].
      split; [intros; contradiction|]. split; [discriminate|]. eauto.
    - inst_facts.
      eexists. split; [reflexivity|]. unfold valueOf. simpl.
      rewrite Hity. split; [reflexivity|].
      split; [intros; contradiction|].
      split; [|discriminate]. eauto.
  Qed.
End ConvertStep.

Lemma getTypeAtIndex0_some t :
  isAggregateType t = true -> isEmptyTy t = false ->
  exists e, getTypeAtIndex0 t = Some e.
Proof.
  destruct t as [| | | | e n | [|f fs] p |]; simpl; try discriminate; eauto.
Qed.

Lemma convertToType_spec fuel :
  forall v t b a ce st r st',
    anchored ce b a ->
    convertToType fuel (Some v) (Some t) b a ce st = Ret r st' ->
    converted v t ce st r st'.
Proof.
  induction fuel as [|fuel IH]; intros v t b a ce st r st' Hanchor H.
  - discriminate.
  - simpl in H.
    destruct (negb ce && bool_decide (b = None) && bool_decide (a = None)) eqn:Enull.
    { exfalso. apply andb_prop in Enull as [E1 E3]. apply andb_prop in E1 as [E1 E2].
      apply bool_decide_eq_true in E2, E3. destruct ce; [discriminate|].
      destruct Hanchor as [?|[?|?]]; congruence. }
    destruct (ce && bool_decide (dyn_cast_Constant v = None)) eqn:Ecv; [discriminate|].
    destruct (decide (typeOf v = t)) as [Heq|Hne].
    { inv_ret H. exists v. repeat split; auto; try congruence.
      destruct ce; [|discriminate]. simpl in Ecv.
      apply bool_decide_eq_false in Ecv. destruct v; simpl in *; try congruence. eauto. }
    destruct (isPointerTy (typeOf v) && isPointerTy t) eqn:Epp;
      [eapply castStep_converted; eassumption|].
    destruct (isPointerTy (typeOf v) && isIntegerTy t) eqn:Epi;
      [eapply castStep_converted; eassumption|].
    destruct (isIntegerTy (typeOf v) && isPointerTy t) eqn:Eip;
      [eapply castStep_converted; eassumption|].
    destruct (isIntegerTy (typeOf v) && isIntegerTy t) eqn:Eii;
      [eapply castStep_converted; eassumption|].
    destruct (isIntegerTy (typeOf v) && isFloatingPointTy t) eqn:Eif.
    { eapply (convert_then_wrap fuel IH) with
        (wrapC := fun c => CCast BitCast c t)
        (wrapI := fun x => KCast BitCast x); eauto. }
    destruct (isPointerTy (typeOf v) && isFloatingPointTy t) eqn:Epf.
    { eapply (convert_via fuel IH)
        with (t1 := TInt (getPrimitiveSizeInBits t)); try eassumption;
        apply andb_prop in Epf as [Ep Ef];
        destruct (typeOf v); try discriminate Ep;
        destruct t; try discriminate Ef; discriminate. }
    destruct (isFloatingPointTy (typeOf v) && isIntegerTy t) eqn:Efi.
    { apply andb_prop in Efi as [Ef Ei].
      destruct t as [|w| | | | |]; try discriminate Ei. simpl in H.
      assert (forall ft : FloatKind,
        (if decide (typeOf v <> TFloat ft) then
           r1 <- convertToType fuel (Some v) (Some (TFloat ft)) b a ce ;;
           fpConv <- nonnull r1 ;;
           convertToType fuel (Some fpConv) (Some (TInt w)) b
             (dyn_cast_Instruction fpConv) ce
         else castStep BitCast v (dyn_cast_Constant v) (TInt w) b a ce) st
          = Ret r st' -> converted v (TInt w) ce st r st') as Hvia.
      { intros ft Hft. destruct (decide (typeOf v <> TFloat ft)).
        - eapply (convert_via fuel IH) with (t1 := TFloat ft);
            try eassumption. discriminate.
        - eapply castStep_converted; eassumption. }
      repeat (destruct (decide _) in H; [eapply Hvia; exact H|]).
      eapply (convert_via fuel IH) with (t1 := TInt 32); try eassumption.
      + destruct (typeOf v); discriminate.
      + congruence. }
    destruct (isFloatingPointTy (typeOf v) && isPointerTy t) eqn:Efp.
    { eapply (convert_via fuel IH)
        with (t1 := TInt (getPrimitiveSizeInBits (typeOf v)));
        try eassumption;
        apply andb_prop in Efp as [Ef Ep];
        destruct (typeOf v); try discriminate Ef;
        destruct t; try discriminate Ep; discriminate. }
    destruct (isFloatingPointTy (typeOf v) && isFloatingPointTy t) eqn:Eff;
      [eapply castStep_converted; eassumption|].
    inv_ret H.
    destruct (bool_decide (loadPointerOperand (st_module st) v <> None)
              && isAggregateType (typeOf v) && negb ce) eqn:Eload.
    { apply andb_prop in Eload as [_ Ece]. destruct ce; [discriminate|].
      inv_ret H. destruct (negb (isValidElementType t)); inv_ret H.
      apply IH in H1 as (c & -> & Hc & _); [|exact Hanchor].
      injection H2 as <-. rewrite Hc in H4. injection H4 as <-.
      inst_facts.
      eexists. split; [reflexivity|]. unfold valueOf. simpl.
      rewrite Hity. split; [reflexivity|].
      split; [intros; contradiction|].
      split; [|discriminate]. eauto. }
    destruct (isAggregateType (typeOf v)) eqn:Eagg.
    { inv_ret H. rename a0 into ft, a1 into x, st0 into st1.
      assert (typeOf x = ft /\ (ce = false -> exists id, x = VInst id ft) /\
              (ce = true -> st1 = st)) as (Hx & Hl0 & Hc0).
      { destruct ce; inv_ret H1.
        - split; [reflexivity|]. split; [discriminate|]. reflexivity.
        - inst_facts. unfold valueOf. simpl. rewrite Hity.
          split; [reflexivity|]. split; [|discriminate]. eauto. }
      assert (anchored ce b (dyn_cast_Instruction x)) as Hanc'.
      { destruct ce; [left; reflexivity|]. right. right.
        destruct (Hl0 eq_refl) as (id & ->). discriminate. }
      apply IH in H as (v' & -> & Hv' & Hsame & Hlive' & Hconst');
        [|exact Hanc'].
      exists v'. split; [reflexivity|]. split; [exact Hv'|].
      split; [intros; contradiction|]. split.
      - intros Hce _. destruct (Hl0 Hce) as (id0 & ->).
        destruct (decide (ft = t)) as [->|Hd].
        + destruct (Hsame Hx) as [-> _]. eauto.
        + apply Hlive'; [exact Hce|]. simpl in *. congruence.
      - intros Hce. destruct (Hconst' Hce) as [-> Hc]. rewrite (Hc0 Hce). auto. }
    destruct (isAggregateType t) eqn:Eaggt; [|discriminate].
    destruct (isEmptyTy t) eqn:Eempty; [discriminate|].
    apply bind_Ret in H as (idxt & st1 & Hidx & H).
    apply nonnull_Ret in Hidx as [Hidx ->].
    eapply (convert_then_wrap fuel IH) with
      (t1 := idxt)
      (wrapC := fun c => CInsertValue (CUndef t) c 0)
      (wrapI := fun x => KInsertValue (VConst (CUndef t)) x 0);
      [exact Hanchor|exact Hne|reflexivity|].
    exact H.
Qed.

Lemma terminates_bind {A B} (c : M A) (k : A -> M B) st :
  terminates c st ->
  (forall a st1, c st = Ret a st1 -> terminates (k a) st1) ->
  terminates (bind c k) st.
Proof.
  unfold terminates, bind. intros Hc Hk.
  destruct (c st) as [a st1| |]; [apply Hk; reflexivity|discriminate|congruence].
Qed.

Lemma terminates_nonnull {A} (o : option A) st : terminates (nonnull o) st.
Proof. destruct o; discriminate. Qed.

Lemma terminates_insertBeforeAfter i b a st :
  terminates (insertBeforeAfter i b a) st.
Proof.
  unfold terminates, insertBeforeAfter, insertBefore, insertAfter, bind, get,
    modify_module, nonnull, ret, abort.
  destruct b as [b|]; [|destruct a as [a|]]; simpl;
    try destruct (has_inst _ _); discriminate.
Qed.

Lemma terminates_castStep op v cval t b a ce st :
  terminates (castStep op v cval t b a ce) st.
Proof.
  unfold castStep. destruct ce.
  - apply terminates_bind; [apply terminates_nonnull|]. discriminate.
  - apply terminates_bind; [discriminate|]. intros i st1 _.
    apply terminates_bind; [apply terminates_insertBeforeAfter|]. discriminate.
Qed.

Lemma elem_of_all_insts m x :
  x ∈ all_insts m <->
  exists f blk, f ∈ functions m /\ blk ∈ fblocks f /\ x ∈ blk.
Proof.
  unfold all_insts, function_insts. rewrite list_elem_of_In, in_concat.
  split.
  - intros (l & Hl & Hx). apply in_map_iff in Hl as (f & <- & Hf).
    apply in_concat in Hx as (blk & Hblk & Hx).
    exists f, blk. rewrite !list_elem_of_In. auto.
  - intros (f & blk & Hf & Hblk & Hx).
    apply list_elem_of_In in Hf. apply list_elem_of_In in Hblk.
    apply list_elem_of_In in Hx.
    exists (concat (fblocks f)). split.
    + apply in_map_iff. eauto.
    + apply in_concat. eauto.
Qed.

Lemma elem_of_all_insts_map_blocks g m x :
  x ∈ all_insts (map_blocks g m) <->
  exists f blk, f ∈ functions m /\ blk ∈ fblocks f /\ x ∈ g blk.
Proof.
  rewrite elem_of_all_insts. unfold map_blocks. simpl. split.
  - intros (f' & blk' & Hf & Hblk & Hx).
    apply list_elem_of_fmap in Hf as (f & -> & Hf). simpl in Hblk.
    apply list_elem_of_fmap in Hblk as (blk & -> & Hblk). eauto.
  - intros (f & blk & Hf & Hblk & Hx).
    eexists _, (g blk). split; [|split; [|exact Hx]].
    + apply list_elem_of_fmap. exists f. split; [reflexivity|exact Hf].
    + simpl. apply list_elem_of_fmap. eauto.
Qed.

Lemma elem_of_ins_before anchor i l x :
  x ∈ ins_before anchor i l -> x = i \/ x ∈ l.
Proof.
  induction l as [|y l IH]; simpl; [auto|].
  destruct (bool_decide (iid y = anchor)).
  - rewrite elem_of_cons. tauto.
  - rewrite !elem_of_cons. intros [->|H]; [auto|]. destruct (IH H); auto.
Qed.

Lemma elem_of_ins_after anchor i l x :
  x ∈ ins_after anchor i l -> x = i \/ x ∈ l.
Proof.
  induction l as [|y l IH]; simpl; [auto|].
  destruct (bool_decide (iid y = anchor)).
  - rewrite !elem_of_cons. tauto.
  - rewrite !elem_of_cons. intros [->|H]; [auto|]. destruct (IH H); auto.
Qed.

Lemma insertBeforeAfter_insts i b a st v st' x :
  insertBeforeAfter i b a st = Ret v st' ->
  x ∈ all_insts (st_module st') ->
  x = i \/ x ∈ all_insts (st_module st).
Proof.
  unfold insertBeforeAfter, insertBefore, insertAfter, bind, get, nonnull,
    ret, abort, modify_module.
  intros H Hx.
  destruct b as [b|]; [|destruct a as [a|]; [|discriminate]]; simpl in H;
    destruct (has_inst _ _); try discriminate; injection H as <- <-;
    simpl in Hx;
    apply elem_of_all_insts_map_blocks in Hx as (f & blk & Hf & Hblk & Hx);
    [apply elem_of_ins_before in Hx | apply elem_of_ins_after in Hx];
    destruct Hx as [->|Hx]; auto; right; apply elem_of_all_insts; eauto.
Qed.

Lemma newInst_insts name k t st i st' :
  newInst name k t st = Ret i st' ->
  all_insts (st_module st') = all_insts (st_module st).
Proof. unfold newInst. intros [= <- <-]. reflexivity. Qed.

Lemma loadPointerOperand_wf m v p :
  loads_wf m -> loadPointerOperand m v = Some p ->
  isPointerTy (typeOf p) = true.
Proof.
  intros Hwf. unfold loadPointerOperand, lookup_inst.
  destruct v as [id t| |]; try discriminate.
  destruct (List.find _ _) as [i|] eqn:Hfind; [|discriminate].
  destruct (ikind i) eqn:Hk; try discriminate. intros [= ->].
  apply find_some in Hfind as [Hin _]. apply list_elem_of_In in Hin. eauto.
Qed.

Lemma agg_depth_indexed t ft :
  getIndexedType0 t = Some ft -> agg_depth t = S (agg_depth ft).
Proof.
  destruct t as [| | | | e n | [|f fs] p |]; simpl; try discriminate.
  - destruct (0 <? n); [|discriminate]. intros [= ->]. reflexivity.
  - intros [= ->]. reflexivity.
Qed.

Lemma agg_depth_at_index t ft :
  getTypeAtIndex0 t = Some ft -> agg_depth t = S (agg_depth ft).
Proof.
  destruct t as [| | | | e n | [|f fs] p |]; simpl; try discriminate;
    intros [= ->]; reflexivity.
Qed.

Lemma scalar_rank_le s t : (scalar_rank s t <= 5)%nat.
Proof.
  unfold scalar_rank. destruct (isAggregateType s || isAggregateType t); [lia|].
  destruct s, t; try lia.
  destruct (float_of_width _); [destruct (decide _)|]; lia.
Qed.

Section TerminateStep.
Variable fuel : nat.
Hypothesis IH : forall v t b a ce st,
    (isAggregateType (typeOf v) = true -> ce = false ->
     loads_wf (st_module st)) ->
    (convert_fuel (typeOf v) t <= fuel)%nat ->
    terminates (convertToType fuel (Some v) (Some t) b a ce) st.

Lemma terminates_via v t1 t b a ce st :
    anchored ce b a ->
    isAggregateType (typeOf v) = false -> isAggregateType t1 = false ->
    (convert_fuel (typeOf v) t1 <= fuel)%nat ->
    (convert_fuel t1 t <= fuel)%nat ->
    terminates
      (r1 <- convertToType fuel (Some v) (Some t1) b a ce ;;
       x <- nonnull r1 ;;
       convertToType fuel (Some x) (Some t) b (dyn_cast_Instruction x) ce) st.
  Proof.
    intros Hanc Hv Ht1 Hf1 Hf2.
    apply terminates_bind; [apply IH; [congruence|exact Hf1]|].
    intros r1 st1 Hr1.
    apply terminates_bind; [apply terminates_nonnull|].
    intros x st2 Hx. apply nonnull_Ret in Hx as [-> ->].
    apply convertToType_spec in Hr1 as (x' & [= <-] & Hty & _); [|exact Hanc].
    apply IH; rewrite Hty; [congruence|exact Hf2].
  Qed.

Lemma terminates_then_wrap {A} v t1 b a ce st (k : Value -> M A) :
    (isAggregateType (typeOf v) = true -> ce = false ->
     loads_wf (st_module st)) ->
    (convert_fuel (typeOf v) t1 <= fuel)%nat ->
    (forall x st1, terminates (k x) st1) ->
    terminates
      (r1 <- convertToType fuel (Some v) (Some t1) b a ce ;;
       x <- nonnull r1 ;; k x) st.
  Proof.
    intros Hv Hf Hk.
    apply terminates_bind; [apply IH; assumption|]. intros r1 st1 _.
    apply terminates_bind; [apply terminates_nonnull|]. intros; apply Hk.
  Qed.
End TerminateStep.

Lemma terminates_wrap t b a (ce : bool) (wrapC : Constant -> Constant)
    (wrapI : Value -> InstKind) v x st :
  terminates
    (if ce then
       c <- nonnull (dyn_cast_Constant x) ;;
       ret (Some (VConst (wrapC c)))
     else
       i <- newInst "" (wrapI x) t ;;
       a' <- (if decide (v = x) then ret a
              else id <- nonnull (dyn_cast_Instruction x) ;; ret (Some id)) ;;
       conv <- insertBeforeAfter i b a' ;;
       ret (Some conv)) st.
Proof.
  destruct ce.
  - apply terminates_bind; [apply terminates_nonnull|]. discriminate.
  - apply terminates_bind; [discriminate|]. intros i st1 _.
    apply terminates_bind.
    + destruct (decide (v = x)); [discriminate|].
      apply terminates_bind; [apply terminates_nonnull|]. discriminate.
    + intros a' st2 _.
      apply terminates_bind; [apply terminates_insertBeforeAfter|]. discriminate.
Qed.

Lemma terminates_insertAfter i a st : terminates (insertAfter i a) st.
Proof.
  unfold terminates, insertAfter, bind, get, modify_module, abort.
  destruct (has_inst _ _); discriminate.
Qed.

Lemma scalar_rank_float_int k w : (scalar_rank (TFloat k) (TInt w) <= 3)%nat.
Proof.
  unfold scalar_rank. simpl.
  destruct (float_of_width w); [destruct (decide _)|]; lia.
Qed.

Lemma scalar_rank_agg_l s t :
  isAggregateType s = true -> scalar_rank s t = 5%nat.
Proof. unfold scalar_rank. intros ->. reflexivity. Qed.

Lemma scalar_rank_agg_r s t :
  isAggregateType t = true -> scalar_rank s t = 5%nat.
Proof. unfold scalar_rank. intros ->. rewrite orb_true_r. reflexivity. Qed.

Lemma convertToType_terminates fuel :
  forall v t b a ce st,
    (isAggregateType (typeOf v) = true -> ce = false ->
     loads_wf (st_module st)) ->
    (convert_fuel (typeOf v) t <= fuel)%nat ->
    terminates (convertToType fuel (Some v) (Some t) b a ce) st.
Proof.
  induction fuel as [|fuel IH]; intros v t b a ce st Hload Hfuel.
  - exfalso. unfold convert_fuel, scalar_rank in Hfuel.
    destruct (_ || _); [lia|].
    destruct (typeOf v), t; try lia;
      destruct (float_of_width _); try destruct (decide _); lia.
  - simpl.
    destruct (negb ce && bool_decide (b = None) && bool_decide (a = None)) eqn:Enull;
      [discriminate|].
    assert (anchored ce b a) as Hanc.
    { unfold anchored. destruct ce; [auto|]. right. simpl in Enull.
      destruct b; [left; discriminate|]. destruct a; [right; discriminate|].
      discriminate. }
    destruct (ce && bool_decide (dyn_cast_Constant v = None)); [discriminate|].
    destruct (decide (typeOf v = t)); [discriminate|].
    destruct (isPointerTy (typeOf v) && isPointerTy t); [apply terminates_castStep|].
    destruct (isPointerTy (typeOf v) && isIntegerTy t); [apply terminates_castStep|].
    destruct (isIntegerTy (typeOf v) && isPointerTy t); [apply terminates_castStep|].
    destruct (isIntegerTy (typeOf v) && isIntegerTy t); [apply terminates_castStep|].
    destruct (isIntegerTy (typeOf v) && isFloatingPointTy t) eqn:Eif.
    { apply andb_prop in Eif as [Ei Ef].
      apply (terminates_then_wrap fuel IH); [exact Hload| |].
      - destruct (typeOf v); try discriminate Ei.
        destruct t; try discriminate Ef.
        unfold convert_fuel, scalar_rank in *. simpl in *. lia.
      - intros x st1.
        apply (terminates_wrap t b a ce (fun c => CCast BitCast c t)
                 (fun x => KCast BitCast x)). }
    destruct (isPointerTy (typeOf v) && isFloatingPointTy t) eqn:Epf.
    { apply andb_prop in Epf as [Ep Ef].
      destruct (typeOf v) eqn:Ev; try discriminate Ep.
      destruct t; try discriminate Ef.
      apply (terminates_via fuel IH); try exact Hanc; try reflexivity;
        rewrite ?Ev; try reflexivity;
        unfold convert_fuel, scalar_rank in *; simpl in *; lia. }
    destruct (isFloatingPointTy (typeOf v) && isIntegerTy t) eqn:Efi.
    { apply andb_prop in Efi as [Ef Ei].
      destruct (typeOf v) as [| |k| | | |] eqn:Ev; try discriminate Ef.
      destruct t as [|w| | | | |]; try discriminate Ei. simpl.
      assert (forall k', float_of_width w = Some k' ->
        terminates
          (if decide (TFloat k <> TFloat k') then
             r1 <- convertToType fuel (Some v) (Some (TFloat k')) b a ce ;;
             fpConv <- nonnull r1 ;;
             convertToType fuel (Some fpConv) (Some (TInt w)) b
               (dyn_cast_Instruction fpConv) ce
           else castStep BitCast v (dyn_cast_Constant v) (TInt w) b a ce) st)
        as Hvia.
      { intros k' Hk'. destruct (decide (TFloat k <> TFloat k')) as [Hd|];
          [|apply terminates_castStep].
        apply (terminates_via fuel IH); try exact Hanc; rewrite ?Ev;
          try reflexivity;
          unfold convert_fuel, scalar_rank in *; simpl in *; rewrite Hk' in *;
          repeat case_decide; try congruence; lia. }
      unfold float_of_width in Hvia.
      repeat (destruct (decide (w = _)); [apply Hvia; reflexivity|]).
      apply (terminates_via fuel IH); try exact Hanc; rewrite ?Ev;
        try reflexivity.
      - pose proof (scalar_rank_float_int k 32).
        unfold convert_fuel, scalar_rank, float_of_width in Hfuel, H |- *.
        simpl in Hfuel, H |- *.
        repeat (destruct (decide (w = _)); [congruence|]).
        repeat case_decide; lia.
      - unfold convert_fuel, scalar_rank, float_of_width in Hfuel |- *.
        simpl in Hfuel |- *.
        repeat (destruct (decide (w = _)); [congruence|]). lia. }
    destruct (isFloatingPointTy (typeOf v) && isPointerTy t) eqn:Efp.
    { apply andb_prop in Efp as [Ef Ep].
      destruct (typeOf v) as [| |k| | | |] eqn:Ev; try discriminate Ef.
      destruct t; try discriminate Ep.
      apply (terminates_via fuel IH); try exact Hanc; rewrite ?Ev;
        try reflexivity.
      - pose proof (scalar_rank_float_int k (fp_bits k)).
        unfold convert_fuel in *. simpl in *.
        change (scalar_rank (TFloat k) (TPtr t)) with 4%nat in Hfuel. lia.
      - unfold convert_fuel, scalar_rank in *. simpl in *. lia. }
    destruct (isFloatingPointTy (typeOf v) && isFloatingPointTy t);
      [apply terminates_castStep|].
    apply terminates_bind; [discriminate|]. intros st0 st1 [= <- <-].
    destruct (bool_decide (loadPointerOperand (st_module st) v <> None)
              && isAggregateType (typeOf v) && negb ce) eqn:Eload.
    { apply andb_prop in Eload as [Eload Ece].
      apply andb_prop in Eload as [_ Eagg].
      destruct ce; [discriminate|].
      apply terminates_bind; [apply terminates_nonnull|].
      intros p st1 Hp. apply nonnull_Ret in Hp as [Hp ->].
      destruct (negb (isValidElementType t)); [discriminate|].
      apply loadPointerOperand_wf in Hp; [|auto].
      apply (terminates_then_wrap fuel IH).
      - destruct (typeOf p); discriminate.
      - destruct (typeOf p); try discriminate Hp.
        unfold convert_fuel in *. rewrite scalar_rank_agg_l in Hfuel by exact Eagg.
        unfold scalar_rank. simpl. lia.
      - intros c st2.
        apply terminates_bind; [apply terminates_nonnull|]. intros ? ? _.
        apply terminates_bind; [apply terminates_nonnull|]. intros ? ? _.
        apply terminates_bind; [discriminate|]. intros ? ? _.
        apply terminates_bind; [apply terminates_insertAfter|]. discriminate. }
    destruct (isAggregateType (typeOf v)) eqn:Eagg.
    { apply terminates_bind; [apply terminates_nonnull|].
      intros ft st1 Hft. apply nonnull_Ret in Hft as [Hft ->].
      apply terminates_bind.
      { destruct ce.
        - apply terminates_bind; [apply terminates_nonnull|]. discriminate.
        - apply terminates_bind; [discriminate|]. intros ? ? _.
          apply terminates_insertBeforeAfter. }
      intros x st1 Hx.
      assert (typeOf x = ft /\
              forall i, i ∈ all_insts (st_module st1) ->
                (exists ag, ikind i = KExtractValue ag 0) \/
                i ∈ all_insts (st_module st)) as [Htx Hins].
      { destruct ce; inv_ret Hx.
        - split; [reflexivity|]. auto.
        - match goal with Hn : newInst _ _ _ _ = Ret _ _ |- _ =>
            pose proof (newInst_insts _ _ _ _ _ _ Hn) as Hsame;
            apply newInst_Ret in Hn as (_ & Hk & Hity & _)
          end.
          match goal with Hi : insertBeforeAfter _ _ _ _ = Ret _ _ |- _ =>
            pose proof (insertBeforeAfter_Ret _ _ _ _ _ _ Hi) as ->;
            rename Hi into Hiba
          end.
          split; [exact Hity|]. intros i Hi.
          eapply insertBeforeAfter_insts in Hiba as [->|Hin]; [| |exact Hi].
          + left. eauto.
          + right. rewrite <- Hsame. exact Hin. }
      apply IH.
      - intros _ Hce i p Hi Hk.
        apply Hins in Hi as [(ag & Hag)|Hi]; [congruence|].
        eapply Hload; eauto.
      - rewrite Htx. pose proof (scalar_rank_le ft t).
        unfold convert_fuel in *. rewrite scalar_rank_agg_l in Hfuel by exact Eagg.
        rewrite (agg_depth_indexed _ _ Hft) in Hfuel. lia. }
    destruct (isAggregateType t) eqn:Eaggt; [|discriminate].
    destruct (isEmptyTy t); [discriminate|].
    apply terminates_bind; [apply terminates_nonnull|].
    intros idxt st1 Hidx. apply nonnull_Ret in Hidx as [Hidx ->].
    apply (terminates_then_wrap fuel IH).
    + intros; congruence.
    + pose proof (scalar_rank_le (typeOf v) idxt).
      unfold convert_fuel in *. rewrite scalar_rank_agg_r in Hfuel by exact Eaggt.
      rewrite (agg_depth_at_index _ _ Hidx) in Hfuel. lia.
    + intros x st2.
      apply (terminates_wrap t b a ce (fun c => CInsertValue (CUndef t) c 0)
               (fun x => KInsertValue (VConst (CUndef t)) x 0)).
Qed.

(** * The claims about the conversion engine *)

Lemma convertToType_same_type fuel v b a ce st :
  anchored ce b a ->
  (ce = true -> is_constant v) ->
  convertToType (S fuel) (Some v) (Some (typeOf v)) b a ce st = Ret (Some v) st.
Proof.
  intros Hanc Hc. simpl.
  destruct ce; simpl.
  - destruct (Hc eq_refl) as (c & ->). simpl.
    rewrite decide_True by reflexivity. reflexivity.
  - destruct Hanc as [?|[Hb|Ha]]; [discriminate| |].
    + destruct b; [|contradiction]. simpl.
      rewrite decide_True by reflexivity. reflexivity.
    + destruct a; [|contradiction]. rewrite andb_false_r.
      rewrite decide_True by reflexivity. reflexivity.
Qed.

(** C4: with a valid insertion point (or in const-expr mode), a conversion
    with enough fuel either fails or returns a value of the target type;
    a value that already has the target type is returned as it is, and
    the state (hence the instruction lists) is left untouched. *)
Theorem C4_convert_returns_target_type :
  forall fuel v t b a ce st,
    anchored ce b a ->
    (isAggregateType (typeOf v) = true -> ce = false ->
     loads_wf (st_module st)) ->
    (convert_fuel (typeOf v) t <= fuel)%nat ->
    (convertToType fuel (Some v) (Some t) b a ce st = Abort \/
     exists v' st',
       convertToType fuel (Some v) (Some t) b a ce st = Ret (Some v') st' /\
       typeOf v' = t) /\
    (typeOf v = t -> (ce = true -> is_constant v) ->
     convertToType fuel (Some v) (Some t) b a ce st = Ret (Some v) st).
Proof.
  intros fuel v t b a ce st Hanc Hload Hfuel. split.
  - pose proof (convertToType_terminates fuel v t b a ce st Hload Hfuel) as Hterm.
    unfold terminates in Hterm.
    destruct (convertToType fuel (Some v) (Some t) b a ce st) as [r st'| |] eqn:E;
      [|left; reflexivity|contradiction].
    right. apply convertToType_spec in E as (v' & -> & Hty & _); [|exact Hanc].
    eauto.
  - intros <- Hc. destruct fuel as [|fuel].
    + exfalso. unfold convert_fuel in Hfuel.
      pose proof (scalar_rank_le (typeOf v) (typeOf v)).
      unfold scalar_rank in *.
      destruct (_ || _); [lia|]. destruct (typeOf v); try lia.
    + apply convertToType_same_type; assumption.
Qed.

Lemma C4_witness :
  anchored false (Some 0%nat) None /\
  (convert_fuel (typeOf ex_float_arg) (TInt 24) <= 3)%nat /\
  ((convertToType 3 (Some ex_float_arg) (Some (TInt 24)) (Some 0%nat) None
      false ex_state = Abort \/
    exists v' st',
      convertToType 3 (Some ex_float_arg) (Some (TInt 24)) (Some 0%nat) None
        false ex_state = Ret (Some v') st' /\
      typeOf v' = TInt 24) /\
   (typeOf ex_float_arg = TInt 24 -> (false = true -> is_constant ex_float_arg) ->
    convertToType 3 (Some ex_float_arg) (Some (TInt 24)) (Some 0%nat) None
      false ex_state = Ret (Some ex_float_arg) ex_state)).
Proof.
  assert (anchored false (Some 0%nat) None) as Ha
    by (right; left; discriminate).
  assert (convert_fuel (typeOf ex_float_arg) (TInt 24) <= 3)%nat as Hf
    by (vm_compute; lia).
  split; [exact Ha|]. split; [exact Hf|].
  apply (C4_convert_returns_target_type 3 ex_float_arg (TInt 24)
           (Some 0%nat) None false ex_state Ha); [|exact Hf].
  intros Hagg. discriminate Hagg.
Defined.

(** C5: a constant-expression conversion with enough fuel either fails or
    returns a constant of the target type, and the state it returns is the
    state it was given: nothing is created, inserted or changed. *)
Theorem C5_constant_conversion_is_pure :
  forall fuel c t st,
    (convert_fuel (typeOfC c) t <= fuel)%nat ->
    convertConstantToType fuel (Some c) (Some t) st = Abort \/
    exists c',
      convertConstantToType fuel (Some c) (Some t) st = Ret (Some c') st /\
      typeOfC c' = t.
Proof.
  intros fuel c t st Hfuel. unfold convertConstantToType, bind. simpl.
  pose proof (convertToType_terminates fuel (VConst c) t None None true st)
    as Hterm.
  unfold terminates in Hterm.
  destruct (convertToType fuel (Some (VConst c)) (Some t) None None true st)
    as [r st'| |] eqn:E.
  - apply convertToType_spec in E as (v' & -> & Hty & _ & _ & Hconst);
      [|left; reflexivity].
    destruct (Hconst eq_refl) as [-> (c' & ->)].
    right. exists c'. split; [reflexivity|exact Hty].
  - left. reflexivity.
  - exfalso. apply Hterm; [discriminate|exact Hfuel|reflexivity].
Qed.

Lemma C5_witness :
  (convert_fuel (typeOfC (CFP Double 7)) (TPtr (TInt 8)) <= 4)%nat /\
  (convertConstantToType 4 (Some (CFP Double 7)) (Some (TPtr (TInt 8)))
     ex_state = Abort \/
   exists c',
     convertConstantToType 4 (Some (CFP Double 7)) (Some (TPtr (TInt 8)))
       ex_state = Ret (Some c') ex_state /\
     typeOfC c' = TPtr (TInt 8)).
Proof.
  assert (convert_fuel (typeOfC (CFP Double 7)) (TPtr (TInt 8)) <= 4)%nat as Hf
    by (vm_compute; lia).
  split; [exact Hf|].
  apply (C5_constant_conversion_is_pure 4 (CFP Double 7) (TPtr (TInt 8))
           ex_state Hf).
Defined.

(** C10: the live-mode entry points return null and leave the state as it
    is when the value is null, when the type is null, or when no anchor is
    given; they do not abort. *)
Theorem C10_null_arguments_return_null :
  forall fuel (v : option Value) (t : option Ty) (anchor : option nat) st,
    convertValueToType (S fuel) None t anchor st = Ret None st /\
    convertValueToType (S fuel) v None anchor st = Ret None st /\
    convertValueToType (S fuel) v t None st = Ret None st /\
    convertValueToTypeAfter (S fuel) None t anchor st = Ret None st /\
    convertValueToTypeAfter (S fuel) v None anchor st = Ret None st /\
    convertValueToTypeAfter (S fuel) v t None st = Ret None st.
Proof.
  intros fuel v t anchor st.
  unfold convertValueToType, convertValueToTypeAfter.
  repeat split; simpl; try reflexivity;
    destruct v as [v|]; try reflexivity;
    destruct t as [t|]; reflexivity.
Qed.

(** ** The float-to-integer routes *)

Lemma head_anchored ce b a :
  anchored ce b a ->
  negb ce && bool_decide (b = None) && bool_decide (a = None) = false.
Proof.
  intros [->|[Hb|Ha]]; [reflexivity| |].
  - destruct b; [|contradiction]. apply andb_false_iff. left.
    apply andb_false_r.
  - destruct a; [|contradiction]. apply andb_false_r.
Qed.

Lemma head_constant ce v :
  (ce = true -> is_constant v) ->
  ce && bool_decide (dyn_cast_Constant v = None) = false.
Proof.
  destruct ce; [|reflexivity]. intros H. destruct (H eq_refl) as (c & ->).
  reflexivity.
Qed.

Lemma bind_ext {A B} (c : M A) (k k' : A -> M B) st :
  (forall a st1, c st = Ret a st1 -> k a st1 = k' a st1) ->
  bind c k st = bind c k' st.
Proof.
  unfold bind. intros H. destruct (c st) as [a st1| |]; auto.
Qed.

Lemma castStep_anchor op v t b a ce st r st' :
  castStep op v (dyn_cast_Constant v) t b a ce st = Ret r st' ->
  exists x, r = Some x /\ typeOf x = t /\
    anchored ce b (dyn_cast_Instruction x) /\ (ce = true -> is_constant x).
Proof.
  intros H. apply castStep_Ret in H as (x & -> & Ht & Hl & Hc).
  exists x. split; [reflexivity|]. split; [exact Ht|]. split.
  - destruct ce; [left; reflexivity|]. destruct (Hl eq_refl) as (id & ->).
    right. right. discriminate.
  - intros Hce. apply Hc. exact Hce.
Qed.

(** The single-step cases of [convertToType] the routes are made of. *)
Lemma convertToType_float_float fuel v k ft b a ce st :
  typeOf v = TFloat k -> k <> ft ->
  anchored ce b a -> (ce = true -> is_constant v) ->
  convertToType (S fuel) (Some v) (Some (TFloat ft)) b a ce st =
  castStep FPCast v (dyn_cast_Constant v) (TFloat ft) b a ce st.
Proof.
  intros Hv Hk Hanc Hc. simpl.
  rewrite head_anchored, head_constant by assumption.
  rewrite Hv. rewrite decide_False by congruence. reflexivity.
Qed.

Lemma convertToType_float_bitcast fuel v ft w b a ce st :
  typeOf v = TFloat ft -> float_of_width w = Some ft ->
  anchored ce b a -> (ce = true -> is_constant v) ->
  convertToType (S fuel) (Some v) (Some (TInt w)) b a ce st =
  castStep BitCast v (dyn_cast_Constant v) (TInt w) b a ce st.
Proof.
  intros Hv Hw Hanc Hc. simpl.
  rewrite head_anchored, head_constant by assumption.
  rewrite Hv. rewrite decide_False by discriminate. simpl.
  unfold float_of_width in Hw.
  repeat (destruct (decide (w = _));
          [injection Hw as <-; rewrite decide_False by tauto; reflexivity|]).
  discriminate.
Qed.

Lemma convertToType_int_int fuel v w0 w b a ce st :
  typeOf v = TInt w0 -> w0 <> w ->
  anchored ce b a -> (ce = true -> is_constant v) ->
  convertToType (S fuel) (Some v) (Some (TInt w)) b a ce st =
  castStep (IntegerCast true) v (dyn_cast_Constant v) (TInt w) b a ce st.
Proof.
  intros Hv Hw Hanc Hc. simpl.
  rewrite head_anchored, head_constant by assumption.
  rewrite Hv. rewrite decide_False by congruence. reflexivity.
Qed.

Lemma convertToType_matching_width fuel v k ft w b a ce st :
  typeOf v = TFloat k -> float_of_width w = Some ft ->
  anchored ce b a -> (ce = true -> is_constant v) ->
  convertToType (S (S fuel)) (Some v) (Some (TInt w)) b a ce st =
  bitcastThroughFloat ft v w b a ce st.
Proof.
  intros Hv Hw Hanc Hc. unfold bitcastThroughFloat.
  destruct (decide (typeOf v = TFloat ft)) as [Heq|Hne].
  { apply convertToType_float_bitcast with (ft := ft); assumption. }
  assert (k <> ft) as Hk by congruence.
  assert (convertToType (S (S fuel)) (Some v) (Some (TInt w)) b a ce st =
          (r <- convertToType (S fuel) (Some v) (Some (TFloat ft)) b a ce ;;
           x <- nonnull r ;;
           convertToType (S fuel) (Some x) (Some (TInt w)) b
             (dyn_cast_Instruction x) ce) st) as ->.
  { cbn [convertToType].
    rewrite head_anchored, head_constant by assumption.
    rewrite Hv. rewrite decide_False by discriminate. cbn -[convertToType].
    unfold float_of_width in Hw.
    repeat (destruct (decide (w = _));
            [injection Hw as <-; rewrite decide_True by congruence;
             reflexivity|]).
    discriminate. }
  unfold bind at 1 3.
  rewrite (convertToType_float_float fuel v k ft) by assumption.
  destruct (castStep FPCast v (dyn_cast_Constant v) (TFloat ft) b a ce st)
    as [r st1| |] eqn:E; try reflexivity.
  apply castStep_anchor in E as (x & -> & Hx & Hanc' & Hc').
  cbn [nonnull bind ret].
  apply convertToType_float_bitcast with (ft := ft); assumption.
Qed.




(** The scenario of the specification: a [float] converted to [i24] before
    an anchor is bit-cast to [i32] and then integer-cast to [i24]. *)
Example float_to_i24_route :
  exists st',
    convertValueToType 3 (Some ex_float_arg) (Some (TInt 24)) (Some 0%nat)
      ex_state = Ret (Some (VInst 2 (TInt 24))) st' /\
    map fblocks (functions (st_module st')) =
    [[[mkInst 1 "" (KCast BitCast ex_float_arg) (TInt 32);
       mkInst 2 "" (KCast (IntegerCast true) (VInst 1 (TInt 32))) (TInt 24);
       ex_ret]]].
Proof. eexists. split; vm_compute; reflexivity. Qed.

(** * The stack slot allocator *)

Lemma insertBefore_Ret i b st u st' :
  insertBefore i b st = Ret u st' ->
  has_inst (st_module st) b = true /\
  st' = mkState (map_blocks (ins_before b i) (st_module st)) (st_config st).
Proof.
  unfold insertBefore, bind, get, modify_module.
  destruct (has_inst _ _); [|discriminate]. intros [= _ <-]. auto.
Qed.

Lemma insertAfter_Ret i a st u st' :
  insertAfter i a st = Ret u st' ->
  has_inst (st_module st) a = true /\
  st' = mkState (map_blocks (ins_after a i) (st_module st)) (st_config st).
Proof.
  unfold insertAfter, bind, get, modify_module.
  destruct (has_inst _ _); [|discriminate]. intros [= _ <-]. auto.
Qed.

Lemma newInst_state name k t st i st' :
  newInst name k t st = Ret i st' ->
  i = mkInst (next_id (st_module st)) name k t /\
  st' = mkState (mkModule (S (next_id (st_module st)))
                   (functions (st_module st)) (globals (st_module st))
                   (word_bits (st_module st)))
                (st_config st).
Proof. unfold newInst. intros [= <- <-]. auto. Qed.

(** C7: a call of [getStackVariable] that returns is repeated by the next
    call with the same arguments: it finds the slot registered under
    (function, offset), returns the same alloca and config entry, and
    allocates nothing (the state is unchanged). *)
Theorem C7_stack_slot_idempotent :
  forall fnc offset type name st r st1,
    getStackVariable fnc offset type name st = Ret r st1 ->
    getStackVariable fnc offset type name st1 = Ret r st1.
Proof.
  intros fnc offset type name st r st1 H.
  unfold getStackVariable in H. apply bind_Ret in H as (s & s' & Hget & H).
  unfold get in Hget. injection Hget as <- <-.
  destruct (getLlvmStackVariable (st_config st) fnc offset) as [a|] eqn:Hfind.
  - apply bind_Ret in H as (csv & s' & Hcsv & H).
    apply nonnull_Ret in Hcsv as [Hcsv ->]. unfold ret in H.
    injection H as <- <-.
    unfold getStackVariable, bind, get. rewrite Hfind, Hcsv. reflexivity.
  - apply bind_Ret in H as (alloca & s1 & Hnew & H).
    apply bind_Ret in H as (f & s2 & Hf & H).
    apply nonnull_Ret in Hf as [Hf ->].
    apply bind_Ret in H as (it & s2 & Hit & H).
    apply nonnull_Ret in Hit as [Hit ->].
    apply bind_Ret in H as (u & s2 & Hins & H).
    apply bind_Ret in H as (csv & s3 & Hcfg & H).
    unfold ret in H. injection H as <- <-.
    apply newInst_state in Hnew as [-> ->].
    apply insertBefore_Ret in Hins as [_ ->].
    unfold insertStackVariable, modify_config, bind, ret in Hcfg.
    injection Hcfg as <- <-.
    unfold getStackVariable, bind, get, getLlvmStackVariable,
      getConfigStackVariable. simpl.
    repeat (rewrite !bool_decide_eq_true_2 by reflexivity; simpl).
    reflexivity.
Qed.

Lemma C7_witness :
  getStackVariable 0 (-16) (TInt 32) "x" ex_state =
    Ret (VInst 1 (TPtr (TInt 32)),
         mkStackObject 0 (-16) (VInst 1 (TPtr (TInt 32))) "x_-16")
        (mkState
           (mkModule 2
              [mkFunction 0 "f" [TFloat Float; TPtr (TInt 32)]
                 [[mkInst 1 "x_-16" (KAlloca (TInt 32)) (TPtr (TInt 32));
                   ex_ret]]] ∅ 32)
           (mkConfig []
              [mkStackObject 0 (-16) (VInst 1 (TPtr (TInt 32))) "x_-16"]
              ∅ ∅ false false)) /\
  getStackVariable 0 (-16) (TInt 32) "x"
    (mkState
       (mkModule 2
          [mkFunction 0 "f" [TFloat Float; TPtr (TInt 32)]
             [[mkInst 1 "x_-16" (KAlloca (TInt 32)) (TPtr (TInt 32));
               ex_ret]]] ∅ 32)
       (mkConfig []
          [mkStackObject 0 (-16) (VInst 1 (TPtr (TInt 32))) "x_-16"]
          ∅ ∅ false false)) =
    Ret (VInst 1 (TPtr (TInt 32)),
         mkStackObject 0 (-16) (VInst 1 (TPtr (TInt 32))) "x_-16")
        (mkState
           (mkModule 2
              [mkFunction 0 "f" [TFloat Float; TPtr (TInt 32)]
                 [[mkInst 1 "x_-16" (KAlloca (TInt 32)) (TPtr (TInt 32));
                   ex_ret]]] ∅ 32)
           (mkConfig []
              [mkStackObject 0 (-16) (VInst 1 (TPtr (TInt 32))) "x_-16"]
              ∅ ∅ false false)).
Proof.
  assert (getStackVariable 0 (-16) (TInt 32) "x" ex_state =
    Ret (VInst 1 (TPtr (TInt 32)),
         mkStackObject 0 (-16) (VInst 1 (TPtr (TInt 32))) "x_-16")
        (mkState
           (mkModule 2
              [mkFunction 0 "f" [TFloat Float; TPtr (TInt 32)]
                 [[mkInst 1 "x_-16" (KAlloca (TInt 32)) (TPtr (TInt 32));
                   ex_ret]]] ∅ 32)
           (mkConfig []
              [mkStackObject 0 (-16) (VInst 1 (TPtr (TInt 32))) "x_-16"]
              ∅ ∅ false false))) as H by (vm_compute; reflexivity).
  split; [exact H|].
  exact (C7_stack_slot_idempotent _ _ _ _ _ _ _ H).
Defined.

(** * Localize *)

Lemma map_blocks_map_blocks g h m :
  map_blocks g (map_blocks h m) = map_blocks (fun b => g (h b)) m.
Proof.
  unfold map_blocks. simpl. f_equal. rewrite map_map.
  apply map_ext. intros f. simpl. rewrite map_map. reflexivity.
Qed.

Lemma map_blocks_ext_in g h m :
  (forall f blk, f ∈ functions m -> blk ∈ fblocks f -> g blk = h blk) ->
  map_blocks g m = map_blocks h m.
Proof.
  intros H. unfold map_blocks. f_equal.
  apply map_ext_in. intros f Hf. f_equal.
  apply map_ext_in. intros blk Hblk.
  apply (H f blk); apply list_elem_of_In; assumption.
Qed.

Lemma NoDup_concat_elem {A} (ls : list (list A)) l :
  NoDup (concat ls) -> l ∈ ls -> NoDup l.
Proof.
  induction ls as [|x ls IH]; simpl; intros Hnd Hl.
  - inversion Hl.
  - apply NoDup_app in Hnd as (Hx & _ & Hls).
    apply elem_of_cons in Hl as [->|Hl]; auto.
Qed.

Lemma block_ids_nodup m f blk :
  NoDup (map iid (all_insts m)) ->
  f ∈ functions m -> blk ∈ fblocks f -> NoDup (map iid blk).
Proof.
  intros Hnd Hf Hblk. unfold all_insts in Hnd.
  rewrite concat_map, map_map in Hnd.
  assert (NoDup (map iid (function_insts f))) as Hfn.
  { eapply NoDup_concat_elem; [exact Hnd|].
    apply list_elem_of_fmap. exists f. split; [reflexivity|exact Hf]. }
  unfold function_insts in Hfn. rewrite concat_map in Hfn.
  eapply NoDup_concat_elem; [exact Hfn|].
  apply list_elem_of_fmap. exists blk. split; [reflexivity|exact Hblk].
Qed.

Lemma ins_before_ids anchor x l :
  map iid (ins_before anchor x l) = map iid l \/
  exists l1 l2, l = l1 ++ l2 /\
    map iid (ins_before anchor x l) = map iid l1 ++ iid x :: map iid l2.
Proof.
  induction l as [|y l IH]; simpl; [left; reflexivity|].
  destruct (bool_decide (iid y = anchor)).
  - right. exists [], (y :: l). split; reflexivity.
  - destruct IH as [IH|(l1 & l2 & -> & IH)].
    + left. simpl. rewrite IH. reflexivity.
    + right. exists (y :: l1), l2. split; [reflexivity|].
      simpl. rewrite IH. reflexivity.
Qed.

Lemma ins_before_nodup anchor x l :
  NoDup (map iid l) -> iid x ∉ map iid l ->
  NoDup (map iid (ins_before anchor x l)).
Proof.
  intros Hnd Hx. destruct (ins_before_ids anchor x l) as [->|(l1 & l2 & -> & ->)];
    [exact Hnd|].
  rewrite map_app in Hnd, Hx.
  apply NoDup_app in Hnd as (H1 & H12 & H2).
  apply NoDup_app. split; [exact H1|]. split.
  - intros y Hy. rewrite elem_of_cons. intros [->|Hy2].
    + apply Hx. apply elem_of_app. auto.
    + eapply H12; eauto.
  - apply NoDup_cons. split; [|exact H2].
    intros Hin. apply Hx. apply elem_of_app. auto.
Qed.

Lemma filter_ins_before d s l :
  NoDup (map iid l) -> iid s <> d ->
  filter (fun i => iid i <> d) (ins_before d s l) =
  map (fun i => if bool_decide (iid i = d) then s else i) l.
Proof.
  intros Hnd Hs. induction l as [|y l IH]; simpl; [reflexivity|].
  simpl in Hnd. apply NoDup_cons in Hnd as [Hy Hnd].
  destruct (bool_decide (iid y = d)) eqn:E.
  - apply bool_decide_eq_true in E. subst d.
    rewrite filter_cons_True by exact Hs.
    rewrite filter_cons_False by tauto.
    f_equal.
    assert (forall l', iid y ∉ map iid l' ->
      filter (fun i => iid i <> iid y) l' =
      map (fun i => if bool_decide (iid i = iid y) then s else i) l') as Hrest.
    { clear. induction l' as [|z l' IH]; simpl; intros Hz; [reflexivity|].
      rewrite not_elem_of_cons in Hz. destruct Hz as [Hz Hl'].
      rewrite filter_cons_True by congruence.
      rewrite bool_decide_eq_false_2 by congruence. f_equal. auto. }
    apply Hrest. exact Hy.
  - apply bool_decide_eq_false in E.
    rewrite filter_cons_True by exact E. f_equal. apply IH. exact Hnd.
Qed.

Lemma replace_value_idem from to v :
  to <> from ->
  replace_value from to (replace_value from to v) = replace_value from to v.
Proof.
  intros Hne. unfold replace_value.
  destruct (decide (v = from)).
  - rewrite decide_False by exact Hne. reflexivity.
  - rewrite decide_False by assumption. reflexivity.
Qed.

Lemma replaceUsesOfWith_idem from to k :
  to <> from ->
  replaceUsesOfWith from to (replaceUsesOfWith from to k) =
  replaceUsesOfWith from to k.
Proof.
  intros Hne. destruct k; simpl; rewrite ?replace_value_idem by exact Hne;
    try reflexivity.
  f_equal. rewrite map_map. apply map_ext. intros v.
  apply replace_value_idem. exact Hne.
Qed.

Lemma patch_seq_spec from to uses i :
  to <> from ->
  patch_seq from to uses i =
  if bool_decide (iid i ∈ uses)
  then map_inst (replaceUsesOfWith from to) i else i.
Proof.
  intros Hne. revert i. induction uses as [|u r IH]; intros i; simpl.
  - reflexivity.
  - rewrite IH. destruct (bool_decide (iid i = u)) eqn:E.
    + apply bool_decide_eq_true in E. subst u. simpl.
      rewrite (bool_decide_eq_true_2 (iid i ∈ iid i :: r))
        by (apply elem_of_cons; auto).
      unfold map_inst. simpl. rewrite replaceUsesOfWith_idem by exact Hne.
      destruct (bool_decide (iid i ∈ r)); reflexivity.
    + apply bool_decide_eq_false in E.
      destruct (bool_decide (iid i ∈ r)) eqn:Er.
      * apply bool_decide_eq_true in Er.
        rewrite bool_decide_eq_true_2 by (apply elem_of_cons; auto).
        reflexivity.
      * apply bool_decide_eq_false in Er.
        rewrite bool_decide_eq_false_2; [reflexivity|].
        rewrite elem_of_cons. tauto.
Qed.

Lemma forM_patch from to uses st u st' :
  forM_ uses (fun u => instReplaceUsesOfWith u from to) st = Ret u st' ->
  st' = mkState (map_blocks (map (patch_seq from to uses)) (st_module st))
          (st_config st).
Proof.
  revert st. induction uses as [|x r IH]; simpl; intros st H.
  - unfold ret in H. injection H as _ <-. destruct st as [m c]. simpl.
    f_equal. unfold map_blocks. destruct m as [n fs gs w]. simpl. f_equal.
    rewrite <- (map_id fs) at 1. apply map_ext. intros [fi fn fp fb]. simpl.
    f_equal. rewrite <- (map_id fb) at 1. apply map_ext. intros blk.
    rewrite map_id. reflexivity.
  - apply bind_Ret in H as (u1 & st1 & Hstep & H).
    apply IH in H. subst st'.
    unfold instReplaceUsesOfWith, bind, get, modify_module in Hstep.
    destruct (has_inst _ _); [|discriminate]. injection Hstep as _ <-.
    simpl. rewrite map_blocks_map_blocks. f_equal.
    apply map_blocks_ext_in. intros f blk _ _. rewrite map_map. reflexivity.
Qed.

Lemma lookup_inst_Some m id i :
  lookup_inst m id = Some i -> i ∈ all_insts m /\ iid i = id.
Proof.
  unfold lookup_inst. intros H. apply find_some in H as [Hin Hid].
  apply list_elem_of_In in Hin. apply bool_decide_eq_true in Hid. auto.
Qed.

Lemma localize_Ret def uses st r st' :
  wf_ids (st_module st) ->
  localize def uses st = Ret r st' ->
  exists d val ptr et f front,
    lookup_inst (st_module st) def = Some d /\
    ikind d = KStore val ptr /\
    function_of_inst (st_module st) def = Some f /\
    typeOf ptr = TPtr et /\
    entry_front f = Some front /\
    r = true /\
    let n := next_id (st_module st) in
    let local := mkInst n "" (KAlloca et) (TPtr et) in
    let store := mkInst (S n) "" (KStore val (valueOf local)) TVoid in
    valueOf local <> ptr /\
    st' = mkState
            (map_blocks (localized_block def (iid front) local store ptr uses)
               (bump_ids 2 (st_module st)))
            (st_config st).
Proof.
  intros Hwf H. unfold localize in H.
  apply bind_Ret in H as (s & s' & Hget & H).
  unfold get in Hget. injection Hget as <- <-.
  apply bind_Ret in H as (d & s' & Hd & H).
  apply nonnull_Ret in Hd as [Hd ->].
  destruct (ikind d) as [|?|val ptr| | | |] eqn:Hk; try discriminate.
  apply bind_Ret in H as (f & s' & Hf & H).
  apply nonnull_Ret in Hf as [Hf ->].
  apply bind_Ret in H as (et & s' & Het & H).
  apply nonnull_Ret in Het as [Het ->].
  apply bind_Ret in H as (local & s1 & Hlocal & H).
  apply newInst_state in Hlocal as [-> ->].
  apply bind_Ret in H as (front & s' & Hfront & H).
  apply nonnull_Ret in Hfront as [Hfront ->].
  apply bind_Ret in H as (u1 & s2 & Hins1 & H).
  apply insertBefore_Ret in Hins1 as [_ ->].
  apply bind_Ret in H as (store & s3 & Hstore & H).
  apply newInst_state in Hstore as [-> ->].
  apply bind_Ret in H as (u2 & s4 & Hins2 & H).
  apply insertBefore_Ret in Hins2 as [_ ->].
  apply bind_Ret in H as (u3 & s5 & Herase & H).
  unfold eraseFromParent, modify_module in Herase. injection Herase as _ <-.
  apply bind_Ret in H as (u4 & s6 & Hloop & H).
  unfold ret in H. injection H as <- <-.
  apply forM_patch in Hloop. subst s6.
  apply lookup_inst_Some in Hd as Hd'. destruct Hd' as [Hdin Hdid].
  assert (typeOf ptr = TPtr et) as Hpt.
  { destruct (typeOf ptr); try discriminate. injection Het as ->. reflexivity. }
  set (n := next_id (st_module st)).
  assert (valueOf (mkInst n "" (KAlloca et) (TPtr et)) <> ptr) as Hne.
  { unfold valueOf. simpl. intros <-.
    pose proof (wf_scoped _ Hwf d n (TPtr et) Hdin) as Hs.
    rewrite Hk in Hs. simpl in Hs.
    assert (n < n)%nat; [|lia].
    apply Hs. rewrite !elem_of_cons. auto. }
  exists d, val, ptr, et, f, front.
  repeat (split; [assumption || reflexivity|]).
  unfold map_blocks, bump_ids. simpl. f_equal. f_equal.
  rewrite !map_map. apply map_ext_in. intros fn Hfn. simpl. f_equal.
  rewrite !map_map. apply map_ext_in. intros blk Hblk.
  apply list_elem_of_In in Hfn. apply list_elem_of_In in Hblk.
  unfold localized_block.
  pose proof (block_ids_nodup _ _ _ (wf_nodup _ Hwf) Hfn Hblk) as Hnd.
  assert (forall i, i ∈ blk -> (iid i < n)%nat) as Hfresh.
  { intros i Hi. apply (wf_fresh _ Hwf). apply elem_of_all_insts. eauto. }
  rewrite filter_ins_before.
  - apply map_ext. intros i. apply patch_seq_spec. exact Hne.
  - apply ins_before_nodup; [exact Hnd|]. simpl.
    intros Hin. apply list_elem_of_fmap in Hin as (i & Hi & Hin).
    apply Hfresh in Hin. lia.
  - simpl. pose proof (wf_fresh _ Hwf d Hdin). fold n. lia.
Qed.

Lemma elem_of_ins_before_keep anchor x l i :
  i ∈ l -> i ∈ ins_before anchor x l.
Proof.
  induction l as [|y l IH]; simpl; [auto|].
  destruct (bool_decide (iid y = anchor)).
  - intros H. apply list_elem_of_further. exact H.
  - rewrite !elem_of_cons. intros [->|H]; auto.
Qed.

Lemma operands_replaceUsesOfWith from to k :
  operands (replaceUsesOfWith from to k) =
  map (replace_value from to) (operands k).
Proof. destruct k; reflexivity. Qed.

Lemma replace_value_neq from to v : to <> from -> replace_value from to v <> from.
Proof.
  unfold replace_value. intros Hne. destruct (decide (v = from)); congruence.
Qed.

Lemma function_of_inst_Some m id f :
  function_of_inst m id = Some f -> f ∈ functions m.
Proof.
  unfold function_of_inst. intros H. apply find_some in H as [H _].
  apply list_elem_of_In. exact H.
Qed.

Lemma elem_of_localized_block def front local store ptr uses blk i :
  i ∈ localized_block def front local store ptr uses blk <->
  exists j, j ∈ ins_before front local blk /\
    i = (let j' := if bool_decide (iid j = def) then store else j in
         if bool_decide (iid j' ∈ uses)
         then map_inst (replaceUsesOfWith ptr (valueOf local)) j' else j').
Proof.
  unfold localized_block. rewrite list_elem_of_fmap. split.
  - intros (j' & -> & Hj'). apply list_elem_of_fmap in Hj' as (j & -> & Hj).
    exists j. split; [exact Hj|reflexivity].
  - intros (j & Hj & ->). eexists. split; [reflexivity|].
    apply list_elem_of_fmap. exists j. split; [reflexivity|exact Hj].
Qed.

(** C9 (amended): [localize] puts a fresh alloca of the pointee type at the
    front of the entry block, puts a store of the original value to that
    alloca in the place of the definition, erases the definition, and
    replaces the pointer by the alloca in the instructions of the provided
    use-set; every other instruction is left as it is. *)
Theorem C9_localize_patches_the_given_uses :
  forall def uses st r st',
    wf_ids (st_module st) ->
    localize def uses st = Ret r st' ->
    exists d val ptr et f front,
      lookup_inst (st_module st) def = Some d /\
      ikind d = KStore val ptr /\
      function_of_inst (st_module st) def = Some f /\
      typeOf ptr = TPtr et /\
      entry_front f = Some front /\
      let n := next_id (st_module st) in
      let local := mkInst n "" (KAlloca et) (TPtr et) in
      let store := mkInst (S n) "" (KStore val (valueOf local)) TVoid in
      (exists f' rest bs, f' ∈ functions (st_module st') /\
         fid f' = fid f /\ fblocks f' = (local :: rest) :: bs) /\
      st_module st' =
        map_blocks (localized_block def (iid front) local store ptr uses)
          (bump_ids 2 (st_module st)) /\
      (forall i, i ∈ all_insts (st_module st') -> iid i <> def) /\
      (forall i, i ∈ all_insts (st_module st') -> iid i ∈ uses ->
         ptr ∉ operands (ikind i)) /\
      (forall i, i ∈ all_insts (st_module st) -> iid i <> def ->
         iid i ∉ uses -> i ∈ all_insts (st_module st')).
Proof.
  intros def uses st r st' Hwf H.
  apply localize_Ret in H
    as (d & val & ptr & et & f & front & Hd & Hk & Hf & Hpt & Hfront & _ & H);
    [|exact Hwf].
  simpl in H. destruct H as [Hne ->].
  exists d, val, ptr, et, f, front.
  repeat (split; [assumption|]). simpl.
  set (n := next_id (st_module st)) in *.
  set (local := mkInst n "" (KAlloca et) (TPtr et)) in *.
  set (store := mkInst (S n) "" (KStore val (valueOf local)) TVoid).
  apply lookup_inst_Some in Hd as [Hdin Hdid].
  assert (def < n)%nat as Hdef
    by (rewrite <- Hdid; apply (wf_fresh _ Hwf); exact Hdin).
  split; [|split; [reflexivity|split; [|split]]].
  - apply function_of_inst_Some in Hf.
    unfold entry_front in Hfront.
    destruct (fblocks f) as [|[|x rest] bs] eqn:Hb; try discriminate.
    injection Hfront as ->.
    eexists (mkFunction (fid f) (fname f) (fparams f) _), _, _.
    split; [|split; [reflexivity|]].
    + unfold map_blocks. simpl. apply list_elem_of_fmap.
      exists f. split; [reflexivity|exact Hf].
    + simpl. rewrite Hb. simpl. unfold localized_block at 1. simpl.
      rewrite bool_decide_eq_true_2 by reflexivity. simpl.
      rewrite (bool_decide_eq_false_2 (n = def)) by lia.
      destruct (bool_decide (iid local ∈ uses)); reflexivity.
  - intros i Hi.
    apply elem_of_all_insts_map_blocks in Hi as (fn & blk & _ & _ & Hi).
    apply elem_of_localized_block in Hi as (j & _ & ->). simpl.
    destruct (bool_decide (iid j = def)) eqn:E.
    + destruct (bool_decide (iid store ∈ uses)); simpl; lia.
    + apply bool_decide_eq_false in E.
      destruct (bool_decide (iid j ∈ uses)); simpl; exact E.
  - intros i Hi Huse.
    apply elem_of_all_insts_map_blocks in Hi as (fn & blk & _ & _ & Hi).
    apply elem_of_localized_block in Hi as (j & _ & ->). simpl in *.
    set (j' := if bool_decide (iid j = def) then store else j) in *.
    destruct (bool_decide (iid j' ∈ uses)) eqn:E.
    + simpl. rewrite operands_replaceUsesOfWith. intros Hin.
      apply list_elem_of_fmap in Hin as (v & Hv & _).
      symmetry in Hv. revert Hv. apply replace_value_neq. exact Hne.
    + apply bool_decide_eq_false in E. contradiction.
  - intros i Hi Hid Huse.
    apply elem_of_all_insts in Hi as (fn & blk & Hfn & Hblk & Hi).
    apply elem_of_all_insts_map_blocks. exists fn, blk.
    split; [exact Hfn|]. split; [exact Hblk|].
    apply elem_of_localized_block. exists i.
    split; [apply elem_of_ins_before_keep; exact Hi|]. simpl.
    rewrite (bool_decide_eq_false_2 (iid i = def)) by exact Hid.
    rewrite bool_decide_eq_false_2 by exact Huse. reflexivity.
Qed.

Lemma wf_ids_b_correct m : wf_ids_b m = true -> wf_ids m.
Proof.
  unfold wf_ids_b. intros H. apply andb_prop in H as [Hnd Hall].
  apply bool_decide_eq_true in Hnd.
  rewrite forallb_forall in Hall.
  split; [exact Hnd| |].
  - intros i Hi. apply list_elem_of_In in Hi. apply Hall in Hi.
    apply andb_prop in Hi as [Hi _]. apply Nat.ltb_lt in Hi. exact Hi.
  - intros i id t Hi Hop. apply list_elem_of_In in Hi. apply Hall in Hi.
    apply andb_prop in Hi as [_ Hi]. rewrite forallb_forall in Hi.
    apply list_elem_of_In in Hop. apply Hi in Hop.
    apply Nat.ltb_lt in Hop. exact Hop.
Qed.

Lemma C9_counterexample :
  exists st',
    localize 1 [] ex_localize_state = Ret true st' /\
    ~ pointer_occurs_nowhere_else (st_module st') ex_reg 4 5 [].
Proof.
  eexists. split; [vm_compute; reflexivity|].
  intros H.
  apply (H (mkInst 2 "" (KLoad ex_reg) (TInt 32))).
  - vm_compute. do 2 apply list_elem_of_further. apply list_elem_of_here.
  - discriminate.
  - discriminate.
  - apply not_elem_of_nil.
  - simpl. apply list_elem_of_here.
Qed.

Lemma C9_witness :
  wf_ids (st_module ex_localize_state) /\
  exists st', localize 1 [2%nat] ex_localize_state = Ret true st' /\
  exists d val ptr et f front,
    lookup_inst (st_module ex_localize_state) 1 = Some d /\
    ikind d = KStore val ptr /\
    function_of_inst (st_module ex_localize_state) 1 = Some f /\
    typeOf ptr = TPtr et /\
    entry_front f = Some front /\
    let n := next_id (st_module ex_localize_state) in
    let local := mkInst n "" (KAlloca et) (TPtr et) in
    let store := mkInst (S n) "" (KStore val (valueOf local)) TVoid in
    (exists f' rest bs, f' ∈ functions (st_module st') /\
       fid f' = fid f /\ fblocks f' = (local :: rest) :: bs) /\
    st_module st' =
      map_blocks (localized_block 1 (iid front) local store ptr [2%nat])
        (bump_ids 2 (st_module ex_localize_state)) /\
    (forall i, i ∈ all_insts (st_module st') -> iid i <> 1%nat) /\
    (forall i, i ∈ all_insts (st_module st') -> iid i ∈ [2%nat] ->
       ptr ∉ operands (ikind i)) /\
    (forall i, i ∈ all_insts (st_module ex_localize_state) -> iid i <> 1%nat ->
       iid i ∉ [2%nat] -> i ∈ all_insts (st_module st')).
Proof.
  assert (wf_ids (st_module ex_localize_state)) as Hwf
    by (apply wf_ids_b_correct; vm_compute; reflexivity).
  split; [exact Hwf|].
  eexists. split; [vm_compute; reflexivity|].
  apply (C9_localize_patches_the_given_uses 1 [2%nat] ex_localize_state true _
           Hwf).
  vm_compute. reflexivity.
Defined.

(** * Global variables *)

Lemma C2_counterexample :
  globalVariableCanBeCreated (st_config ex_state) (Some ex_image_unreadable)
    (Some 4096) false = true /\
  exists st',
    getGlobalVariable 1 (Some ex_image_unreadable) None (Some 4096) false
      "global_var" ex_state = Ret None st' /\
    (exists o, o ∈ cfg_globals (st_config st') /\ co_addr o = 4096) /\
    globals (st_module st') !! 1%nat =
      Some (mkGlobal "global_var_1000" (TInt 32) false ExternalLinkage None) /\
    ~ global_discarded ex_state st'.
Proof.
  split; [vm_compute; reflexivity|].
  eexists. split; [vm_compute; reflexivity|]. split; [|split].
  - eexists. split; [apply list_elem_of_here|reflexivity].
  - vm_compute. reflexivity.
  - unfold global_discarded. intros H.
    apply (f_equal (fun g => g !! 1%nat)) in H. vm_compute in H. discriminate.
Qed.

Lemma C6_counterexample :
  exists st1,
    getGlobalVariable 1 (Some ex_image_unreadable) None (Some 4096) false
      "global_var" ex_state = Ret None st1 /\
    getGlobalVariable 1 (Some ex_image_unreadable) None (Some 4096) false
      "global_var" st1 = Ret (Some 1%nat) st1.
Proof.
  eexists. split; vm_compute; reflexivity.
Qed.

Lemma eraseGlobal_Ret g st u st' :
  eraseGlobal g st = Ret u st' ->
  global_used (st_module st) g = false /\
  st' = mkState (set_globals (delete g (globals (st_module st)))
                   (st_module st)) (st_config st).
Proof.
  unfold eraseGlobal, bind, get, modify_module.
  destruct (global_used _ _); [discriminate|]. intros [= _ <-]. auto.
Qed.

Lemma newGlobalVariable_Ret t ic l init name st g st' :
  newGlobalVariable t ic l init name st = Ret g st' ->
  isValidElementType t = true /\
  g = next_id (st_module st) /\
  st' = mkState
          (mkModule (S (next_id (st_module st))) (functions (st_module st))
             (<[next_id (st_module st) := mkGlobal name t ic l init]>
                (globals (st_module st)))
             (word_bits (st_module st)))
          (st_config st).
Proof.
  unfold newGlobalVariable. destruct (isValidElementType t); simpl;
    [|discriminate].
  intros [= <- <-]. auto.
Qed.

Lemma insertGlobalVariable_Ret gv a dbg rn cd st o st' :
  insertGlobalVariable gv a dbg rn cd st = Ret o st' ->
  exists gl, globals (st_module st) !! gv = Some gl /\
    o = mkConfigObject (Some gv) (gname gl) a (Some (gvalty gl)) dbg rn cd
          false /\
    st' = mkState (st_module st)
            (set_cfg_globals
               (o :: filter (fun o' => co_addr o' <> a)
                       (cfg_globals (st_config st)))
               (st_config st)).
Proof.
  unfold insertGlobalVariable. intros H.
  apply bind_Ret in H as (s & s' & Hget & H).
  unfold get in Hget. injection Hget as <- <-.
  apply bind_Ret in H as (gl & s' & Hgl & H).
  apply nonnull_Ret in Hgl as [Hgl ->].
  apply bind_Ret in H as (u & s' & Hmod & H).
  unfold modify_config in Hmod. injection Hmod as _ <-.
  unfold ret in H. injection H as <- <-.
  exists gl. auto.
Qed.

Lemma detect_Ret fuel gv c objf addr st r st' :
  detectGlobalVariableInitializerCycle fuel gv c objf addr st = Ret r st' ->
  st' = st.
Proof.
  unfold detectGlobalVariableInitializerCycle, bind, get.
  destruct gv, c, objf, addr; simpl; try (intros [= _ <-]; reflexivity).
  destruct (decide _); [intros [= _ <-]; reflexivity|].
  destruct (initializerChainReaches _ _ _ _) as [[|]|];
    intros [= _ <-]; reflexivity.
Qed.

Lemma convertConstantToType_Ret fuel c t st r st' :
  convertConstantToType fuel (Some c) (Some t) st = Ret r st' ->
  st' = st /\ exists c', r = Some c' /\ typeOfC c' = t.
Proof.
  unfold convertConstantToType. simpl. intros H.
  apply bind_Ret in H as (v & s & Hconv & H).
  apply convertToType_spec in Hconv as (v' & -> & Hty & _ & _ & Hconst);
    [|left; reflexivity].
  destruct (Hconst eq_refl) as [-> (c' & ->)]. simpl in H.
  unfold bind, ret in H. simpl in H. injection H as <- <-.
  split; [reflexivity|]. exists c'. auto.
Qed.

Lemma canBeCreated_set_cfg_globals l cfg objf addr strict :
  globalVariableCanBeCreated (set_cfg_globals l cfg) objf addr strict =
  globalVariableCanBeCreated cfg objf addr strict.
Proof. reflexivity. Qed.

Lemma find_filter_None {A} (p : A -> bool) (q : A -> Prop)
    `{forall x, Decision (q x)} (l : list A) :
  List.find p l = None -> List.find p (filter q l) = None.
Proof.
  induction l as [|x l IH]; simpl; [reflexivity|].
  destruct (p x) eqn:Hp; [discriminate|]. intros Hl.
  destruct (decide (q x)).
  - rewrite filter_cons_True by assumption. simpl. rewrite Hp. auto.
  - rewrite filter_cons_False by assumption. auto.
Qed.

(** Looking up the global that was just registered at the address. *)
Lemma getLlvmGlobalVariable_registered cfg o name a g :
  getLlvmGlobalVariable cfg name a = None ->
  co_handle o = Some g -> co_addr o = a ->
  getLlvmGlobalVariable
    (set_cfg_globals
       (o :: filter (fun o' => co_addr o' <> a) (cfg_globals cfg)) cfg)
    name a = Some g.
Proof.
  unfold getLlvmGlobalVariable. intros Hnone Hh Ha. simpl.
  destruct (List.find _ (cfg_globals cfg)) as [o1|] eqn:Hname.
  { apply find_some in Hname as [_ Hname]. apply andb_prop in Hname as [_ Hh1].
    apply bool_decide_eq_true in Hh1. congruence. }
  destruct (List.find _ (cfg_globals cfg)) as [o2|] eqn:Haddr in Hnone.
  { apply find_some in Haddr as [_ Haddr]. apply andb_prop in Haddr as [_ Hh2].
    apply bool_decide_eq_true in Hh2. congruence. }
  rewrite (bool_decide_eq_true_2 (co_handle o <> None)) by congruence.
  rewrite (bool_decide_eq_true_2 (co_addr o = a)) by exact Ha.
  rewrite andb_true_r. simpl.
  destruct (bool_decide (co_name o = name)); [exact Hh|].
  rewrite (find_filter_None _ _ _ Hname). exact Hh.
Qed.

(** The ways [getGlobalVariable] returns. *)
Lemma getGlobalVariable_Ret fuel objf dbgf addr strict name st r st' :
  getGlobalVariable fuel objf dbgf addr strict name st = Ret r st' ->
  (globalVariableCanBeCreated (st_config st) objf addr strict = false /\
   r = None /\ st' = st) \/
  exists img a,
    objf = Some img /\ addr = Some a /\
    globalVariableCanBeCreated (st_config st) objf addr strict = true /\
    ((getLlvmGlobalVariable (st_config st) (appendHex name a) a = r /\
      r <> None /\ st' = st) \/
     (getLlvmGlobalVariable (st_config st) (appendHex name a) a = None /\
      exists g o,
        o ∈ cfg_globals (st_config st') /\
        co_handle o = Some g /\ co_addr o = a /\
        st_config st' =
          set_cfg_globals
            (o :: filter (fun o' => co_addr o' <> a)
                    (cfg_globals (st_config st)))
            (st_config st) /\
        is_Some (globals (st_module st') !! g) /\
        (r = None \/ r = Some g))).
Proof.
  intros H. unfold getGlobalVariable in H.
  apply bind_Ret in H as (s & s' & Hget & H).
  unfold get in Hget. injection Hget as <- <-.
  destruct (globalVariableCanBeCreated (st_config st) objf addr strict) eqn:Hcan;
    simpl in H.
  2:{ left. unfold ret in H. injection H as <- <-. auto. }
  right.
  apply bind_Ret in H as (img & s' & Himg & H).
  apply nonnull_Ret in Himg as [-> ->].
  apply bind_Ret in H as (a & s' & Ha & H).
  apply nonnull_Ret in Ha as [-> ->].
  exists img, a. repeat (split; [reflexivity|]).
  destruct (getLlvmGlobalVariable _ _ _) as [g0|] eqn:Hfind.
  { left. unfold ret in H. injection H as <- <-. auto. }
  right. split; [reflexivity|].
  set (d := globalDecl st img dbgf a (appendHex name a)) in *.
  apply bind_Ret in H as (gv & s1 & Hnew & H).
  apply newGlobalVariable_Ret in Hnew as (_ & -> & ->).
  assert (forall g s o s2,
    st_config s = st_config st ->
    insertGlobalVariable g a (gd_isFromDebug d) (gd_realName d)
      (gd_cryptoDesc d) s = Ret o s2 ->
      o ∈ cfg_globals (st_config s2) /\
      co_handle o = Some g /\ co_addr o = a /\
      st_config s2 =
        set_cfg_globals
          (o :: filter (fun o' => co_addr o' <> a)
                  (cfg_globals (st_config st)))
          (st_config st) /\
      is_Some (globals (st_module s2) !! g)) as Hins.
  { intros g s o s2 Hcfg Hi.
    apply insertGlobalVariable_Ret in Hi as (gl & Hgl & -> & ->). simpl.
    rewrite Hcfg. repeat split; eauto. apply list_elem_of_here. }
  destruct (gd_init d) as [c0|] eqn:Hinit.
  - apply bind_Ret in H as (o & s2 & Hi & H).
    unfold ret in H. injection H as <- <-.
    apply Hins in Hi; [|reflexivity].
    destruct Hi as (? & ? & ? & ? & ?). eexists _, o. repeat split; eauto.
  - apply bind_Ret in H as (s1 & s1' & Hget & H).
    unfold get in Hget. injection Hget as <- <-.
    apply bind_Ret in H as (c & s2 & Hdet & H).
    apply detect_Ret in Hdet as ->.
    destruct c as [c|].
    + apply bind_Ret in H as (ngv & s3 & Hnew & H).
      apply newGlobalVariable_Ret in Hnew as (_ & -> & ->).
      apply bind_Ret in H as (conv & s4 & Hconv & H).
      apply convertConstantToType_Ret in Hconv as (-> & c' & -> & Hc').
      apply bind_Ret in H as (u & s5 & Hrauw & H).
      apply bind_Ret in H as (u2 & s6 & Herase & H).
      apply bind_Ret in H as (o & s7 & Hi & H).
      unfold ret in H. injection H as <- <-.
      apply eraseGlobal_Ret in Herase as [_ ->].
      assert (st_config s5 = st_config st) as Hcfg5.
      { destruct (decide _) in Hrauw.
        - apply bind_Ret in Hrauw as (cv & s' & Hcv & Hrauw).
          apply nonnull_Ret in Hcv as [_ ->].
          unfold replaceAllUsesWith, modify_module in Hrauw.
          injection Hrauw as _ <-. reflexivity.
        - unfold ret in Hrauw. injection Hrauw as _ <-. reflexivity. }
      apply Hins in Hi; [|exact Hcfg5].
      destruct Hi as (? & ? & ? & ? & ?). eexists _, o. repeat split; eauto.
    + apply bind_Ret in H as (o & s3 & Hi & H).
      unfold ret in H. injection H as <- <-.
      apply Hins in Hi; [|reflexivity].
      destruct Hi as (? & ? & ? & ? & ?). eexists _, o. repeat split; eauto.
Qed.

Lemma getGlobalVariable_found fuel img dbgf a strict name st g :
  globalVariableCanBeCreated (st_config st) (Some img) (Some a) strict = true ->
  getLlvmGlobalVariable (st_config st) (appendHex name a) a = Some g ->
  getGlobalVariable fuel (Some img) dbgf (Some a) strict name st =
  Ret (Some g) st.
Proof.
  intros Hcan Hfind. unfold getGlobalVariable, bind, get. rewrite Hcan. simpl.
  rewrite Hfind. reflexivity.
Qed.

(** C6 (amended): once a call of [getGlobalVariable] has returned a global,
    every later call with the same arguments returns that global and
    changes nothing; and a call that returned null although the address
    passed the check has registered a global, which the next call
    returns. *)
Theorem C6_later_calls_return_the_registered_global :
  forall fuel fuel' objf dbgf addr strict name st r st1,
    getGlobalVariable fuel objf dbgf addr strict name st = Ret r st1 ->
    (forall g, r = Some g ->
       getGlobalVariable fuel' objf dbgf addr strict name st1 =
       Ret (Some g) st1) /\
    (r = None ->
     globalVariableCanBeCreated (st_config st) objf addr strict = true ->
     exists g,
       is_Some (globals (st_module st1) !! g) /\
       getGlobalVariable fuel' objf dbgf addr strict name st1 =
       Ret (Some g) st1).
Proof.
  intros fuel fuel' objf dbgf addr strict name st r st1 H.
  apply getGlobalVariable_Ret in H
    as [(Hcan & -> & ->)|(img & a & -> & -> & Hcan & H)].
  { split; [discriminate|]. congruence. }
  destruct H as [(Hfind & Hr & ->)|(Hfind & g & o & Ho & Hh & Ha & Hcfg & Hg & Hr)].
  - split; [|congruence]. intros g ->.
    apply getGlobalVariable_found; assumption.
  - assert (getGlobalVariable fuel' (Some img) dbgf (Some a) strict name st1 =
            Ret (Some g) st1) as Hnext.
    { apply getGlobalVariable_found.
      - rewrite Hcfg, canBeCreated_set_cfg_globals. exact Hcan.
      - rewrite Hcfg. apply getLlvmGlobalVariable_registered; assumption. }
    split.
    + intros g' ->. destruct Hr as [Hr|Hr]; [discriminate|].
      injection Hr as ->. exact Hnext.
    + intros _ _. exists g. split; [exact Hg|exact Hnext].
Qed.

Lemma C6_witness :
  exists st1,
    getGlobalVariable 1 (Some ex_image_word) None (Some 4096) false
      "global_var" ex_state = Ret (Some 2%nat) st1 /\
    getGlobalVariable 5 (Some ex_image_word) None (Some 4096) false
      "global_var" st1 = Ret (Some 2%nat) st1.
Proof.
  assert (exists st1,
            getGlobalVariable 1 (Some ex_image_word) None (Some 4096) false
              "global_var" ex_state = Ret (Some 2%nat) st1) as [st1 H]
    by (vm_compute; eexists; reflexivity).
  exists st1. split; [exact H|].
  exact (proj1 (C6_later_calls_return_the_registered_global 1 5 _ _ _ _ _ _
                  _ _ H) 2%nat eq_refl).
Defined.

Lemma globalDecl_init_None st img dbgf a name :
  (forall t, img_getConstant img t a false = None) ->
  gd_init (globalDecl st img dbgf a name) = None.
Proof.
  intros Hnone. unfold globalDecl.
  destruct dbgf as [dbg|]; simpl; [destruct (dbg a) as [dgv|]|];
    destruct (getConfigGlobalVariable _ _) as [cgv|];
    destruct (cfg_crypto _ !! a) as [cp|]; simpl; rewrite ?Hnone; reflexivity.
Qed.

(** C2 (amended): when the address passes the check, no global is
    registered for it yet and no initializer can be read (no typed read
    succeeds, and the untyped read gives nothing or only the global being
    built, whose repair needs a typed word read), a call that completes
    returns null, has inserted a ConfigStore entry for the address, and
    has left the partially built global, without initializer, in the
    module: the entry is bound to it. *)
Theorem C2_unreadable_initializer_keeps_the_global :
  forall fuel img dbgf a strict name st,
    globalVariableCanBeCreated (st_config st) (Some img) (Some a) strict
      = true ->
    getLlvmGlobalVariable (st_config st) (appendHex name a) a = None ->
    (forall t, img_getConstant img t a false = None) ->
    (forall s c, img_getConstantAt img s a = Some c ->
       dyn_cast_GlobalVariable c = Some (next_id (st_module st))) ->
    getGlobalVariable fuel (Some img) dbgf (Some a) strict name st <> Abort ->
    exists st' gl o,
      getGlobalVariable fuel (Some img) dbgf (Some a) strict name st
        = Ret None st' /\
      globals (st_module st') =
        <[next_id (st_module st) := gl]> (globals (st_module st)) /\
      ginit gl = None /\
      cfg_globals (st_config st') =
        o :: filter (fun o' => co_addr o' <> a) (cfg_globals (st_config st)) /\
      co_handle o = Some (next_id (st_module st)) /\
      co_addr o = a.
Proof.
  intros fuel img dbgf a strict name st Hcan Hfind Htyped Huntyped Hdone.
  pose proof (globalDecl_init_None st img dbgf a (appendHex name a) Htyped)
    as Hinit.
  unfold getGlobalVariable, bind, get in *. rewrite Hcan in *. simpl in *.
  rewrite Hfind in *. rewrite Hinit in *.
  set (d := globalDecl st img dbgf a (appendHex name a)) in *.
  unfold newGlobalVariable in *.
  destruct (isValidElementType (gd_type d)); simpl in *; [|congruence].
  set (st1 := mkState _ _) in *.
  assert (detectGlobalVariableInitializerCycle fuel
            (Some (next_id (st_module st))) (img_getConstantAt img st1 a)
            (Some img) (Some a) st1 = Ret None st1) as Hdet.
  { unfold detectGlobalVariableInitializerCycle, bind, get.
    destruct (img_getConstantAt img st1 a) as [c|] eqn:Hc; [|reflexivity].
    apply Huntyped in Hc. rewrite decide_True by exact Hc.
    rewrite Htyped. reflexivity. }
  rewrite Hdet in *.
  unfold insertGlobalVariable, bind, get, modify_config, ret in *.
  simpl in *. rewrite lookup_insert_eq in *. simpl in *.
  eexists _, _, _. split; [reflexivity|]. simpl.
  repeat split; reflexivity.
Qed.

Lemma C2_witness :
  globalVariableCanBeCreated (st_config ex_state) (Some ex_image_unreadable)
    (Some 4096) false = true /\
  exists st' gl o,
    getGlobalVariable 1 (Some ex_image_unreadable) None (Some 4096) false
      "global_var" ex_state = Ret None st' /\
    globals (st_module st') =
      <[next_id (st_module ex_state) := gl]> (globals (st_module ex_state)) /\
    ginit gl = None /\
    cfg_globals (st_config st') =
      o :: filter (fun o' => co_addr o' <> 4096)
             (cfg_globals (st_config ex_state)) /\
    co_handle o = Some (next_id (st_module ex_state)) /\
    co_addr o = 4096.
Proof.
  assert (globalVariableCanBeCreated (st_config ex_state)
            (Some ex_image_unreadable) (Some 4096) false = true) as Hcan
    by (vm_compute; reflexivity).
  split; [exact Hcan|].
  apply (C2_unreadable_initializer_keeps_the_global 1 ex_image_unreadable None
           4096 false "global_var" ex_state Hcan).
  - vm_compute. reflexivity.
  - intros t. reflexivity.
  - intros s c Hc. discriminate Hc.
  - vm_compute. discriminate.
Defined.

(** ** Initializer cycles *)





Lemma closed_const_mono n n' c :
  (n <= n')%nat -> closed_const n c -> closed_const n' c.
Proof. intros Hle H g Hg. apply H in Hg. lia. Qed.

Lemma closed_globals_mono n n' m :
  (n <= n')%nat -> closed_globals n m -> closed_globals n' m.
Proof.
  intros Hle H g gl i Hgl Hi. eapply closed_const_mono; [exact Hle|].
  eapply H; eassumption.
Qed.



Lemma subst_const_eq old new c :
  subst_const old new c =
  if decide (c = old) then new
  else match c with
       | CCast op x t => CCast op (subst_const old new x) t
       | CExtractValue agg idx t =>
         CExtractValue (subst_const old new agg) idx t
       | CInsertValue agg elt idx =>
         CInsertValue (subst_const old new agg) (subst_const old new elt) idx
       | CAggregate t elems => CAggregate t (map (subst_const old new) elems)
       | _ => c
       end.
Proof. destruct c; reflexivity. Qed.









(** When the constant that is read has the type of the declaration, the
    global being built is not replaced in it: erasing that global, which
    the new initializer still uses, aborts. *)
Lemma getGlobalVariable_aborts_on_used_placeholder :
  getGlobalVariable 1 (Some ex_image_expr_word) None (Some 4096) false
    "global_var" ex_state = Abort.
Proof. vm_compute. reflexivity. Qed.

(** * Changing the type of an object *)

(** ** Conversions only insert fresh instructions *)

Lemma frame_refl n0 st : frame n0 st st.
Proof. split; auto. Qed.

Lemma frame_trans n0 st1 st2 st3 :
  frame n0 st1 st2 -> frame n0 st2 st3 -> frame n0 st1 st3.
Proof.
  intros [H1 H2 H3 H4] [K1 K2 K3 K4]. split.
  - lia.
  - congruence.
  - congruence.
  - intros i Hi. apply K4 in Hi as [Hi|Hi]; auto.
Qed.

Lemma framed_bind {A B} n0 (c : M A) (k : A -> M B) :
  framed n0 c -> (forall a, framed n0 (k a)) -> framed n0 (bind c k).
Proof.
  intros Hc Hk st b st' Hn H. apply bind_Ret in H as (a & st1 & H1 & H2).
  pose proof (Hc _ _ _ Hn H1) as F1.
  eapply frame_trans; [exact F1|].
  eapply Hk; [|exact H2]. destruct F1. lia.
Qed.

Lemma framed_ret {A} n0 (a : A) : framed n0 (ret a).
Proof. intros st b st' _ [= _ <-]. apply frame_refl. Qed.

Lemma framed_abort {A} n0 : framed n0 (@abort A).
Proof. intros st b st' _ H. discriminate. Qed.

Lemma framed_out_of_fuel {A} n0 : framed n0 (@out_of_fuel A).
Proof. intros st b st' _ H. discriminate. Qed.

Lemma framed_get n0 : framed n0 get.
Proof. intros st b st' _ [= _ <-]. apply frame_refl. Qed.

Lemma framed_nonnull {A} n0 (o : option A) : framed n0 (nonnull o).
Proof. destruct o; [apply framed_ret|apply framed_abort]. Qed.

(** A new instruction followed by what is done with it: the continuation
    inserts an instruction whose identity is at least the counter. *)
Lemma framed_newInst {B} n0 name k t (f : Inst -> M B) :
  (forall i, (n0 <= iid i)%nat -> framed n0 (f i)) ->
  framed n0 (bind (newInst name k t) f).
Proof.
  intros Hf st b st' Hn H. apply bind_Ret in H as (i & st1 & H1 & H2).
  apply newInst_state in H1 as [-> ->].
  eapply frame_trans; [|eapply (Hf _ _ _ _ _ _ H2)].
  - split; simpl; auto.
  Unshelve. all: simpl; lia.
Qed.

Lemma framed_insertBefore n0 i b :
  (n0 <= iid i)%nat -> framed n0 (insertBefore i b).
Proof.
  intros Hi st u st' _ H. apply insertBefore_Ret in H as [_ ->].
  split; simpl; auto. intros x Hx.
  apply elem_of_all_insts_map_blocks in Hx as (f & blk & Hf & Hblk & Hx).
  apply elem_of_ins_before in Hx as [->|Hx]; [auto|].
  left. apply elem_of_all_insts. eauto.
Qed.

Lemma framed_insertAfter n0 i a :
  (n0 <= iid i)%nat -> framed n0 (insertAfter i a).
Proof.
  intros Hi st u st' _ H. apply insertAfter_Ret in H as [_ ->].
  split; simpl; auto. intros x Hx.
  apply elem_of_all_insts_map_blocks in Hx as (f & blk & Hf & Hblk & Hx).
  apply elem_of_ins_after in Hx as [->|Hx]; [auto|].
  left. apply elem_of_all_insts. eauto.
Qed.

Lemma framed_insertBeforeAfter n0 i b a :
  (n0 <= iid i)%nat -> framed n0 (insertBeforeAfter i b a).
Proof.
  intros Hi. unfold insertBeforeAfter.
  apply framed_bind; [|intros; apply framed_ret].
  destruct b.
  - apply framed_insertBefore; exact Hi.
  - apply framed_bind; [apply framed_nonnull|].
    intros; apply framed_insertAfter; exact Hi.
Qed.

(** Walking through an operation of the monad. *)
Ltac framed_step :=
  match goal with
  | |- framed _ (bind (newInst _ _ _) _) =>
    apply framed_newInst; intros ? ?
  | |- framed _ (bind _ _) => apply framed_bind; [|intros ?]
  | |- framed _ (ret _) => apply framed_ret
  | |- framed _ abort => apply framed_abort
  | |- framed _ out_of_fuel => apply framed_out_of_fuel
  | |- framed _ get => apply framed_get
  | |- framed _ (nonnull _) => apply framed_nonnull
  | |- framed _ (insertBeforeAfter _ _ _) =>
    apply framed_insertBeforeAfter; assumption
  | |- framed _ (insertAfter _ _) => apply framed_insertAfter; assumption
  | |- framed _ (insertBefore _ _) => apply framed_insertBefore; assumption
  | |- framed _ (if ?b then _ else _) => destruct b
  | |- framed _ (match ?x with _ => _ end) => destruct x
  end.

Lemma framed_castStep n0 op v cval t b a ce :
  framed n0 (castStep op v cval t b a ce).
Proof. unfold castStep. repeat framed_step. Qed.

Lemma framed_convertToType n0 fuel :
  forall val type b a ce, framed n0 (convertToType fuel val type b a ce).
Proof.
  induction fuel as [|fuel IH]; intros val type b a ce; simpl.
  - apply framed_out_of_fuel.
  - cbv zeta.
    repeat first [apply IH | apply framed_castStep | framed_step].
Qed.

(** ** Replacements that keep types *)

Lemma typeOfC_subst_const o n c :
  typeOfC o = typeOfC n -> typeOfC (subst_const o n c) = typeOfC c.
Proof.
  intros Hon. induction c; simpl; destruct (decide _) as [e|];
    try (rewrite <- Hon, <- e; reflexivity); simpl; auto.
Qed.

Lemma typeOf_subst_value old new v :
  typeOf old = typeOf new -> typeOf (subst_value old new v) = typeOf v.
Proof.
  intros Hon. unfold subst_value. destruct (decide (v = old)) as [->|]; auto.
  destruct v, old, new; simpl; auto.
  apply typeOfC_subst_const. exact Hon.
Qed.

Lemma typeOf_replace_value from to v :
  typeOf to = typeOf from -> typeOf (replace_value from to v) = typeOf v.
Proof.
  intros H. unfold replace_value. destruct (decide (v = from)) as [->|]; auto.
Qed.

Lemma replaceUsesOfWith_map_operands from to k :
  replaceUsesOfWith from to k = map_operands (replace_value from to) k.
Proof. destruct k; reflexivity. Qed.

Lemma wt_inst_map_operands r i :
  (forall v, typeOf (r v) = typeOf v) ->
  wt_inst i -> wt_inst (map_inst (map_operands r) i).
Proof.
  intros Hr. unfold wt_inst, map_inst. destruct (ikind i); simpl;
    rewrite ?Hr; auto.
  intros <-. rewrite map_map. apply map_ext. intros v. apply Hr.
Qed.

Lemma shape_map_operands r k : shape (map_operands r k) = shape k.
Proof. destruct k; reflexivity. Qed.

Lemma wt_global_subst_init old new gl :
  typeOf old = typeOf new -> wt_global gl -> wt_global (subst_init old new gl).
Proof.
  intros Hon Hgl. unfold subst_init. destruct old, new; auto.
  intros k Hk. unfold wt_global in Hgl. simpl in *.
  destruct (ginit gl) as [i|]; [|discriminate].
  simpl in Hk. injection Hk as <-. rewrite typeOfC_subst_const by exact Hon.
  apply Hgl. reflexivity.
Qed.

Lemma Ty_not_pointer_to_itself t : t <> TPtr t.
Proof. induction t; try discriminate. intros [= H]. auto. Qed.

(** ** The invariant of the loop of [changeObjectType] *)

Lemma elem_of_all_insts_map f m x :
  x ∈ all_insts (map_blocks (map f) m) <->
  exists i, i ∈ all_insts m /\ x = f i.
Proof.
  rewrite elem_of_all_insts_map_blocks. split.
  - intros (fn & blk & Hf & Hblk & Hx).
    apply list_elem_of_fmap in Hx as (i & -> & Hi).
    exists i. split; [|reflexivity]. apply elem_of_all_insts. eauto.
  - intros (i & Hi & ->). apply elem_of_all_insts in Hi as (fn & blk & ? & ? & ?).
    exists fn, blk. split; [assumption|]. split; [assumption|].
    apply list_elem_of_fmap. eauto.
Qed.

Lemma loop_inv_tail st0 val s u rest :
  loop_inv st0 val s (u :: rest) -> loop_inv st0 val s rest.
Proof.
  intros [H1 H2 H3 H4 H5 H6]. split; auto.
  - intros i src dst Hi Hlt Hk Hin. eapply H3; eauto. right. exact Hin.
  - intros i0 src dst Hi Hk. specialize (H4 i0 src dst Hi Hk).
    simpl in H4. destruct (User_eq_dec u (UInst (iid i0))); lia.
  - intros id Hin. apply H5. right. exact Hin.
  - intros c Hin. apply H6. right. exact Hin.
Qed.

(** One step that keeps the old instructions, up to their operands. *)
Lemma loop_inv_step st0 val s s' rest :
  loop_inv st0 val s rest ->
  (next_id (st_module s) <= next_id (st_module s'))%nat ->
  (forall g gl, globals (st_module s') !! g = Some gl -> wt_global gl) ->
  (forall i', i' ∈ all_insts (st_module s') ->
     (iid i' < next_id (st_module st0))%nat ->
     exists i, i ∈ all_insts (st_module s) /\ iid i = iid i' /\
       shape (ikind i) = shape (ikind i') /\
       (wt_inst i -> wt_inst i') /\
       (forall src' dst', ikind i' = KStore src' dst' ->
          UInst (iid i') ∈ rest ->
          (forall src dst, ikind i = KStore src dst ->
             dst = val \/ typeOf src = typeOf val) ->
          dst' = val \/ typeOf src' = typeOf val)) ->
  loop_inv st0 val s' rest.
Proof.
  intros [[T1 T2 T3] H2 H3 H4 H5 H6] Hn Hg Hi.
  split; [| | |exact H4|exact H5|exact H6].
  - split; [lia| |exact Hg].
    intros i' Hin Hlt. destruct (Hi i' Hin Hlt) as (i & Hi0 & Hid & _ & Hwt & _).
    apply Hwt, T2; [exact Hi0|lia].
  - intros i' Hin Hlt. destruct (Hi i' Hin Hlt) as (i & Hi0 & Hid & Hsh & _).
    destruct (H2 i Hi0) as (i0 & ? & ? & ?); [lia|].
    exists i0. repeat split; congruence.
  - intros i' src' dst' Hin Hlt Hk Hrest.
    destruct (Hi i' Hin Hlt) as (i & Hi0 & Hid & _ & _ & Hp).
    apply (Hp src' dst' Hk Hrest). intros src dst Hk0.
    apply (H3 i src dst Hi0); [lia|exact Hk0|]. rewrite Hid. exact Hrest.
Qed.

Lemma loop_inv_frame st0 val s s' rest :
  loop_inv st0 val s rest ->
  frame (next_id (st_module st0)) s s' ->
  loop_inv st0 val s' rest.
Proof.
  intros Hinv [F1 F2 F3 F4]. apply (loop_inv_step _ _ _ _ _ Hinv F1).
  - rewrite F2. apply Hinv.
  - intros i' Hin Hlt. destruct (F4 i' Hin) as [Hold|Hnew]; [|lia].
    exists i'. repeat split; eauto.
Qed.

Lemma loop_inv_replaceAllUsesWith st0 val s rest old new u s' :
  loop_inv st0 val s rest ->
  typeOf old = typeOf new ->
  subst_value old new val = val ->
  replaceAllUsesWith old new s = Ret u s' ->
  loop_inv st0 val s' rest.
Proof.
  intros Hinv Hty Hval [= _ <-].
  apply (loop_inv_step _ _ _ _ _ Hinv); simpl; [lia| |].
  - intros g gl Hg. rewrite lookup_fmap in Hg.
    destruct (globals (st_module s) !! g) as [gl0|] eqn:E; [|discriminate].
    injection Hg as <-. apply wt_global_subst_init; [exact Hty|].
    eapply Hinv. exact E.
  - intros i' Hin Hlt.
    change (i' ∈ all_insts (map_blocks
      (map (map_inst (map_operands (subst_value old new)))) (st_module s)))
      in Hin.
    apply elem_of_all_insts_map in Hin as (i & Hi & ->).
    exists i. split; [exact Hi|]. split; [reflexivity|].
    split; [simpl; symmetry; apply shape_map_operands|].
    split.
    + apply wt_inst_map_operands. intros v.
      apply typeOf_subst_value, Hty.
    + simpl. intros src' dst' Hk _ H. destruct (ikind i); try discriminate.
      simpl in Hk. injection Hk as <- <-.
      destruct (H _ _ eq_refl) as [->|Hs]; [left; exact Hval|].
      right. rewrite typeOf_subst_value by exact Hty. exact Hs.
Qed.

Lemma loop_inv_eraseFromParent st0 val s rest id u s' :
  loop_inv st0 val s rest ->
  eraseFromParent id s = Ret u s' ->
  loop_inv st0 val s' rest.
Proof.
  intros Hinv [= _ <-].
  apply (loop_inv_step _ _ _ _ _ Hinv); simpl; [lia|apply Hinv|].
  intros i' Hin Hlt.
  apply elem_of_all_insts_map_blocks in Hin as (f & blk & Hf & Hblk & Hx).
  apply list_elem_of_filter in Hx as [_ Hx].
  exists i'. split; [apply elem_of_all_insts; eauto|].
  repeat split; eauto.
Qed.

Lemma loop_inv_eraseOrDefer st0 val s rest id e e' s' :
  loop_inv st0 val s rest ->
  eraseOrDefer id e s = Ret e' s' ->
  loop_inv st0 val s' rest.
Proof.
  intros Hinv H. destruct e as [l|]; simpl in H.
  - injection H as _ <-. exact Hinv.
  - apply bind_Ret in H as (u & s1 & H1 & H2). injection H2 as _ <-.
    eapply loop_inv_eraseFromParent; eauto.
Qed.

Lemma loop_inv_set_inst_kind st0 val s rest id a b u s' :
  loop_inv st0 val s rest ->
  typeOf b = TPtr (typeOf a) ->
  (forall i, i ∈ all_insts (st_module s) -> iid i = id ->
     shape (ikind i) = 2%nat) ->
  (UInst id ∈ rest -> b = val \/ typeOf a = typeOf val) ->
  set_inst_kind id (KStore a b) s = Ret u s' ->
  loop_inv st0 val s' rest.
Proof.
  intros Hinv Hty Hsh Hp [= _ <-].
  apply (loop_inv_step _ _ _ _ _ Hinv); simpl; [lia|apply Hinv|].
  intros i' Hin Hlt. apply elem_of_all_insts_map in Hin as (i & Hi & ->).
  exists i. split; [exact Hi|]. case_bool_decide as Hid; [|repeat split; eauto].
  simpl. repeat split.
  - apply Hsh; assumption.
  - intros _. exact Hty.
  - intros src' dst' [= <- <-] Hrest _. apply Hp. rewrite <- Hid. exact Hrest.
Qed.

Lemma loop_inv_instReplaceUsesOfWith st0 val s rest id to u s' :
  loop_inv st0 val s rest ->
  typeOf to = typeOf val ->
  (forall i, i ∈ all_insts (st_module s) -> iid i = id ->
     shape (ikind i) <> 2%nat) ->
  instReplaceUsesOfWith id val to s = Ret u s' ->
  loop_inv st0 val s' rest.
Proof.
  intros Hinv Hty Hsh H. unfold instReplaceUsesOfWith, bind, get in H.
  destruct (has_inst _ _); [|discriminate]. injection H as _ <-.
  apply (loop_inv_step _ _ _ _ _ Hinv); simpl; [lia|apply Hinv|].
  intros i' Hin Hlt. apply elem_of_all_insts_map in Hin as (i & Hi & ->).
  exists i. split; [exact Hi|]. case_bool_decide as Hid; [|repeat split; eauto].
  simpl. rewrite replaceUsesOfWith_map_operands. repeat split.
  - symmetry. apply shape_map_operands.
  - apply wt_inst_map_operands. intros v. apply typeOf_replace_value, Hty.
  - intros src' dst' Hk _ _. exfalso. apply (Hsh i Hi Hid).
    rewrite <- (shape_map_operands (replace_value val to)), Hk. reflexivity.
Qed.

Lemma loop_inv_set_global st0 val s rest g gl u s' :
  loop_inv st0 val s rest ->
  wt_global gl ->
  set_global g gl s = Ret u s' ->
  loop_inv st0 val s' rest.
Proof.
  intros Hinv Hgl [= _ <-].
  apply (loop_inv_step _ _ _ _ _ Hinv); simpl; [lia| |].
  - intros g' gl' Hg. destruct (decide (g = g')) as [->|Hne].
    + rewrite lookup_insert_eq in Hg. injection Hg as <-. exact Hgl.
    + rewrite lookup_insert_ne in Hg by exact Hne. eapply Hinv. exact Hg.
  - intros i' Hin Hlt. exists i'. repeat split; eauto.
Qed.

Lemma loop_inv_convertValueToType st0 val s rest fuel v t b r s' :
  loop_inv st0 val s rest ->
  convertValueToType fuel (Some v) (Some t) (Some b) s = Ret r s' ->
  loop_inv st0 val s' rest /\ exists v', r = Some v' /\ typeOf v' = t.
Proof.
  intros Hinv H. unfold convertValueToType in H. split.
  - eapply loop_inv_frame; [exact Hinv|].
    eapply framed_convertToType; [|exact H]. apply Hinv.
  - apply convertToType_spec in H as (v' & -> & Hty & _).
    + eauto.
    + right. left. discriminate.
Qed.

Lemma loop_inv_newInst st0 val s rest name k t i s' :
  loop_inv st0 val s rest ->
  newInst name k t s = Ret i s' ->
  loop_inv st0 val s' rest /\ (next_id (st_module st0) <= iid i)%nat.
Proof.
  intros Hinv H. apply newInst_state in H as [-> ->]. split.
  - eapply loop_inv_frame; [exact Hinv|]. split; simpl; auto.
  - simpl. apply Hinv.
Qed.

Lemma loop_inv_insertBefore st0 val s rest i b u s' :
  loop_inv st0 val s rest ->
  (next_id (st_module st0) <= iid i)%nat ->
  insertBefore i b s = Ret u s' ->
  loop_inv st0 val s' rest.
Proof.
  intros Hinv Hi H. eapply loop_inv_frame; [exact Hinv|].
  eapply framed_insertBefore; [exact Hi| |exact H]. apply Hinv.
Qed.

Lemma getPointerElementType_Some t e :
  getPointerElementType t = Some e -> t = TPtr e.
Proof. destruct t; try discriminate. intros [= ->]. reflexivity. Qed.

Section Loop.
Variable st0 : State.
Variable val : Value.
Hypothesis Huniq : forall i j,
  i ∈ all_insts (st_module st0) -> j ∈ all_insts (st_module st0) ->
  iid i = iid j -> i = j.
Hypothesis Hfresh : forall i,
  i ∈ all_insts (st_module st0) -> (iid i < next_id (st_module st0))%nat.
Hypothesis Hatomic : forall old new, old <> val -> subst_value old new val = val.
Hypothesis Hobject : forall a t, val = VInst a t ->
  forall j, j ∈ all_insts (st_module st0) -> iid j = a ->
    shape (ikind j) = 0%nat.

Lemma shape_by_id s1 rest1 s2 rest2 i j :
  loop_inv st0 val s1 rest1 -> loop_inv st0 val s2 rest2 ->
  i ∈ all_insts (st_module s1) -> j ∈ all_insts (st_module s2) ->
  iid i = iid j -> (iid i < next_id (st_module st0))%nat ->
  shape (ikind i) = shape (ikind j).
Proof.
  intros H1 H2 Hi Hj Hid Hlt.
  destruct (li_shape _ _ _ _ H1 i Hi Hlt) as (i0 & Hi0 & Hid0 & <-).
  destruct (li_shape _ _ _ _ H2 j Hj) as (j0 & Hj0 & Hjd0 & <-); [lia|].
  rewrite (Huniq i0 j0); auto. congruence.
Qed.

Lemma val_not_result s rest i :
  loop_inv st0 val s rest ->
  i ∈ all_insts (st_module s) -> (iid i < next_id (st_module st0))%nat ->
  shape (ikind i) <> 0%nat -> valueOf i <> val.
Proof.
  intros Hinv Hi Hlt Hsh Heq. unfold valueOf in Heq.
  destruct (li_shape _ _ _ _ Hinv i Hi Hlt) as (i0 & Hi0 & Hid0 & Hs0).
  apply Hsh. rewrite <- Hs0. eapply Hobject; eauto.
Qed.

Lemma changeUser_inv fuel nval u rest e s e' s' :
  loop_inv st0 val s (u :: rest) ->
  changeUser fuel val nval (typeOf val) u e s = Ret e' s' ->
  loop_inv st0 val s' rest.
Proof.
  intros Hhead H. pose proof (loop_inv_tail _ _ _ _ _ Hhead) as Hinv.
  unfold changeUser in H. cbv zeta in H.
  apply bind_Ret in H as (s0 & s0' & [= <- <-] & H).
  destruct u as [id|g|c].
  - (* an instruction *)
    apply bind_Ret in H as (i & s1 & Hl & H).
    apply nonnull_Ret in Hl as [Hl ->].
    apply lookup_inst_Some in Hl as [Hi Hid].
    assert (Hlt : (iid i < next_id (st_module st0))%nat).
    { destruct (li_ids _ _ _ _ Hhead id) as (j & Hj & Hjd); [left|].
      rewrite Hid, <- Hjd. apply Hfresh, Hj. }
    assert (Hwt : wt_inst i) by (apply Hhead; assumption).
    assert (Hsame : forall s2 j, loop_inv st0 val s2 rest ->
              j ∈ all_insts (st_module s2) -> iid j = id ->
              shape (ikind j) = shape (ikind i)).
    { intros s2 j H2 Hj Hjd. symmetry.
      apply (shape_by_id _ _ _ _ i j Hhead H2 Hi Hj); [congruence|exact Hlt]. }
    assert (Hres : shape (ikind i) <> 0%nat -> valueOf i <> val).
    { apply (val_not_result _ _ _ Hhead Hi Hlt). }
    unfold wt_inst in Hwt.
    destruct (ikind i) as [t|p|src dst|op x|agg idx|agg elt idx|opc ops sig]
      eqn:Ek.
    + (* alloca *)
      apply bind_Ret in H as (r & s1 & Hc & H);
      apply (loop_inv_convertValueToType _ _ _ _ _ _ _ _ _ _ Hinv) in Hc
        as [Hinv1 (conv & -> & Hty)];
      apply bind_Ret in H as (conv' & s2 & Hnn & H);
      apply nonnull_Ret in Hnn as [[= <-] ->];
      apply bind_Ret in H as (u1 & s3 & Hr & H);
      injection H as _ <-;
      destruct (decide (val <> conv));
        [|injection Hr as _ <-; exact Hinv1];
      eapply loop_inv_instReplaceUsesOfWith;
        [exact Hinv1|exact Hty| |exact Hr];
      intros j Hj Hjd; rewrite (Hsame _ j Hinv1 Hj Hjd); discriminate.
    + (* load *)
      destruct (negb (bool_decide (val = p))); [discriminate|].
      apply bind_Ret in H as (lt & s1 & Hlt' & H).
      apply nonnull_Ret in Hlt' as [Hlt' ->].
      apply bind_Ret in H as (newLoad & s1 & Hnew & H).
      apply (loop_inv_newInst _ _ _ _ _ _ _ _ _ Hinv) in Hnew as [Hinv1 Hn].
      apply bind_Ret in H as (u1 & s2 & Hins & H).
      apply (loop_inv_insertBefore _ _ _ _ _ _ _ _ Hinv1 Hn) in Hins.
      apply bind_Ret in H as (r & s3 & Hc & H).
      apply (loop_inv_convertValueToType _ _ _ _ _ _ _ _ _ _ Hins) in Hc
        as [Hinv3 (conv & -> & Hty)].
      apply bind_Ret in H as (conv' & s4 & Hnn & H).
      apply nonnull_Ret in Hnn as [[= <-] ->].
      destruct (decide (conv <> valueOf i)).
      * apply bind_Ret in H as (u2 & s5 & Hr & H).
        eapply loop_inv_eraseOrDefer; [|exact H].
        eapply loop_inv_replaceAllUsesWith; [exact Hinv3| | |exact Hr].
        -- rewrite Hty. reflexivity.
        -- apply Hatomic, Hres. discriminate.
      * injection H as _ <-. exact Hinv3.
    + (* store *)
      assert (Honce : UInst id ∉ rest).
      { destruct (li_shape _ _ _ _ Hhead i Hi Hlt) as (i0 & Hi0 & Hid0 & Hs0).
        rewrite Ek in Hs0. destruct (ikind i0) eqn:Ek0; try discriminate.
        pose proof (li_once _ _ _ _ Hhead i0 _ _ Hi0 Ek0) as Hc.
        rewrite Hid0, Hid in Hc.
        rewrite count_occ_cons_eq in Hc by reflexivity.
        rewrite list_elem_of_In.
        apply (count_occ_not_In User_eq_dec). lia. }
      destruct (decide (val = dst)) as [Hdst|Hdst].
      * apply bind_Ret in H as (elt & s1 & He & H).
        apply nonnull_Ret in He as [He ->].
        apply getPointerElementType_Some in He.
        apply bind_Ret in H as (r & s1 & Hc & H).
        apply (loop_inv_convertValueToType _ _ _ _ _ _ _ _ _ _ Hinv) in Hc
          as [Hinv1 (conv & -> & Hty)].
        apply bind_Ret in H as (conv' & s2 & Hnn & H).
        apply nonnull_Ret in Hnn as [[= <-] ->].
        apply bind_Ret in H as (u1 & s3 & Hr & H).
        injection H as _ <-.
        eapply loop_inv_set_inst_kind; [exact Hinv1| | | |exact Hr].
        -- rewrite He, Hty. reflexivity.
        -- intros j Hj Hjd. rewrite (Hsame _ j Hinv1 Hj Hjd). reflexivity.
        -- intros Hin. contradiction.
      * apply bind_Ret in H as (r & s1 & Hc & H).
        apply (loop_inv_convertValueToType _ _ _ _ _ _ _ _ _ _ Hinv) in Hc
          as [Hinv1 (conv & -> & Hty)].
        apply bind_Ret in H as (conv' & s2 & Hnn & H).
        apply nonnull_Ret in Hnn as [[= <-] ->].
        apply bind_Ret in H as (u1 & s3 & Hr & H).
        injection H as _ <-.
        eapply loop_inv_set_inst_kind; [exact Hinv1| | | |exact Hr].
        -- assert (Hp : dst = val \/ typeOf src = typeOf val).
           { apply (li_pending _ _ _ _ Hhead i src dst Hi Hlt Ek).
             rewrite Hid. left. }
           destruct Hp as [Hp|Hp]; [congruence|].
           rewrite Hwt, Hty, Hp. reflexivity.
        -- intros j Hj Hjd. rewrite (Hsame _ j Hinv1 Hj Hjd). reflexivity.
        -- intros _. right. exact Hty.
    + (* cast *)
      destruct (decide (typeOf nval = ity i)) as [Hsame_ty|Hdiff].
      * destruct (decide (val <> valueOf i)) as [Hne|].
        -- apply bind_Ret in H as (u2 & s5 & Hr & H).
           eapply loop_inv_eraseOrDefer; [|exact H].
           eapply loop_inv_replaceAllUsesWith; [exact Hinv| | |exact Hr].
           ++ rewrite Hsame_ty. reflexivity.
           ++ apply Hatomic. congruence.
        -- injection H as _ <-. exact Hinv.
      * apply bind_Ret in H as (r & s1 & Hc & H).
        apply (loop_inv_convertValueToType _ _ _ _ _ _ _ _ _ _ Hinv) in Hc
          as [Hinv1 (conv & -> & Hty)].
        apply bind_Ret in H as (conv' & s2 & Hnn & H).
        apply nonnull_Ret in Hnn as [[= <-] ->].
        destruct (decide (valueOf i <> conv)).
        -- apply bind_Ret in H as (u2 & s5 & Hr & H).
           eapply loop_inv_eraseOrDefer; [|exact H].
           eapply loop_inv_replaceAllUsesWith; [exact Hinv1| | |exact Hr].
           ++ rewrite Hty. reflexivity.
           ++ apply Hatomic, Hres. discriminate.
        -- injection H as _ <-. exact Hinv1.
    + apply bind_Ret in H as (r & s1 & Hc & H);
      apply (loop_inv_convertValueToType _ _ _ _ _ _ _ _ _ _ Hinv) in Hc
        as [Hinv1 (conv & -> & Hty)];
      apply bind_Ret in H as (conv' & s2 & Hnn & H);
      apply nonnull_Ret in Hnn as [[= <-] ->];
      apply bind_Ret in H as (u1 & s3 & Hr & H);
      injection H as _ <-;
      destruct (decide (val <> conv));
        [|injection Hr as _ <-; exact Hinv1];
      eapply loop_inv_instReplaceUsesOfWith;
        [exact Hinv1|exact Hty| |exact Hr];
      intros j Hj Hjd; rewrite (Hsame _ j Hinv1 Hj Hjd); discriminate.
    + apply bind_Ret in H as (r & s1 & Hc & H);
      apply (loop_inv_convertValueToType _ _ _ _ _ _ _ _ _ _ Hinv) in Hc
        as [Hinv1 (conv & -> & Hty)];
      apply bind_Ret in H as (conv' & s2 & Hnn & H);
      apply nonnull_Ret in Hnn as [[= <-] ->];
      apply bind_Ret in H as (u1 & s3 & Hr & H);
      injection H as _ <-;
      destruct (decide (val <> conv));
        [|injection Hr as _ <-; exact Hinv1];
      eapply loop_inv_instReplaceUsesOfWith;
        [exact Hinv1|exact Hty| |exact Hr];
      intros j Hj Hjd; rewrite (Hsame _ j Hinv1 Hj Hjd); discriminate.
    + apply bind_Ret in H as (r & s1 & Hc & H);
      apply (loop_inv_convertValueToType _ _ _ _ _ _ _ _ _ _ Hinv) in Hc
        as [Hinv1 (conv & -> & Hty)];
      apply bind_Ret in H as (conv' & s2 & Hnn & H);
      apply nonnull_Ret in Hnn as [[= <-] ->];
      apply bind_Ret in H as (u1 & s3 & Hr & H);
      injection H as _ <-;
      destruct (decide (val <> conv));
        [|injection Hr as _ <-; exact Hinv1];
      eapply loop_inv_instReplaceUsesOfWith;
        [exact Hinv1|exact Hty| |exact Hr];
      intros j Hj Hjd; rewrite (Hsame _ j Hinv1 Hj Hjd); discriminate.
  - (* a global variable initialized with the object *)
    destruct (dyn_cast_Constant nval) as [nc|]; [|discriminate].
    apply bind_Ret in H as (gvDeclr & s1 & Hg & H).
    apply nonnull_Ret in Hg as [Hg ->].
    apply bind_Ret in H as (r & s1 & Hc & H).
    apply convertConstantToType_Ret in Hc as [-> (conv & -> & Hty)].
    apply bind_Ret in H as (conv' & s2 & Hnn & H).
    apply nonnull_Ret in Hnn as [[= <-] ->].
    apply bind_Ret in H as (u1 & s3 & Hr & H).
    injection H as _ <-.
    destruct (decide (dyn_cast_GlobalVariable conv <> Some g));
      [|injection Hr as _ <-; exact Hinv].
    eapply loop_inv_set_global; [exact Hinv| |exact Hr].
    intros k Hk. simpl in *.
    destruct (ginit gvDeclr) as [i0|] eqn:Ei; [|discriminate].
    simpl in Hk. injection Hk as <-.
    destruct (decide (VConst i0 = val)); [exact Hty|].
    eapply (tu_globals _ _ (li_typed _ _ _ _ Hinv)); eassumption.
  - (* a constant built from the object *)
    destruct (dyn_cast_Constant nval) as [nc|]; [|discriminate].
    apply bind_Ret in H as (r & s1 & Hc & H).
    apply convertConstantToType_Ret in Hc as [-> (conv & -> & Hty)].
    apply bind_Ret in H as (conv' & s2 & Hnn & H).
    apply nonnull_Ret in Hnn as [[= <-] ->].
    apply bind_Ret in H as (u1 & s3 & Hr & H).
    injection H as _ <-.
    destruct (decide (c <> conv)); [|injection Hr as _ <-; exact Hinv].
    eapply loop_inv_replaceAllUsesWith; [exact Hinv| | |exact Hr].
    + simpl. congruence.
    + apply Hatomic. apply (li_consts _ _ _ _ Hhead). left.
Qed.


End Loop.

Lemma changeUsers_inv st0 val fuel nval users :
  (forall i j, i ∈ all_insts (st_module st0) ->
     j ∈ all_insts (st_module st0) -> iid i = iid j -> i = j) ->
  (forall i, i ∈ all_insts (st_module st0) ->
     (iid i < next_id (st_module st0))%nat) ->
  (forall old new, old <> val -> subst_value old new val = val) ->
  (forall a t, val = VInst a t ->
     forall j, j ∈ all_insts (st_module st0) -> iid j = a ->
       shape (ikind j) = 0%nat) ->
  forall e s e' s',
    loop_inv st0 val s users ->
    changeUsers fuel val nval (typeOf val) users e s = Ret e' s' ->
    loop_inv st0 val s' [].
Proof.
  intros Huniq Hfresh Hatomic Hobject.
  induction users as [|u rest IH]; intros e s e' s' Hinv H; simpl in H.
  - injection H as _ <-. exact Hinv.
  - apply bind_Ret in H as (e1 & s1 & H1 & H2).
    eapply IH; [|exact H2].
    eapply changeUser_inv; eauto.
Qed.

(** ** The users of a value *)

Lemma elem_of_users_of_inst m val id :
  UInst id ∈ users_of m val ->
  exists j, j ∈ all_insts m /\ iid j = id /\ val ∈ operands (ikind j).
Proof.
  unfold users_of. rewrite elem_of_app. intros [H|H].
  - apply list_elem_of_In, in_flat_map in H as (j & Hj & H).
    apply in_flat_map in H as (v & Hv & H).
    destruct (decide (v = val)) as [->|]; [|destruct H].
    destruct H as [[= <-]|[]]. exists j. rewrite !list_elem_of_In. auto.
  - exfalso. destruct val as [| |c]; try (inversion H; fail).
    apply elem_of_app in H as [H|H];
      apply list_elem_of_In, in_flat_map in H as (x & _ & H).
    + destruct x as [g gl]. destruct (ginit gl) as [i|]; [|destruct H].
      apply in_app_or in H as [H|H].
      * destruct (decide (i = c)); [destruct H as [H|[]]; discriminate|destruct H].
      * apply in_map_iff in H as (? & ? & _). discriminate.
    + apply in_flat_map in H as (v & _ & H). destruct v; try destruct H.
      simpl in H. apply in_map_iff in H as (? & ? & _). discriminate.
Qed.

Lemma const_users_operand vc :
  forall x c, c ∈ const_users vc x -> vc ∈ const_operands c.
Proof.
  fix IH 1. intros x c. destruct x; simpl;
    try (intros H; inversion H; fail); rewrite elem_of_app;
    (intros [H|H];
     [case_bool_decide; [apply list_elem_of_singleton in H as ->; assumption
                        |inversion H]|]);
    try (inversion H; fail); try (apply IH in H; exact H).
  - apply elem_of_app in H as [H|H]; apply IH in H; exact H.
  - revert H. induction elems as [|a elems IHe]; simpl.
    + intros H. inversion H.
    + rewrite elem_of_app. intros [H|H]; [apply IH in H; exact H|auto].
Qed.

Lemma elem_of_users_of_const m val c :
  UConst c ∈ users_of m val ->
  exists vc, val = VConst vc /\ vc ∈ const_operands c.
Proof.
  unfold users_of. rewrite elem_of_app. intros [H|H].
  - apply list_elem_of_In, in_flat_map in H as (j & Hj & H).
    apply in_flat_map in H as (v & Hv & H).
    destruct (decide (v = val)); [destruct H as [H|[]]; discriminate|destruct H].
  - destruct val as [| |vc]; try (inversion H; fail).
    exists vc. split; [reflexivity|].
    apply elem_of_app in H as [H|H];
      apply list_elem_of_In, in_flat_map in H as (x & _ & H).
    + destruct x as [g gl]. destruct (ginit gl) as [i|]; [|destruct H].
      apply in_app_or in H as [H|H].
      * destruct (decide (i = vc)); [destruct H as [H|[]]; discriminate|destruct H].
      * apply in_map_iff in H as (c' & [= ->] & H).
        apply list_elem_of_In in H. eapply const_users_operand, H.
    + apply in_flat_map in H as (v & _ & H). destruct v; try destruct H.
      simpl in H. apply in_map_iff in H as (c' & [= ->] & H).
      apply list_elem_of_In in H. eapply const_users_operand, H.
Qed.

(** The entries of an instruction in the list of users. *)
Lemma count_occ_inst_users val id (l : list Inst) :
  NoDup (map iid l) ->
  (forall i, i ∈ l -> iid i = id ->
     (count_occ User_eq_dec
        (flat_map (fun v => if decide (v = val) then [UInst (iid i)] else [])
           (operands (ikind i))) (UInst id) <= 1)%nat) ->
  (count_occ User_eq_dec
     (flat_map (fun i =>
        flat_map (fun v => if decide (v = val) then [UInst (iid i)] else [])
          (operands (ikind i))) l) (UInst id) <= 1)%nat.
Proof.
  assert (Hother : forall i : Inst, iid i <> id ->
    count_occ User_eq_dec
      (flat_map (fun v => if decide (v = val) then [UInst (iid i)] else [])
         (operands (ikind i))) (UInst id) = 0%nat).
  { intros i Hne. apply count_occ_not_In. intros H.
    apply in_flat_map in H as (v & _ & H).
    destruct (decide (v = val)); [|destruct H].
    destruct H as [[= H]|[]]. contradiction. }
  induction l as [|a l IH]; simpl; intros Hnd Hone; [lia|].
  apply NoDup_cons in Hnd as [Ha Hnd]. rewrite count_occ_app.
  destruct (decide (iid a = id)) as [Hid|Hid].
  - specialize (Hone a (list_elem_of_here _ _) Hid).
    assert (count_occ User_eq_dec
      (flat_map (fun i =>
         flat_map (fun v => if decide (v = val) then [UInst (iid i)] else [])
           (operands (ikind i))) l) (UInst id) = 0%nat) as ->; [|lia].
    apply count_occ_not_In. intros H.
    apply in_flat_map in H as (j & Hj & H).
    apply in_flat_map in H as (v & _ & H).
    destruct (decide (v = val)); [|destruct H].
    destruct H as [[= H]|[]]. apply Ha. rewrite Hid, <- H.
    apply list_elem_of_fmap. exists j. split; [reflexivity|].
    apply list_elem_of_In. exact Hj.
  - rewrite (Hother a Hid). simpl. apply IH; [exact Hnd|].
    intros i Hi. apply Hone. right. exact Hi.
Qed.

Lemma NoDup_iid_inj (l : list Inst) i j :
  NoDup (map iid l) -> i ∈ l -> j ∈ l -> iid i = iid j -> i = j.
Proof.
  induction l as [|a l IH]; simpl; intros Hnd Hi Hj Hid; [inversion Hi|].
  apply NoDup_cons in Hnd as [Ha Hnd].
  apply elem_of_cons in Hi as [->|Hi]; apply elem_of_cons in Hj as [->|Hj];
    auto; exfalso; apply Ha.
  - rewrite Hid. apply list_elem_of_fmap. eauto.
  - rewrite <- Hid. apply list_elem_of_fmap. eauto.
Qed.

Lemma count_occ_users_of_store m val i src dst :
  NoDup (map iid (all_insts m)) ->
  i ∈ all_insts m -> ikind i = KStore src dst -> src <> dst ->
  (count_occ User_eq_dec (users_of m val) (UInst (iid i)) <= 1)%nat.
Proof.
  intros Hnd Hi Hk Hne. unfold users_of. rewrite count_occ_app.
  match goal with |- (_ + ?c <= 1)%nat => assert (c = 0%nat) as -> end.
  { apply count_occ_not_In. intros H.
    destruct val as [| |c]; try destruct H.
    apply in_app_or in H as [H|H]; apply in_flat_map in H as (x & _ & H).
    + destruct x as [g gl]. destruct (ginit gl) as [i0|]; [|destruct H].
      apply in_app_or in H as [H|H].
      * destruct (decide (i0 = c)); [destruct H as [H|[]]; discriminate|destruct H].
      * apply in_map_iff in H as (? & ? & _). discriminate.
    + apply in_flat_map in H as (v & _ & H). destruct v; try destruct H.
      simpl in H. apply in_map_iff in H as (? & ? & _). discriminate. }
  rewrite Nat.add_0_r. apply count_occ_inst_users; [exact Hnd|].
  intros j Hj Hid. rewrite (NoDup_iid_inj _ j i Hnd Hj Hi Hid), Hk.
  cbn [operands flat_map].
  destruct (decide (src = val)) as [Hs|Hs];
    destruct (decide (dst = val)) as [Hd|Hd]; [congruence| | |];
    cbn [app]; rewrite ?count_occ_cons_eq by reflexivity;
    rewrite ?count_occ_nil; lia.
Qed.

Lemma loop_inv_init st val :
  NoDup (map iid (all_insts (st_module st))) ->
  (forall i, i ∈ all_insts (st_module st) ->
     (iid i < next_id (st_module st))%nat) ->
  (forall i, i ∈ all_insts (st_module st) -> wt_inst i) ->
  (forall g gl, globals (st_module st) !! g = Some gl -> wt_global gl) ->
  (forall vc, val = VConst vc -> const_operands vc = []) ->
  loop_inv st val st (users_of (st_module st) val).
Proof.
  intros Hnd Hfresh Hwt Hgl Hobj. split.
  - split; [lia|auto|exact Hgl].
  - intros i Hi _. exists i. auto.
  - intros i src dst Hi _ Hk Hu.
    apply elem_of_users_of_inst in Hu as (j & Hj & Hid & Hop).
    rewrite (NoDup_iid_inj _ j i Hnd Hj Hi Hid), Hk in Hop. simpl in Hop.
    apply elem_of_cons in Hop as [<-|Hop]; [right; reflexivity|].
    apply list_elem_of_singleton in Hop as <-. left. reflexivity.
  - intros i src dst Hi Hk.
    apply (count_occ_users_of_store _ _ _ src dst Hnd Hi Hk).
    intros ->. specialize (Hwt i Hi). unfold wt_inst in Hwt.
    rewrite Hk in Hwt. eapply Ty_not_pointer_to_itself, Hwt.
  - intros id Hu. apply elem_of_users_of_inst in Hu as (j & Hj & Hid & _).
    eauto.
  - intros c Hu Heq. apply elem_of_users_of_const in Hu as (vc & -> & Hop).
    injection Heq as ->. rewrite (Hobj vc eq_refl) in Hop. inversion Hop.
Qed.

Lemma object_atomic m val :
  isChangeableObject m val = true ->
  forall old new, old <> val -> subst_value old new val = val.
Proof.
  intros Hobj old new Hne. unfold subst_value.
  destruct (decide (val = old)); [congruence|].
  destruct val as [| |c]; try reflexivity.
  destruct old as [| |o]; try reflexivity.
  destruct new as [| |k]; try reflexivity.
  destruct c; try discriminate. simpl.
  destruct (decide _); [congruence|reflexivity].
Qed.

Lemma object_no_operands m val :
  isChangeableObject m val = true ->
  forall vc, val = VConst vc -> const_operands vc = [].
Proof. intros Hobj vc ->. destruct vc; try discriminate. reflexivity. Qed.

Lemma object_alloca m val :
  NoDup (map iid (all_insts m)) ->
  isChangeableObject m val = true ->
  forall a t, val = VInst a t ->
    forall j, j ∈ all_insts m -> iid j = a -> shape (ikind j) = 0%nat.
Proof.
  intros Hnd Hobj a t -> j Hj Hid. simpl in Hobj.
  destruct (lookup_inst m a) as [i|] eqn:El; [|discriminate].
  apply lookup_inst_Some in El as [Hi Hia].
  rewrite (NoDup_iid_inj _ j i Hnd Hj Hi) by congruence.
  destruct (ikind i); try discriminate. reflexivity.
Qed.

(** ** Identities stay unique when an instruction is inserted *)

Lemma all_insts_concat m :
  all_insts m = concat (concat (map fblocks (functions m))).
Proof.
  unfold all_insts, function_insts.
  induction (functions m) as [|f fs IH]; simpl; [reflexivity|].
  rewrite concat_app, IH. reflexivity.
Qed.

Lemma all_insts_map_blocks_concat g m :
  all_insts (map_blocks g m) =
  concat (map g (concat (map fblocks (functions m)))).
Proof.
  unfold all_insts, function_insts, map_blocks. simpl.
  induction (functions m) as [|f fs IH]; simpl; [reflexivity|].
  rewrite map_app, concat_app, IH. reflexivity.
Qed.

Lemma ins_before_absent b r l :
  b ∉ map iid l -> ins_before b r l = l.
Proof.
  induction l as [|y l IH]; simpl; [reflexivity|]. intros Hb.
  case_bool_decide as Hy.
  - exfalso. apply Hb. rewrite <- Hy. left.
  - rewrite IH; [reflexivity|]. intros H. apply Hb. right. exact H.
Qed.

Lemma NoDup_ins_before_blocks b r (bs : list (list Inst)) :
  NoDup (map iid (concat bs)) ->
  iid r ∉ map iid (concat bs) ->
  NoDup (map iid (concat (map (ins_before b r) bs))).
Proof.
  induction bs as [|blk bs IH]; simpl; [auto|].
  rewrite !map_app. intros Hnd Hr.
  apply NoDup_app in Hnd as (H1 & H12 & H2).
  assert (Hr1 : iid r ∉ map iid blk).
  { intros H. apply Hr. apply elem_of_app. auto. }
  assert (Hr2 : iid r ∉ map iid (concat bs)).
  { intros H. apply Hr. apply elem_of_app. auto. }
  destruct (decide (b ∈ map iid blk)) as [Hb|Hb].
  - assert (map (ins_before b r) bs = bs) as ->.
    { specialize (H12 b Hb). clear -H12.
      induction bs as [|x bs IHb]; simpl in *; [reflexivity|].
      rewrite map_app in H12. rewrite ins_before_absent, IHb; auto.
      - intros H. apply H12. apply elem_of_app. auto.
      - intros H. apply H12. apply elem_of_app. auto. }
    apply NoDup_app. split; [apply ins_before_nodup; assumption|].
    split; [|exact H2].
    intros x Hx. apply list_elem_of_fmap in Hx as (y & -> & Hy).
    apply elem_of_ins_before in Hy as [->|Hy]; [exact Hr2|].
    apply H12. apply list_elem_of_fmap. eauto.
  - rewrite ins_before_absent by exact Hb.
    apply NoDup_app. split; [exact H1|].
    split; [|apply IH; assumption].
    intros x Hx Hx'. apply list_elem_of_fmap in Hx' as (y & -> & Hy).
    apply list_elem_of_In, in_concat in Hy as (l & Hl & Hy).
    apply in_map_iff in Hl as (l0 & <- & Hl0).
    apply list_elem_of_In, elem_of_ins_before in Hy as [->|Hy];
      [contradiction|].
    apply (H12 _ Hx). apply list_elem_of_fmap. exists y.
    split; [reflexivity|]. apply list_elem_of_In, in_concat.
    exists l0. split; [exact Hl0|]. apply list_elem_of_In. exact Hy.
Qed.

Lemma NoDup_insertBefore m b r :
  NoDup (map iid (all_insts m)) ->
  (forall i, i ∈ all_insts m -> iid i <> iid r) ->
  NoDup (map iid (all_insts (map_blocks (ins_before b r) m))).
Proof.
  intros Hnd Hr. rewrite all_insts_map_blocks_concat.
  rewrite all_insts_concat in Hnd, Hr.
  apply NoDup_ins_before_blocks; [exact Hnd|].
  intros H. apply list_elem_of_fmap in H as (y & Hy & Hin).
  apply (Hr y Hin). congruence.
Qed.

Lemma map_iid_all_insts_map f m :
  (forall i, iid (f i) = iid i) ->
  map iid (all_insts (map_blocks (map f) m)) = map iid (all_insts m).
Proof.
  intros Hf. rewrite all_insts_map_blocks_concat, all_insts_concat.
  rewrite <- concat_map, map_map. apply map_ext. exact Hf.
Qed.

Lemma elem_of_all_insts_ins_before b r m x :
  x ∈ all_insts (map_blocks (ins_before b r) m) -> x = r \/ x ∈ all_insts m.
Proof.
  intros Hx.
  apply elem_of_all_insts_map_blocks in Hx as (f & blk & Hf & Hblk & Hx).
  apply elem_of_ins_before in Hx as [->|Hx]; [auto|].
  right. apply elem_of_all_insts. eauto.
Qed.

(** The declaration of the object is changed first: what the module looks
    like when the users are copied. *)
Lemma changeObjectDeclarationType_wf objf val toType init wide st nval st1 :
  NoDup (map iid (all_insts (st_module st))) ->
  (forall i, i ∈ all_insts (st_module st) ->
     (iid i < next_id (st_module st))%nat) ->
  (forall i, i ∈ all_insts (st_module st) -> wt_inst i) ->
  (forall g gl, globals (st_module st) !! g = Some gl -> wt_global gl) ->
  isChangeableObject (st_module st) val = true ->
  changeObjectDeclarationType objf val toType init wide st = Ret nval st1 ->
  (next_id (st_module st) <= next_id (st_module st1))%nat /\
  NoDup (map iid (all_insts (st_module st1))) /\
  (forall i, i ∈ all_insts (st_module st1) ->
     (iid i < next_id (st_module st1))%nat) /\
  (forall i, i ∈ all_insts (st_module st1) -> wt_inst i) /\
  (forall g gl, globals (st_module st1) !! g = Some gl -> wt_global gl) /\
  (forall a t, val = VInst a t ->
     forall j, j ∈ all_insts (st_module st1) -> iid j = a ->
       shape (ikind j) = 0%nat).
Proof.
  intros Hnd Hfresh Hwt Hgl Hobj H.
  pose proof (object_alloca _ _ Hnd Hobj) as Halloca.
  unfold changeObjectDeclarationType in H.
  destruct (decide (typeOf val = toType)).
  { injection H as _ <-. repeat split; auto. }
  apply bind_Ret in H as (s0 & s0' & [= <- <-] & H).
  destruct val as [id t|f idx t|c].
  - (* an alloca *)
    apply bind_Ret in H as (alloca & s1 & Hl & H).
    apply nonnull_Ret in Hl as [Hl ->].
    apply lookup_inst_Some in Hl as [Hal Hid].
    destruct (ikind alloca) eqn:Ek; try discriminate.
    destruct (negb (isValidElementType toType)); [discriminate|].
    apply bind_Ret in H as (r & s1 & Hnew & H).
    apply newInst_state in Hnew as [-> ->].
    apply bind_Ret in H as (u1 & s2 & Hins & H).
    apply insertBefore_Ret in Hins as [_ ->].
    apply bind_Ret in H as (u2 & s3 & Hname & H).
    injection Hname as _ <-. injection H as _ <-. simpl.
    set (r := mkInst (next_id (st_module st)) (iname alloca)
                (KAlloca toType) (TPtr toType)).
    set (m1 := mkModule (S (next_id (st_module st)))
                 (functions (st_module st)) (globals (st_module st))
                 (word_bits (st_module st))).
    assert (Hm1 : all_insts m1 = all_insts (st_module st)) by reflexivity.
    assert (Hin : forall i',
      i' ∈ all_insts (map_blocks (map (fun i =>
              if bool_decide (iid i = id)
              then mkInst (iid i) "" (ikind i) (ity i) else i))
            (map_blocks (ins_before id r) m1)) ->
      exists i, (i = r \/ i ∈ all_insts (st_module st)) /\
        iid i' = iid i /\ ikind i' = ikind i /\ ity i' = ity i).
    { intros i' Hi'. apply elem_of_all_insts_map in Hi' as (i & Hi & ->).
      apply elem_of_all_insts_ins_before in Hi. rewrite Hm1 in Hi.
      exists i. split; [exact Hi|]. case_bool_decide; auto. }
    split; [lia|]. split; [|split; [|split; [|split]]].
    + rewrite map_iid_all_insts_map by (intros i; case_bool_decide; reflexivity).
      apply NoDup_insertBefore; [exact Hnd|].
      intros i Hi. rewrite Hm1 in Hi. apply Hfresh in Hi. simpl. lia.
    + intros i' Hi'. apply Hin in Hi' as (i & [->|Hi] & -> & _); simpl; [lia|].
      apply Hfresh in Hi. lia.
    + intros i' Hi'. apply Hin in Hi' as (i & Hi & _ & Hk & Hty).
      unfold wt_inst. rewrite Hk, Hty. destruct Hi as [->|Hi].
      * reflexivity.
      * apply (Hwt i Hi).
    + exact Hgl.
    + intros a t0 [= <- <-] j Hj Hjd.
      apply Hin in Hj as (i & [->|Hi] & Hid' & Hk & _); rewrite Hk.
      * reflexivity.
      * eapply Halloca; [reflexivity|exact Hi|congruence].
  - (* an argument *)
    unfold modifyFunctionArgumentType in H.
    apply bind_Ret in H as (s0 & s0' & [= <- <-] & H).
    apply bind_Ret in H as (fn & s1 & Hl & H).
    apply nonnull_Ret in Hl as [Hl ->].
    destruct (bool_decide _); [|discriminate].
    apply bind_Ret in H as (u1 & s2 & Hm & H).
    injection Hm as _ <-. injection H as _ <-. simpl.
    match goal with |- context [all_insts ?m] =>
      assert (Hm1 : all_insts m = all_insts (st_module st))
    end.
    { unfold all_insts. simpl. rewrite map_map. f_equal.
      apply map_ext. intros g. destruct (bool_decide _); reflexivity. }
    rewrite Hm1. repeat split; auto.
  - (* a global variable *)
    destruct c as [| | | |ogv t| | | | |]; try discriminate.
    apply bind_Ret in H as (old & s1 & Hl & H).
    apply nonnull_Ret in Hl as [Hl ->].
    apply bind_Ret in H as (init' & s1 & Hinit & H).
    assert (s1 = st) as ->.
    { destruct init as [c|].
      - injection Hinit as _ <-. reflexivity.
      - apply bind_Ret in Hinit as (img & s2 & Hi & Hinit).
        apply nonnull_Ret in Hi as [_ ->]. injection Hinit as _ <-.
        reflexivity. }
    clear Hinit. cbv zeta in H.
    apply bind_Ret in H as (new & s2 & Hnew & H).
    apply newGlobalVariable_Ret in Hnew as (_ & -> & ->).
    apply bind_Ret in H as (u1 & s3 & Hset & H).
    injection Hset as _ <-.
    apply bind_Ret in H as (u2 & s4 & Hcfg & H).
    injection H as _ <-.
    assert (st_module s4 =
      set_globals
        (<[ogv := mkGlobal "" (gvalty old) (gconstant old) (glinkage old)
                    (ginit old)]>
           (<[next_id (st_module st) :=
                mkGlobal (gname old) (from_option typeOfC toType init')
                  (gconstant old) (glinkage old) init']>
              (globals (st_module st))))
        (mkModule (S (next_id (st_module st))) (functions (st_module st))
           (globals (st_module st)) (word_bits (st_module st)))) as ->.
    { simpl in Hcfg. destruct (List.find _ _); injection Hcfg as _ <-;
        reflexivity. }
    simpl. split; [lia|]. split; [exact Hnd|].
    split; [intros i Hi; apply Hfresh in Hi; lia|].
    split; [exact Hwt|]. split; [|intros a t0 [=]].
    intros g gl Hg.
    destruct (decide (ogv = g)) as [->|Hne1].
    { rewrite lookup_insert_eq in Hg. injection Hg as <-.
      intros c Hc. simpl in *. eapply Hgl; eassumption. }
    rewrite lookup_insert_ne in Hg by exact Hne1.
    destruct (decide (next_id (st_module st) = g)) as [<-|Hne2].
    { rewrite lookup_insert_eq in Hg. injection Hg as <-.
      intros c Hc. simpl in *. rewrite Hc. reflexivity. }
    rewrite lookup_insert_ne in Hg by exact Hne2. eapply Hgl, Hg.
Qed.


(** * Further properties *)

(** ** globalVariableCanBeCreated *)

(** The strict mode only restricts: an address accepted in strict mode is
    accepted otherwise, and the two modes differ on ARM and Pic32 only. *)
Theorem canBeCreated_strict_only_restricts :
  forall cfg objf addr,
    (globalVariableCanBeCreated cfg objf addr true = true ->
     globalVariableCanBeCreated cfg objf addr false = true) /\
    (cfg_isArmOrThumb cfg = false -> cfg_isPic32 cfg = false ->
     globalVariableCanBeCreated cfg objf addr true =
     globalVariableCanBeCreated cfg objf addr false).
Proof.
  intros cfg objf addr. unfold globalVariableCanBeCreated.
  destruct objf as [img|], addr as [a|]; try (split; auto; fail).
  destruct (negb (img_hasDataOnAddress img a)); [split; auto|].
  destruct ((bool_decide (cfg_functions cfg !! a <> None) || img_isCode img a)
            && negb (img_niceStringAt img a)); [|split; auto].
  repeat (destruct (wordHasData _ _); [split; auto|]).
  split.
  - rewrite andb_false_r. discriminate.
  - intros -> ->. reflexivity.
Qed.

Lemma canBeCreated_strict_witness :
  (globalVariableCanBeCreated ex_config (Some ex_image_word) (Some 4096) true
     = true /\
   globalVariableCanBeCreated ex_config (Some ex_image_word) (Some 4096) false
     = true) /\
  (cfg_isArmOrThumb ex_config = false /\ cfg_isPic32 ex_config = false /\
   globalVariableCanBeCreated ex_config (Some ex_image_word) (Some 4096) true =
   globalVariableCanBeCreated ex_config (Some ex_image_word) (Some 4096) false).
Proof.
  pose proof (canBeCreated_strict_only_restricts ex_config
                (Some ex_image_word) (Some 4096)) as [H1 H2].
  split.
  - split; [reflexivity|]. apply H1. reflexivity.
  - split; [reflexivity|]. split; [reflexivity|]. apply H2; reflexivity.
Defined.

(** No global variable is made for an address that has no data: without
    an image, without an address, or when the image has no data there,
    [getGlobalVariable] returns null and changes nothing; and a call that
    returns a global was given an address of the image that has data. *)
Theorem getGlobalVariable_needs_data :
  forall fuel objf dbgf addr strict name st,
    ((objf = None \/ addr = None \/
      exists img a, objf = Some img /\ addr = Some a /\
        img_hasDataOnAddress img a = false) ->
     getGlobalVariable fuel objf dbgf addr strict name st = Ret None st) /\
    (forall g st',
       getGlobalVariable fuel objf dbgf addr strict name st = Ret (Some g) st' ->
       exists img a, objf = Some img /\ addr = Some a /\
         img_hasDataOnAddress img a = true).
Proof.
  intros fuel objf dbgf addr strict name st. split.
  - intros H. unfold getGlobalVariable, bind, get.
    assert (globalVariableCanBeCreated (st_config st) objf addr strict = false)
      as ->; [|reflexivity].
    unfold globalVariableCanBeCreated.
    destruct H as [->|[->|(img & a & -> & -> & ->)]]; try reflexivity.
    destruct objf; reflexivity.
  - intros g st' H. unfold getGlobalVariable, bind, get in H.
    destruct (globalVariableCanBeCreated (st_config st) objf addr strict)
      eqn:E; [|discriminate].
    unfold globalVariableCanBeCreated in E.
    destruct objf as [img|], addr as [a|]; try discriminate.
    exists img, a. split; [reflexivity|]. split; [reflexivity|].
    destruct (img_hasDataOnAddress img a); [reflexivity|discriminate].
Qed.

Lemma getGlobalVariable_needs_data_witness :
  getGlobalVariable 3 (Some ex_image_word) None (Some 0) false "g" ex_state
    = Ret None ex_state /\
  exists img a, Some ex_image_word = Some img /\ Some 4096 = Some a /\
    img_hasDataOnAddress img a = true.
Proof.
  pose proof (getGlobalVariable_needs_data 3 (Some ex_image_word) None
                (Some 0) false "g" ex_state) as [H1 _].
  pose proof (getGlobalVariable_needs_data 3 (Some ex_image_word) None
                (Some 4096) false "g" ex_state) as [_ H2].
  split.
  - apply H1. right. right. exists ex_image_word, 0. auto.
  - eapply H2. vm_compute. reflexivity.
Defined.

(** ** detectGlobalVariableInitializerCycle *)

Lemma initializerChainReaches_closed (S : nat -> Prop) m gv fuel :
  chain_closed m S -> ~ S gv ->
  forall g, S g -> initializerChainReaches fuel m gv (Some g) = None.
Proof.
  intros Hclosed Hgv. induction fuel as [|fuel IH]; intros g Hg; [reflexivity|].
  simpl. destruct (decide (g = gv)) as [->|_]; [contradiction|].
  destruct (Hclosed g Hg) as (gl & g' & t & -> & -> & Hg'). simpl.
  apply IH. exact Hg'.
Qed.

(** The loop that follows the initializers only stops at the global being
    built or at the end of the chain: when the chain runs into a cycle of
    other globals, the detection does not return, whatever the fuel. *)
Theorem detect_cycle_diverges_on_foreign_cycle :
  forall (S : nat -> Prop) fuel gv g t img a st,
    chain_closed (st_module st) S -> S g -> ~ S gv ->
    detectGlobalVariableInitializerCycle fuel (Some gv) (Some (CGlobal g t))
      (Some img) (Some a) st = OutOfFuel.
Proof.
  intros S fuel gv g t img a st Hclosed Hg Hgv.
  unfold detectGlobalVariableInitializerCycle, bind, get. simpl.
  destruct (decide (Some g = Some gv)) as [[= ->]|_]; [contradiction|].
  rewrite (initializerChainReaches_closed S); auto.
Qed.

Lemma detect_cycle_diverges_witness :
  chain_closed (st_module ex_cyclic_state) (fun g => g = 0%nat) /\
  (fun g => g = 0%nat) 0%nat /\ ~ (fun g => g = 0%nat) 1%nat /\
  detectGlobalVariableInitializerCycle 1000 (Some 1%nat)
    (Some (CGlobal 0 (TPtr (TPtr (TInt 32))))) (Some ex_image_word)
    (Some 4096) ex_cyclic_state = OutOfFuel.
Proof.
  assert (chain_closed (st_module ex_cyclic_state) (fun g => g = 0%nat)) as Hc.
  { intros g ->. eexists _, 0%nat, _. split; [|split]; reflexivity. }
  split; [exact Hc|]. split; [reflexivity|]. split; [discriminate|].
  apply (detect_cycle_diverges_on_foreign_cycle (fun g => g = 0%nat) 1000
           1%nat 0%nat _ ex_image_word 4096 ex_cyclic_state Hc eq_refl).
  discriminate.
Defined.

Lemma initializerChainReaches_descend m gv :
  initializers_descend m ->
  forall fuel cgv,
    (forall g, cgv = Some g -> (S g < fuel)%nat) -> (0 < fuel)%nat ->
    initializerChainReaches fuel m gv cgv <> None.
Proof.
  intros Hd. induction fuel as [|fuel IH]; intros cgv Hg Hpos; [lia|].
  simpl. destruct cgv as [g|]; [|discriminate].
  destruct (decide (g = gv)); [discriminate|].
  destruct (globals m !! g) as [gl|] eqn:Hgl; [|discriminate].
  destruct (ginit gl) as [i|] eqn:Hi; [|discriminate].
  apply IH.
  - intros g' Hg'. destruct i; try discriminate. simpl in Hg'.
    injection Hg' as ->. specialize (Hd g gl g' t Hgl Hi).
    specialize (Hg g eq_refl). lia.
  - specialize (Hg g eq_refl). lia.
Qed.

(** When every initializer that is a global was created before the global
    it initializes, the detection returns: following the chain from the
    global [g] takes at most [g + 2] rounds, and it leaves the state as it
    is. *)
Theorem detect_cycle_terminates :
  forall fuel gv c img a st,
    initializers_descend (st_module st) ->
    (0 < fuel)%nat ->
    (forall g, dyn_cast_GlobalVariable c = Some g -> (S g < fuel)%nat) ->
    exists r,
      detectGlobalVariableInitializerCycle fuel (Some gv) (Some c) (Some img)
        (Some a) st = Ret r st.
Proof.
  intros fuel gv c img a st Hd Hpos Hg.
  unfold detectGlobalVariableInitializerCycle, bind, get, ret.
  destruct (decide _); [eauto|].
  pose proof (initializerChainReaches_descend (st_module st) gv Hd fuel
                (dyn_cast_GlobalVariable c) Hg Hpos) as Hne.
  destruct (initializerChainReaches _ _ _ _) as [[|]|]; eauto.
  contradiction.
Qed.

Lemma detect_cycle_terminates_witness :
  initializers_descend (st_module ex_chain_state) /\
  (0 < 3)%nat /\
  (forall g, dyn_cast_GlobalVariable (CGlobal 1 (TPtr (TPtr (TInt 32))))
               = Some g -> (S g < 3)%nat) /\
  exists r,
    detectGlobalVariableInitializerCycle 3 (Some 5%nat)
      (Some (CGlobal 1 (TPtr (TPtr (TInt 32))))) (Some ex_image_word)
      (Some 4096) ex_chain_state = Ret r ex_chain_state.
Proof.
  assert (initializers_descend (st_module ex_chain_state)) as Hd.
  { intros g gl g' t Hgl Hi. simpl in Hgl.
    destruct (decide (g = 1%nat)) as [->|Hne1].
    { rewrite lookup_insert_eq in Hgl. injection Hgl as <-.
      injection Hi as <- _. lia. }
    rewrite lookup_insert_ne in Hgl by congruence.
    destruct (decide (g = 0%nat)) as [->|Hne0].
    { rewrite lookup_insert_eq in Hgl. injection Hgl as <-. discriminate. }
    rewrite lookup_insert_ne in Hgl by congruence.
    rewrite lookup_empty in Hgl. discriminate. }
  assert (forall g, dyn_cast_GlobalVariable (CGlobal 1 (TPtr (TPtr (TInt 32))))
                      = Some g -> (S g < 3)%nat) as Hg.
  { intros g [= <-]. lia. }
  split; [exact Hd|]. split; [lia|]. split; [exact Hg|].
  apply (detect_cycle_terminates 3 5%nat _ ex_image_word 4096 ex_chain_state
           Hd); [lia|exact Hg].
Defined.

(** ** Conversions that are not supported *)

(** A conversion between two different types neither of which is an
    aggregate fails when one of them is not a pointer, an integer or a
    floating-point type (void, a function type): no case of
    [convertToType] applies and the final assertion fires. *)
Theorem convert_unsupported_aborts :
  forall fuel v t b a ce st,
    typeOf v <> t ->
    isAggregateType (typeOf v) = false -> isAggregateType t = false ->
    isScalarTy (typeOf v) = false \/ isScalarTy t = false ->
    anchored ce b a -> (ce = true -> is_constant v) ->
    convertToType (S fuel) (Some v) (Some t) b a ce st = Abort.
Proof.
  intros fuel v t b a ce st Hne Hav Hat Hs Hanc Hc. simpl.
  rewrite head_anchored, head_constant by assumption.
  rewrite decide_False by exact Hne.
  unfold isScalarTy in Hs.
  assert (forall x y : Ty, (isPointerTy x || isIntegerTy x
            || isFloatingPointTy x = false) ->
          isPointerTy x = false /\ isIntegerTy x = false /\
          isFloatingPointTy x = false) as Hsplit.
  { intros x _ H. destruct (isPointerTy x), (isIntegerTy x),
      (isFloatingPointTy x); try discriminate; auto. }
  destruct Hs as [Hs|Hs]; apply (Hsplit _ t) in Hs as (-> & -> & ->);
    rewrite ?andb_false_r, ?andb_false_l; simpl;
    unfold bind, get; rewrite Hav, Hat, ?andb_false_r; simpl; reflexivity.
Qed.

Lemma convert_unsupported_witness :
  typeOf (VConst (CUndef TVoid)) <> TInt 32 /\
  isAggregateType (typeOf (VConst (CUndef TVoid))) = false /\
  isAggregateType (TInt 32) = false /\
  (isScalarTy (typeOf (VConst (CUndef TVoid))) = false \/
   isScalarTy (TInt 32) = false) /\
  anchored false (Some 0%nat) None /\
  convertToType 1 (Some (VConst (CUndef TVoid))) (Some (TInt 32))
    (Some 0%nat) None false ex_state = Abort.
Proof.
  assert (anchored false (Some 0%nat) None) as Ha
    by (right; left; discriminate).
  split; [discriminate|]. split; [reflexivity|]. split; [reflexivity|].
  split; [left; reflexivity|]. split; [exact Ha|].
  apply (convert_unsupported_aborts 0 (VConst (CUndef TVoid)) (TInt 32)
           (Some 0%nat) None false ex_state); auto; discriminate.
Defined.

(** ** Conversions between integers, pointers and floats *)

Lemma convertToType_identity fuel v b a ce st :
  anchored ce b a -> (ce = true -> is_constant v) ->
  convertToType (S fuel) (Some v) (Some (typeOf v)) b a ce st
    = Ret (Some v) st.
Proof.
  intros Hanc Hc. simpl.
  rewrite head_anchored, head_constant by assumption.
  rewrite decide_True by reflexivity. reflexivity.
Qed.

(** An integer or a pointer is converted to a floating-point type by
    reinterpreting its bits, never by a numeric conversion: it is brought
    to the integer type of the width of the float (an integer cast, or
    ptrtoint for a pointer) and bit-cast.  Here for constants, where the
    result is the constant expression itself. *)
Theorem to_float_reinterprets_bits :
  forall fuel c k st,
    (forall w, typeOfC c = TInt w ->
     convertConstantToType (S (S fuel)) (Some c) (Some (TFloat k)) st =
     Ret (Some (CCast BitCast
                  (if decide (w = fp_bits k) then c
                   else CCast (IntegerCast true) c (TInt (fp_bits k)))
                  (TFloat k))) st) /\
    (forall e, typeOfC c = TPtr e ->
     convertConstantToType (S (S (S fuel))) (Some c) (Some (TFloat k)) st =
     Ret (Some (CCast BitCast (CCast PtrToInt c (TInt (fp_bits k)))
                  (TFloat k))) st).
Proof.
  intros fuel c k st.
  assert (anchored true None None) as Hanc by (left; reflexivity).
  assert (forall fuel c0 w, typeOfC c0 = TInt w ->
    convertToType (S (S fuel)) (Some (VConst c0)) (Some (TFloat k)) None None
      true st =
    Ret (Some (VConst (CCast BitCast
                  (if decide (w = fp_bits k) then c0
                   else CCast (IntegerCast true) c0 (TInt (fp_bits k)))
                  (TFloat k)))) st) as Hint.
  { intros fuel0 c0 w Hc. cbn [convertToType]. cbn -[convertToType].
    rewrite Hc. cbn -[convertToType].
    rewrite decide_False by discriminate.
    destruct (decide (w = fp_bits k)) as [->|Hw].
    - rewrite decide_True by reflexivity. reflexivity.
    - rewrite decide_False by congruence. reflexivity. }
  split.
  - intros w Hc. unfold convertConstantToType. cbn [fmap option_fmap option_map].
    unfold bind at 1. rewrite (Hint fuel c w Hc). reflexivity.
  - intros e Hc. unfold convertConstantToType. cbn [fmap option_fmap option_map].
    unfold bind at 1.
    assert (convertToType (S (S (S fuel))) (Some (VConst c)) (Some (TFloat k))
              None None true st =
            Ret (Some (VConst (CCast BitCast
                   (CCast PtrToInt c (TInt (fp_bits k))) (TFloat k)))) st) as ->.
    { cbn [convertToType]. cbn -[convertToType].
      rewrite Hc. cbn -[convertToType].
      specialize (Hint fuel (CCast PtrToInt c (TInt (fp_bits k))) (fp_bits k)
                    eq_refl).
      rewrite decide_True in Hint by reflexivity. exact Hint. }
    reflexivity.
Qed.

Lemma to_float_reinterprets_bits_witness :
  (typeOfC (CInt 64 7) = TInt 64 /\
   convertConstantToType 2 (Some (CInt 64 7)) (Some (TFloat Float)) ex_state =
   Ret (Some (CCast BitCast
                (if decide (64 = fp_bits Float) then CInt 64 7
                 else CCast (IntegerCast true) (CInt 64 7)
                        (TInt (fp_bits Float)))
                (TFloat Float))) ex_state) /\
  (typeOfC (CGlobal 0 (TPtr (TInt 8))) = TPtr (TInt 8) /\
   convertConstantToType 3 (Some (CGlobal 0 (TPtr (TInt 8))))
     (Some (TFloat Double)) ex_state =
   Ret (Some (CCast BitCast
                (CCast PtrToInt (CGlobal 0 (TPtr (TInt 8)))
                   (TInt (fp_bits Double))) (TFloat Double))) ex_state).
Proof.
  split.
  - split; [reflexivity|].
    apply (proj1 (to_float_reinterprets_bits 0 (CInt 64 7) Float ex_state)
             64).
    reflexivity.
  - split; [reflexivity|].
    apply (proj2 (to_float_reinterprets_bits 0 (CGlobal 0 (TPtr (TInt 8)))
                    Double ex_state) (TInt 8)).
    reflexivity.
Defined.

Lemma convertToType_float_ptr fuel v k e b a ce st :
  typeOf v = TFloat k -> anchored ce b a -> (ce = true -> is_constant v) ->
  convertToType (S fuel) (Some v) (Some (TPtr e)) b a ce st =
  (r <- convertToType fuel (Some v) (Some (TInt (fp_bits k))) b a ce ;;
   intConv <- nonnull r ;;
   convertToType fuel (Some intConv) (Some (TPtr e)) b
     (dyn_cast_Instruction intConv) ce) st.
Proof.
  intros Hv Hanc Hc. simpl.
  rewrite head_anchored, head_constant by assumption.
  rewrite Hv. rewrite decide_False by discriminate. reflexivity.
Qed.

Lemma convertToType_int_ptr fuel v w e b a ce st :
  typeOf v = TInt w -> anchored ce b a -> (ce = true -> is_constant v) ->
  convertToType (S fuel) (Some v) (Some (TPtr e)) b a ce st =
  castStep IntToPtr v (dyn_cast_Constant v) (TPtr e) b a ce st.
Proof.
  intros Hv Hanc Hc. simpl.
  rewrite head_anchored, head_constant by assumption.
  rewrite Hv. rewrite decide_False by discriminate. reflexivity.
Qed.

Lemma convertToType_float_int_default fuel v k w b a ce st :
  typeOf v = TFloat k -> float_of_width w = None ->
  anchored ce b a -> (ce = true -> is_constant v) ->
  convertToType (S fuel) (Some v) (Some (TInt w)) b a ce st =
  (r <- convertToType fuel (Some v) (Some (TInt 32)) b a ce ;;
   fpConv <- nonnull r ;;
   convertToType fuel (Some fpConv) (Some (TInt w)) b
     (dyn_cast_Instruction fpConv) ce) st.
Proof.
  intros Hv Hw Hanc Hc. simpl.
  rewrite head_anchored, head_constant by assumption.
  rewrite Hv. rewrite decide_False by discriminate. simpl.
  unfold float_of_width in Hw.
  repeat (destruct (decide (w = _)); [discriminate Hw|]).
  reflexivity.
Qed.

(** A floating-point value is converted to a pointer through the integer
    of its own width: a bit-cast followed by inttoptr.  For the two
    128-bit kinds no float of matching width is among the four the
    conversion knows, so the value goes through [float] and [i32] first:
    it is narrowed to 32 bits and sign-extended back. *)
Theorem float_to_pointer_route :
  forall fuel c k e st,
    typeOfC c = TFloat k ->
    convertConstantToType (S (S (S (S fuel)))) (Some c) (Some (TPtr e)) st =
    Ret (Some (CCast IntToPtr
                 (match k with
                  | FP128 | PPC_FP128 =>
                    CCast (IntegerCast true)
                      (CCast BitCast (CCast FPCast c (TFloat Float)) (TInt 32))
                      (TInt 128)
                  | _ => CCast BitCast c (TInt (fp_bits k))
                  end) (TPtr e))) st.
Proof.
  intros fuel c k e st Hc.
  assert (anchored true None None) as Hanc by (left; reflexivity).
  assert (forall x, true = true -> is_constant (VConst x)) as Hk
    by (intros x _; eexists; reflexivity).
  unfold convertConstantToType.
  cbn [fmap option_fmap option_map]. unfold bind at 1.
  rewrite (convertToType_float_ptr _ (VConst c) k e None None true st Hc Hanc
             (Hk c)).
  unfold bind at 1.
  assert (forall fuel0 x w,
    typeOfC x = TInt w ->
    convertToType (S fuel0) (Some (VConst x)) (Some (TPtr e)) None None true st
      = Ret (Some (VConst (CCast IntToPtr x (TPtr e)))) st) as Hip.
  { intros fuel0 x w Hx.
    rewrite (convertToType_int_ptr fuel0 (VConst x) w e None None true st Hx
               Hanc (Hk x)).
    reflexivity. }
  destruct (float_of_width (fp_bits k)) as [ft|] eqn:Hw.
  - (* a float of the width exists: it is the kind of the value *)
    assert (ft = k) as -> by (destruct k; vm_compute in Hw; congruence).
    rewrite (convertToType_float_bitcast _ (VConst c) k (fp_bits k) None None
               true st Hc Hw Hanc (Hk c)).
    cbn [castStep dyn_cast_Constant bind nonnull ret dyn_cast_Instruction].
    rewrite (Hip _ (CCast BitCast c (TInt (fp_bits k))) (fp_bits k) eq_refl).
    destruct k; try discriminate Hw; reflexivity.
  - (* 128 bits *)
    assert (fp_bits k = 128) as Hbits by (destruct k; try discriminate Hw;
                                          reflexivity).
    rewrite Hbits.
    rewrite (convertToType_float_int_default _ (VConst c) k 128 None None true
               st Hc) by (auto; lia).
    unfold bind at 1.
    rewrite (convertToType_matching_width _ (VConst c) k Float 32 None None
               true st Hc eq_refl Hanc (Hk c)).
    unfold bitcastThroughFloat.
    rewrite decide_False by (simpl; rewrite Hc; destruct k; discriminate).
    cbn [castStep dyn_cast_Constant bind nonnull ret dyn_cast_Instruction].
    rewrite (convertToType_int_int _
               (VConst (CCast BitCast (CCast FPCast c (TFloat Float))
                          (TInt 32))) 32 128 None None true st eq_refl)
      by (auto; lia).
    cbn [castStep dyn_cast_Constant bind nonnull ret dyn_cast_Instruction].
    rewrite (Hip _ (CCast (IntegerCast true)
                      (CCast BitCast (CCast FPCast c (TFloat Float)) (TInt 32))
                      (TInt 128)) 128 eq_refl).
    destruct k; try discriminate Hw; reflexivity.
Qed.

Lemma float_to_pointer_route_witness :
  typeOfC (CFP FP128 1) = TFloat FP128 /\
  convertConstantToType 4 (Some (CFP FP128 1)) (Some (TPtr (TInt 8))) ex_state =
  Ret (Some (CCast IntToPtr
               (CCast (IntegerCast true)
                  (CCast BitCast (CCast FPCast (CFP FP128 1) (TFloat Float))
                     (TInt 32))
                  (TInt 128)) (TPtr (TInt 8)))) ex_state.
Proof.
  split; [reflexivity|].
  apply (float_to_pointer_route 0 (CFP FP128 1) FP128 (TInt 8) ex_state).
  reflexivity.
Defined.

(** ** Inserting an instruction into the blocks *)

Lemma ins_before_split anchor i l :
  ((anchor ∉ map iid l) /\ ins_before anchor i l = l) \/
  (exists l1 x l2, l = l1 ++ x :: l2 /\ iid x = anchor /\
     ins_before anchor i l = l1 ++ [i; x] ++ l2).
Proof.
  induction l as [|y l IH]; simpl.
  - left. split; [|reflexivity]. intros H. inversion H.
  - case_bool_decide as Hy.
    + right. exists [], y, l. auto.
    + destruct IH as [[Habs ->]|(l1 & x & l2 & -> & Hx & ->)].
      * left. split; [|reflexivity]. intros H.
        apply elem_of_cons in H as [H|H]; [congruence|contradiction].
      * right. exists (y :: l1), x, l2. auto.
Qed.

Lemma ins_after_split anchor i l :
  ((anchor ∉ map iid l) /\ ins_after anchor i l = l) \/
  (exists l1 x l2, l = l1 ++ x :: l2 /\ iid x = anchor /\
     ins_after anchor i l = l1 ++ [x; i] ++ l2).
Proof.
  induction l as [|y l IH]; simpl.
  - left. split; [|reflexivity]. intros H. inversion H.
  - case_bool_decide as Hy.
    + right. exists [], y, l. auto.
    + destruct IH as [[Habs ->]|(l1 & x & l2 & -> & Hx & ->)].
      * left. split; [|reflexivity]. intros H.
        apply elem_of_cons in H as [H|H]; [congruence|contradiction].
      * right. exists (y :: l1), x, l2. auto.
Qed.

Section Splice.
Variable anchor : nat.
Variable i : Inst.
Variable g : list Inst -> list Inst.
Variable out : Inst -> list Inst.
Hypothesis out_perm : forall x, out x ≡ₚ [i; x].
Hypothesis g_split : forall l,
  ((anchor ∉ map iid l) /\ g l = l) \/
  (exists l1 x l2, l = l1 ++ x :: l2 /\ iid x = anchor /\
     g l = l1 ++ out x ++ l2).

Lemma splice_absent l : anchor ∉ map iid l -> g l = l.
Proof.
  intros Habs. destruct (g_split l) as [[_ H]|(l1 & x & l2 & -> & Hx & _)];
    [exact H|].
  exfalso. apply Habs. rewrite map_app. apply elem_of_app. right.
  rewrite <- Hx. left.
Qed.

Lemma splice_keeps l x : x ∈ l -> x ∈ g l.
Proof.
  intros Hx. destruct (g_split l) as [[_ ->]|(l1 & y & l2 & -> & _ & ->)];
    [exact Hx|].
  rewrite (out_perm y). rewrite !elem_of_app, !elem_of_cons in *. tauto.
Qed.

Lemma splice_elem_of l x : x ∈ g l -> x = i \/ x ∈ l.
Proof.
  destruct (g_split l) as [[_ ->]|(l1 & y & l2 & -> & _ & ->)]; [auto|].
  rewrite (out_perm y). rewrite !elem_of_app, !elem_of_cons, elem_of_nil.
  tauto.
Qed.

Lemma splice_present l : anchor ∈ map iid l -> i ∈ g l.
Proof.
  intros Hin. destruct (g_split l) as [[Habs _]|(l1 & y & l2 & -> & _ & ->)];
    [contradiction|].
  rewrite (out_perm y). rewrite !elem_of_app, !elem_of_cons. tauto.
Qed.

(** With unique identities the instruction goes to one place. *)
Lemma splice_blocks (bs : list (list Inst)) :
  NoDup (map iid (concat bs)) ->
  anchor ∈ map iid (concat bs) ->
  exists L1 x L2, concat bs = L1 ++ x :: L2 /\ iid x = anchor /\
    concat (map g bs) = L1 ++ out x ++ L2.
Proof.
  induction bs as [|blk bs IH]; simpl; intros Hnd Hin; [inversion Hin|].
  rewrite map_app in Hnd, Hin. apply NoDup_app in Hnd as (H1 & H12 & H2).
  destruct (g_split blk) as [[Habs ->]|(l1 & x & l2 & -> & Hx & ->)].
  - apply elem_of_app in Hin as [Hin|Hin]; [contradiction|].
    destruct (IH H2 Hin) as (L1 & x & L2 & -> & Hx & ->).
    exists (blk ++ L1), x, L2. rewrite <- !app_assoc. auto.
  - assert (anchor ∉ map iid (concat bs)) as Hrest.
    { apply H12. rewrite map_app. apply elem_of_app. right.
      rewrite <- Hx. left. }
    assert (map g bs = bs) as ->.
    { clear -Hrest out_perm g_split. induction bs as [|b bs IHb]; simpl in *;
        [reflexivity|].
      rewrite map_app in Hrest. rewrite splice_absent, IHb; auto.
      - intros H. apply Hrest. apply elem_of_app. auto.
      - intros H. apply Hrest. apply elem_of_app. auto. }
    exists l1, x, (l2 ++ concat bs). rewrite <- ?app_assoc. simpl.
    rewrite <- ?app_assoc. auto.
Qed.

Lemma splice_module m :
  NoDup (map iid (all_insts m)) ->
  anchor ∈ map iid (all_insts m) ->
  exists L1 x L2, all_insts m = L1 ++ x :: L2 /\ iid x = anchor /\
    all_insts (map_blocks g m) = L1 ++ out x ++ L2.
Proof.
  rewrite all_insts_map_blocks_concat, all_insts_concat. apply splice_blocks.
Qed.

Lemma splice_module_perm m :
  NoDup (map iid (all_insts m)) ->
  anchor ∈ map iid (all_insts m) ->
  all_insts (map_blocks g m) ≡ₚ i :: all_insts m.
Proof.
  intros Hnd Hin. destruct (splice_module m Hnd Hin) as (L1 & x & L2 & -> & _ & ->).
  rewrite (out_perm x). simpl. rewrite <- Permutation_middle. reflexivity.
Qed.

Lemma splice_module_keeps m x :
  x ∈ all_insts m -> x ∈ all_insts (map_blocks g m).
Proof.
  intros Hx. apply elem_of_all_insts in Hx as (f & blk & Hf & Hblk & Hx).
  apply elem_of_all_insts_map_blocks. exists f, blk.
  split; [exact Hf|]. split; [exact Hblk|]. apply splice_keeps. exact Hx.
Qed.

Lemma splice_module_elem_of m x :
  x ∈ all_insts (map_blocks g m) -> x = i \/ x ∈ all_insts m.
Proof.
  intros Hx.
  apply elem_of_all_insts_map_blocks in Hx as (f & blk & Hf & Hblk & Hx).
  apply splice_elem_of in Hx as [->|Hx]; [auto|].
  right. apply elem_of_all_insts. eauto.
Qed.

Lemma splice_module_present m :
  anchor ∈ map iid (all_insts m) -> i ∈ all_insts (map_blocks g m).
Proof.
  intros Hin. apply list_elem_of_fmap in Hin as (x & Hx & Hin).
  apply elem_of_all_insts in Hin as (f & blk & Hf & Hblk & Hxb).
  apply elem_of_all_insts_map_blocks. exists f, blk.
  split; [exact Hf|]. split; [exact Hblk|].
  apply splice_present. apply list_elem_of_fmap. eauto.
Qed.

End Splice.

Lemma has_inst_elem m b : has_inst m b = true <-> b ∈ map iid (all_insts m).
Proof.
  unfold has_inst. rewrite bool_decide_eq_true. split.
  - intros [i Hi]. apply lookup_inst_Some in Hi as [Hi <-].
    apply list_elem_of_fmap. eauto.
  - intros Hb. apply list_elem_of_fmap in Hb as (x & -> & Hx).
    unfold lookup_inst.
    destruct (List.find _ _) as [y|] eqn:E; [eauto|].
    exfalso. apply list_elem_of_In in Hx.
    eapply find_none in E; [|exact Hx]. simpl in E.
    apply bool_decide_eq_false in E. congruence.
Qed.

(** A new instruction spliced into the blocks of a well-formed module. *)
Lemma module_ok_splice anchor i g out m :
  (forall x, out x ≡ₚ [i; x]) ->
  (forall l,
     ((anchor ∉ map iid l) /\ g l = l) \/
     (exists l1 x l2, l = l1 ++ x :: l2 /\ iid x = anchor /\
        g l = l1 ++ out x ++ l2)) ->
  module_ok m ->
  anchor ∈ map iid (all_insts m) ->
  iid i = next_id m -> wt_inst i ->
  (forall v, v ∈ operands (ikind i) -> value_scoped m v) ->
  module_ok (map_blocks g
               (mkModule (S (next_id m)) (functions m) (globals m)
                  (word_bits m))).
Proof.
  intros Hout Hsplit [[Hnd Hfresh Hscoped] Hwt] Hanchor Hid Hwti Hops.
  set (m1 := mkModule (S (next_id m)) (functions m) (globals m) (word_bits m)).
  assert (all_insts m1 = all_insts m) as Hm1 by reflexivity.
  assert (all_insts (map_blocks g m1) ≡ₚ i :: all_insts m) as Hperm.
  { rewrite <- Hm1. eapply splice_module_perm; eauto; rewrite Hm1; auto. }
  assert (forall x, x ∈ all_insts (map_blocks g m1) ->
            x = i \/ x ∈ all_insts m) as Hin.
  { intros x Hx. rewrite Hperm in Hx. apply elem_of_cons in Hx. exact Hx. }
  split; [split|].
  - rewrite Hperm. simpl. apply NoDup_cons. split; [|exact Hnd].
    intros Hi. apply list_elem_of_fmap in Hi as (y & Hy & Hyin).
    apply Hfresh in Hyin. lia.
  - intros x Hx. simpl. apply Hin in Hx as [->|Hx]; [lia|].
    apply Hfresh in Hx. lia.
  - intros x id t Hx Hop. simpl. apply Hin in Hx as [->|Hx].
    + specialize (Hops _ Hop id t eq_refl). lia.
    + specialize (Hscoped x id t Hx Hop). lia.
  - intros x Hx. apply Hin in Hx as [->|Hx]; auto.
Qed.

Lemma newInst_insertBefore_ok name k t b st i st1 u st' :
  module_ok (st_module st) ->
  (forall x, x ∈ operands k -> value_scoped (st_module st) x) ->
  wt_inst (mkInst (next_id (st_module st)) name k t) ->
  newInst name k t st = Ret i st1 ->
  insertBefore i b st1 = Ret u st' ->
  module_ok (st_module st') /\
  i = mkInst (next_id (st_module st)) name k t /\
  i ∈ all_insts (st_module st') /\
  next_id (st_module st') = S (next_id (st_module st)).
Proof.
  intros Hok Hops Hwt Hnew Hins.
  apply newInst_state in Hnew as [-> ->].
  apply insertBefore_Ret in Hins as [Hhas ->]. simpl in *.
  apply has_inst_elem in Hhas.
  split; [|split; [reflexivity|split; [|reflexivity]]].
  - eapply (module_ok_splice b _ _ (fun x => [_; x]));
      [intros x; reflexivity|intros l; apply ins_before_split|exact Hok
      |exact Hhas|reflexivity|exact Hwt|exact Hops].
  - eapply (splice_module_present b _ _ (fun x => [_; x]));
      [intros x; reflexivity|intros l; apply ins_before_split|exact Hhas].
Qed.

Lemma newInst_insertAfter_ok name k t a st i st1 u st' :
  module_ok (st_module st) ->
  (forall x, x ∈ operands k -> value_scoped (st_module st) x) ->
  wt_inst (mkInst (next_id (st_module st)) name k t) ->
  newInst name k t st = Ret i st1 ->
  insertAfter i a st1 = Ret u st' ->
  module_ok (st_module st') /\
  i = mkInst (next_id (st_module st)) name k t /\
  i ∈ all_insts (st_module st') /\
  next_id (st_module st') = S (next_id (st_module st)).
Proof.
  intros Hok Hops Hwt Hnew Hins.
  apply newInst_state in Hnew as [-> ->].
  apply insertAfter_Ret in Hins as [Hhas ->]. simpl in *.
  apply has_inst_elem in Hhas.
  split; [|split; [reflexivity|split; [|reflexivity]]].
  - eapply (module_ok_splice a _ _ (fun x => [x; _]));
      [intros x; apply Permutation_swap|intros l; apply ins_after_split
      |exact Hok|exact Hhas|reflexivity|exact Hwt|exact Hops].
  - eapply (splice_module_present a _ _ (fun x => [x; _]));
      [intros x; apply Permutation_swap|intros l; apply ins_after_split
      |exact Hhas].
Qed.

Lemma newInst_insertBeforeAfter_ok name k t b a st i st1 v st' :
  module_ok (st_module st) ->
  (forall x, x ∈ operands k -> value_scoped (st_module st) x) ->
  wt_inst (mkInst (next_id (st_module st)) name k t) ->
  newInst name k t st = Ret i st1 ->
  insertBeforeAfter i b a st1 = Ret v st' ->
  module_ok (st_module st') /\
  v = VInst (next_id (st_module st)) t /\
  i = mkInst (next_id (st_module st)) name k t /\
  i ∈ all_insts (st_module st') /\
  next_id (st_module st') = S (next_id (st_module st)).
Proof.
  intros Hok Hops Hwt Hnew Hins. unfold insertBeforeAfter in Hins.
  apply bind_Ret in Hins as (u & s2 & Hins & Hret).
  injection Hret as <- <-.
  assert (module_ok (st_module s2) /\
          i = mkInst (next_id (st_module st)) name k t /\
          i ∈ all_insts (st_module s2) /\
          next_id (st_module s2) = S (next_id (st_module st)))
    as (H1 & -> & H3 & H4).
  { destruct b as [b|].
    - eapply newInst_insertBefore_ok; eauto.
    - apply bind_Ret in Hins as (a' & s3 & Ha & Hins).
      apply nonnull_Ret in Ha as [-> ->].
      eapply newInst_insertAfter_ok; eauto. }
  auto.
Qed.

(** ** Conversions keep the module well formed *)

Lemma value_scoped_mono m m' v :
  (next_id m <= next_id m')%nat -> value_scoped m v -> value_scoped m' v.
Proof. intros Hle Hv id t Heq. specialize (Hv id t Heq). lia. Qed.

Lemma value_scoped_const m c : value_scoped m (VConst c).
Proof. intros id t H. discriminate. Qed.

Lemma converted_ok_scoped v t st r st' v' :
  converted_ok v t st r st' -> value_scoped (st_module st) v ->
  r = Some v' -> value_scoped (st_module st') v'.
Proof.
  intros (x & -> & Hx & Hok & Hle & Hsame & Hnew) Hv [= <-].
  destruct (decide (typeOf v = t)) as [Heq|Hne].
  - destruct (Hsame Heq) as [-> ->]. exact Hv.
  - destruct (Hnew Hne) as (i & Hi & -> & _). intros id ty [= <- _].
    apply Hok. exact Hi.
Qed.

Lemma castStep_ok op v t b a st r st' :
  module_ok (st_module st) -> value_scoped (st_module st) v ->
  typeOf v <> t -> cast_valid op (typeOf v) t = true ->
  castStep op v (dyn_cast_Constant v) t b a false st = Ret r st' ->
  converted_ok v t st r st'.
Proof.
  intros Hok Hv Hne Hvalid H. unfold castStep in H.
  apply bind_Ret in H as (i & st1 & Hnew & H).
  apply bind_Ret in H as (conv & st2 & Hins & H). injection H as <- <-.
  eapply newInst_insertBeforeAfter_ok in Hins
    as (Hok' & -> & -> & Hin & Hnext); [|exact Hok| | |exact Hnew].
  - eexists. split; [reflexivity|]. split; [reflexivity|].
    split; [exact Hok'|]. split; [lia|]. split; [intros; contradiction|].
    intros _. eexists. split; [exact Hin|]. split; [reflexivity|]. simpl. lia.
  - intros x Hx. apply list_elem_of_singleton in Hx as ->. exact Hv.
  - exact Hvalid.
Qed.

Lemma loadPointerOperand_scoped m v p :
  module_ok m -> loadPointerOperand m v = Some p -> value_scoped m p.
Proof.
  intros Hok H. unfold loadPointerOperand in H.
  destruct v as [id ty| |]; try discriminate.
  destruct (lookup_inst m id) as [i|] eqn:Hl; [|discriminate].
  destruct (ikind i) eqn:Hk; try discriminate. injection H as ->.
  apply lookup_inst_Some in Hl as [Hi _].
  intros id' t' ->. eapply (wf_scoped _ (ok_ids _ Hok)); [exact Hi|].
  rewrite Hk. left.
Qed.

Lemma getIndexedType0_field_type t ft :
  getIndexedType0 t = Some ft -> field_type t 0 = Some ft.
Proof.
  destruct t as [| | | |e n|[|f fs] p|]; simpl; try discriminate; auto.
Qed.

Lemma getTypeAtIndex0_field_type t e :
  ty_ok t = true -> isEmptyTy t = false ->
  getTypeAtIndex0 t = Some e -> field_type t 0 = Some e /\ ty_ok e = true.
Proof.
  destruct t as [| | | |e0 n|[|f fs] p|]; simpl; try discriminate.
  - intros Hok Hempty [= ->].
    apply andb_prop in Hok as [Hn He]. apply orb_false_iff in Hempty as [Hz _].
    apply Z.leb_le in Hn. apply Z.eqb_neq in Hz.
    split; [|exact He]. change (Z.of_nat 0) with 0.
    destruct (0 <? n) eqn:E; [reflexivity|]. apply Z.ltb_ge in E. lia.
  - intros Hok _ [= ->]. apply andb_prop in Hok as [Hf _]. auto.
Qed.

Section ConvertOk.
Variable fuel : nat.
Hypothesis IH : forall v t b a st r st',
    anchored false b a ->
    module_ok (st_module st) -> value_scoped (st_module st) v ->
    ty_ok t = true ->
    convertToType fuel (Some v) (Some t) b a false st = Ret r st' ->
    converted_ok v t st r st'.

Lemma convert_via_ok v t1 t b a st r st' :
  anchored false b a ->
  module_ok (st_module st) -> value_scoped (st_module st) v ->
  ty_ok t1 = true -> ty_ok t = true ->
  typeOf v <> t -> typeOf v <> t1 -> t1 <> t ->
  (r1 <- convertToType fuel (Some v) (Some t1) b a false ;;
   x <- nonnull r1 ;;
   convertToType fuel (Some x) (Some t) b (dyn_cast_Instruction x) false) st
    = Ret r st' ->
  converted_ok v t st r st'.
Proof.
  intros Hanc Hok Hv Ht1 Ht Hne Hne1 Hne2 H.
  apply bind_Ret in H as (r1 & st1 & H1 & H).
  apply bind_Ret in H as (x & st2 & Hx & H).
  apply nonnull_Ret in Hx as [-> ->].
  pose proof (IH _ _ _ _ _ _ _ Hanc Hok Hv Ht1 H1) as Hc1.
  pose proof (converted_ok_scoped _ _ _ _ _ _ Hc1 Hv eq_refl) as Hxs.
  destruct Hc1 as (x' & [= <-] & Hxt & Hok1 & Hle1 & _ & Hnew1).
  destruct (Hnew1 Hne1) as (i1 & Hi1 & -> & Hid1).
  assert (anchored false b (dyn_cast_Instruction (valueOf i1))) as Hanc'.
  { right. right. discriminate. }
  pose proof (IH _ _ _ _ _ _ _ Hanc' Hok1 Hxs Ht H)
    as (v' & -> & Hv' & Hok2 & Hle2 & _ & Hnew2).
  exists v'. split; [reflexivity|]. split; [exact Hv'|].
  split; [exact Hok2|]. split; [lia|]. split; [intros; contradiction|].
  intros _. destruct Hnew2 as (i2 & Hi2 & -> & Hid2); [congruence|].
  exists i2. split; [exact Hi2|]. split; [reflexivity|]. lia.
Qed.

Lemma convert_then_wrap_ok v t1 t b a st r st' (wrapI : Value -> InstKind) :
  anchored false b a ->
  module_ok (st_module st) -> value_scoped (st_module st) v ->
  ty_ok t1 = true -> typeOf v <> t ->
  (forall x n, typeOf x = t1 -> wt_inst (mkInst n "" (wrapI x) t)) ->
  (forall x y, y ∈ operands (wrapI x) -> y = x \/ exists c, y = VConst c) ->
  (r1 <- convertToType fuel (Some v) (Some t1) b a false ;;
   x <- nonnull r1 ;;
   i <- newInst "" (wrapI x) t ;;
   a' <- (if decide (v = x) then ret a
          else id <- nonnull (dyn_cast_Instruction x) ;; ret (Some id)) ;;
   conv <- insertBeforeAfter i b a' ;;
   ret (Some conv)) st = Ret r st' ->
  converted_ok v t st r st'.
Proof.
  intros Hanc Hok Hv Ht1 Hne Hwt Hops H.
  apply bind_Ret in H as (r1 & st1 & H1 & H).
  apply bind_Ret in H as (x & st2 & Hx & H).
  apply nonnull_Ret in Hx as [-> ->].
  pose proof (IH _ _ _ _ _ _ _ Hanc Hok Hv Ht1 H1) as Hc1.
  pose proof (converted_ok_scoped _ _ _ _ _ _ Hc1 Hv eq_refl) as Hxs.
  destruct Hc1 as (x' & [= <-] & Hxt & Hok1 & Hle1 & _ & _).
  apply bind_Ret in H as (i & st2 & Hnew & H).
  apply bind_Ret in H as (a' & st3 & Ha & H).
  assert (st3 = st2) as ->.
  { destruct (decide (v = x)); [injection Ha as _ <-; reflexivity|].
    apply bind_Ret in Ha as (id & s & Hid & Ha).
    apply nonnull_Ret in Hid as [_ ->]. injection Ha as _ <-. reflexivity. }
  apply bind_Ret in H as (conv & st4 & Hins & H). injection H as <- <-.
  eapply newInst_insertBeforeAfter_ok in Hins
    as (Hok' & -> & -> & Hin & Hnext); [|exact Hok1| | |exact Hnew].
  - eexists. split; [reflexivity|]. split; [reflexivity|].
    split; [exact Hok'|]. split; [lia|]. split; [intros; contradiction|].
    intros _. eexists. split; [exact Hin|]. split; [reflexivity|]. simpl. lia.
  - intros y Hy. destruct (Hops _ _ Hy) as [->|(c & ->)];
      [exact Hxs|apply value_scoped_const].
  - apply Hwt. exact Hxt.
Qed.

End ConvertOk.

Lemma convertToType_ok fuel :
  forall v t b a st r st',
    anchored false b a ->
    module_ok (st_module st) -> value_scoped (st_module st) v ->
    ty_ok t = true ->
    convertToType fuel (Some v) (Some t) b a false st = Ret r st' ->
    converted_ok v t st r st'.
Proof.
  induction fuel as [|fuel IH]; intros v t b a st r st' Hanc Hok Hv Ht H.
  - discriminate.
  - simpl in H. pose proof (head_anchored false b a Hanc) as Hhead.
    simpl in Hhead. rewrite Hhead in H. clear Hhead.
    destruct (decide (typeOf v = t)) as [Heq|Hne].
    { injection H as <- <-. exists v. split; [reflexivity|].
      split; [exact Heq|]. split; [exact Hok|]. split; [lia|].
      split; [auto|]. intros; contradiction. }
    destruct (isPointerTy (typeOf v) && isPointerTy t) eqn:Epp.
    { eapply castStep_ok; try eassumption. simpl. rewrite Epp. reflexivity. }
    destruct (isPointerTy (typeOf v) && isIntegerTy t) eqn:Epi.
    { eapply castStep_ok; try eassumption. exact Epi. }
    destruct (isIntegerTy (typeOf v) && isPointerTy t) eqn:Eip.
    { eapply castStep_ok; try eassumption. exact Eip. }
    destruct (isIntegerTy (typeOf v) && isIntegerTy t) eqn:Eii.
    { eapply castStep_ok; try eassumption. exact Eii. }
    destruct (isIntegerTy (typeOf v) && isFloatingPointTy t) eqn:Eif.
    { apply andb_prop in Eif as [Ei Ef].
      eapply (convert_then_wrap_ok fuel IH) with
        (t1 := TInt (getPrimitiveSizeInBits t))
        (wrapI := fun x => KCast BitCast x); try eassumption.
      - reflexivity.
      - intros x n Hx. unfold wt_inst. simpl. rewrite Hx.
        destruct t; try discriminate Ef. simpl.
        apply bool_decide_eq_true. reflexivity.
      - intros x y Hy. apply list_elem_of_singleton in Hy. auto. }
    destruct (isPointerTy (typeOf v) && isFloatingPointTy t) eqn:Epf.
    { eapply (convert_via_ok fuel IH)
        with (t1 := TInt (getPrimitiveSizeInBits t)); try eassumption;
        try reflexivity;
        apply andb_prop in Epf as [Ep Ef];
        destruct (typeOf v); try discriminate Ep;
        destruct t; try discriminate Ef; discriminate. }
    destruct (isFloatingPointTy (typeOf v) && isIntegerTy t) eqn:Efi.
    { apply andb_prop in Efi as [Ef Ei].
      destruct t as [|w| | | | |]; try discriminate Ei. simpl in H.
      assert (forall ft : FloatKind, fp_bits ft = w ->
        (if decide (typeOf v <> TFloat ft) then
           r1 <- convertToType fuel (Some v) (Some (TFloat ft)) b a false ;;
           fpConv <- nonnull r1 ;;
           convertToType fuel (Some fpConv) (Some (TInt w)) b
             (dyn_cast_Instruction fpConv) false
         else castStep BitCast v (dyn_cast_Constant v) (TInt w) b a false) st
          = Ret r st' -> converted_ok v (TInt w) st r st') as Hvia.
      { intros ft Hw Hft. destruct (decide (typeOf v <> TFloat ft)) as [Hd|Hd].
        - eapply (convert_via_ok fuel IH) with (t1 := TFloat ft);
            try eassumption; try reflexivity. discriminate.
        - eapply castStep_ok; try eassumption.
          apply dec_stable in Hd. rewrite Hd. simpl.
          apply bool_decide_eq_true. exact Hw. }
      destruct (decide (w = 16)) as [->|H16];
        [apply (Hvia Half eq_refl); exact H|].
      destruct (decide (w = 32)) as [->|H32];
        [apply (Hvia Float eq_refl); exact H|].
      destruct (decide (w = 64)) as [->|H64];
        [apply (Hvia Double eq_refl); exact H|].
      destruct (decide (w = 80)) as [->|H80];
        [apply (Hvia X86_FP80 eq_refl); exact H|].
      eapply (convert_via_ok fuel IH) with (t1 := TInt 32);
        try eassumption; try reflexivity.
      + destruct (typeOf v); discriminate.
      + congruence. }
    destruct (isFloatingPointTy (typeOf v) && isPointerTy t) eqn:Efp.
    { eapply (convert_via_ok fuel IH)
        with (t1 := TInt (getPrimitiveSizeInBits (typeOf v)));
        try eassumption; try reflexivity;
        apply andb_prop in Efp as [Ef Ep];
        destruct (typeOf v); try discriminate Ef;
        destruct t; try discriminate Ep; discriminate. }
    destruct (isFloatingPointTy (typeOf v) && isFloatingPointTy t) eqn:Eff.
    { eapply castStep_ok; try eassumption. exact Eff. }
    apply bind_Ret in H as (s0 & s0' & [= <- <-] & H).
    destruct (bool_decide (loadPointerOperand (st_module st) v <> None)
              && isAggregateType (typeOf v) && true) eqn:Eload.
    { (* a load of an aggregate *)
      apply bind_Ret in H as (p & s1 & Hp & H).
      apply nonnull_Ret in Hp as [Hp ->].
      destruct (negb (isValidElementType t)); [discriminate|].
      apply bind_Ret in H as (r1 & st1 & H1 & H).
      apply bind_Ret in H as (c & s2 & Hc & H).
      apply nonnull_Ret in Hc as [-> ->].
      apply bind_Ret in H as (cid & s2 & Hcid & H).
      apply nonnull_Ret in Hcid as [Hcid ->].
      apply bind_Ret in H as (lt & s2 & Hlt & H).
      apply nonnull_Ret in Hlt as [Hlt ->].
      apply bind_Ret in H as (nl & st2 & Hnew & H).
      apply bind_Ret in H as (u & st3 & Hins & H). injection H as <- <-.
      pose proof (loadPointerOperand_scoped _ _ _ Hok Hp) as Hps.
      assert (ty_ok (TPtr t) = true) as Htp by exact Ht.
      pose proof (IH _ _ _ _ _ _ _ Hanc Hok Hps Htp H1) as Hc1.
      pose proof (converted_ok_scoped _ _ _ _ _ _ Hc1 Hps eq_refl) as Hcs.
      destruct Hc1 as (c' & [= <-] & Hct & Hok1 & Hle1 & _ & _).
      rewrite Hct in Hlt. injection Hlt as <-.
      eapply newInst_insertAfter_ok in Hins
        as (Hok' & -> & Hin & Hnext); [|exact Hok1| | |exact Hnew].
      - eexists. split; [reflexivity|]. split; [reflexivity|].
        split; [exact Hok'|]. split; [lia|]. split; [intros; contradiction|].
        intros _. eexists. split; [exact Hin|]. split; [reflexivity|].
        simpl. lia.
      - intros y Hy. apply list_elem_of_singleton in Hy as ->. exact Hcs.
      - exact Hct. }
    destruct (isAggregateType (typeOf v)) eqn:Eagg.
    { (* the first element of an aggregate *)
      apply bind_Ret in H as (ft & s1 & Hft & H).
      apply nonnull_Ret in Hft as [Hft ->].
      apply bind_Ret in H as (x & st1 & Hx & H).
      apply bind_Ret in Hx as (i & s2 & Hnew & Hins).
      assert (module_ok (st_module st1) /\
              x = VInst (next_id (st_module st)) ft /\
              i = mkInst (next_id (st_module st)) "" (KExtractValue v 0) ft /\
              i ∈ all_insts (st_module st1) /\
              next_id (st_module st1) = S (next_id (st_module st)))
        as (Hok1 & Hxeq & Hieq & Hin & Hnext).
      { eapply newInst_insertBeforeAfter_ok;
          [exact Hok| | |exact Hnew|exact Hins].
        - intros y Hy. apply list_elem_of_singleton in Hy as ->. exact Hv.
        - apply getIndexedType0_field_type. exact Hft. }
      subst x i.
      assert (anchored false b
                (dyn_cast_Instruction (VInst (next_id (st_module st)) ft)))
        as Hanc' by (right; right; discriminate).
      assert (value_scoped (st_module st1)
                (VInst (next_id (st_module st)) ft)) as Hxs.
      { intros id ty [= <- _]. lia. }
      pose proof (IH _ _ _ _ _ _ _ Hanc' Hok1 Hxs Ht H)
        as (v' & -> & Hv' & Hok2 & Hle2 & Hsame2 & Hnew2).
      exists v'. split; [reflexivity|]. split; [exact Hv'|].
      split; [exact Hok2|]. split; [lia|]. split; [intros; contradiction|].
      intros _. destruct (decide (ft = t)) as [->|Hd].
      - destruct (Hsame2 eq_refl) as [-> ->].
        eexists. split; [exact Hin|]. split; [reflexivity|]. simpl. lia.
      - destruct Hnew2 as (i2 & Hi2 & -> & Hid2); [simpl; congruence|].
        exists i2. split; [exact Hi2|]. split; [reflexivity|]. lia. }
    destruct (isAggregateType t) eqn:Eaggt; [|discriminate].
    destruct (isEmptyTy t) eqn:Eempty; [discriminate|].
    apply bind_Ret in H as (idxt & st1 & Hidx & H).
    apply nonnull_Ret in Hidx as [Hidx ->].
    destruct (getTypeAtIndex0_field_type _ _ Ht Eempty Hidx) as [Hfield Hidxok].
    eapply (convert_then_wrap_ok fuel IH) with
      (t1 := idxt)
      (wrapI := fun x => KInsertValue (VConst (CUndef t)) x 0);
      try eassumption.
    + intros x n Hx. unfold wt_inst. simpl. rewrite Hx. auto.
    + intros x y Hy. apply elem_of_cons in Hy as [->|Hy]; [eauto|].
      apply list_elem_of_singleton in Hy. auto.
Qed.

(** ** Conversions only add instructions *)

Lemma keeping_bind {A B} (c : M A) (k : A -> M B) :
  keeping c -> (forall a, keeping (k a)) -> keeping (bind c k).
Proof.
  intros Hc Hk st b st' H i Hi. apply bind_Ret in H as (a & st1 & H1 & H2).
  eapply Hk; [exact H2|]. eapply Hc; [exact H1|exact Hi].
Qed.

Lemma keeping_ret {A} (a : A) : keeping (ret a).
Proof. intros st b st' [= _ <-] i Hi. exact Hi. Qed.

Lemma keeping_abort {A} : keeping (@abort A).
Proof. intros st b st' H. discriminate. Qed.

Lemma keeping_out_of_fuel {A} : keeping (@out_of_fuel A).
Proof. intros st b st' H. discriminate. Qed.

Lemma keeping_get : keeping get.
Proof. intros st b st' [= _ <-] i Hi. exact Hi. Qed.

Lemma keeping_nonnull {A} (o : option A) : keeping (nonnull o).
Proof. destruct o; [apply keeping_ret|apply keeping_abort]. Qed.

Lemma keeping_newInst name k t : keeping (newInst name k t).
Proof. intros st i st' [= _ <-] x Hx. exact Hx. Qed.

Lemma keeping_insertBefore i b : keeping (insertBefore i b).
Proof.
  intros st u st' H x Hx. apply insertBefore_Ret in H as [_ ->]. simpl.
  eapply (splice_module_keeps b i _ (fun y => [i; y]));
    [intros y; reflexivity|intros l; apply ins_before_split|exact Hx].
Qed.

Lemma keeping_insertAfter i a : keeping (insertAfter i a).
Proof.
  intros st u st' H x Hx. apply insertAfter_Ret in H as [_ ->]. simpl.
  eapply (splice_module_keeps a i _ (fun y => [y; i]));
    [intros y; apply Permutation_swap|intros l; apply ins_after_split
    |exact Hx].
Qed.

Lemma keeping_insertBeforeAfter i b a : keeping (insertBeforeAfter i b a).
Proof.
  unfold insertBeforeAfter.
  apply keeping_bind; [|intros; apply keeping_ret].
  destruct b.
  - apply keeping_insertBefore.
  - apply keeping_bind; [apply keeping_nonnull|].
    intros; apply keeping_insertAfter.
Qed.

Ltac keeping_step :=
  match goal with
  | |- keeping (bind _ _) => apply keeping_bind; [|intros ?]
  | |- keeping (ret _) => apply keeping_ret
  | |- keeping abort => apply keeping_abort
  | |- keeping out_of_fuel => apply keeping_out_of_fuel
  | |- keeping get => apply keeping_get
  | |- keeping (nonnull _) => apply keeping_nonnull
  | |- keeping (newInst _ _ _) => apply keeping_newInst
  | |- keeping (insertBeforeAfter _ _ _) => apply keeping_insertBeforeAfter
  | |- keeping (insertAfter _ _) => apply keeping_insertAfter
  | |- keeping (insertBefore _ _) => apply keeping_insertBefore
  | |- keeping (if ?b then _ else _) => destruct b
  | |- keeping (match ?x with _ => _ end) => destruct x
  end.

Lemma keeping_castStep op v cval t b a ce :
  keeping (castStep op v cval t b a ce).
Proof. unfold castStep. repeat keeping_step. Qed.

Lemma keeping_convertToType fuel :
  forall val type b a ce, keeping (convertToType fuel val type b a ce).
Proof.
  induction fuel as [|fuel IH]; intros val type b a ce; simpl.
  - apply keeping_out_of_fuel.
  - cbv zeta.
    repeat first [apply IH | apply keeping_castStep | keeping_step].
Qed.

Lemma convertToType_only_adds fuel val type b a ce st r st' :
  convertToType fuel val type b a ce st = Ret r st' ->
  only_adds st st'.
Proof.
  intros H.
  pose proof (framed_convertToType (next_id (st_module st)) fuel val type b a
                ce st r st' (Nat.le_refl _) H) as [F1 F2 F3 F4].
  split; auto.
  eapply keeping_convertToType. exact H.
Qed.

(** A conversion that returns has only added instructions: the globals
    and the configuration are as before, every instruction of the module
    is still there, unchanged, and whatever is new carries an identity the
    counter had not given out. *)
Theorem convert_only_adds :
  forall fuel val type b a ce st r st',
    convertToType fuel val type b a ce st = Ret r st' ->
    only_adds st st'.
Proof.
  intros fuel val type b a ce st r st' H.
  pose proof (framed_convertToType (next_id (st_module st)) fuel val type b a
                ce st r st' (Nat.le_refl _) H) as [F1 F2 F3 F4].
  split; auto.
  eapply keeping_convertToType. exact H.
Qed.

Lemma convert_only_adds_witness :
  exists st',
    convertToType 3 (Some ex_float_arg) (Some (TInt 24)) (Some 0%nat) None
      false ex_state = Ret (Some (VInst 2 (TInt 24))) st' /\
    only_adds ex_state st'.
Proof.
  eexists. split; [vm_compute; reflexivity|].
  eapply (convert_only_adds 3 (Some ex_float_arg) (Some (TInt 24))
            (Some 0%nat) None false ex_state).
  vm_compute. reflexivity.
Defined.

Lemma convertToType_ok_result fuel v t b a st r st' :
  anchored false b a ->
  module_ok (st_module st) -> value_scoped (st_module st) v ->
  ty_ok t = true ->
  convertToType fuel (Some v) (Some t) b a false st = Ret r st' ->
  module_ok (st_module st') /\
  exists v', r = Some v' /\ typeOf v' = t /\
    value_scoped (st_module st') v' /\
    (v' = v \/
     exists i, i ∈ all_insts (st_module st') /\ v' = valueOf i /\
       (next_id (st_module st) <= iid i)%nat).
Proof.
  intros Hanc Hok Hv Ht H.
  pose proof (convertToType_ok fuel v t b a st r st' Hanc Hok Hv Ht H) as Hc.
  pose proof Hc as (v' & -> & Hv' & Hok' & Hle & Hsame & Hnew).
  split; [exact Hok'|]. exists v'. split; [reflexivity|].
  split; [exact Hv'|]. split.
  - eapply converted_ok_scoped; eauto.
  - destruct (decide (typeOf v = t)) as [Heq|Hne].
    + left. apply Hsame. exact Heq.
    + right. apply Hnew. exact Hne.
Qed.

(** A live conversion keeps a well-formed module well formed: identities
    stay unique, below the counter and scoped, and every instruction,
    the inserted casts, loads and aggregate accesses included,
    type-checks.  The result has the target type; it is the value itself
    when the types agree and a new instruction of the module otherwise. *)
Theorem convert_keeps_module_ok :
  forall fuel v t b a st r st',
    anchored false b a ->
    module_ok (st_module st) -> value_scoped (st_module st) v ->
    ty_ok t = true ->
    convertToType fuel (Some v) (Some t) b a false st = Ret r st' ->
    module_ok (st_module st') /\
    exists v', r = Some v' /\ typeOf v' = t /\
      value_scoped (st_module st') v' /\
      (v' = v \/
       exists i, i ∈ all_insts (st_module st') /\ v' = valueOf i /\
         (next_id (st_module st) <= iid i)%nat).
Proof.
  intros fuel v t b a st r st' Hanc Hok Hv Ht H.
  pose proof (convertToType_ok fuel v t b a st r st' Hanc Hok Hv Ht H) as Hc.
  pose proof Hc as (v' & -> & Hv' & Hok' & Hle & Hsame & Hnew).
  split; [exact Hok'|]. exists v'. split; [reflexivity|].
  split; [exact Hv'|]. split.
  - eapply converted_ok_scoped; eauto.
  - destruct (decide (typeOf v = t)) as [Heq|Hne].
    + left. apply Hsame. exact Heq.
    + right. apply Hnew. exact Hne.
Qed.

Lemma ex_module_ok : module_ok (st_module ex_state).
Proof.
  split.
  - apply wf_ids_b_correct. vm_compute. reflexivity.
  - apply Forall_forall. repeat constructor.
Qed.

Lemma convert_keeps_module_ok_witness :
  anchored false (Some 0%nat) None /\
  module_ok (st_module ex_state) /\
  value_scoped (st_module ex_state) ex_float_arg /\
  ty_ok (TInt 24) = true /\
  exists st',
    convertToType 3 (Some ex_float_arg) (Some (TInt 24)) (Some 0%nat) None
      false ex_state = Ret (Some (VInst 2 (TInt 24))) st' /\
    module_ok (st_module st').
Proof.
  assert (anchored false (Some 0%nat) None) as Ha
    by (right; left; discriminate).
  assert (value_scoped (st_module ex_state) ex_float_arg) as Hv
    by (intros id t H; discriminate H).
  split; [exact Ha|]. split; [exact ex_module_ok|]. split; [exact Hv|].
  split; [reflexivity|].
  eexists. split; [vm_compute; reflexivity|].
  eapply (convert_keeps_module_ok 3 ex_float_arg (TInt 24) (Some 0%nat) None
            ex_state _ _ Ha ex_module_ok Hv eq_refl).
  vm_compute. reflexivity.
Defined.

(** ** createAlloca *)

Lemma find_map_preserved {A} (p : A -> bool) (h : A -> A) (l : list A) :
  (forall x, p (h x) = p x) ->
  List.find p (map h l) = h <$> List.find p l.
Proof.
  intros Hp. induction l as [|x l IH]; simpl; [reflexivity|].
  rewrite Hp. destruct (p x); [reflexivity|exact IH].
Qed.

Lemma lookup_function_map_blocks g m fnc :
  lookup_function (map_blocks g m) fnc =
  (fun f => mkFunction (fid f) (fname f) (fparams f) (map g (fblocks f)))
    <$> lookup_function m fnc.
Proof.
  unfold lookup_function, map_blocks. simpl.
  apply find_map_preserved. intros f. reflexivity.
Qed.

Lemma lookup_function_Some m fnc f :
  lookup_function m fnc = Some f -> f ∈ functions m /\ fid f = fnc.
Proof.
  unfold lookup_function. intros H. apply find_some in H as [Hin Hid].
  apply list_elem_of_In in Hin. apply bool_decide_eq_true in Hid. auto.
Qed.

Lemma function_ids_nodup m f :
  NoDup (map iid (all_insts m)) -> f ∈ functions m ->
  NoDup (map iid (function_insts f)).
Proof.
  intros Hnd Hf. unfold all_insts in Hnd.
  rewrite concat_map, map_map in Hnd.
  eapply NoDup_concat_elem; [exact Hnd|].
  apply list_elem_of_fmap. exists f. split; [reflexivity|exact Hf].
Qed.

Lemma entry_front_elem m f front :
  f ∈ functions m -> entry_front f = Some front ->
  front ∈ all_insts m /\
  exists rest bs, fblocks f = (front :: rest) :: bs.
Proof.
  intros Hf Hfront. unfold entry_front in Hfront.
  destruct (fblocks f) as [|[|x rest] bs] eqn:Hb; try discriminate.
  injection Hfront as ->. split; [|eauto].
  apply elem_of_all_insts. exists f, (front :: rest).
  split; [exact Hf|]. rewrite Hb. split; left.
Qed.

Lemma map_ins_before_absent anchor x (bs : list (list Inst)) :
  anchor ∉ map iid (concat bs) -> map (ins_before anchor x) bs = bs.
Proof.
  induction bs as [|b bs IH]; simpl; [reflexivity|].
  rewrite map_app. intros Habs.
  rewrite ins_before_absent.
  - rewrite IH; [reflexivity|]. intros H. apply Habs. apply elem_of_app. auto.
  - intros H. apply Habs. apply elem_of_app. auto.
Qed.

(** The entry block of a function with unique identities after an
    instruction was inserted before its front: nothing else moves. *)
Lemma ins_before_entry m f front rest bs x :
  NoDup (map iid (all_insts m)) -> f ∈ functions m ->
  fblocks f = (front :: rest) :: bs ->
  map (ins_before (iid front) x) (fblocks f) = (x :: front :: rest) :: bs.
Proof.
  intros Hnd Hf Hb. rewrite Hb. simpl.
  rewrite bool_decide_eq_true_2 by reflexivity. f_equal.
  pose proof (function_ids_nodup m f Hnd Hf) as Hfn.
  unfold function_insts in Hfn. rewrite Hb in Hfn. simpl in Hfn.
  apply NoDup_cons in Hfn as [Hfront _].
  apply map_ins_before_absent. intros H. apply Hfront.
  rewrite map_app. apply elem_of_app. auto.
Qed.

(** [createAlloca] declines on a function that has no instruction to
    insert before: it returns null exactly when the function has no block
    or an empty entry block, and then it changes nothing. *)
Theorem createAlloca_null_on_empty_entry :
  forall fnc ty name st f,
    lookup_function (st_module st) fnc = Some f ->
    (entry_front f = None -> createAlloca fnc ty name st = Ret None st) /\
    (forall st', createAlloca fnc ty name st = Ret None st' ->
       entry_front f = None /\ st' = st).
Proof.
  intros fnc ty name st f Hf. unfold createAlloca, bind, get. rewrite Hf.
  simpl. split.
  - intros ->. reflexivity.
  - intros st'. destruct (entry_front f) as [front|].
    + destruct (negb (isValidElementType ty)); [discriminate|].
      unfold newInst, insertBefore, bind, get.
      destruct (has_inst _ _); discriminate.
    + intros [= <-]. auto.
Qed.

Lemma createAlloca_null_witness :
  lookup_function (st_module ex_empty_entry_state) 0
    = Some (mkFunction 0 "e" [] [[]; [ex_ret]]) /\
  createAlloca 0 (TInt 32) "a" ex_empty_entry_state
    = Ret None ex_empty_entry_state.
Proof.
  split; [reflexivity|].
  apply (proj1 (createAlloca_null_on_empty_entry 0 (TInt 32) "a"
                  ex_empty_entry_state _ eq_refl)).
  reflexivity.
Defined.

(** On a function whose entry block has an instruction, in a well-formed
    module, [createAlloca] returns a new alloca of the type asked for that
    stands at the front of the entry block, before the old front; the
    other blocks are as they were and the module is still well formed. *)
Theorem createAlloca_at_entry_front :
  forall fnc ty name st f front,
    module_ok (st_module st) ->
    lookup_function (st_module st) fnc = Some f ->
    entry_front f = Some front ->
    isValidElementType ty = true ->
    exists st' f',
      let alloca := mkInst (next_id (st_module st)) name (KAlloca ty) (TPtr ty) in
      createAlloca fnc ty name st = Ret (Some (valueOf alloca)) st' /\
      module_ok (st_module st') /\
      only_adds st st' /\
      lookup_function (st_module st') fnc = Some f' /\
      exists rest bs,
        fblocks f = (front :: rest) :: bs /\
        fblocks f' = (alloca :: front :: rest) :: bs.
Proof.
  intros fnc ty name st f front Hok Hf Hfront Hty.
  destruct (lookup_function_Some _ _ _ Hf) as [Hfin Hfid].
  destruct (entry_front_elem _ _ _ Hfin Hfront) as (Hin & rest & bs & Hb).
  set (alloca := mkInst (next_id (st_module st)) name (KAlloca ty) (TPtr ty)).
  set (st1 := mkState (mkModule (S (next_id (st_module st)))
                         (functions (st_module st)) (globals (st_module st))
                         (word_bits (st_module st))) (st_config st)).
  assert (has_inst (st_module st1) (iid front) = true) as Hhas.
  { apply has_inst_elem. apply list_elem_of_fmap. eauto. }
  set (st' := mkState (map_blocks (ins_before (iid front) alloca)
                         (st_module st1)) (st_config st)).
  assert (newInst name (KAlloca ty) (TPtr ty) st = Ret alloca st1) as Hnew
    by reflexivity.
  assert (insertBefore alloca (iid front) st1 = Ret tt st') as Hins.
  { unfold insertBefore, bind, get. rewrite Hhas. reflexivity. }
  assert (createAlloca fnc ty name st = Ret (Some (valueOf alloca)) st')
    as Hrun.
  { unfold createAlloca, bind, get. rewrite Hf. simpl. rewrite Hfront, Hty.
    simpl. fold alloca. fold st1.
    change (insertBefore alloca (iid front) st1) with
      (insertBefore alloca (iid front) st1).
    rewrite Hins. reflexivity. }
  exists st', (mkFunction (fid f) (fname f) (fparams f)
                 (map (ins_before (iid front) alloca) (fblocks f))).
  cbv zeta. fold alloca. split; [exact Hrun|].
  destruct (newInst_insertBefore_ok name (KAlloca ty) (TPtr ty) (iid front)
              st alloca st1 tt st' Hok) as (Hok' & _ & Hain & Hnext);
    [intros x Hx; inversion Hx|reflexivity|exact Hnew|exact Hins|].
  split; [exact Hok'|]. split.
  - split; simpl; auto.
    + intros i Hi.
      apply (keeping_insertBefore alloca (iid front) st1 tt st' Hins i Hi).
    + intros i Hi.
      apply elem_of_all_insts_ins_before in Hi as [->|Hi]; [right|left; exact Hi].
      simpl. lia.
  - split.
    + simpl. rewrite lookup_function_map_blocks.
      unfold lookup_function in *. simpl. rewrite Hf. reflexivity.
    + exists rest, bs. split; [exact Hb|]. simpl.
      eapply ins_before_entry; [apply Hok|exact Hfin|exact Hb].
Qed.

Lemma createAlloca_at_entry_front_witness :
  module_ok (st_module ex_state) /\
  lookup_function (st_module ex_state) 0 = Some ex_function /\
  entry_front ex_function = Some ex_ret /\
  isValidElementType (TInt 32) = true /\
  exists st' f',
    let alloca := mkInst (next_id (st_module ex_state)) "a" (KAlloca (TInt 32))
                    (TPtr (TInt 32)) in
    createAlloca 0 (TInt 32) "a" ex_state = Ret (Some (valueOf alloca)) st' /\
    module_ok (st_module st') /\
    only_adds ex_state st' /\
    lookup_function (st_module st') 0 = Some f' /\
    exists rest bs,
      fblocks ex_function = (ex_ret :: rest) :: bs /\
      fblocks f' = (alloca :: ex_ret :: rest) :: bs.
Proof.
  split; [exact ex_module_ok|]. split; [reflexivity|].
  split; [reflexivity|]. split; [reflexivity|].
  apply (createAlloca_at_entry_front 0 (TInt 32) "a" ex_state ex_function
           ex_ret ex_module_ok); reflexivity.
Defined.

(** ** getStackVariable: a new slot *)

Lemma head_concat_ins_before (bs : list (list Inst)) it x :
  head (concat bs) = Some it ->
  head (concat (map (ins_before (iid it) x) bs)) = Some x.
Proof.
  induction bs as [|blk bs IH]; simpl; [discriminate|].
  destruct blk as [|y blk]; simpl; [exact IH|].
  intros [= ->]. rewrite bool_decide_eq_true_2 by reflexivity. reflexivity.
Qed.

(** When no slot is registered under (function, offset), in a well-formed
    module whose function has an instruction, [getStackVariable] makes an
    alloca named after the hint (or "stack_var") and the offset, of the
    type asked for, or of the default type of the ABI when a pointer
    to the type asked for cannot be formed; the alloca becomes the first
    instruction of the function and the module is still well formed. *)
Theorem getStackVariable_creates_first_instruction :
  forall fnc offset type name st f it,
    module_ok (st_module st) ->
    getLlvmStackVariable (st_config st) fnc offset = None ->
    lookup_function (st_module st) fnc = Some f ->
    inst_begin f = Some it ->
    exists st' f' so,
      let ty := if isValidElementType type then type
                else getDefaultType (st_module st) in
      let n := (if bool_decide (name = "") then "stack_var" else name)
                 +:+ "_" +:+ pretty offset in
      let alloca := mkInst (next_id (st_module st)) n (KAlloca ty) (TPtr ty) in
      getStackVariable fnc offset type name st = Ret (valueOf alloca, so) st' /\
      module_ok (st_module st') /\
      alloca ∈ all_insts (st_module st') /\
      lookup_function (st_module st') fnc = Some f' /\
      inst_begin f' = Some alloca.
Proof.
  intros fnc offset type name st f it Hok Hnone Hf Hit.
  destruct (lookup_function_Some _ _ _ Hf) as [Hfin Hfid].
  set (ty := if isValidElementType type then type
             else getDefaultType (st_module st)).
  set (n := (if bool_decide (name = "") then "stack_var" else name)
              +:+ "_" +:+ pretty offset).
  set (alloca := mkInst (next_id (st_module st)) n (KAlloca ty) (TPtr ty)).
  set (st1 := mkState (mkModule (S (next_id (st_module st)))
                         (functions (st_module st)) (globals (st_module st))
                         (word_bits (st_module st))) (st_config st)).
  assert (it ∈ all_insts (st_module st)) as Hitin.
  { unfold inst_begin in Hit. apply head_Some_elem_of in Hit.
    unfold all_insts. apply list_elem_of_In, in_concat.
    exists (function_insts f). split.
    - apply in_map. apply list_elem_of_In. exact Hfin.
    - apply list_elem_of_In. exact Hit. }
  assert (has_inst (st_module st1) (iid it) = true) as Hhas.
  { apply has_inst_elem. apply list_elem_of_fmap. eauto. }
  set (st2 := mkState (map_blocks (ins_before (iid it) alloca)
                         (st_module st1)) (st_config st)).
  assert (newInst n (KAlloca ty) (TPtr ty) st = Ret alloca st1) as Hnew
    by reflexivity.
  assert (insertBefore alloca (iid it) st1 = Ret tt st2) as Hins.
  { unfold insertBefore, bind, get. rewrite Hhas. reflexivity. }
  destruct (newInst_insertBefore_ok n (KAlloca ty) (TPtr ty) (iid it)
              st alloca st1 tt st2 Hok) as (Hok' & _ & Hain & Hnext);
    [intros x Hx; inversion Hx|reflexivity|exact Hnew|exact Hins|].
  eexists _, (mkFunction (fid f) (fname f) (fparams f)
                (map (ins_before (iid it) alloca) (fblocks f))), _.
  cbv zeta. fold ty. fold n. fold alloca. split; [|split; [|split; [|split]]].
  - unfold getStackVariable, bind, get. rewrite Hnone.
    replace (if negb (isValidElementType type)
             then getDefaultType (st_module st) else type) with ty
      by (unfold ty; destruct (isValidElementType type); reflexivity).
    fold n. unfold newInst. fold alloca. simpl. unfold lookup_function in *.
    simpl. rewrite Hf. simpl. rewrite Hit. simpl.
    fold st1. unfold insertBefore, bind, get. rewrite Hhas. simpl.
    reflexivity.
  - exact Hok'.
  - exact Hain.
  - simpl. rewrite lookup_function_map_blocks.
    unfold lookup_function in *. simpl. rewrite Hf. reflexivity.
  - unfold inst_begin, function_insts in *. simpl.
    apply head_concat_ins_before. exact Hit.
Qed.

Lemma getStackVariable_creates_witness :
  module_ok (st_module ex_state) /\
  getLlvmStackVariable (st_config ex_state) 0 (-4) = None /\
  lookup_function (st_module ex_state) 0 = Some ex_function /\
  inst_begin ex_function = Some ex_ret /\
  exists st' f' so,
    let ty := if isValidElementType TVoid then TVoid
              else getDefaultType (st_module ex_state) in
    let n := (if bool_decide ("" = "") then "stack_var" else "")
               +:+ "_" +:+ pretty (-4) in
    let alloca := mkInst (next_id (st_module ex_state)) n (KAlloca ty)
                    (TPtr ty) in
    getStackVariable 0 (-4) TVoid "" ex_state = Ret (valueOf alloca, so) st' /\
    module_ok (st_module st') /\
    alloca ∈ all_insts (st_module st') /\
    lookup_function (st_module st') 0 = Some f' /\
    inst_begin f' = Some alloca.
Proof.
  split; [exact ex_module_ok|]. split; [reflexivity|].
  split; [reflexivity|]. split; [reflexivity|].
  apply (getStackVariable_creates_first_instruction 0 (-4) TVoid ""
           ex_state ex_function ex_ret ex_module_ok); reflexivity.
Defined.

(** ** Editing keeps a module well formed *)

Lemma module_ok_ext m m' :
  all_insts m' = all_insts m -> next_id m' = next_id m ->
  module_ok m -> module_ok m'.
Proof.
  intros Hi Hn [[Hnd Hfresh Hscoped] Hwt]. split; [split|].
  - rewrite Hi. exact Hnd.
  - intros i. rewrite Hi, Hn. apply Hfresh.
  - intros i id t. rewrite Hi, Hn. apply Hscoped.
  - intros i. rewrite Hi. apply Hwt.
Qed.

Lemma module_ok_map m f :
  module_ok m ->
  (forall i, iid (f i) = iid i) ->
  (forall i, i ∈ all_insts m -> wt_inst (f i)) ->
  (forall i v, i ∈ all_insts m -> v ∈ operands (ikind (f i)) ->
     value_scoped m v) ->
  module_ok (map_blocks (map f) m).
Proof.
  intros [[Hnd Hfresh Hscoped] Hwt] Hid Hwtf Hops. split; [split|].
  - rewrite map_iid_all_insts_map by exact Hid. exact Hnd.
  - intros i Hi. apply elem_of_all_insts_map in Hi as (i0 & Hi0 & ->).
    rewrite Hid. apply Hfresh. exact Hi0.
  - intros i id t Hi Hop. apply elem_of_all_insts_map in Hi as (i0 & Hi0 & ->).
    apply (Hops i0 _ Hi0 Hop id t eq_refl).
  - intros i Hi. apply elem_of_all_insts_map in Hi as (i0 & Hi0 & ->). auto.
Qed.

Lemma concat_map_filter {A} (P : A -> Prop) `{forall x, Decision (P x)}
    (bs : list (list A)) :
  concat (map (filter P) bs) = filter P (concat bs).
Proof.
  induction bs as [|b bs IH]; simpl; [reflexivity|].
  rewrite filter_app, IH. reflexivity.
Qed.

Lemma NoDup_fmap_filter {A B} (f : A -> B) (P : A -> Prop)
    `{forall x, Decision (P x)} (l : list A) :
  NoDup (map f l) -> NoDup (map f (filter P l)).
Proof.
  induction l as [|x l IH]; simpl; [auto|].
  intros Hnd. apply NoDup_cons in Hnd as [Hx Hnd].
  rewrite filter_cons. destruct (decide (P x)); [|auto].
  simpl. apply NoDup_cons. split; [|auto].
  intros Hin. apply Hx. apply list_elem_of_fmap in Hin as (y & -> & Hy).
  apply list_elem_of_filter in Hy as [_ Hy].
  apply list_elem_of_fmap. eauto.
Qed.

Lemma module_ok_filter m (P : Inst -> Prop) `{forall x, Decision (P x)} :
  module_ok m -> module_ok (map_blocks (filter P) m).
Proof.
  intros [[Hnd Hfresh Hscoped] Hwt].
  assert (all_insts (map_blocks (filter P) m) = filter P (all_insts m)) as Hf.
  { rewrite all_insts_map_blocks_concat, all_insts_concat.
    apply concat_map_filter. }
  split; [split|].
  - rewrite Hf. apply NoDup_fmap_filter. exact Hnd.
  - intros i. rewrite Hf. intros Hi. apply list_elem_of_filter in Hi as [_ Hi].
    apply Hfresh. exact Hi.
  - intros i id t. rewrite Hf. intros Hi.
    apply list_elem_of_filter in Hi as [_ Hi]. apply (Hscoped i id t Hi).
  - intros i. rewrite Hf. intros Hi. apply list_elem_of_filter in Hi as [_ Hi].
    auto.
Qed.

Lemma module_ok_eraseFromParent id st u st' :
  module_ok (st_module st) -> eraseFromParent id st = Ret u st' ->
  module_ok (st_module st') /\ next_id (st_module st') = next_id (st_module st).
Proof.
  intros Hok [= _ <-]. split; [|reflexivity]. simpl.
  apply module_ok_filter. exact Hok.
Qed.

Lemma operands_map_operands r k :
  operands (map_operands r k) = map r (operands k).
Proof. destruct k; reflexivity. Qed.

(** Replacing operands by values of the same type. *)
Lemma module_ok_replace m (P : Inst -> bool) r :
  module_ok m ->
  (forall v, typeOf (r v) = typeOf v) ->
  (forall v, value_scoped m v -> value_scoped m (r v)) ->
  module_ok (map_blocks
               (map (fun i => if P i then map_inst (map_operands r) i else i))
               m).
Proof.
  intros Hok Hty Hsc. apply module_ok_map; [exact Hok| | |].
  - intros i. destruct (P i); reflexivity.
  - intros i Hi. destruct (P i); [|apply Hok; exact Hi].
    apply wt_inst_map_operands; [exact Hty|]. apply Hok. exact Hi.
  - intros i v Hi Hv.
    assert (forall x, x ∈ operands (ikind i) -> value_scoped m x) as Hold.
    { intros x Hx id t ->. eapply (wf_scoped _ (ok_ids _ Hok)); eauto. }
    destruct (P i); [|auto]. simpl in Hv. rewrite operands_map_operands in Hv.
    apply list_elem_of_fmap in Hv as (x & -> & Hx). auto.
Qed.

Lemma value_scoped_replace m from to v :
  value_scoped m to -> value_scoped m v ->
  value_scoped m (replace_value from to v).
Proof. intros Hto Hv. unfold replace_value. destruct (decide _); auto. Qed.

Lemma value_scoped_subst m old new v :
  value_scoped m new -> value_scoped m v ->
  value_scoped m (subst_value old new v).
Proof.
  intros Hnew Hv. unfold subst_value. destruct (decide _); [exact Hnew|].
  destruct v, old, new; auto. apply value_scoped_const.
Qed.

Lemma module_ok_instReplaceUsesOfWith u from to st x st' :
  module_ok (st_module st) ->
  typeOf to = typeOf from -> value_scoped (st_module st) to ->
  instReplaceUsesOfWith u from to st = Ret x st' ->
  module_ok (st_module st') /\ next_id (st_module st') = next_id (st_module st).
Proof.
  intros Hok Hty Hto H. unfold instReplaceUsesOfWith, bind, get in H.
  destruct (has_inst _ _); [|discriminate]. injection H as _ <-.
  split; [|reflexivity]. simpl.
  assert (forall i, map_inst (replaceUsesOfWith from to) i =
                    map_inst (map_operands (replace_value from to)) i) as Heq.
  { intros i. unfold map_inst. rewrite replaceUsesOfWith_map_operands.
    reflexivity. }
  erewrite map_blocks_ext_in.
  - apply (module_ok_replace _ (fun i => bool_decide (iid i = u))
             (replace_value from to) Hok).
    + intros v. apply typeOf_replace_value. exact Hty.
    + intros v. apply value_scoped_replace. exact Hto.
  - intros f blk _ _. apply map_ext. intros i. rewrite Heq. reflexivity.
Qed.

Lemma module_ok_replaceAllUsesWith old new st u st' :
  module_ok (st_module st) ->
  typeOf old = typeOf new -> value_scoped (st_module st) new ->
  replaceAllUsesWith old new st = Ret u st' ->
  module_ok (st_module st') /\ next_id (st_module st') = next_id (st_module st).
Proof.
  intros Hok Hty Hnew [= _ <-]. split; [|reflexivity]. simpl.
  apply (module_ok_ext
           (map_blocks (map (map_inst (map_operands (subst_value old new))))
              (st_module st))); [reflexivity|reflexivity|].
  apply (module_ok_replace _ (fun _ => true) (subst_value old new) Hok).
  - intros v. apply typeOf_subst_value. exact Hty.
  - intros v. apply value_scoped_subst. exact Hnew.
Qed.

(** ** localize keeps the module well formed *)

Lemma module_ok_forM_replace uses from to :
  typeOf to = typeOf from ->
  forall st u st',
    module_ok (st_module st) -> value_scoped (st_module st) to ->
    forM_ uses (fun x => instReplaceUsesOfWith x from to) st = Ret u st' ->
    module_ok (st_module st').
Proof.
  intros Hty. induction uses as [|x uses IH]; intros st u st' Hok Hto H;
    simpl in H.
  - injection H as _ <-. exact Hok.
  - apply bind_Ret in H as (u1 & st1 & H1 & H).
    eapply module_ok_instReplaceUsesOfWith in H1 as [Hok1 Hn1]; eauto.
    eapply IH; [exact Hok1| |exact H].
    eapply value_scoped_mono; [|exact Hto]. lia.
Qed.

(** [localize] keeps a well-formed module well formed: the new alloca and
    the new store have fresh identities and type-check (the store stores
    the value of the old store into a slot of that type), and the uses
    that are patched get a pointer of the type they had. *)
Theorem localize_keeps_module_ok :
  forall definition uses st r st',
    module_ok (st_module st) ->
    localize definition uses st = Ret r st' ->
    module_ok (st_module st').
Proof.
  intros def uses st r st' Hok H. unfold localize in H.
  apply bind_Ret in H as (s & s' & [= <- <-] & H).
  apply bind_Ret in H as (d & s' & Hd & H).
  apply nonnull_Ret in Hd as [Hd ->].
  apply lookup_inst_Some in Hd as [Hdin Hdid].
  destruct (ikind d) as [|?|val ptr| | | |] eqn:Hk; try discriminate.
  apply bind_Ret in H as (f & s' & Hf & H).
  apply nonnull_Ret in Hf as [Hf ->].
  apply bind_Ret in H as (et & s' & Het & H).
  apply nonnull_Ret in Het as [Het ->].
  apply getPointerElementType_Some in Het.
  apply bind_Ret in H as (local & s1 & Hlocal & H).
  apply bind_Ret in H as (front & s' & Hfront & H).
  apply nonnull_Ret in Hfront as [Hfront ->].
  apply bind_Ret in H as (u1 & s2 & Hins1 & H).
  destruct (newInst_insertBefore_ok "" (KAlloca et) (TPtr et) (iid front) st
              local s1 u1 s2 Hok) as (Hok2 & Hleq & Hin2 & Hn2);
    [intros x Hx; inversion Hx|reflexivity|exact Hlocal|exact Hins1|].
  subst local.
  apply bind_Ret in H as (store & s3 & Hstore & H).
  apply bind_Ret in H as (u2 & s4 & Hins2 & H).
  assert (typeOf val = et) as Hval.
  { pose proof (ok_insts _ Hok d Hdin) as Hwt. unfold wt_inst in Hwt.
    rewrite Hk, Het in Hwt. congruence. }
  assert (value_scoped (st_module st) val) as Hvs.
  { intros id t ->. eapply (wf_scoped _ (ok_ids _ Hok)); [exact Hdin|].
    rewrite Hk. left. }
  assert (module_ok (st_module s4) /\
          next_id (st_module s4) = S (next_id (st_module s2)))
    as [Hok4 Hn4].
  { destruct (newInst_insertBefore_ok "" (KStore val
                (valueOf (mkInst (next_id (st_module st)) "" (KAlloca et)
                            (TPtr et)))) TVoid def s2 store s3 u2 s4 Hok2)
      as (Hok4 & _ & _ & Hn4); [| |exact Hstore|exact Hins2|auto].
    - intros x Hx. apply elem_of_cons in Hx as [->|Hx].
      + eapply value_scoped_mono; [|exact Hvs]. lia.
      + apply list_elem_of_singleton in Hx as ->.
        intros id t [= <- _]. lia.
    - unfold wt_inst. simpl. rewrite Hval. reflexivity. }
  apply bind_Ret in H as (u3 & s5 & Herase & H).
  apply module_ok_eraseFromParent in Herase as [Hok5 Hn5]; [|exact Hok4].
  apply bind_Ret in H as (u4 & s6 & Hloop & H). injection H as _ <-.
  eapply module_ok_forM_replace; [|exact Hok5| |exact Hloop].
  - simpl. symmetry. exact Het.
  - intros id t [= <- _]. lia.
Qed.

Lemma ex_localize_module_ok : module_ok (st_module ex_localize_state).
Proof.
  split.
  - apply wf_ids_b_correct. vm_compute. reflexivity.
  - apply Forall_forall. repeat constructor.
Qed.

Lemma localize_keeps_module_ok_witness :
  module_ok (st_module ex_localize_state) /\
  exists st',
    localize 1 [2%nat] ex_localize_state = Ret true st' /\
    module_ok (st_module st').
Proof.
  split; [exact ex_localize_module_ok|].
  eexists. split; [vm_compute; reflexivity|].
  eapply (localize_keeps_module_ok 1 [2%nat] ex_localize_state true _
            ex_localize_module_ok).
  vm_compute. reflexivity.
Defined.

(** ** changeObjectType with a container for the obsolete instructions *)

Lemma keeps_ids_bind {A B} (c : M A) (k : A -> M B) :
  keeps_ids c -> (forall a, keeps_ids (k a)) -> keeps_ids (bind c k).
Proof.
  intros Hc Hk st b st' H id Hid. apply bind_Ret in H as (a & st1 & H1 & H2).
  eapply Hk; [exact H2|]. eapply Hc; [exact H1|exact Hid].
Qed.

Lemma keeps_ids_ret {A} (a : A) : keeps_ids (ret a).
Proof. intros st b st' [= _ <-] id Hid. exact Hid. Qed.

Lemma keeps_ids_abort {A} : keeps_ids (@abort A).
Proof. intros st b st' H. discriminate. Qed.

Lemma keeps_ids_get : keeps_ids get.
Proof. intros st b st' [= _ <-] id Hid. exact Hid. Qed.

Lemma keeps_ids_nonnull {A} (o : option A) : keeps_ids (nonnull o).
Proof. destruct o; [apply keeps_ids_ret|apply keeps_ids_abort]. Qed.

Lemma keeping_keeps_ids {A} (c : M A) : keeping c -> keeps_ids c.
Proof.
  intros Hc st a st' H id Hid. apply list_elem_of_fmap in Hid as (i & -> & Hi).
  apply list_elem_of_fmap. exists i. split; [reflexivity|].
  eapply Hc; eauto.
Qed.

Lemma keeps_ids_same_insts {A} (c : M A) :
  (forall st a st', c st = Ret a st' ->
     map iid (all_insts (st_module st')) = map iid (all_insts (st_module st))) ->
  keeps_ids c.
Proof. intros Hc st a st' H id Hid. rewrite (Hc _ _ _ H). exact Hid. Qed.

Lemma keeps_ids_modify_map f :
  (forall i, iid (f i) = iid i) ->
  keeps_ids (modify_module (map_blocks (map f))).
Proof.
  intros Hf. apply keeps_ids_same_insts. intros st a st' [= _ <-]. simpl.
  apply map_iid_all_insts_map. exact Hf.
Qed.

Lemma keeps_ids_set_inst_kind id k : keeps_ids (set_inst_kind id k).
Proof.
  apply keeps_ids_modify_map. intros i. destruct (bool_decide _); reflexivity.
Qed.

Lemma keeps_ids_set_inst_name id n : keeps_ids (set_inst_name id n).
Proof.
  apply keeps_ids_modify_map. intros i. destruct (bool_decide _); reflexivity.
Qed.

Lemma keeps_ids_replaceAllUsesWith old new :
  keeps_ids (replaceAllUsesWith old new).
Proof.
  apply keeps_ids_same_insts. intros st a st' [= _ <-]. simpl.
  change (all_insts (set_globals ?g ?m)) with (all_insts m).
  apply map_iid_all_insts_map. intros i. reflexivity.
Qed.

Lemma keeps_ids_instReplaceUsesOfWith u from to :
  keeps_ids (instReplaceUsesOfWith u from to).
Proof.
  unfold instReplaceUsesOfWith.
  apply keeps_ids_bind; [apply keeps_ids_get|]. intros st.
  destruct (has_inst _ _); [|apply keeps_ids_abort].
  apply keeps_ids_modify_map. intros i. destruct (bool_decide _); reflexivity.
Qed.

Lemma keeps_ids_set_global g gl : keeps_ids (set_global g gl).
Proof. apply keeps_ids_same_insts. intros st a st' [= _ <-]. reflexivity. Qed.

Lemma keeps_ids_modify_config f : keeps_ids (modify_config f).
Proof. apply keeps_ids_same_insts. intros st a st' [= _ <-]. reflexivity. Qed.

Lemma keeps_ids_newGlobalVariable t c l init name :
  keeps_ids (newGlobalVariable t c l init name).
Proof.
  apply keeps_ids_same_insts. intros st a st' H.
  apply newGlobalVariable_Ret in H as (_ & _ & ->). reflexivity.
Qed.

Lemma keeps_ids_convertToType fuel val type b a ce :
  keeps_ids (convertToType fuel val type b a ce).
Proof. apply keeping_keeps_ids, keeping_convertToType. Qed.

Lemma keeps_ids_convertConstantToType fuel c t :
  keeps_ids (convertConstantToType fuel c t).
Proof.
  unfold convertConstantToType.
  apply keeps_ids_bind; [apply keeps_ids_convertToType|]. intros [v|].
  - apply keeps_ids_bind; [apply keeps_ids_nonnull|].
    intros; apply keeps_ids_ret.
  - apply keeps_ids_ret.
Qed.

Lemma keeps_ids_modifyFunctionArgumentType f idx t :
  keeps_ids (modifyFunctionArgumentType f idx t).
Proof.
  unfold modifyFunctionArgumentType.
  apply keeps_ids_bind; [apply keeps_ids_get|]. intros st.
  apply keeps_ids_bind; [apply keeps_ids_nonnull|]. intros fn.
  destruct (bool_decide _); [|apply keeps_ids_abort].
  apply keeps_ids_bind; [|intros; apply keeps_ids_ret].
  apply keeps_ids_same_insts. intros s a s' [= _ <-]. simpl.
  unfold all_insts. simpl. rewrite map_map. f_equal. f_equal.
  apply map_ext. intros g. destruct (bool_decide _); reflexivity.
Qed.

Ltac keeps_ids_step :=
  match goal with
  | |- keeps_ids (bind _ _) => apply keeps_ids_bind; [|intros ?]
  | |- keeps_ids (ret _) => apply keeps_ids_ret
  | |- keeps_ids abort => apply keeps_ids_abort
  | |- keeps_ids get => apply keeps_ids_get
  | |- keeps_ids (nonnull _) => apply keeps_ids_nonnull
  | |- keeps_ids (newInst _ _ _) =>
    apply keeping_keeps_ids, keeping_newInst
  | |- keeps_ids (insertBefore _ _) =>
    apply keeping_keeps_ids, keeping_insertBefore
  | |- keeps_ids (convertValueToType _ _ _ _) =>
    apply keeps_ids_convertToType
  | |- keeps_ids (convertConstantToType _ _ _) =>
    apply keeps_ids_convertConstantToType
  | |- keeps_ids (set_inst_kind _ _) => apply keeps_ids_set_inst_kind
  | |- keeps_ids (set_inst_name _ _) => apply keeps_ids_set_inst_name
  | |- keeps_ids (replaceAllUsesWith _ _) =>
    apply keeps_ids_replaceAllUsesWith
  | |- keeps_ids (instReplaceUsesOfWith _ _ _) =>
    apply keeps_ids_instReplaceUsesOfWith
  | |- keeps_ids (set_global _ _) => apply keeps_ids_set_global
  | |- keeps_ids (modify_config _) => apply keeps_ids_modify_config
  | |- keeps_ids (newGlobalVariable _ _ _ _ _) =>
    apply keeps_ids_newGlobalVariable
  | |- keeps_ids (modifyFunctionArgumentType _ _ _) =>
    apply keeps_ids_modifyFunctionArgumentType
  | |- keeps_ids (eraseOrDefer _ (Some _)) => apply keeps_ids_ret
  | |- keeps_ids (if ?b then _ else _) => destruct b
  | |- keeps_ids (match ?x with _ => _ end) => destruct x
  end.

Lemma keeps_ids_changeUser fuel val nval origType user l :
  keeps_ids (changeUser fuel val nval origType user (Some l)).
Proof. unfold changeUser. cbv zeta. repeat keeps_ids_step. Qed.

Lemma keeps_ids_changeObjectDeclarationType objf val toType init wide :
  keeps_ids (changeObjectDeclarationType objf val toType init wide).
Proof. unfold changeObjectDeclarationType. repeat keeps_ids_step. Qed.

Lemma yields_bind {A B} (c : M A) (k : A -> M B) Q :
  (forall a, yields (k a) Q) -> yields (bind c k) Q.
Proof.
  intros Hk st b st' H. apply bind_Ret in H as (a & st1 & _ & H2).
  eapply Hk. exact H2.
Qed.

Lemma yields_ret {A} (a : A) (Q : A -> Prop) : Q a -> yields (ret a) Q.
Proof. intros Ha st b st' [= <- _]. exact Ha. Qed.

Lemma yields_abort {A} (Q : A -> Prop) : yields abort Q.
Proof. intros st b st' H. discriminate. Qed.

Lemma changeUser_defers fuel val nval origType user l :
  yields (changeUser fuel val nval origType user (Some l))
    (fun e => e = Some l \/ exists id, e = Some (id :: l)).
Proof.
  unfold changeUser. cbv zeta.
  repeat first
    [ apply yields_bind; intros ?
    | apply yields_abort
    | apply yields_ret; solve [auto | right; eexists; reflexivity]
    | match goal with
      | |- yields (eraseOrDefer _ (Some _)) _ =>
        apply yields_ret; right; eexists; reflexivity
      | |- yields (if ?b then _ else _) _ => destruct b
      | |- yields (match ?x with _ => _ end) _ => destruct x
      end ].
Qed.

Lemma changeUsers_defers fuel val nval origType users :
  forall l st e' st',
    changeUsers fuel val nval origType users (Some l) st = Ret e' st' ->
    (exists added, e' = Some (added ++ l)) /\ ids_kept st st'.
Proof.
  induction users as [|u users IH]; intros l st e' st' H; simpl in H.
  - injection H as <- <-. split; [exists []; reflexivity|].
    intros id Hid; exact Hid.
  - apply bind_Ret in H as (e1 & st1 & H1 & H).
    pose proof (keeps_ids_changeUser _ _ _ _ _ _ _ _ _ H1) as Hk1.
    apply changeUser_defers in H1 as [->|(id & ->)].
    + apply IH in H as [Hadd Hk]. split; [exact Hadd|].
      intros x Hx. apply Hk, Hk1, Hx.
    + apply IH in H as [(added & ->) Hk]. split.
      * exists (added ++ [id]). rewrite <- app_assoc. reflexivity.
      * intros x Hx. apply Hk, Hk1, Hx.
Qed.

(** With a container for the obsolete instructions, [changeObjectType]
    erases nothing: every identity of the module still names an
    instruction after the call (the replaced loads and casts, and the old
    declaration, are still there), and the container that is returned is
    the one that was given with the obsolete instructions put in front. *)
Theorem changeObjectType_defers_erasure :
  forall fuel objf val toType init l dbg wideString st nval e' st',
    changeObjectType fuel objf val toType init (Some l) dbg wideString st
      = Ret (nval, e') st' ->
    (exists added, e' = Some (added ++ l)) /\ ids_kept st st'.
Proof.
  intros fuel objf val toType init l dbg wide st nval e' st' H.
  unfold changeObjectType in H.
  apply bind_Ret in H as (s0 & s0' & [= <- <-] & H).
  destruct (negb (isChangeableObject (st_module st) val)); [discriminate|].
  destruct (decide (typeOf val = toType)).
  { injection H as _ <- <-. split; [exists []; reflexivity|].
    intros id Hid; exact Hid. }
  cbv zeta in H.
  apply bind_Ret in H as (nv & st1 & Hdecl & H).
  apply bind_Ret in H as (s1 & s1' & [= <- <-] & H).
  apply bind_Ret in H as (e1 & s2 & Hloop & H).
  injection H as _ <- <-.
  apply keeps_ids_changeObjectDeclarationType in Hdecl.
  apply changeUsers_defers in Hloop as [Hadd Hk].
  split; [exact Hadd|]. intros id Hid. apply Hk, Hdecl, Hid.
Qed.

Lemma changeObjectType_defers_erasure_witness :
  exists nval e' st',
    changeObjectType 5 None ex_slot (TFloat Float) None (Some []) false false
      ex_slot_state = Ret (nval, e') st' /\
    (exists added, e' = Some (added ++ [])) /\ ids_kept ex_slot_state st'.
Proof.
  eexists _, _, _. split; [vm_compute; reflexivity|].
  eapply (changeObjectType_defers_erasure 5 None ex_slot (TFloat Float) None
            [] false false ex_slot_state).
  vm_compute. reflexivity.
Defined.

(** ** changeObjectType keeps the module well formed *)

Lemma change_inv_only_adds n0 nval s s' :
  change_inv n0 nval s -> only_adds s s' -> module_ok (st_module s') ->
  change_inv n0 nval s'.
Proof.
  intros [Hok Hn Hnv Hty] [A1 A2 A3 A4 A5] Hok'. split.
  - exact Hok'.
  - lia.
  - eapply value_scoped_mono; [exact A1|exact Hnv].
  - intros i Hi Hlt. destruct (A5 i Hi) as [Hold|Hnew]; [auto|lia].
Qed.

Lemma change_inv_convert n0 nval fuel v t b s r s' :
  change_inv n0 nval s -> value_scoped (st_module s) v -> ty_ok t = true ->
  convertValueToType fuel (Some v) (Some t) (Some b) s = Ret r s' ->
  change_inv n0 nval s' /\
  exists v', r = Some v' /\ typeOf v' = t /\ value_scoped (st_module s') v'.
Proof.
  intros Hinv Hv Ht H. unfold convertValueToType in H.
  assert (anchored false (Some b) None) as Hanc by (right; left; discriminate).
  destruct (convertToType_ok_result _ _ _ _ _ _ _ _ Hanc (ci_ok _ _ _ Hinv)
              Hv Ht H) as (Hok' & v' & -> & Hv' & Hs' & _).
  split; [|eauto].
  eapply change_inv_only_adds; [exact Hinv| |exact Hok'].
  eapply convertToType_only_adds. exact H.
Qed.

Lemma change_inv_newInst_insertBefore n0 nval name k t b s i s1 u s' :
  change_inv n0 nval s ->
  (forall x, x ∈ operands k -> value_scoped (st_module s) x) ->
  wt_inst (mkInst (next_id (st_module s)) name k t) ->
  newInst name k t s = Ret i s1 ->
  insertBefore i b s1 = Ret u s' ->
  change_inv n0 nval s' /\ i = mkInst (next_id (st_module s)) name k t /\
  next_id (st_module s') = S (next_id (st_module s)).
Proof.
  intros Hinv Hops Hwt Hnew Hins.
  destruct (newInst_insertBefore_ok name k t b s i s1 u s' (ci_ok _ _ _ Hinv)
              Hops Hwt Hnew Hins) as (Hok' & Hi & Hin & Hnext).
  split; [|auto].
  eapply change_inv_only_adds; [exact Hinv| |exact Hok'].
  pose proof (newInst_state _ _ _ _ _ _ Hnew) as [_ ->].
  split.
  - lia.
  - apply insertBefore_Ret in Hins as [_ ->]. reflexivity.
  - apply insertBefore_Ret in Hins as [_ ->]. reflexivity.
  - intros x Hx. apply (keeping_insertBefore _ _ _ _ _ Hins x Hx).
  - intros x Hx. apply insertBefore_Ret in Hins as [_ ->]. simpl in Hx.
    apply elem_of_all_insts_ins_before in Hx as [->|Hx]; [right|left; exact Hx].
    rewrite Hi. simpl. lia.
Qed.

(** An edit that maps the instructions, keeping identities and types. *)
Lemma change_inv_map n0 nval s f gs cfg :
  change_inv n0 nval s ->
  (forall i, iid (f i) = iid i) -> (forall i, ity (f i) = ity i) ->
  (forall i, i ∈ all_insts (st_module s) -> wt_inst (f i)) ->
  (forall i v, i ∈ all_insts (st_module s) -> v ∈ operands (ikind (f i)) ->
     value_scoped (st_module s) v) ->
  change_inv n0 nval
    (mkState (set_globals gs (map_blocks (map f) (st_module s))) cfg).
Proof.
  intros [Hok Hn Hnv Hty] Hid Hity Hwt Hops. split; simpl.
  - apply (module_ok_ext (map_blocks (map f) (st_module s)));
      [reflexivity|reflexivity|].
    apply module_ok_map; assumption.
  - exact Hn.
  - exact Hnv.
  - intros i Hi Hlt.
    change (i ∈ all_insts (map_blocks (map f) (st_module s))) in Hi.
    apply elem_of_all_insts_map in Hi as (i0 & Hi0 & ->).
    rewrite Hity. apply Hty; [exact Hi0|]. rewrite <- Hid. exact Hlt.
Qed.

Lemma set_globals_same m : set_globals (globals m) m = m.
Proof. destruct m. reflexivity. Qed.

Lemma change_inv_set_inst_kind n0 nval s id a b u s' :
  change_inv n0 nval s ->
  typeOf b = TPtr (typeOf a) ->
  value_scoped (st_module s) a -> value_scoped (st_module s) b ->
  set_inst_kind id (KStore a b) s = Ret u s' ->
  change_inv n0 nval s'.
Proof.
  intros Hinv Hty Ha Hb [= _ <-].
  rewrite <- (set_globals_same (map_blocks _ _)).
  apply change_inv_map; [exact Hinv| | | |].
  - intros i. destruct (bool_decide _); reflexivity.
  - intros i. destruct (bool_decide _); reflexivity.
  - intros i Hi. destruct (bool_decide _); [exact Hty|].
    apply (ok_insts _ (ci_ok _ _ _ Hinv)). exact Hi.
  - intros i v Hi Hv. destruct (bool_decide _).
    + simpl in Hv. apply elem_of_cons in Hv as [->|Hv]; [exact Ha|].
      apply list_elem_of_singleton in Hv as ->. exact Hb.
    + intros x t ->.
      eapply (wf_scoped _ (ok_ids _ (ci_ok _ _ _ Hinv))); eauto.
Qed.

Lemma change_inv_replace n0 nval s (P : Inst -> bool) r gs cfg :
  change_inv n0 nval s ->
  (forall v, typeOf (r v) = typeOf v) ->
  (forall v, value_scoped (st_module s) v -> value_scoped (st_module s) (r v)) ->
  change_inv n0 nval
    (mkState
       (set_globals gs
          (map_blocks
             (map (fun i => if P i then map_inst (map_operands r) i else i))
             (st_module s))) cfg).
Proof.
  intros Hinv Hty Hsc.
  assert (forall x i, i ∈ all_insts (st_module s) ->
            x ∈ operands (ikind i) -> value_scoped (st_module s) x) as Hold.
  { intros x i Hi Hx id t ->.
    eapply (wf_scoped _ (ok_ids _ (ci_ok _ _ _ Hinv))); eauto. }
  apply change_inv_map; [exact Hinv| | | |].
  - intros i. destruct (P i); reflexivity.
  - intros i. destruct (P i); reflexivity.
  - intros i Hi. pose proof (ok_insts _ (ci_ok _ _ _ Hinv) i Hi) as Hwt.
    destruct (P i); [|exact Hwt]. apply wt_inst_map_operands; assumption.
  - intros i v Hi Hv. destruct (P i); [|eauto]. simpl in Hv.
    rewrite operands_map_operands in Hv.
    apply list_elem_of_fmap in Hv as (x & -> & Hx). eauto.
Qed.

Lemma change_inv_replaceAllUsesWith n0 nval s old new u s' :
  change_inv n0 nval s ->
  typeOf old = typeOf new -> value_scoped (st_module s) new ->
  replaceAllUsesWith old new s = Ret u s' ->
  change_inv n0 nval s'.
Proof.
  intros Hinv Hty Hnew [= _ <-].
  apply (change_inv_replace n0 nval s (fun _ => true) (subst_value old new)
           _ _ Hinv).
  - intros v. apply typeOf_subst_value. exact Hty.
  - intros v. apply value_scoped_subst. exact Hnew.
Qed.

Lemma change_inv_instReplaceUsesOfWith n0 nval s id from to u s' :
  change_inv n0 nval s ->
  typeOf to = typeOf from -> value_scoped (st_module s) to ->
  instReplaceUsesOfWith id from to s = Ret u s' ->
  change_inv n0 nval s'.
Proof.
  intros Hinv Hty Hto H. unfold instReplaceUsesOfWith, bind, get in H.
  destruct (has_inst _ _); [|discriminate]. injection H as _ <-.
  rewrite <- (set_globals_same (map_blocks _ _)).
  erewrite map_blocks_ext_in.
  - apply (change_inv_replace n0 nval s (fun i => bool_decide (iid i = id))
             (replace_value from to) _ _ Hinv).
    + intros v. apply typeOf_replace_value. exact Hty.
    + intros v. apply value_scoped_replace. exact Hto.
  - intros f blk _ _. apply map_ext. intros i. unfold map_inst.
    rewrite replaceUsesOfWith_map_operands. reflexivity.
Qed.

Lemma change_inv_eraseOrDefer n0 nval s id e e' s' :
  change_inv n0 nval s ->
  eraseOrDefer id e s = Ret e' s' ->
  change_inv n0 nval s'.
Proof.
  intros Hinv H. destruct e as [l|]; simpl in H.
  - injection H as _ <-. exact Hinv.
  - apply bind_Ret in H as (u & s1 & H1 & H2). injection H2 as _ <-.
    injection H1 as _ <-. destruct Hinv as [Hok Hn Hnv Hty]. split; simpl.
    + apply module_ok_filter. exact Hok.
    + exact Hn.
    + exact Hnv.
    + intros i Hi Hlt.
      apply elem_of_all_insts_map_blocks in Hi as (f & blk & Hf & Hblk & Hx).
      apply list_elem_of_filter in Hx as [_ Hx].
      apply Hty; [|exact Hlt]. apply elem_of_all_insts. eauto.
Qed.

Lemma change_inv_set_global n0 nval s g gl u s' :
  change_inv n0 nval s -> set_global g gl s = Ret u s' ->
  change_inv n0 nval s'.
Proof.
  intros [Hok Hn Hnv Hty] [= _ <-]. split; simpl; auto.
  eapply module_ok_ext; [| |exact Hok]; reflexivity.
Qed.

Lemma operand_scoped m i v :
  module_ok m -> i ∈ all_insts m -> v ∈ operands (ikind i) ->
  value_scoped m v.
Proof.
  intros Hok Hi Hv id t ->. eapply (wf_scoped _ (ok_ids _ Hok)); eauto.
Qed.

Lemma changeUser_ok fuel st0 val nval u rest e s e' s' :
  (forall i, i ∈ all_insts (st_module st0) ->
     (iid i < next_id (st_module st0))%nat) ->
  ty_ok (typeOf val) = true -> ty_ok (typeOf nval) = true ->
  loop_inv st0 val s (u :: rest) ->
  change_inv (next_id (st_module st0)) nval s ->
  changeUser fuel val nval (typeOf val) u e s = Ret e' s' ->
  change_inv (next_id (st_module st0)) nval s'.
Proof.
  intros Hfresh Htv Htn Hhead Hinv H.
  unfold changeUser in H. cbv zeta in H.
  apply bind_Ret in H as (s0 & s0' & [= <- <-] & H).
  destruct u as [id|g|c].
  - (* an instruction *)
    apply bind_Ret in H as (i & s1 & Hl & H).
    apply nonnull_Ret in Hl as [Hl ->].
    apply lookup_inst_Some in Hl as [Hi Hid].
    assert (Hlt : (iid i < next_id (st_module st0))%nat).
    { destruct (li_ids _ _ _ _ Hhead id) as (j & Hj & Hjd); [left|].
      rewrite Hid, <- Hjd. apply Hfresh, Hj. }
    pose proof (ok_insts _ (ci_ok _ _ _ Hinv) i Hi) as Hwt.
    pose proof (ci_types _ _ _ Hinv i Hi Hlt) as Hity.
    assert (Hops : forall v, v ∈ operands (ikind i) ->
                     value_scoped (st_module s) v).
    { intros v Hv. eapply operand_scoped; eauto. apply Hinv. }
    unfold wt_inst in Hwt.
    assert (Hother :
      (conv <- convertValueToType fuel (Some nval) (Some (typeOf val))
                 (Some id) ;;
       conv0 <- nonnull conv ;;
       (if decide (val <> conv0) then instReplaceUsesOfWith id val conv0
        else ret tt) ;;;
       ret e) s = Ret e' s' ->
      change_inv (next_id (st_module st0)) nval s').
    { intros H0. apply bind_Ret in H0 as (r & s1 & Hc & H0).
      destruct (change_inv_convert _ _ _ _ _ _ _ _ _ Hinv
                  (ci_nval _ _ _ Hinv) Htv Hc)
        as (Hinv1 & conv & -> & Hty & Hcs).
      apply bind_Ret in H0 as (conv' & s2 & Hnn & H0).
      apply nonnull_Ret in Hnn as [[= <-] ->].
      apply bind_Ret in H0 as (u1 & s3 & Hr & H0). injection H0 as _ <-.
      destruct (decide (val <> conv)); [|injection Hr as _ <-; exact Hinv1].
      eapply change_inv_instReplaceUsesOfWith; eauto. }
    destruct (ikind i) as [t|p|src dst|op x|agg idx|agg elt idx|opc ops sig]
      eqn:Ek; try (apply Hother; exact H).
    + (* load *)
      destruct (negb (bool_decide (val = p))); [discriminate|].
      apply bind_Ret in H as (lt & s1 & Hlt' & H).
      apply nonnull_Ret in Hlt' as [Hlt' ->].
      apply getPointerElementType_Some in Hlt'.
      apply bind_Ret in H as (newLoad & s1 & Hnew & H).
      apply bind_Ret in H as (u1 & s2 & Hins & H).
      destruct (change_inv_newInst_insertBefore _ _ "" (KLoad nval) lt id s
                  newLoad s1 u1 s2 Hinv) as (Hinv2 & -> & Hn2);
        [| |exact Hnew|exact Hins|].
      { intros x Hx. apply list_elem_of_singleton in Hx as ->. apply Hinv. }
      { exact Hlt'. }
      apply bind_Ret in H as (r & s3 & Hc & H).
      assert (value_scoped (st_module s2)
                (valueOf (mkInst (next_id (st_module s)) "" (KLoad nval) lt)))
        as Hls by (intros x t [= <- _]; lia).
      destruct (change_inv_convert _ _ _ _ _ _ _ _ _ Hinv2 Hls Hity Hc)
        as (Hinv3 & conv & -> & Hty & Hcs).
      apply bind_Ret in H as (conv' & s4 & Hnn & H).
      apply nonnull_Ret in Hnn as [[= <-] ->].
      destruct (decide (conv <> valueOf i)); [|injection H as _ <-; exact Hinv3].
      apply bind_Ret in H as (u2 & s5 & Hr & H).
      eapply change_inv_eraseOrDefer; [|exact H].
      eapply change_inv_replaceAllUsesWith; [exact Hinv3| |exact Hcs|exact Hr].
      rewrite Hty. reflexivity.
    + (* store *)
      destruct (decide (val = dst)) as [Hdst|Hdst].
      * apply bind_Ret in H as (elt & s1 & He & H).
        apply nonnull_Ret in He as [He ->].
        apply getPointerElementType_Some in He.
        assert (ty_ok elt = true) as Helt by (rewrite He in Htn; exact Htn).
        apply bind_Ret in H as (r & s1 & Hc & H).
        assert (value_scoped (st_module s) src) as Hss
          by (apply Hops; left).
        destruct (change_inv_convert _ _ _ _ _ _ _ _ _ Hinv Hss Helt Hc)
          as (Hinv1 & conv & -> & Hty & Hcs).
        apply bind_Ret in H as (conv' & s2 & Hnn & H).
        apply nonnull_Ret in Hnn as [[= <-] ->].
        apply bind_Ret in H as (u1 & s3 & Hr & H). injection H as _ <-.
        eapply change_inv_set_inst_kind; [exact Hinv1| |exact Hcs| |exact Hr].
        -- rewrite He, Hty. reflexivity.
        -- apply Hinv1.
      * apply bind_Ret in H as (r & s1 & Hc & H).
        destruct (change_inv_convert _ _ _ _ _ _ _ _ _ Hinv
                    (ci_nval _ _ _ Hinv) Htv Hc)
          as (Hinv1 & conv & -> & Hty & Hcs).
        apply bind_Ret in H as (conv' & s2 & Hnn & H).
        apply nonnull_Ret in Hnn as [[= <-] ->].
        apply bind_Ret in H as (u1 & s3 & Hr & H). injection H as _ <-.
        eapply change_inv_set_inst_kind; [exact Hinv1| |exact Hcs| |exact Hr].
        -- assert (Hp : dst = val \/ typeOf src = typeOf val).
           { apply (li_pending _ _ _ _ Hhead i src dst Hi Hlt Ek).
             rewrite Hid. left. }
           destruct Hp as [Hp|Hp]; [congruence|].
           rewrite Hwt, Hty, Hp. reflexivity.
        -- eapply value_scoped_mono; [|apply Hops; right; left].
           pose proof (ci_next _ _ _ Hinv1).
           destruct (convertToType_only_adds _ _ _ _ _ _ _ _ _ Hc)
             as [Hle _ _ _ _].
           exact Hle.
    + (* cast *)
      destruct (decide (typeOf nval = ity i)) as [Hsame_ty|Hdiff].
      * destruct (decide (val <> valueOf i)) as [Hne|];
          [|injection H as _ <-; exact Hinv].
        apply bind_Ret in H as (u2 & s5 & Hr & H).
        eapply change_inv_eraseOrDefer; [|exact H].
        eapply change_inv_replaceAllUsesWith; [exact Hinv| | |exact Hr].
        -- rewrite Hsame_ty. reflexivity.
        -- apply Hinv.
      * apply bind_Ret in H as (r & s1 & Hc & H).
        destruct (change_inv_convert _ _ _ _ _ _ _ _ _ Hinv
                    (ci_nval _ _ _ Hinv) Hity Hc)
          as (Hinv1 & conv & -> & Hty & Hcs).
        apply bind_Ret in H as (conv' & s2 & Hnn & H).
        apply nonnull_Ret in Hnn as [[= <-] ->].
        destruct (decide (valueOf i <> conv));
          [|injection H as _ <-; exact Hinv1].
        apply bind_Ret in H as (u2 & s5 & Hr & H).
        eapply change_inv_eraseOrDefer; [|exact H].
        eapply change_inv_replaceAllUsesWith; [exact Hinv1| |exact Hcs|exact Hr].
        rewrite Hty. reflexivity.
  - (* a global variable initialized with the object *)
    destruct (dyn_cast_Constant nval) as [nc|]; [|discriminate].
    apply bind_Ret in H as (gvDeclr & s1 & Hg & H).
    apply nonnull_Ret in Hg as [Hg ->].
    apply bind_Ret in H as (r & s1 & Hc & H).
    apply convertConstantToType_Ret in Hc as [-> (conv & -> & Hty)].
    apply bind_Ret in H as (conv' & s2 & Hnn & H).
    apply nonnull_Ret in Hnn as [[= <-] ->].
    apply bind_Ret in H as (u1 & s3 & Hr & H). injection H as _ <-.
    destruct (decide (dyn_cast_GlobalVariable conv <> Some g));
      [|injection Hr as _ <-; exact Hinv].
    eapply change_inv_set_global; eauto.
  - (* a constant built from the object *)
    destruct (dyn_cast_Constant nval) as [nc|]; [|discriminate].
    apply bind_Ret in H as (r & s1 & Hc & H).
    apply convertConstantToType_Ret in Hc as [-> (conv & -> & Hty)].
    apply bind_Ret in H as (conv' & s2 & Hnn & H).
    apply nonnull_Ret in Hnn as [[= <-] ->].
    apply bind_Ret in H as (u1 & s3 & Hr & H). injection H as _ <-.
    destruct (decide (c <> conv)); [|injection Hr as _ <-; exact Hinv].
    eapply change_inv_replaceAllUsesWith; [exact Hinv| | |exact Hr].
    + simpl. congruence.
    + apply value_scoped_const.
Qed.


Lemma changeUsers_ok fuel st0 val nval users :
  (forall i j, i ∈ all_insts (st_module st0) ->
     j ∈ all_insts (st_module st0) -> iid i = iid j -> i = j) ->
  (forall i, i ∈ all_insts (st_module st0) ->
     (iid i < next_id (st_module st0))%nat) ->
  (forall old new, old <> val -> subst_value old new val = val) ->
  (forall a t, val = VInst a t ->
     forall j, j ∈ all_insts (st_module st0) -> iid j = a ->
       shape (ikind j) = 0%nat) ->
  ty_ok (typeOf val) = true -> ty_ok (typeOf nval) = true ->
  forall e s e' s',
    loop_inv st0 val s users ->
    change_inv (next_id (st_module st0)) nval s ->
    changeUsers fuel val nval (typeOf val) users e s = Ret e' s' ->
    change_inv (next_id (st_module st0)) nval s'.
Proof.
  intros Huniq Hfresh Hatomic Hobject Htv Htn.
  induction users as [|u rest IH]; intros e s e' s' Hloop Hinv H; simpl in H.
  - injection H as _ <-. exact Hinv.
  - apply bind_Ret in H as (e1 & s1 & H1 & H2).
    eapply IH; [| |exact H2].
    + exact (changeUser_inv st0 val Huniq Hfresh Hatomic Hobject fuel nval
               u rest e s e1 s1 Hloop H1).
    + exact (changeUser_ok fuel st0 val nval u rest e s e1 s1 Hfresh Htv Htn
               Hloop Hinv H1).
Qed.

Lemma module_ok_bump m m' :
  all_insts m' = all_insts m -> (next_id m <= next_id m')%nat ->
  module_ok m -> module_ok m'.
Proof.
  intros Hi Hn [[Hnd Hfresh Hscoped] Hwt]. split; [split|].
  - rewrite Hi. exact Hnd.
  - intros i. rewrite Hi. intros Hin. apply Hfresh in Hin. lia.
  - intros i id t. rewrite Hi. intros Hin Hop.
    specialize (Hscoped i id t Hin Hop). lia.
  - intros i. rewrite Hi. apply Hwt.
Qed.

(** The declaration of the object is changed first. *)
Lemma changeObjectDeclarationType_ok objf val toType init wide st nval st1 :
  module_ok (st_module st) ->
  (forall i, i ∈ all_insts (st_module st) -> ty_ok (ity i) = true) ->
  ty_ok (typeOf nval) = true ->
  typeOf val <> toType ->
  changeObjectDeclarationType objf val toType init wide st = Ret nval st1 ->
  module_ok (st_module st1) /\
  value_scoped (st_module st1) nval /\
  (forall i, i ∈ all_insts (st_module st1) -> ty_ok (ity i) = true).
Proof.
  intros Hok Htys Htn Hne H. unfold changeObjectDeclarationType in H.
  destruct (decide (typeOf val = toType)); [contradiction|].
  apply bind_Ret in H as (s0 & s0' & [= <- <-] & H).
  destruct val as [id t|f idx t|c].
  - (* an alloca *)
    apply bind_Ret in H as (alloca & s1 & Hl & H).
    apply nonnull_Ret in Hl as [Hl ->].
    destruct (ikind alloca) eqn:Ek; try discriminate.
    destruct (negb (isValidElementType toType)); [discriminate|].
    apply bind_Ret in H as (r & s1 & Hnew & H).
    apply bind_Ret in H as (u1 & s2 & Hins & H).
    destruct (newInst_insertBefore_ok (iname alloca) (KAlloca toType)
                (TPtr toType) id st r s1 u1 s2 Hok)
      as (Hok2 & -> & Hin2 & Hn2);
      [intros x Hx; inversion Hx|reflexivity|exact Hnew|exact Hins|].
    apply bind_Ret in H as (u2 & s3 & Hname & H).
    injection Hname as _ <-. injection H as <- <-. simpl in *.
    pose proof (newInst_state _ _ _ _ _ _ Hnew) as [_ ->].
    apply insertBefore_Ret in Hins as [_ ->]. simpl in *.
    split; [|split].
    + apply module_ok_map; [exact Hok2| | |].
      * intros i. destruct (bool_decide _); reflexivity.
      * intros i Hi. pose proof (ok_insts _ Hok2 i Hi) as Hwt.
        destruct (bool_decide _); exact Hwt.
      * intros i v Hi Hv. eapply operand_scoped; [exact Hok2|exact Hi|].
        destruct (bool_decide _); exact Hv.
    + intros x ty [= <- _]. simpl. lia.
    + intros i Hi. apply elem_of_all_insts_map in Hi as (i0 & Hi0 & ->).
      assert (ty_ok (ity i0) = true) as Hi0ty.
      { apply elem_of_all_insts_ins_before in Hi0 as [->|Hi0];
          [exact Htn|]. apply Htys. exact Hi0. }
      destruct (bool_decide _); exact Hi0ty.
  - (* an argument *)
    unfold modifyFunctionArgumentType in H.
    apply bind_Ret in H as (s0 & s0' & [= <- <-] & H).
    apply bind_Ret in H as (fn & s1 & Hl & H).
    apply nonnull_Ret in Hl as [Hl ->].
    destruct (bool_decide _); [|discriminate].
    apply bind_Ret in H as (u1 & s2 & Hm & H).
    injection Hm as _ <-. injection H as <- <-. simpl.
    match goal with |- context [all_insts ?m] =>
      assert (Hm1 : all_insts m = all_insts (st_module st))
    end.
    { unfold all_insts. simpl. rewrite map_map. f_equal.
      apply map_ext. intros g. destruct (bool_decide _); reflexivity. }
    split; [|split].
    + eapply module_ok_ext; [exact Hm1|reflexivity|exact Hok].
    + intros x ty [=].
    + rewrite Hm1. exact Htys.
  - (* a global variable *)
    destruct c as [| | | |ogv t| | | | |]; try discriminate.
    apply bind_Ret in H as (old & s1 & Hl & H).
    apply nonnull_Ret in Hl as [Hl ->].
    apply bind_Ret in H as (init' & s1 & Hinit & H).
    assert (s1 = st) as ->.
    { destruct init as [c|].
      - injection Hinit as _ <-. reflexivity.
      - apply bind_Ret in Hinit as (img & s2 & Hi & Hinit).
        apply nonnull_Ret in Hi as [_ ->]. injection Hinit as _ <-.
        reflexivity. }
    clear Hinit. cbv zeta in H.
    apply bind_Ret in H as (new & s2 & Hnew & H).
    apply newGlobalVariable_Ret in Hnew as (_ & -> & ->).
    apply bind_Ret in H as (u1 & s3 & Hset & H).
    injection Hset as _ <-.
    apply bind_Ret in H as (u2 & s4 & Hcfg & H).
    injection H as <- <-.
    assert (all_insts (st_module s4) = all_insts (st_module st) /\
            next_id (st_module s4) = S (next_id (st_module st)))
      as [Hi4 Hn4].
    { simpl in Hcfg. destruct (List.find _ _); injection Hcfg as _ <-;
        split; reflexivity. }
    split; [|split].
    + eapply module_ok_bump; [exact Hi4|lia|exact Hok].
    + intros x ty [=].
    + rewrite Hi4. exact Htys.
Qed.


Lemma ex_slot_module_ok : module_ok (st_module ex_slot_state).
Proof.
  split.
  - apply wf_ids_b_correct. vm_compute. reflexivity.
  - apply Forall_forall. repeat constructor.
Qed.


(** ** The layout of a conversion *)

Lemma place_before_nil b l : place_before b [] l = l.
Proof.
  induction l as [|x l IH]; simpl; [reflexivity|].
  case_bool_decide; [reflexivity|]. rewrite IH. reflexivity.
Qed.

Lemma place_after_nil a l : place_after a [] l = l.
Proof.
  induction l as [|x l IH]; simpl; [reflexivity|].
  case_bool_decide; [reflexivity|]. rewrite IH. reflexivity.
Qed.

Lemma place_nil b a l : place b a [] l = l.
Proof.
  destruct b as [b|]; [apply place_before_nil|].
  destruct a as [a|]; [apply place_after_nil|reflexivity].
Qed.

Lemma ins_before_place b i l : ins_before b i l = place_before b [i] l.
Proof.
  induction l as [|x l IH]; simpl; [reflexivity|].
  case_bool_decide; [reflexivity|]. rewrite IH. reflexivity.
Qed.

Lemma ins_after_place a i l : ins_after a i l = place_after a [i] l.
Proof.
  induction l as [|x l IH]; simpl; [reflexivity|].
  case_bool_decide; [reflexivity|]. rewrite IH. reflexivity.
Qed.

Lemma place_before_absent b news l :
  b ∉ map iid l -> place_before b news l = l.
Proof.
  induction l as [|x l IH]; simpl; intros Hb; [reflexivity|].
  rewrite not_elem_of_cons in Hb. destruct Hb as [Hx Hl].
  case_bool_decide; [congruence|]. rewrite IH by exact Hl. reflexivity.
Qed.

Lemma place_after_absent a news l :
  a ∉ map iid l -> place_after a news l = l.
Proof.
  induction l as [|x l IH]; simpl; intros Hb; [reflexivity|].
  rewrite not_elem_of_cons in Hb. destruct Hb as [Hx Hl].
  case_bool_decide; [congruence|]. rewrite IH by exact Hl. reflexivity.
Qed.

(** Found at its first occurrence. *)
Lemma place_before_at b news l1 x l2 :
  b ∉ map iid l1 -> iid x = b ->
  place_before b news (l1 ++ x :: l2) = l1 ++ news ++ x :: l2.
Proof.
  intros Hb Hx. induction l1 as [|y l1 IH]; simpl.
  - rewrite bool_decide_eq_true_2 by exact Hx. reflexivity.
  - simpl in Hb. rewrite not_elem_of_cons in Hb. destruct Hb as [Hy Hl].
    rewrite bool_decide_eq_false_2 by congruence.
    rewrite IH by exact Hl. reflexivity.
Qed.

Lemma place_after_at a news l1 x l2 :
  a ∉ map iid l1 -> iid x = a ->
  place_after a news (l1 ++ x :: l2) = l1 ++ x :: news ++ l2.
Proof.
  intros Hb Hx. induction l1 as [|y l1 IH]; simpl.
  - rewrite bool_decide_eq_true_2 by exact Hx. reflexivity.
  - simpl in Hb. rewrite not_elem_of_cons in Hb. destruct Hb as [Hy Hl].
    rewrite bool_decide_eq_false_2 by congruence.
    rewrite IH by exact Hl. reflexivity.
Qed.

Lemma first_occurrence b (l : list Inst) :
  b ∉ map iid l \/
  exists l1 x l2, l = l1 ++ x :: l2 /\ iid x = b /\ b ∉ map iid l1.
Proof.
  induction l as [|y l IH].
  - left. intros H. inversion H.
  - destruct (decide (iid y = b)) as [Hy|Hy].
    + right. exists [], y, l. repeat split; [exact Hy|]. intros H. inversion H.
    + destruct IH as [Habs|(l1 & x & l2 & -> & Hx & Hl1)].
      * left. simpl. rewrite not_elem_of_cons. auto.
      * right. exists (y :: l1), x, l2. repeat split; [exact Hx|].
        simpl. rewrite not_elem_of_cons. auto.
Qed.

Lemma place_before_app b n1 n2 l :
  b ∉ map iid n1 ->
  place_before b n2 (place_before b n1 l) = place_before b (n1 ++ n2) l.
Proof.
  intros Hb. destruct (first_occurrence b l) as [Habs|(l1 & x & l2 & -> & Hx & Hl1)].
  - rewrite (place_before_absent b n1 l) by exact Habs.
    rewrite !place_before_absent by exact Habs. reflexivity.
  - rewrite (place_before_at b n1) by assumption.
    rewrite (place_before_at b (n1 ++ n2)) by assumption.
    rewrite app_assoc.
    rewrite place_before_at; [|rewrite map_app, not_elem_of_app; auto|exact Hx].
    rewrite <- !app_assoc. reflexivity.
Qed.

(** After the last instruction of a run that stands before the anchor. *)
Lemma place_after_last_before b n0 x n2 l :
  iid x ∉ map iid l -> iid x ∉ map iid n0 ->
  place_after (iid x) n2 (place_before b (n0 ++ [x]) l)
  = place_before b (n0 ++ x :: n2) l.
Proof.
  intros Hl Hn0.
  destruct (first_occurrence b l) as [Habs|(l1 & y & l2 & -> & Hy & Hl1)].
  - rewrite !(place_before_absent b _ l) by exact Habs.
    apply place_after_absent. exact Hl.
  - rewrite !(place_before_at b _ l1) by assumption.
    rewrite map_app, not_elem_of_app in Hl. destruct Hl as [Hl1' _].
    rewrite <- (app_assoc n0 [x]). simpl. rewrite (app_assoc l1 n0).
    rewrite place_after_at; [|rewrite map_app, not_elem_of_app; auto|reflexivity].
    rewrite <- !app_assoc. simpl. reflexivity.
Qed.

(** After the last instruction of a run that stands after the anchor. *)
Lemma place_after_last_after a n0 x n2 l :
  iid x ∉ map iid l -> iid x ∉ map iid n0 ->
  place_after (iid x) n2 (place_after a (n0 ++ [x]) l)
  = place_after a (n0 ++ x :: n2) l.
Proof.
  intros Hl Hn0.
  destruct (first_occurrence a l) as [Habs|(l1 & y & l2 & -> & Hy & Hl1)].
  - rewrite !(place_after_absent a _ l) by exact Habs.
    apply place_after_absent. exact Hl.
  - rewrite !(place_after_at a _ l1) by assumption.
    rewrite map_app, not_elem_of_app in Hl. destruct Hl as [Hl1' Hl2].
    simpl in Hl2. rewrite not_elem_of_cons in Hl2. destruct Hl2 as [Hxy Hl2].
    rewrite <- (app_assoc n0 [x]). simpl.
    replace (l1 ++ y :: n0 ++ x :: l2) with ((l1 ++ y :: n0) ++ x :: l2)
      by (rewrite <- app_assoc; reflexivity).
    rewrite place_after_at; [|rewrite map_app, not_elem_of_app; split;
      [exact Hl1'|simpl; rewrite not_elem_of_cons; auto]|reflexivity].
    rewrite <- ?app_assoc. simpl. rewrite <- ?app_assoc. reflexivity.
Qed.

Lemma place_after_last b a n0 x n2 l :
  iid x ∉ map iid l -> iid x ∉ map iid n0 ->
  place_after (iid x) n2 (place b a (n0 ++ [x]) l)
  = place b a (n0 ++ x :: n2) l.
Proof.
  intros Hl Hn0. destruct b as [b|]; simpl.
  - apply place_after_last_before; assumption.
  - destruct a as [a|].
    + apply place_after_last_after; assumption.
    + apply place_after_absent. exact Hl.
Qed.

Lemma placed_nil b a st : placed b a [] st = st.
Proof.
  destruct st as [[n fs gs w] cfg]. unfold placed, map_blocks. simpl.
  rewrite Nat.add_0_r. f_equal. f_equal.
  rewrite <- (map_id fs) at 2. apply map_ext. intros [fi fn fp fb]. simpl.
  f_equal. rewrite <- (map_id fb) at 2. apply map_ext. intros l.
  apply place_nil.
Qed.

Lemma placed_placed b a b' a' b2 a2 n1 n2 n st :
  (forall f blk, f ∈ functions (st_module st) -> blk ∈ fblocks f ->
     place b2 a2 n2 (place b a n1 blk) = place b' a' n blk) ->
  length n = (length n1 + length n2)%nat ->
  placed b2 a2 n2 (placed b a n1 st) = placed b' a' n st.
Proof.
  intros H Hlen. unfold placed, map_blocks. simpl. f_equal. f_equal.
  - lia.
  - rewrite map_map. apply map_ext_in. intros f Hf. simpl. f_equal.
    rewrite map_map. apply map_ext_in. intros l Hl.
    apply (H f l); apply list_elem_of_In; assumption.
Qed.

Lemma newInst_insertBeforeAfter_placed name k t b a st i st1 v st' :
  newInst name k t st = Ret i st1 ->
  insertBeforeAfter i b a st1 = Ret v st' ->
  i = mkInst (next_id (st_module st)) name k t /\ v = valueOf i /\
  st' = placed b a [i] st.
Proof.
  intros Hnew Hins. apply newInst_state in Hnew as [-> ->].
  split; [reflexivity|]. split; [eapply insertBeforeAfter_Ret; eauto|].
  unfold insertBeforeAfter in Hins.
  apply bind_Ret in Hins as (u & s2 & Hins & Hret). injection Hret as _ <-.
  destruct b as [b|].
  - apply insertBefore_Ret in Hins as [_ ->]. unfold placed, map_blocks.
    simpl. f_equal. f_equal; [lia|]. apply map_ext. intros f. f_equal.
    apply map_ext. intros l. apply ins_before_place.
  - apply bind_Ret in Hins as (a0 & s3 & Ha & Hins).
    apply nonnull_Ret in Ha as [-> ->].
    apply insertAfter_Ret in Hins as [_ ->]. unfold placed, map_blocks.
    simpl. f_equal. f_equal; [lia|]. apply map_ext. intros f. f_equal.
    apply map_ext. intros l. apply ins_after_place.
Qed.

Lemma newInst_insertAfter_placed name k t a st i st1 u st' :
  newInst name k t st = Ret i st1 ->
  insertAfter i a st1 = Ret u st' ->
  i = mkInst (next_id (st_module st)) name k t /\
  st' = placed None (Some a) [i] st.
Proof.
  intros Hnew Hins. apply newInst_state in Hnew as [-> ->].
  split; [reflexivity|].
  apply insertAfter_Ret in Hins as [_ ->]. unfold placed, map_blocks.
  simpl. f_equal. f_equal; [lia|]. apply map_ext. intros f. f_equal.
  apply map_ext. intros l. apply ins_after_place.
Qed.

Lemma run_ids_fresh n (news : list Inst) x :
  map iid news = seq n (length news) -> x ∈ news ->
  (n <= iid x < n + length news)%nat.
Proof.
  intros Hids Hx. assert (iid x ∈ map iid news) as Hin.
  { apply list_elem_of_In, in_map, list_elem_of_In. exact Hx. }
  rewrite Hids in Hin. apply elem_of_seq in Hin. lia.
Qed.

Lemma run_ids_snoc n (n0 : list Inst) x :
  map iid (n0 ++ [x]) = seq n (length (n0 ++ [x])) ->
  map iid n0 = seq n (length n0) /\ iid x = (n + length n0)%nat.
Proof.
  rewrite map_app, length_app. simpl. rewrite seq_app. simpl. intros H.
  apply app_inj_1 in H as [H1 H2]; [|rewrite length_map, length_seq; reflexivity].
  injection H2 as H2. auto.
Qed.

(** A run goes on: at the same anchor before it, or after its last
    instruction. *)
Lemma placed_app b a a' n1 n2 st :
  (forall i, i ∈ all_insts (st_module st) ->
     (iid i < next_id (st_module st))%nat) ->
  (forall x, from_option Some a b = Some x ->
     (x < next_id (st_module st))%nat) ->
  map iid n1 = seq (next_id (st_module st)) (length n1) ->
  (b <> None \/ n1 = [] /\ a' = a \/
   exists x, last n1 = Some x /\ a' = Some (iid x)) ->
  placed b a' n2 (placed b a n1 st) = placed b a (n1 ++ n2) st.
Proof.
  intros Hfresh Hanchor Hids Hcase.
  apply placed_placed; [|apply length_app].
  intros f blk Hf Hblk.
  destruct b as [b|].
  - simpl. apply place_before_app. intros Hb.
    apply list_elem_of_fmap in Hb as (y & Hy & Hyin).
    pose proof (run_ids_fresh _ _ _ Hids Hyin).
    specialize (Hanchor b eq_refl). lia.
  - destruct Hcase as [Hc|[[-> ->]|(x & Hlast & ->)]]; [contradiction| |].
    + rewrite place_nil. reflexivity.
    + apply last_Some in Hlast as (n0 & ->).
      rewrite <- app_assoc. simpl.
      apply run_ids_snoc in Hids as [Hids0 Hx].
      apply (place_after_last None a n0 x n2 blk).
      * intros Hin. apply list_elem_of_fmap in Hin as (y & Hy & Hyin).
        assert (y ∈ all_insts (st_module st)) as Hyall
          by (apply elem_of_all_insts; eauto).
        apply Hfresh in Hyall. lia.
      * intros Hin. apply list_elem_of_fmap in Hin as (y & Hy & Hyin).
        pose proof (run_ids_fresh _ _ _ Hids0 Hyin). lia.
Qed.

(** After the last instruction of a run, whatever its anchor. *)
Lemma placed_after_last b a n0 x n2 st :
  (forall i, i ∈ all_insts (st_module st) ->
     (iid i < next_id (st_module st))%nat) ->
  map iid (n0 ++ [x]) = seq (next_id (st_module st)) (length (n0 ++ [x])) ->
  placed None (Some (iid x)) n2 (placed b a (n0 ++ [x]) st)
  = placed b a ((n0 ++ [x]) ++ n2) st.
Proof.
  intros Hfresh Hids.
  apply placed_placed; [|apply length_app].
  intros f blk Hf Hblk. rewrite <- app_assoc. simpl.
  apply run_ids_snoc in Hids as [Hids0 Hx].
  apply (place_after_last b a n0 x n2 blk).
  - intros Hin. apply list_elem_of_fmap in Hin as (y & Hy & Hyin).
    assert (y ∈ all_insts (st_module st)) as Hyall
      by (apply elem_of_all_insts; eauto).
    apply Hfresh in Hyall. lia.
  - intros Hin. apply list_elem_of_fmap in Hin as (y & Hy & Hyin).
    pose proof (run_ids_fresh _ _ _ Hids0 Hyin). lia.
Qed.

Lemma conversion_run_nil v st : conversion_run v st [] (Some v).
Proof.
  split; [reflexivity| |reflexivity]. intros i id ty Hi. inversion Hi.
Qed.

Lemma conversion_run_single v st i k t :
  i = mkInst (next_id (st_module st)) "" k t ->
  (forall id ty, VInst id ty ∈ operands k ->
     (id < next_id (st_module st))%nat) ->
  conversion_run v st [i] (Some (valueOf i)).
Proof.
  intros -> Hops. split; [reflexivity| |reflexivity].
  intros i id ty Hi Hop. apply list_elem_of_singleton in Hi as ->.
  simpl in *. eauto.
Qed.

Lemma conversion_run_app v st n1 x n2 r st1 :
  next_id (st_module st1) = (next_id (st_module st) + length n1)%nat ->
  conversion_run v st n1 (Some x) ->
  conversion_run x st1 n2 r ->
  conversion_run v st (n1 ++ n2) r.
Proof.
  intros Hnext [Hids1 Hops1 Hr1] [Hids2 Hops2 Hr2]. split.
  - rewrite map_app, length_app, seq_app, Hids1, Hids2, Hnext. reflexivity.
  - intros i id ty Hi. apply elem_of_app in Hi as [Hi|Hi]; eauto.
  - rewrite Hr2. f_equal. rewrite last_app. injection Hr1 as ->.
    destruct (last n2); reflexivity.
Qed.

Lemma valueOf_load_coherent m i :
  module_ok m -> i ∈ all_insts m -> load_coherent m (valueOf i).
Proof.
  intros Hok Hi _ p Hp. unfold loadPointerOperand, valueOf in Hp.
  destruct (lookup_inst m (iid i)) as [j|] eqn:Hl; [|discriminate].
  apply lookup_inst_Some in Hl as [Hj Hid].
  assert (j = i) as ->.
  { eapply NoDup_iid_inj; [apply (wf_nodup _ (ok_ids _ Hok))| | |]; eauto. }
  pose proof (ok_insts _ Hok i Hi) as Hwt. unfold wt_inst in Hwt.
  destruct (ikind i); try discriminate. injection Hp as <-. exact Hwt.
Qed.

Lemma placed_next b a news st :
  next_id (st_module (placed b a news st))
  = (next_id (st_module st) + length news)%nat.
Proof. reflexivity. Qed.

Lemma conversion_run_last_fresh v st news x j :
  value_scoped (st_module st) v ->
  conversion_run v st news (Some x) -> last news = Some j ->
  x = valueOf j /\ v <> x /\ j ∈ news /\
  dyn_cast_Instruction x = Some (iid j).
Proof.
  intros Hv [Hids _ Hr] Hlast. rewrite Hlast in Hr. injection Hr as ->.
  pose proof (last_Some_elem_of _ _ Hlast) as Hj.
  pose proof (run_ids_fresh _ _ _ Hids Hj) as Hfresh.
  repeat split; [|exact Hj].
  intros ->. specialize (Hv _ _ eq_refl). lia.
Qed.

Lemma layout_castStep op v t b a st r st' :
  value_scoped (st_module st) v ->
  castStep op v (dyn_cast_Constant v) t b a false st = Ret r st' ->
  laid_out v b a st r st'.
Proof.
  intros Hv H. unfold castStep in H.
  apply bind_Ret in H as (i & st1 & Hnew & H).
  apply bind_Ret in H as (conv & st2 & Hins & H). injection H as <- <-.
  destruct (newInst_insertBeforeAfter_placed _ _ _ _ _ _ _ _ _ _ Hnew Hins)
    as (Hi & -> & ->).
  exists [i]. split; [reflexivity|].
  eapply conversion_run_single; [exact Hi|].
  intros id ty Hop. apply list_elem_of_singleton in Hop.
  apply (Hv id ty). symmetry. exact Hop.
Qed.

Section ConvertLayout.
Variable fuel : nat.
Hypothesis IH : forall v t b a st r st',
    anchored false b a ->
    (forall x, from_option Some a b = Some x ->
       (x < next_id (st_module st))%nat) ->
    module_ok (st_module st) -> value_scoped (st_module st) v ->
    ty_ok t = true -> load_coherent (st_module st) v ->
    convertToType fuel (Some v) (Some t) b a false st = Ret r st' ->
    laid_out v b a st r st'.

(** The second of two conversions is anchored at the result of the
    first. *)
Lemma layout_second v x t b a st n1 j r st' :
  (forall y, from_option Some a b = Some y ->
     (y < next_id (st_module st))%nat) ->
  module_ok (st_module st) -> value_scoped (st_module st) v ->
  module_ok (st_module (placed b a n1 st)) ->
  ty_ok t = true ->
  conversion_run v st n1 (Some x) -> last n1 = Some j ->
  (exists i, i ∈ all_insts (st_module (placed b a n1 st)) /\ x = valueOf i) ->
  convertToType fuel (Some x) (Some t) b (dyn_cast_Instruction x) false
    (placed b a n1 st) = Ret r st' ->
  laid_out v b a st r st'.
Proof.
  intros Hanchor Hok Hv Hok1 Ht Hrun1 Hlast (i & Hi & Hxi) H.
  destruct (conversion_run_last_fresh _ _ _ _ _ Hv Hrun1 Hlast)
    as (Hx & Hvx & Hj & Hdyn).
  rewrite Hdyn in H.
  pose proof (run_ids_fresh _ _ _ (run_ids _ _ _ _ Hrun1) Hj) as Hjid.
  assert (laid_out x b (Some (iid j)) (placed b a n1 st) r st')
    as (n2 & -> & Hrun2).
  { eapply IH; [right; right; discriminate| |exact Hok1| |exact Ht| |exact H].
    - intros y Hy. rewrite placed_next. destruct b as [b|]; simpl in Hy.
      + specialize (Hanchor y Hy). lia.
      + injection Hy as <-. lia.
    - rewrite Hx. intros id ty [= <- _]. rewrite placed_next. lia.
    - rewrite Hxi. apply valueOf_load_coherent; assumption. }
  exists (n1 ++ n2). split.
  - apply placed_app; [apply (wf_fresh _ (ok_ids _ Hok))|exact Hanchor
      |apply (run_ids _ _ _ _ Hrun1)|].
    right. right. eauto.
  - apply (conversion_run_app v st n1 x n2 r (placed b a n1 st));
      [apply placed_next|exact Hrun1|exact Hrun2].
Qed.

Lemma layout_via v t1 t b a st r st' :
  anchored false b a ->
  (forall y, from_option Some a b = Some y ->
     (y < next_id (st_module st))%nat) ->
  module_ok (st_module st) -> value_scoped (st_module st) v ->
  ty_ok t1 = true -> ty_ok t = true -> load_coherent (st_module st) v ->
  typeOf v <> t1 ->
  (r1 <- convertToType fuel (Some v) (Some t1) b a false ;;
   x <- nonnull r1 ;;
   convertToType fuel (Some x) (Some t) b (dyn_cast_Instruction x) false) st
    = Ret r st' ->
  laid_out v b a st r st'.
Proof.
  intros Hanc Hanchor Hok Hv Ht1 Ht Hcoh Hne1 H.
  apply bind_Ret in H as (r1 & st1 & H1 & H).
  apply bind_Ret in H as (x & st2 & Hx & H).
  apply nonnull_Ret in Hx as [-> ->].
  pose proof (convertToType_ok _ _ _ _ _ _ _ _ Hanc Hok Hv Ht1 H1)
    as (x' & [= <-] & Hxt & Hok1 & Hle1 & _ & Hnew1).
  destruct (Hnew1 Hne1) as (i1 & Hi1 & Hxi & _).
  destruct (IH _ _ _ _ _ _ _ Hanc Hanchor Hok Hv Ht1 Hcoh H1)
    as (n1 & -> & Hrun1).
  destruct (last n1) as [j|] eqn:Hlast.
  - eapply layout_second; eauto.
  - exfalso. pose proof (run_result _ _ _ _ Hrun1) as Hr.
    rewrite Hlast in Hr. injection Hr as ->. contradiction.
Qed.

Lemma layout_wrap v t1 t b a st r st' (wrapI : Value -> InstKind) :
  anchored false b a ->
  (forall y, from_option Some a b = Some y ->
     (y < next_id (st_module st))%nat) ->
  module_ok (st_module st) -> value_scoped (st_module st) v ->
  ty_ok t1 = true -> load_coherent (st_module st) v ->
  (forall x y, y ∈ operands (wrapI x) -> y = x \/ exists c, y = VConst c) ->
  (r1 <- convertToType fuel (Some v) (Some t1) b a false ;;
   x <- nonnull r1 ;;
   i <- newInst "" (wrapI x) t ;;
   a' <- (if decide (v = x) then ret a
          else id <- nonnull (dyn_cast_Instruction x) ;; ret (Some id)) ;;
   conv <- insertBeforeAfter i b a' ;;
   ret (Some conv)) st = Ret r st' ->
  laid_out v b a st r st'.
Proof.
  intros Hanc Hanchor Hok Hv Ht1 Hcoh Hops H.
  apply bind_Ret in H as (r1 & st1 & H1 & H).
  apply bind_Ret in H as (x & st2 & Hx & H).
  apply nonnull_Ret in Hx as [-> ->].
  pose proof (convertToType_ok _ _ _ _ _ _ _ _ Hanc Hok Hv Ht1 H1) as Hc1.
  pose proof (converted_ok_scoped _ _ _ _ _ _ Hc1 Hv eq_refl) as Hxs.
  destruct (IH _ _ _ _ _ _ _ Hanc Hanchor Hok Hv Ht1 Hcoh H1)
    as (n1 & -> & Hrun1).
  apply bind_Ret in H as (i & st2 & Hnew & H).
  apply bind_Ret in H as (a' & st3 & Ha & H).
  apply bind_Ret in H as (conv & st4 & Hins & H). injection H as <- <-.
  assert (st3 = st2 /\
          (b <> None \/ n1 = [] /\ a' = a \/
           exists j, last n1 = Some j /\ a' = Some (iid j))) as [-> Hcase].
  { destruct (last n1) as [j|] eqn:Hlast.
    - destruct (conversion_run_last_fresh _ _ _ _ _ Hv Hrun1 Hlast)
        as (Hxj & Hvx & Hj & Hdyn).
      destruct (decide (v = x)); [contradiction|].
      apply bind_Ret in Ha as (id & s & Hid & Ha).
      apply nonnull_Ret in Hid as [Hid ->]. injection Ha as <- <-.
      split; [reflexivity|]. right. right. exists j.
      split; [reflexivity|]. congruence.
    - pose proof (run_result _ _ _ _ Hrun1) as Hr.
      rewrite Hlast in Hr. injection Hr as ->.
      destruct (decide (v = v)); [|contradiction].
      injection Ha as <- <-. split; [reflexivity|]. right. left.
      split; [|reflexivity]. apply last_None. exact Hlast. }
  destruct (newInst_insertBeforeAfter_placed _ _ _ _ _ _ _ _ _ _ Hnew Hins)
    as (Hi & -> & ->).
  exists (n1 ++ [i]). split.
  - apply placed_app; [apply (wf_fresh _ (ok_ids _ Hok))|exact Hanchor
      |apply (run_ids _ _ _ _ Hrun1)|exact Hcase].
  - apply (conversion_run_app v st n1 x [i] _ (placed b a n1 st));
      [apply placed_next|exact Hrun1|].
    replace (Some (valueOf i)) with
      (Some (from_option valueOf x (last [i]))) by reflexivity.
    split; [rewrite Hi; reflexivity| |reflexivity].
    intros i' id ty Hi' Hop. apply list_elem_of_singleton in Hi' as ->.
    rewrite Hi in Hop |- *. simpl in *.
    destruct (Hops _ _ Hop) as [Hy|(c & Hy)]; [|discriminate].
    apply (Hxs id ty). symmetry. exact Hy.
Qed.

End ConvertLayout.

Lemma convertToType_layout fuel :
  forall v t b a st r st',
    anchored false b a ->
    (forall x, from_option Some a b = Some x ->
       (x < next_id (st_module st))%nat) ->
    module_ok (st_module st) -> value_scoped (st_module st) v ->
    ty_ok t = true -> load_coherent (st_module st) v ->
    convertToType fuel (Some v) (Some t) b a false st = Ret r st' ->
    laid_out v b a st r st'.
Proof.
  induction fuel as [|fuel IH];
    intros v t b a st r st' Hanc Hanchor Hok Hv Ht Hcoh H.
  - discriminate.
  - simpl in H. pose proof (head_anchored false b a Hanc) as Hhead.
    simpl in Hhead. rewrite Hhead in H. clear Hhead.
    destruct (decide (typeOf v = t)) as [Heq|Hne].
    { injection H as <- <-. exists []. split; [symmetry; apply placed_nil|].
      apply conversion_run_nil. }
    destruct (isPointerTy (typeOf v) && isPointerTy t) eqn:Epp.
    { eapply layout_castStep; eassumption. }
    destruct (isPointerTy (typeOf v) && isIntegerTy t) eqn:Epi.
    { eapply layout_castStep; eassumption. }
    destruct (isIntegerTy (typeOf v) && isPointerTy t) eqn:Eip.
    { eapply layout_castStep; eassumption. }
    destruct (isIntegerTy (typeOf v) && isIntegerTy t) eqn:Eii.
    { eapply layout_castStep; eassumption. }
    destruct (isIntegerTy (typeOf v) && isFloatingPointTy t) eqn:Eif.
    { eapply (layout_wrap fuel IH) with
        (t1 := TInt (getPrimitiveSizeInBits t))
        (wrapI := fun x => KCast BitCast x); try eassumption.
      - reflexivity.
      - intros x y Hy. apply list_elem_of_singleton in Hy. auto. }
    destruct (isPointerTy (typeOf v) && isFloatingPointTy t) eqn:Epf.
    { eapply (layout_via fuel IH)
        with (t1 := TInt (getPrimitiveSizeInBits t)); try eassumption;
        try reflexivity.
      apply andb_prop in Epf as [Ep Ef].
      destruct (typeOf v); try discriminate Ep; discriminate. }
    destruct (isFloatingPointTy (typeOf v) && isIntegerTy t) eqn:Efi.
    { apply andb_prop in Efi as [Ef Ei].
      destruct t as [|w| | | | |]; try discriminate Ei. simpl in H.
      assert (forall ft : FloatKind,
        (if decide (typeOf v <> TFloat ft) then
           r1 <- convertToType fuel (Some v) (Some (TFloat ft)) b a false ;;
           fpConv <- nonnull r1 ;;
           convertToType fuel (Some fpConv) (Some (TInt w)) b
             (dyn_cast_Instruction fpConv) false
         else castStep BitCast v (dyn_cast_Constant v) (TInt w) b a false) st
          = Ret r st' -> laid_out v b a st r st') as Hvia.
      { intros ft Hft. destruct (decide (typeOf v <> TFloat ft)) as [Hd|Hd].
        - eapply (layout_via fuel IH) with (t1 := TFloat ft);
            try eassumption; reflexivity.
        - eapply layout_castStep; eassumption. }
      destruct (decide (w = 16)) as [->|H16]; [apply (Hvia Half); exact H|].
      destruct (decide (w = 32)) as [->|H32]; [apply (Hvia Float); exact H|].
      destruct (decide (w = 64)) as [->|H64]; [apply (Hvia Double); exact H|].
      destruct (decide (w = 80)) as [->|H80];
        [apply (Hvia X86_FP80); exact H|].
      eapply (layout_via fuel IH) with (t1 := TInt 32);
        try eassumption; try reflexivity.
      destruct (typeOf v); discriminate. }
    destruct (isFloatingPointTy (typeOf v) && isPointerTy t) eqn:Efp.
    { eapply (layout_via fuel IH)
        with (t1 := TInt (getPrimitiveSizeInBits (typeOf v)));
        try eassumption; try reflexivity.
      apply andb_prop in Efp as [Ef Ep].
      destruct (typeOf v); try discriminate Ef; discriminate. }
    destruct (isFloatingPointTy (typeOf v) && isFloatingPointTy t) eqn:Eff.
    { eapply layout_castStep; eassumption. }
    apply bind_Ret in H as (s0 & s0' & [= <- <-] & H).
    destruct (bool_decide (loadPointerOperand (st_module st) v <> None)
              && isAggregateType (typeOf v) && true) eqn:Eload.
    { (* a load of an aggregate *)
      apply andb_prop in Eload as [Eload _].
      apply andb_prop in Eload as [_ Eagg].
      apply bind_Ret in H as (p & s1 & Hp & H).
      apply nonnull_Ret in Hp as [Hp ->].
      destruct (negb (isValidElementType t)); [discriminate|].
      apply bind_Ret in H as (r1 & st1 & H1 & H).
      apply bind_Ret in H as (c & s2 & Hc & H).
      apply nonnull_Ret in Hc as [-> ->].
      apply bind_Ret in H as (cid & s2 & Hcid & H).
      apply nonnull_Ret in Hcid as [Hcid ->].
      apply bind_Ret in H as (lt & s2 & Hlt & H).
      apply nonnull_Ret in Hlt as [Hlt ->].
      apply bind_Ret in H as (nl & st2 & Hnew & H).
      apply bind_Ret in H as (u & st3 & Hins & H). injection H as <- <-.
      pose proof (loadPointerOperand_scoped _ _ _ Hok Hp) as Hps.
      pose proof (Hcoh Eagg p Hp) as Hpt.
      assert (ty_ok (TPtr t) = true) as Htp by exact Ht.
      assert (load_coherent (st_module st) p) as Hpcoh.
      { intros Hagg. rewrite Hpt in Hagg. discriminate. }
      pose proof (convertToType_ok _ _ _ _ _ _ _ _ Hanc Hok Hps Htp H1) as Hc1.
      pose proof (converted_ok_scoped _ _ _ _ _ _ Hc1 Hps eq_refl) as Hcs.
      destruct Hc1 as (c' & [= <-] & Hct & Hok1 & Hle1 & _ & _).
      destruct (IH _ _ _ _ _ _ _ Hanc Hanchor Hok Hps Htp Hpcoh H1)
        as (n1 & -> & Hrun1).
      destruct (last n1) as [j|] eqn:Hlast.
      2:{ exfalso. pose proof (run_result _ _ _ _ Hrun1) as Hr.
          rewrite Hlast in Hr. injection Hr as ->.
          rewrite Hpt in Hct. injection Hct as Hct. contradiction. }
      destruct (conversion_run_last_fresh _ _ _ _ _ Hps Hrun1 Hlast)
        as (Hcj & Hpc & Hj & Hdyn).
      rewrite Hdyn in Hcid. injection Hcid as <-.
      destruct (newInst_insertAfter_placed _ _ _ _ _ _ _ _ _ Hnew Hins)
        as (Hnl & ->).
      pose proof Hlast as Hsnoc. apply last_Some in Hsnoc as (n0 & ->).
      exists ((n0 ++ [j]) ++ [nl]). split.
      - apply placed_after_last; [apply (wf_fresh _ (ok_ids _ Hok))|].
        apply (run_ids _ _ _ _ Hrun1).
      - split.
        + rewrite map_app, length_app, seq_app.
          rewrite (run_ids _ _ _ _ Hrun1). rewrite Hnl. reflexivity.
        + intros i id ty Hi Hop. apply elem_of_app in Hi as [Hi|Hi].
          * eapply (run_operands _ _ _ _ Hrun1); eauto.
          * apply list_elem_of_singleton in Hi as ->. rewrite Hnl in Hop |- *.
            simpl in *. apply list_elem_of_singleton in Hop.
            apply (Hcs id ty). symmetry. exact Hop.
        + rewrite last_snoc. reflexivity. }
    destruct (isAggregateType (typeOf v)) eqn:Eagg.
    { (* the first element of an aggregate *)
      apply bind_Ret in H as (ft & s1 & Hft & H).
      apply nonnull_Ret in Hft as [Hft ->].
      apply bind_Ret in H as (x & st1 & Hx & H).
      apply bind_Ret in Hx as (i & s2 & Hnew & Hins).
      assert (module_ok (st_module st1) /\
              x = VInst (next_id (st_module st)) ft /\
              i = mkInst (next_id (st_module st)) "" (KExtractValue v 0) ft /\
              i ∈ all_insts (st_module st1) /\
              next_id (st_module st1) = S (next_id (st_module st)))
        as (Hok1 & _ & _ & Hin & _).
      { eapply newInst_insertBeforeAfter_ok;
          [exact Hok| | |exact Hnew|exact Hins].
        - intros y Hy. apply list_elem_of_singleton in Hy as ->. exact Hv.
        - apply getIndexedType0_field_type. exact Hft. }
      destruct (newInst_insertBeforeAfter_placed _ _ _ _ _ _ _ _ _ _ Hnew Hins)
        as (Hi & -> & ->).
      eapply (layout_second fuel IH) with (n1 := [i]) (j := i);
        [exact Hanchor|exact Hok|exact Hv|exact Hok1|exact Ht| |reflexivity
        | |exact H].
      - eapply conversion_run_single; [exact Hi|].
        intros id ty Hop. apply list_elem_of_singleton in Hop.
        apply (Hv id ty). symmetry. exact Hop.
      - eauto. }
    destruct (isAggregateType t) eqn:Eaggt; [|discriminate].
    destruct (isEmptyTy t) eqn:Eempty; [discriminate|].
    apply bind_Ret in H as (idxt & st1 & Hidx & H).
    apply nonnull_Ret in Hidx as [Hidx ->].
    destruct (getTypeAtIndex0_field_type _ _ Ht Eempty Hidx) as [Hfield Hidxok].
    eapply (layout_wrap fuel IH) with
      (t1 := idxt)
      (wrapI := fun x => KInsertValue (VConst (CUndef t)) x 0);
      try eassumption.
    intros x y Hy. apply elem_of_cons in Hy as [->|Hy]; [eauto|].
    apply list_elem_of_singleton in Hy. auto.
Qed.

Lemma has_inst_below m b :
  module_ok m -> has_inst m b = true -> (b < next_id m)%nat.
Proof.
  intros Hok Hb. unfold has_inst in Hb. apply bool_decide_eq_true in Hb.
  destruct Hb as [i Hi]. apply lookup_inst_Some in Hi as [Hi <-].
  apply (wf_fresh _ (ok_ids _ Hok)). exact Hi.
Qed.

(** convertValueToType: the instructions a conversion creates stand in
    one run immediately before the anchor, in the order of their
    creation, and nothing else of the state changes.  Each of them uses
    only values defined before it, and the last one is the result (the
    value itself when the run is empty). *)
Theorem convertValueToType_run_before_anchor :
  forall fuel v t b st r st',
    module_ok (st_module st) -> has_inst (st_module st) b = true ->
    value_scoped (st_module st) v -> load_coherent (st_module st) v ->
    ty_ok t = true ->
    convertValueToType fuel (Some v) (Some t) (Some b) st = Ret r st' ->
    exists news,
      st' = mkState
              (mkModule (next_id (st_module st) + length news)
                 (functions (map_blocks (place_before b news) (st_module st)))
                 (globals (st_module st)) (word_bits (st_module st)))
              (st_config st) /\
      conversion_run v st news r.
Proof.
  intros fuel v t b st r st' Hok Hb Hv Hcoh Ht H.
  unfold convertValueToType in H.
  destruct (convertToType_layout fuel v t (Some b) None st r st')
    as (news & -> & Hrun); try assumption.
  - right. left. discriminate.
  - intros x [= <-]. apply has_inst_below; assumption.
  - exists news. split; [reflexivity|exact Hrun].
Qed.

Lemma convertValueToType_run_before_anchor_witness :
  module_ok (st_module ex_state) /\
  has_inst (st_module ex_state) 0 = true /\
  value_scoped (st_module ex_state) ex_float_arg /\
  load_coherent (st_module ex_state) ex_float_arg /\
  ty_ok (TInt 24) = true /\
  exists r st',
    convertValueToType 3 (Some ex_float_arg) (Some (TInt 24)) (Some 0%nat)
      ex_state = Ret r st' /\
    exists news,
      st' = mkState
              (mkModule (next_id (st_module ex_state) + length news)
                 (functions (map_blocks (place_before 0 news)
                               (st_module ex_state)))
                 (globals (st_module ex_state))
                 (word_bits (st_module ex_state)))
              (st_config ex_state) /\
      conversion_run ex_float_arg ex_state news r.
Proof.
  assert (value_scoped (st_module ex_state) ex_float_arg) as Hv
    by (intros id t H; discriminate H).
  assert (load_coherent (st_module ex_state) ex_float_arg) as Hcoh
    by (intros H; discriminate H).
  split; [exact ex_module_ok|]. split; [reflexivity|]. split; [exact Hv|].
  split; [exact Hcoh|]. split; [reflexivity|].
  eexists _, _. split; [vm_compute; reflexivity|].
  eapply (convertValueToType_run_before_anchor 3 ex_float_arg (TInt 24) 0
            ex_state _ _ ex_module_ok eq_refl Hv Hcoh eq_refl).
  vm_compute. reflexivity.
Defined.

(** convertValueToTypeAfter: the instructions a conversion creates stand
    in one run immediately after the anchor, in the order of their
    creation (the first one next to the anchor), and nothing else of the
    state changes.  Each of them uses only values defined before it, and
    the last one is the result. *)
Theorem convertValueToTypeAfter_run_after_anchor :
  forall fuel v t a st r st',
    module_ok (st_module st) -> has_inst (st_module st) a = true ->
    value_scoped (st_module st) v -> load_coherent (st_module st) v ->
    ty_ok t = true ->
    convertValueToTypeAfter fuel (Some v) (Some t) (Some a) st = Ret r st' ->
    exists news,
      st' = mkState
              (mkModule (next_id (st_module st) + length news)
                 (functions (map_blocks (place_after a news) (st_module st)))
                 (globals (st_module st)) (word_bits (st_module st)))
              (st_config st) /\
      conversion_run v st news r.
Proof.
  intros fuel v t a st r st' Hok Ha Hv Hcoh Ht H.
  unfold convertValueToTypeAfter in H.
  destruct (convertToType_layout fuel v t None (Some a) st r st')
    as (news & -> & Hrun); try assumption.
  - right. right. discriminate.
  - intros x [= <-]. apply has_inst_below; assumption.
  - exists news. split; [reflexivity|exact Hrun].
Qed.

Lemma convertValueToTypeAfter_run_after_anchor_witness :
  module_ok (st_module ex_state) /\
  has_inst (st_module ex_state) 0 = true /\
  value_scoped (st_module ex_state) ex_float_arg /\
  load_coherent (st_module ex_state) ex_float_arg /\
  ty_ok (TInt 24) = true /\
  exists r st',
    convertValueToTypeAfter 3 (Some ex_float_arg) (Some (TInt 24))
      (Some 0%nat) ex_state = Ret r st' /\
    exists news,
      st' = mkState
              (mkModule (next_id (st_module ex_state) + length news)
                 (functions (map_blocks (place_after 0 news)
                               (st_module ex_state)))
                 (globals (st_module ex_state))
                 (word_bits (st_module ex_state)))
              (st_config ex_state) /\
      conversion_run ex_float_arg ex_state news r.
Proof.
  assert (value_scoped (st_module ex_state) ex_float_arg) as Hv
    by (intros id t H; discriminate H).
  assert (load_coherent (st_module ex_state) ex_float_arg) as Hcoh
    by (intros H; discriminate H).
  split; [exact ex_module_ok|]. split; [reflexivity|]. split; [exact Hv|].
  split; [exact Hcoh|]. split; [reflexivity|].
  eexists _, _. split; [vm_compute; reflexivity|].
  eapply (convertValueToTypeAfter_run_after_anchor 3 ex_float_arg (TInt 24) 0
            ex_state _ _ ex_module_ok eq_refl Hv Hcoh eq_refl).
  vm_compute. reflexivity.
Defined.

(** ** The operands of the instructions of a conversion *)

Lemma sources_ok_refl v st : module_ok (st_module st) -> sources_ok v st st.
Proof.
  intros Hok i y Hi Hle. apply (wf_fresh _ (ok_ids _ Hok)) in Hi. lia.
Qed.

Lemma sources_ok_single v name k t b a st i st1 r st' :
  module_ok (st_module st) ->
  (forall y, y ∈ operands k -> y = v \/ exists t', y = VConst (CUndef t')) ->
  newInst name k t st = Ret i st1 ->
  insertBeforeAfter i b a st1 = Ret r st' ->
  sources_ok v st st'.
Proof.
  intros Hok Hops Hnew Hins j y Hj Hle Hy.
  destruct (insertBeforeAfter_insts _ _ _ _ _ _ _ Hins Hj) as [->|Hold].
  - apply newInst_state in Hnew as [-> _]. simpl in Hy.
    destruct (Hops y Hy) as [->|Hu]; auto.
  - apply newInst_state in Hnew as [_ ->]. simpl in Hold.
    apply (wf_fresh _ (ok_ids _ Hok)) in Hold. lia.
Qed.

Lemma loadPointerOperand_valueOf m j y :
  module_ok m -> j ∈ all_insts m ->
  loadPointerOperand m (valueOf j) = Some y -> y ∈ operands (ikind j).
Proof.
  intros Hok Hj H. unfold loadPointerOperand, valueOf in H.
  destruct (lookup_inst m (iid j)) as [j'|] eqn:Hl; [|discriminate].
  apply lookup_inst_Some in Hl as [Hj' Hid].
  assert (j' = j) as ->.
  { eapply NoDup_iid_inj; [apply (wf_nodup _ (ok_ids _ Hok))| | |]; eauto. }
  destruct (ikind j); try discriminate. injection H as <-. left.
Qed.

Lemma loadPointerOperand_pointer m v p :
  module_ok m -> loadPointerOperand m v = Some p ->
  isAggregateType (typeOf p) = false.
Proof.
  intros Hok H. unfold loadPointerOperand in H.
  destruct v as [id ty| |]; try discriminate.
  destruct (lookup_inst m id) as [i|] eqn:Hl; [|discriminate].
  apply lookup_inst_Some in Hl as [Hi _].
  pose proof (ok_insts _ Hok i Hi) as Hwt. unfold wt_inst in Hwt.
  destruct (ikind i); try discriminate. injection H as <-.
  rewrite Hwt. reflexivity.
Qed.

(** The instructions of a second conversion, of the result of the
    first. *)
Lemma sources_ok_then v x st st1 st2 :
  module_ok (st_module st1) ->
  (next_id (st_module st) <= next_id (st_module st1))%nat ->
  (forall i, i ∈ all_insts (st_module st2) ->
     i ∈ all_insts (st_module st1) \/
     (next_id (st_module st1) <= iid i)%nat) ->
  (x = v /\ st1 = st \/
   exists j, j ∈ all_insts (st_module st1) /\ x = valueOf j /\
     (next_id (st_module st) <= iid j)%nat) ->
  sources_ok v st st1 -> sources_ok x st1 st2 -> sources_ok v st st2.
Proof.
  intros Hok1 Hle Hfresh Hx H1 H2 i y Hi Hlei Hy.
  destruct (Hfresh i Hi) as [Hold|Hnew]; [eapply H1; eauto|].
  destruct (H2 i y Hi Hnew Hy) as [->|[[Hagg Hl]|[(id & ty & -> & Hid)|Hu]]].
  - destruct Hx as [[-> _]|(j & Hj & -> & Hjid)]; [auto|].
    right. right. left. unfold valueOf. eauto.
  - destruct Hx as [[-> ->]|(j & Hj & -> & Hjid)]; [auto|].
    apply (H1 j y Hj Hjid).
    eapply loadPointerOperand_valueOf; eauto.
  - right. right. left. exists id, ty. split; [reflexivity|lia].
  - auto.
Qed.

Lemma converted_ok_result v t st x st1 :
  converted_ok v t st (Some x) st1 ->
  x = v /\ st1 = st \/
  exists j, j ∈ all_insts (st_module st1) /\ x = valueOf j /\
    (next_id (st_module st) <= iid j)%nat.
Proof.
  intros (x' & [= <-] & Hxt & Hok1 & Hle1 & Hsame & Hnew).
  destruct (decide (typeOf v = t)) as [Heq|Hne]; [left; auto|right; auto].
Qed.

Section ConvertSources.
Variable fuel : nat.
Hypothesis IH : forall v t b a st r st',
    anchored false b a ->
    module_ok (st_module st) -> value_scoped (st_module st) v ->
    ty_ok t = true ->
    convertToType fuel (Some v) (Some t) b a false st = Ret r st' ->
    sources_ok v st st'.

Lemma sources_second v x t1 t b st st1 r st' :
  module_ok (st_module st) -> value_scoped (st_module st) v ->
  ty_ok t = true ->
  converted_ok v t1 st (Some x) st1 -> sources_ok v st st1 ->
  convertToType fuel (Some x) (Some t) b (dyn_cast_Instruction x) false st1
    = Ret r st' ->
  anchored false b (dyn_cast_Instruction x) ->
  sources_ok v st st'.
Proof.
  intros Hok Hv Ht Hc1 Hs1 H Hanc.
  pose proof (converted_ok_scoped _ _ _ _ _ _ Hc1 Hv eq_refl) as Hxs.
  pose proof (converted_ok_result _ _ _ _ _ Hc1) as Hx.
  destruct Hc1 as (x' & [= <-] & Hxt & Hok1 & Hle1 & _ & _).
  eapply (sources_ok_then v x st st1 st'); try eassumption.
  - apply (oa_fresh _ _ (convertToType_only_adds _ _ _ _ _ _ _ _ _ H)).
  - eapply IH; eassumption.
Qed.

Lemma sources_via v t1 t b a st r st' :
  anchored false b a ->
  module_ok (st_module st) -> value_scoped (st_module st) v ->
  ty_ok t1 = true -> ty_ok t = true -> typeOf v <> t1 ->
  (r1 <- convertToType fuel (Some v) (Some t1) b a false ;;
   x <- nonnull r1 ;;
   convertToType fuel (Some x) (Some t) b (dyn_cast_Instruction x) false) st
    = Ret r st' ->
  sources_ok v st st'.
Proof.
  intros Hanc Hok Hv Ht1 Ht Hne1 H.
  apply bind_Ret in H as (r1 & st1 & H1 & H).
  apply bind_Ret in H as (x & st2 & Hx & H).
  apply nonnull_Ret in Hx as [-> ->].
  pose proof (convertToType_ok _ _ _ _ _ _ _ _ Hanc Hok Hv Ht1 H1) as Hc1.
  apply (sources_second v x t1 t b st st1 r st' Hok Hv Ht Hc1
           (IH _ _ _ _ _ _ _ Hanc Hok Hv Ht1 H1) H).
  destruct Hc1 as (x' & [= <-] & _ & _ & _ & _ & Hnew).
  destruct (Hnew Hne1) as (j & _ & -> & _). right. right. discriminate.
Qed.

Lemma sources_wrap v t1 t b a st r st' (wrapI : Value -> InstKind) :
  anchored false b a ->
  module_ok (st_module st) -> value_scoped (st_module st) v ->
  ty_ok t1 = true ->
  (forall x y, y ∈ operands (wrapI x) ->
     y = x \/ exists t', y = VConst (CUndef t')) ->
  (r1 <- convertToType fuel (Some v) (Some t1) b a false ;;
   x <- nonnull r1 ;;
   i <- newInst "" (wrapI x) t ;;
   a' <- (if decide (v = x) then ret a
          else id <- nonnull (dyn_cast_Instruction x) ;; ret (Some id)) ;;
   conv <- insertBeforeAfter i b a' ;;
   ret (Some conv)) st = Ret r st' ->
  sources_ok v st st'.
Proof.
  intros Hanc Hok Hv Ht1 Hops H.
  apply bind_Ret in H as (r1 & st1 & H1 & H).
  apply bind_Ret in H as (x & st2 & Hx & H).
  apply nonnull_Ret in Hx as [-> ->].
  pose proof (convertToType_ok _ _ _ _ _ _ _ _ Hanc Hok Hv Ht1 H1) as Hc1.
  pose proof (IH _ _ _ _ _ _ _ Hanc Hok Hv Ht1 H1) as Hs1.
  pose proof (converted_ok_result _ _ _ _ _ Hc1) as Hx.
  destruct Hc1 as (x' & [= <-] & Hxt & Hok1 & Hle1 & _ & _).
  apply bind_Ret in H as (i & st2 & Hnew & H).
  apply bind_Ret in H as (a' & st3 & Ha & H).
  assert (st3 = st2) as ->.
  { destruct (decide (v = x)); [injection Ha as _ <-; reflexivity|].
    apply bind_Ret in Ha as (id & s & Hid & Ha).
    apply nonnull_Ret in Hid as [_ ->]. injection Ha as _ <-. reflexivity. }
  apply bind_Ret in H as (conv & st4 & Hins & H). injection H as _ <-.
  eapply (sources_ok_then v x st st1 st4); try eassumption.
  - intros j Hj.
    destruct (insertBeforeAfter_insts _ _ _ _ _ _ _ Hins Hj) as [->|Hold].
    + right. apply newInst_state in Hnew as [-> _]. simpl. lia.
    + left. apply newInst_state in Hnew as [_ ->]. exact Hold.
  - eapply sources_ok_single; [exact Hok1| |exact Hnew|exact Hins].
    intros y Hy. apply (Hops x y Hy).
Qed.

End ConvertSources.

Lemma convertToType_sources fuel :
  forall v t b a st r st',
    anchored false b a ->
    module_ok (st_module st) -> value_scoped (st_module st) v ->
    ty_ok t = true ->
    convertToType fuel (Some v) (Some t) b a false st = Ret r st' ->
    sources_ok v st st'.
Proof.
  induction fuel as [|fuel IH]; intros v t b a st r st' Hanc Hok Hv Ht H.
  - discriminate.
  - simpl in H. pose proof (head_anchored false b a Hanc) as Hhead.
    simpl in Hhead. rewrite Hhead in H. clear Hhead.
    assert (Hcast : forall op,
      castStep op v (dyn_cast_Constant v) t b a false st = Ret r st' ->
      sources_ok v st st').
    { intros op Hc. unfold castStep in Hc.
      apply bind_Ret in Hc as (i & st1 & Hnew & Hc).
      apply bind_Ret in Hc as (conv & st2 & Hins & Hc). injection Hc as _ <-.
      eapply sources_ok_single; [exact Hok| |exact Hnew|exact Hins].
      intros y Hy. apply list_elem_of_singleton in Hy. auto. }
    destruct (decide (typeOf v = t)) as [Heq|Hne].
    { injection H as _ <-. apply sources_ok_refl. exact Hok. }
    destruct (isPointerTy (typeOf v) && isPointerTy t) eqn:Epp;
      [eapply Hcast; exact H|].
    destruct (isPointerTy (typeOf v) && isIntegerTy t) eqn:Epi;
      [eapply Hcast; exact H|].
    destruct (isIntegerTy (typeOf v) && isPointerTy t) eqn:Eip;
      [eapply Hcast; exact H|].
    destruct (isIntegerTy (typeOf v) && isIntegerTy t) eqn:Eii;
      [eapply Hcast; exact H|].
    destruct (isIntegerTy (typeOf v) && isFloatingPointTy t) eqn:Eif.
    { eapply (sources_wrap fuel IH) with
        (t1 := TInt (getPrimitiveSizeInBits t))
        (wrapI := fun x => KCast BitCast x); try eassumption.
      - reflexivity.
      - intros x y Hy. apply list_elem_of_singleton in Hy. auto. }
    destruct (isPointerTy (typeOf v) && isFloatingPointTy t) eqn:Epf.
    { eapply (sources_via fuel IH)
        with (t1 := TInt (getPrimitiveSizeInBits t)); try eassumption;
        try reflexivity.
      apply andb_prop in Epf as [Ep Ef].
      destruct (typeOf v); try discriminate Ep; discriminate. }
    destruct (isFloatingPointTy (typeOf v) && isIntegerTy t) eqn:Efi.
    { apply andb_prop in Efi as [Ef Ei].
      destruct t as [|w| | | | |]; try discriminate Ei. simpl in H.
      assert (forall ft : FloatKind,
        (if decide (typeOf v <> TFloat ft) then
           r1 <- convertToType fuel (Some v) (Some (TFloat ft)) b a false ;;
           fpConv <- nonnull r1 ;;
           convertToType fuel (Some fpConv) (Some (TInt w)) b
             (dyn_cast_Instruction fpConv) false
         else castStep BitCast v (dyn_cast_Constant v) (TInt w) b a false) st
          = Ret r st' -> sources_ok v st st') as Hvia.
      { intros ft Hft. destruct (decide (typeOf v <> TFloat ft)) as [Hd|Hd].
        - eapply (sources_via fuel IH) with (t1 := TFloat ft);
            try eassumption; reflexivity.
        - eapply Hcast; exact Hft. }
      destruct (decide (w = 16)) as [->|H16]; [apply (Hvia Half); exact H|].
      destruct (decide (w = 32)) as [->|H32]; [apply (Hvia Float); exact H|].
      destruct (decide (w = 64)) as [->|H64]; [apply (Hvia Double); exact H|].
      destruct (decide (w = 80)) as [->|H80];
        [apply (Hvia X86_FP80); exact H|].
      eapply (sources_via fuel IH) with (t1 := TInt 32);
        try eassumption; try reflexivity.
      destruct (typeOf v); discriminate. }
    destruct (isFloatingPointTy (typeOf v) && isPointerTy t) eqn:Efp.
    { eapply (sources_via fuel IH)
        with (t1 := TInt (getPrimitiveSizeInBits (typeOf v)));
        try eassumption; try reflexivity.
      apply andb_prop in Efp as [Ef Ep].
      destruct (typeOf v); try discriminate Ef; discriminate. }
    destruct (isFloatingPointTy (typeOf v) && isFloatingPointTy t) eqn:Eff;
      [eapply Hcast; exact H|].
    apply bind_Ret in H as (s0 & s0' & [= <- <-] & H).
    destruct (bool_decide (loadPointerOperand (st_module st) v <> None)
              && isAggregateType (typeOf v) && true) eqn:Eload.
    { (* a load of an aggregate *)
      apply andb_prop in Eload as [Eload _].
      apply andb_prop in Eload as [_ Eagg].
      apply bind_Ret in H as (p & s1 & Hp & H).
      apply nonnull_Ret in Hp as [Hp ->].
      destruct (negb (isValidElementType t)); [discriminate|].
      apply bind_Ret in H as (r1 & st1 & H1 & H).
      apply bind_Ret in H as (c & s2 & Hc & H).
      apply nonnull_Ret in Hc as [-> ->].
      apply bind_Ret in H as (cid & s2 & Hcid & H).
      apply nonnull_Ret in Hcid as [Hcid ->].
      apply bind_Ret in H as (lt & s2 & Hlt & H).
      apply nonnull_Ret in Hlt as [Hlt ->].
      apply bind_Ret in H as (nl & st2 & Hnew & H).
      apply bind_Ret in H as (u & st3 & Hins & H). injection H as _ <-.
      pose proof (loadPointerOperand_scoped _ _ _ Hok Hp) as Hps.
      pose proof (loadPointerOperand_pointer _ _ _ Hok Hp) as Hpp.
      assert (ty_ok (TPtr t) = true) as Htp by exact Ht.
      pose proof (convertToType_ok _ _ _ _ _ _ _ _ Hanc Hok Hps Htp H1) as Hc1.
      pose proof (IH _ _ _ _ _ _ _ Hanc Hok Hps Htp H1) as Hs1.
      pose proof (converted_ok_result _ _ _ _ _ Hc1) as Hx.
      destruct Hc1 as (c' & [= <-] & Hct & Hok1 & Hle1 & _ & _).
      apply newInst_state in Hnew as [-> ->].
      apply insertAfter_Ret in Hins as [_ ->].
      intros i y Hi Hlei Hy. simpl in Hi.
      apply elem_of_all_insts_map_blocks in Hi as (f & blk & Hf & Hblk & Hi).
      apply elem_of_ins_after in Hi as [->|Hi].
      - simpl in Hy. apply list_elem_of_singleton in Hy as ->.
        destruct Hx as [[-> ->]|(j & Hj & -> & Hjid)]; [auto|].
        right. right. left. unfold valueOf. eauto.
      - assert (i ∈ all_insts (st_module st1)) as Hi1.
        { apply elem_of_all_insts. exists f, blk. auto. }
        destruct (Hs1 i y Hi1 Hlei Hy)
          as [->|[[Hagg _]|[Hfr|Hu]]]; auto.
        rewrite Hpp in Hagg. discriminate. }
    destruct (isAggregateType (typeOf v)) eqn:Eagg.
    { (* the first element of an aggregate *)
      apply bind_Ret in H as (ft & s1 & Hft & H).
      apply nonnull_Ret in Hft as [Hft ->].
      apply bind_Ret in H as (x & st1 & Hx & H).
      apply bind_Ret in Hx as (i & s2 & Hnew & Hins).
      assert (module_ok (st_module st1) /\
              x = VInst (next_id (st_module st)) ft /\
              i = mkInst (next_id (st_module st)) "" (KExtractValue v 0) ft /\
              i ∈ all_insts (st_module st1) /\
              next_id (st_module st1) = S (next_id (st_module st)))
        as (Hok1 & Hxeq & Hieq & Hin & Hnext).
      { eapply newInst_insertBeforeAfter_ok;
          [exact Hok| | |exact Hnew|exact Hins].
        - intros y Hy. apply list_elem_of_singleton in Hy as ->. exact Hv.
        - apply getIndexedType0_field_type. exact Hft. }
      assert (value_scoped (st_module st1) x) as Hxs.
      { rewrite Hxeq. intros id ty [= <- _]. lia. }
      eapply (sources_ok_then v x st st1 st'); [exact Hok1|lia| | | |].
      - apply (oa_fresh _ _ (convertToType_only_adds _ _ _ _ _ _ _ _ _ H)).
      - right. exists i. split; [exact Hin|]. rewrite Hxeq, Hieq.
        split; [reflexivity|simpl; lia].
      - eapply sources_ok_single; [exact Hok| |exact Hnew|exact Hins].
        intros y Hy. apply list_elem_of_singleton in Hy. auto.
      - eapply IH; [|exact Hok1|exact Hxs|exact Ht|exact H].
        rewrite Hxeq. right. right. discriminate. }
    destruct (isAggregateType t) eqn:Eaggt; [|discriminate].
    destruct (isEmptyTy t) eqn:Eempty; [discriminate|].
    apply bind_Ret in H as (idxt & st1 & Hidx & H).
    apply nonnull_Ret in Hidx as [Hidx ->].
    destruct (getTypeAtIndex0_field_type _ _ Ht Eempty Hidx) as [Hfield Hidxok].
    eapply (sources_wrap fuel IH) with
      (t1 := idxt)
      (wrapI := fun x => KInsertValue (VConst (CUndef t)) x 0);
      try eassumption.
    intros x y Hy. apply elem_of_cons in Hy as [->|Hy]; [eauto|].
    apply list_elem_of_singleton in Hy. auto.
Qed.

(** ** No use of the old object is left *)

Lemma uses_only_init m cfg val :
  uses_only val (users_of m val) (mkState m cfg).
Proof.
  intros i Hi Hv. simpl in Hi. unfold users_of.
  apply elem_of_app. left.
  apply list_elem_of_In, in_flat_map. exists i.
  split; [apply list_elem_of_In; exact Hi|].
  apply in_flat_map. exists val.
  split; [apply list_elem_of_In; exact Hv|].
  destruct (decide (val = val)); [left; reflexivity|contradiction].
Qed.

Lemma uses_only_tail val u rest s :
  (forall id, u <> UInst id) ->
  uses_only val (u :: rest) s -> uses_only val rest s.
Proof.
  intros Hu H i Hi Hv. specialize (H i Hi Hv).
  apply elem_of_cons in H as [H|H]; [|exact H].
  exfalso. apply (Hu (iid i)). symmetry. exact H.
Qed.

Lemma subst_value_object m val old new y :
  isChangeableObject m val = true ->
  subst_value old new y = val -> y = val \/ new = val.
Proof.
  intros Hobj H. unfold subst_value in H.
  destruct (decide (y = old)); [auto|].
  destruct y as [id t|f idx t|c]; auto.
  destruct old as [| |o]; auto. destruct new as [| |n']; auto.
  subst val. simpl in Hobj.
  destruct (subst_const o n' c) eqn:Hs; try discriminate.
  destruct c; simpl in Hs;
    match type of Hs with
    | (if ?d then _ else _) = _ => destruct d
    end; try discriminate; subst; auto.
  left. rewrite Hs. reflexivity.
Qed.

Lemma elem_of_map_operands r k y :
  y ∈ operands (map_operands r k) -> exists x, x ∈ operands k /\ y = r x.
Proof.
  destruct k; simpl; intros H;
    repeat (apply elem_of_cons in H as [->|H]; [eexists; split; [|reflexivity];
      repeat constructor|]);
    try (inversion H; fail).
  apply list_elem_of_In, in_map_iff in H as (x & <- & Hx).
  exists x. split; [apply list_elem_of_In; exact Hx|reflexivity].
Qed.

Lemma uses_only_replace m0 val users old new s u s' :
  isChangeableObject m0 val = true -> new <> val ->
  uses_only val users s ->
  replaceAllUsesWith old new s = Ret u s' ->
  uses_only val users s'.
Proof.
  intros Hobj Hnew H Hr i Hi Hv. injection Hr as _ <-. simpl in Hi.
  apply elem_of_all_insts_map in Hi as (i0 & Hi0 & ->). simpl in *.
  apply elem_of_map_operands in Hv as (x & Hx & Hv).
  symmetry in Hv.
  destruct (subst_value_object _ _ _ _ _ Hobj Hv) as [->|Hc];
    [|contradiction].
  apply (H i0 Hi0 Hx).
Qed.

Lemma uses_only_erase val id rest s e s' :
  uses_only val (UInst id :: rest) s ->
  eraseOrDefer id None s = Ret e s' ->
  uses_only val rest s' /\ e = None.
Proof.
  intros H He. unfold eraseOrDefer in He.
  apply bind_Ret in He as (u & s1 & He & Hr). injection Hr as <- <-.
  injection He as _ <-. split; [|reflexivity].
  intros i Hi Hv. simpl in Hi.
  apply elem_of_all_insts_map_blocks in Hi as (f & blk & Hf & Hblk & Hi).
  apply list_elem_of_filter in Hi as [Hid Hi].
  assert (i ∈ all_insts (st_module s)) as Hi0
    by (apply elem_of_all_insts; eauto).
  specialize (H i Hi0 Hv). apply elem_of_cons in H as [H|H]; [|exact H].
  injection H as H. contradiction.
Qed.

Lemma uses_only_set_inst_kind val id k rest s u s' :
  val ∉ operands k ->
  uses_only val (UInst id :: rest) s ->
  set_inst_kind id k s = Ret u s' ->
  uses_only val rest s'.
Proof.
  intros Hk H Hs i Hi Hv. injection Hs as _ <-. simpl in Hi.
  apply elem_of_all_insts_map in Hi as (i0 & Hi0 & ->).
  case_bool_decide as Hid; simpl in *; [contradiction|].
  specialize (H i0 Hi0 Hv). apply elem_of_cons in H as [H|H]; [|exact H].
  injection H as H. contradiction.
Qed.

Lemma elem_of_replaceUsesOfWith from to k y :
  y ∈ operands (replaceUsesOfWith from to k) ->
  exists x, x ∈ operands k /\ y = replace_value from to x.
Proof.
  destruct k; simpl; intros H;
    repeat (apply elem_of_cons in H as [->|H]; [eexists; split; [|reflexivity];
      repeat constructor|]);
    try (inversion H; fail).
  apply list_elem_of_In, in_map_iff in H as (x & <- & Hx).
  exists x. split; [apply list_elem_of_In; exact Hx|reflexivity].
Qed.

Lemma uses_only_instReplaceUsesOfWith val id conv rest s u s' :
  conv <> val ->
  uses_only val (UInst id :: rest) s ->
  instReplaceUsesOfWith id val conv s = Ret u s' ->
  uses_only val rest s'.
Proof.
  intros Hc H Hs i Hi Hv. unfold instReplaceUsesOfWith in Hs.
  apply bind_Ret in Hs as (s0 & s0' & [= <- <-] & Hs).
  destruct (has_inst _ _); [|discriminate]. injection Hs as _ <-.
  simpl in Hi. apply elem_of_all_insts_map in Hi as (i0 & Hi0 & ->).
  case_bool_decide as Hid; simpl in *.
  - exfalso. apply elem_of_replaceUsesOfWith in Hv as (x & Hx & Hv).
    unfold replace_value in Hv. destruct (decide (x = val)); congruence.
  - specialize (H i0 Hi0 Hv). apply elem_of_cons in H as [H|H]; [|exact H].
    injection H as H. contradiction.
Qed.

Lemma object_not_undef m val t :
  isChangeableObject m val = true -> val <> VConst (CUndef t).
Proof. intros H ->. discriminate H. Qed.

Lemma uses_only_convert fuel m0 val users x t b s r s' :
  isChangeableObject m0 val = true ->
  module_ok (st_module s) -> value_scoped (st_module s) x ->
  ty_ok t = true -> value_scoped (st_module s) val ->
  x <> val ->
  (isAggregateType (typeOf x) = true ->
   loadPointerOperand (st_module s) x <> Some val) ->
  uses_only val users s ->
  convertValueToType fuel (Some x) (Some t) (Some b) s = Ret r s' ->
  uses_only val users s'.
Proof.
  intros Hobj Hok Hx Ht Hval Hne Hload H Hc i Hi Hv.
  unfold convertValueToType in Hc.
  assert (anchored false (Some b) None) as Hanc by (right; left; discriminate).
  destruct (oa_fresh _ _ (convertToType_only_adds _ _ _ _ _ _ _ _ _ Hc) i Hi)
    as [Hold|Hnew]; [apply (H i Hold Hv)|].
  exfalso.
  destruct (convertToType_sources _ _ _ _ _ _ _ _ Hanc Hok Hx Ht Hc i val Hi
              Hnew Hv) as [Hy|[[Hagg Hl]|[(id & ty & Hy & Hid)|(t' & Hy)]]].
  - congruence.
  - apply (Hload Hagg Hl).
  - specialize (Hval id ty Hy). lia.
  - eapply object_not_undef; eauto.
Qed.

Lemma uses_only_newInst_insertBefore val users name k t b s i s1 u s' :
  val ∉ operands k ->
  uses_only val users s ->
  newInst name k t s = Ret i s1 ->
  insertBefore i b s1 = Ret u s' ->
  uses_only val users s'.
Proof.
  intros Hk H Hnew Hins j Hj Hv.
  apply newInst_state in Hnew as [-> ->].
  apply insertBefore_Ret in Hins as [_ ->]. simpl in Hj.
  apply elem_of_all_insts_ins_before in Hj as [->|Hj].
  - contradiction.
  - apply (H j Hj Hv).
Qed.

(** In const-expr mode the result is the constant itself or an
    expression built on it, never another global variable. *)
Lemma convertToType_const_shape fuel :
  forall v t b a st r st',
    convertToType fuel (Some v) (Some t) b a true st = Ret (Some r) st' ->
    r = v \/ forall g ty, r <> VConst (CGlobal g ty).
Proof.
  induction fuel as [|fuel IH]; intros v t b a st r st' H.
  - discriminate.
  - simpl in H.
    destruct (bool_decide (dyn_cast_Constant v = None)); [discriminate|].
    assert (Hcast : forall op st r st',
      castStep op v (dyn_cast_Constant v) t b a true st = Ret (Some r) st' ->
      r = v \/ forall g ty, r <> VConst (CGlobal g ty)).
    { intros op s0 r0 s0' Hc. unfold castStep in Hc.
      apply bind_Ret in Hc as (c & s1 & _ & Hc). injection Hc as <- _.
      right. discriminate. }
    assert (Hvia : forall t1 st r st',
      (r1 <- convertToType fuel (Some v) (Some t1) b a true ;;
       x <- nonnull r1 ;;
       convertToType fuel (Some x) (Some t) b (dyn_cast_Instruction x) true)
        st = Ret (Some r) st' ->
      r = v \/ forall g ty, r <> VConst (CGlobal g ty)).
    { intros t1 s0 r0 s0' Hc.
      apply bind_Ret in Hc as (r1 & s1 & H1 & Hc).
      apply bind_Ret in Hc as (x & s2 & Hx & Hc).
      apply nonnull_Ret in Hx as [-> ->].
      destruct (IH _ _ _ _ _ _ _ Hc) as [->|Hn]; [|auto].
      eapply IH. exact H1. }
    assert (Hwrap : forall t1 (wrapC : Constant -> Constant) st r st',
      (forall c g ty, wrapC c <> CGlobal g ty) ->
      (r1 <- convertToType fuel (Some v) (Some t1) b a true ;;
       x <- nonnull r1 ;;
       c <- nonnull (dyn_cast_Constant x) ;;
       ret (Some (VConst (wrapC c)))) st = Ret (Some r) st' ->
      r = v \/ forall g ty, r <> VConst (CGlobal g ty)).
    { intros t1 wrapC s0 r0 s0' Hw Hc.
      apply bind_Ret in Hc as (r1 & s1 & H1 & Hc).
      apply bind_Ret in Hc as (x & s2 & Hx & Hc).
      apply bind_Ret in Hc as (c & s3 & _ & Hc). injection Hc as <- _.
      right. intros g ty [= Hg]. eapply Hw. exact Hg. }
    destruct (decide (typeOf v = t)) as [Heq|Hne].
    { injection H as <- _. auto. }
    destruct (isPointerTy (typeOf v) && isPointerTy t);
      [eapply Hcast; exact H|].
    destruct (isPointerTy (typeOf v) && isIntegerTy t);
      [eapply Hcast; exact H|].
    destruct (isIntegerTy (typeOf v) && isPointerTy t);
      [eapply Hcast; exact H|].
    destruct (isIntegerTy (typeOf v) && isIntegerTy t);
      [eapply Hcast; exact H|].
    destruct (isIntegerTy (typeOf v) && isFloatingPointTy t).
    { eapply (Hwrap _ (fun c => CCast BitCast c t)); [discriminate|exact H]. }
    destruct (isPointerTy (typeOf v) && isFloatingPointTy t);
      [eapply Hvia; exact H|].
    destruct (isFloatingPointTy (typeOf v) && isIntegerTy t).
    { assert (forall ft : Ty,
        (if decide (typeOf v <> ft) then
           r1 <- convertToType fuel (Some v) (Some ft) b a true ;;
           fpConv <- nonnull r1 ;;
           convertToType fuel (Some fpConv) (Some t) b
             (dyn_cast_Instruction fpConv) true
         else castStep BitCast v (dyn_cast_Constant v) t b a true) st
          = Ret (Some r) st' ->
        r = v \/ forall g ty, r <> VConst (CGlobal g ty)) as Hf.
      { intros ft Hft. destruct (decide (typeOf v <> ft)).
        - eapply Hvia; exact Hft.
        - eapply Hcast; exact Hft. }
      repeat (destruct (decide _) in H; [eapply Hf; exact H|]).
      eapply Hvia; exact H. }
    destruct (isFloatingPointTy (typeOf v) && isPointerTy t);
      [eapply Hvia; exact H|].
    destruct (isFloatingPointTy (typeOf v) && isFloatingPointTy t);
      [eapply Hcast; exact H|].
    apply bind_Ret in H as (s0 & s0' & [= <- <-] & H).
    rewrite andb_false_r in H.
    destruct (isAggregateType (typeOf v)).
    { apply bind_Ret in H as (ft & s1 & Hft & H).
      apply nonnull_Ret in Hft as [Hft ->].
      apply bind_Ret in H as (x & s1 & Hx & H).
      apply bind_Ret in Hx as (c & s2 & _ & Hx). injection Hx as <- _.
      destruct (IH _ _ _ _ _ _ _ H) as [->|Hn]; [|auto].
      right. discriminate. }
    destruct (isAggregateType t); [|discriminate].
    destruct (isEmptyTy t); [discriminate|].
    apply bind_Ret in H as (idxt & s1 & Hidx & H).
    apply nonnull_Ret in Hidx as [Hidx ->].
    eapply (Hwrap _ (fun c => CInsertValue (CUndef t) c 0));
      [discriminate|exact H].
Qed.

Lemma convertConstantToType_not_other_global fuel nc t st conv st' :
  convertConstantToType fuel (Some nc) (Some t) st = Ret (Some conv) st' ->
  conv = nc \/ forall g ty, conv <> CGlobal g ty.
Proof.
  unfold convertConstantToType. intros H.
  apply bind_Ret in H as (v & s1 & Hc & H). simpl in Hc.
  destruct v as [v'|]; [|discriminate].
  apply bind_Ret in H as (c & s2 & Hn & H). injection H as <- _.
  apply nonnull_Ret in Hn as [Hn _].
  destruct v' as [| |c']; try discriminate. injection Hn as <-.
  destruct (convertToType_const_shape _ _ _ _ _ _ _ _ Hc) as [[= ->]|Hg];
    [auto|].
  right. intros g ty ->. eapply Hg. reflexivity.
Qed.

Lemma convert_result_fresh fuel x t b s conv s' :
  module_ok (st_module s) -> value_scoped (st_module s) x ->
  ty_ok t = true ->
  convertValueToType fuel (Some x) (Some t) (Some b) s = Ret (Some conv) s' ->
  conv = x \/
  exists j, conv = valueOf j /\ (next_id (st_module s) <= iid j)%nat.
Proof.
  intros Hok Hx Ht H. unfold convertValueToType in H.
  assert (anchored false (Some b) None) as Hanc by (right; left; discriminate).
  destruct (convertToType_ok_result _ _ _ _ _ _ _ _ Hanc Hok Hx Ht H)
    as (_ & v' & [= <-] & _ & _ & [->|(j & _ & -> & Hj)]); eauto.
Qed.

Lemma convert_result_not_val fuel val x t b s conv s' :
  module_ok (st_module s) -> value_scoped (st_module s) x ->
  ty_ok t = true -> value_scoped (st_module s) val -> x <> val ->
  convertValueToType fuel (Some x) (Some t) (Some b) s = Ret (Some conv) s' ->
  conv <> val.
Proof.
  intros Hok Hx Ht Hval Hne H.
  destruct (convert_result_fresh _ _ _ _ _ _ _ Hok Hx Ht H)
    as [->|(j & -> & Hj)]; [exact Hne|].
  intros <-. specialize (Hval _ _ eq_refl). lia.
Qed.

Lemma uses_only_set_global val users g gl s u s' :
  uses_only val users s -> set_global g gl s = Ret u s' ->
  uses_only val users s'.
Proof. intros H Hs. injection Hs as _ <-. exact H. Qed.

Lemma changeUser_clears fuel m0 st0 val nval u rest s e' s' :
  (forall i, i ∈ all_insts (st_module st0) ->
     (iid i < next_id (st_module st0))%nat) ->
  (forall a t, val = VInst a t ->
     forall j, j ∈ all_insts (st_module st0) -> iid j = a ->
       shape (ikind j) = 0%nat) ->
  isChangeableObject m0 val = true ->
  value_scoped (st_module st0) val ->
  nval <> val ->
  (forall m, isAggregateType (typeOf nval) = true ->
     loadPointerOperand m nval = None) ->
  (forall e, typeOf val = TPtr e -> isAggregateType e = false) ->
  ty_ok (typeOf val) = true -> ty_ok (typeOf nval) = true ->
  loop_inv st0 val s (u :: rest) ->
  change_inv (next_id (st_module st0)) nval s ->
  uses_only val (u :: rest) s ->
  changeUser fuel val nval (typeOf val) u None s = Ret e' s' ->
  uses_only val rest s' /\ e' = None.
Proof.
  intros Hfresh Hobject Hobj Hvs0 Hnv Hnl Hnoagg Htv Htn Hhead Hinv Huses H.
  assert (Hvs : forall s1, change_inv (next_id (st_module st0)) nval s1 ->
                  value_scoped (st_module s1) val).
  { intros s1 Hi1. eapply value_scoped_mono; [|exact Hvs0].
    apply (ci_next _ _ _ Hi1). }
  assert (Hnload : forall s1, isAggregateType (typeOf nval) = true ->
                     loadPointerOperand (st_module s1) nval <> Some val).
  { intros s1 Hagg. rewrite (Hnl _ Hagg). discriminate. }
  unfold changeUser in H. cbv zeta in H.
  apply bind_Ret in H as (s0 & s0' & [= <- <-] & H).
  destruct u as [id|g|c].
  - (* an instruction *)
    apply bind_Ret in H as (i & s1 & Hl & H).
    apply nonnull_Ret in Hl as [Hl ->].
    apply lookup_inst_Some in Hl as [Hi Hid].
    assert (Hlt : (iid i < next_id (st_module st0))%nat).
    { destruct (li_ids _ _ _ _ Hhead id) as (j & Hj & Hjd); [left|].
      rewrite Hid, <- Hjd. apply Hfresh, Hj. }
    pose proof (ok_insts _ (ci_ok _ _ _ Hinv) i Hi) as Hwt.
    pose proof (ci_types _ _ _ Hinv i Hi Hlt) as Hity.
    pose proof (ci_next _ _ _ Hinv) as Hn0.
    assert (Hops : forall v, v ∈ operands (ikind i) ->
                     value_scoped (st_module s) v).
    { intros v Hv. eapply operand_scoped; eauto. apply Hinv. }
    unfold wt_inst in Hwt.
    assert (Hother :
      (conv <- convertValueToType fuel (Some nval) (Some (typeOf val))
                 (Some id) ;;
       conv0 <- nonnull conv ;;
       (if decide (val <> conv0) then instReplaceUsesOfWith id val conv0
        else ret tt) ;;;
       ret None) s = Ret e' s' ->
      uses_only val rest s' /\ e' = None).
    { intros H0. apply bind_Ret in H0 as (r & s1 & Hc & H0).
      pose proof (uses_only_convert _ _ _ _ _ _ _ _ _ _ Hobj (ci_ok _ _ _ Hinv)
                    (ci_nval _ _ _ Hinv) Htv (Hvs _ Hinv) Hnv (Hnload s)
                    Huses Hc) as Hu1.
      apply bind_Ret in H0 as (conv & s2 & Hnn & H0).
      apply nonnull_Ret in Hnn as [-> ->].
      pose proof (convert_result_not_val _ _ _ _ _ _ _ _ (ci_ok _ _ _ Hinv)
                    (ci_nval _ _ _ Hinv) Htv (Hvs _ Hinv) Hnv Hc) as Hcv.
      apply bind_Ret in H0 as (u1 & s3 & Hr & H0). injection H0 as <- <-.
      split; [|reflexivity].
      destruct (decide (val <> conv)); [|exfalso; apply Hcv; symmetry;
        apply dec_stable; assumption].
      eapply uses_only_instReplaceUsesOfWith; eauto. }
    destruct (ikind i) as [t|p|src dst|op x|agg idx|agg elt idx|opc ops sig]
      eqn:Ek; try (apply Hother; exact H).
    + (* load *)
      destruct (negb (bool_decide (val = p))); [discriminate|].
      apply bind_Ret in H as (lt & s1 & Hlt' & H).
      apply nonnull_Ret in Hlt' as [Hlt' ->].
      apply getPointerElementType_Some in Hlt'.
      apply bind_Ret in H as (newLoad & s1 & Hnew & H).
      apply bind_Ret in H as (u1 & s2 & Hins & H).
      assert (val ∉ operands (KLoad nval)) as Hnop.
      { simpl. intros Hin. apply list_elem_of_singleton in Hin. congruence. }
      pose proof (uses_only_newInst_insertBefore _ _ _ _ _ _ _ _ _ _ _ Hnop
                    Huses Hnew Hins) as Hu2.
      assert (forall x, x ∈ operands (KLoad nval) ->
                value_scoped (st_module s) x) as Hlops.
      { intros x Hx. apply list_elem_of_singleton in Hx as ->. apply Hinv. }
      destruct (newInst_insertBefore_ok "" (KLoad nval) lt id s newLoad s1
                  u1 s2 (ci_ok _ _ _ Hinv) Hlops Hlt' Hnew Hins)
        as (_ & _ & Hin2 & _).
      destruct (change_inv_newInst_insertBefore _ _ "" (KLoad nval) lt id s
                  newLoad s1 u1 s2 Hinv Hlops Hlt' Hnew Hins)
        as (Hinv2 & Hnl_eq & Hn2).
      apply bind_Ret in H as (r & s3 & Hc & H).
      assert (value_scoped (st_module s2) (valueOf newLoad)) as Hls.
      { rewrite Hnl_eq. intros x t [= <- _]. lia. }
      assert (valueOf newLoad <> val) as Hlv.
      { rewrite Hnl_eq. intros <-.
        specialize (Hvs _ Hinv _ _ eq_refl). simpl in Hvs. lia. }
      assert (isAggregateType (typeOf (valueOf newLoad)) = true ->
              loadPointerOperand (st_module s2) (valueOf newLoad) <> Some val)
        as Hll.
      { intros _ Hl.
        apply (loadPointerOperand_valueOf _ _ _ (ci_ok _ _ _ Hinv2) Hin2)
          in Hl.
        rewrite Hnl_eq in Hl. contradiction. }
      pose proof (uses_only_convert _ _ _ _ _ _ _ _ _ _ Hobj
                    (ci_ok _ _ _ Hinv2) Hls Hity (Hvs _ Hinv2) Hlv Hll
                    Hu2 Hc) as Hu3.
      apply bind_Ret in H as (conv & s4 & Hnn & H).
      apply nonnull_Ret in Hnn as [-> ->].
      pose proof (convert_result_not_val _ _ _ _ _ _ _ _ (ci_ok _ _ _ Hinv2)
                    Hls Hity (Hvs _ Hinv2) Hlv Hc) as Hcv.
      destruct (decide (conv <> valueOf i)) as [Hci|Hci].
      * apply bind_Ret in H as (u2 & s5 & Hr & H).
        eapply uses_only_erase; [|exact H].
        eapply uses_only_replace; eauto.
      * exfalso. apply dec_stable in Hci.
        destruct (convert_result_fresh _ _ _ _ _ _ _ (ci_ok _ _ _ Hinv2)
                    Hls Hity Hc) as [Hcx|(j & Hcj & Hj)].
        -- rewrite Hcx, Hnl_eq in Hci. injection Hci as Hci _. lia.
        -- rewrite Hcj in Hci. injection Hci as Hci _. lia.
    + (* store *)
      destruct (decide (val = dst)) as [Hdst|Hdst].
      * apply bind_Ret in H as (elt & s1 & He & H).
        apply nonnull_Ret in He as [He ->].
        apply getPointerElementType_Some in He.
        assert (ty_ok elt = true) as Helt by (rewrite He in Htn; exact Htn).
        apply bind_Ret in H as (r & s1 & Hc & H).
        assert (value_scoped (st_module s) src) as Hss
          by (apply Hops; left).
        assert (typeOf val = TPtr (typeOf src)) as Hvt
          by (rewrite Hdst; exact Hwt).
        assert (src <> val) as Hsv.
        { intros Heq. rewrite Heq in Hvt.
          exact (Ty_not_pointer_to_itself _ Hvt). }
        assert (isAggregateType (typeOf src) = true ->
                loadPointerOperand (st_module s) src <> Some val) as Hsl.
        { intros Hagg. rewrite (Hnoagg _ Hvt) in Hagg. discriminate. }
        pose proof (uses_only_convert _ _ _ _ _ _ _ _ _ _ Hobj
                      (ci_ok _ _ _ Hinv) Hss Helt (Hvs _ Hinv) Hsv Hsl
                      Huses Hc) as Hu1.
        apply bind_Ret in H as (conv & s2 & Hnn & H).
        apply nonnull_Ret in Hnn as [-> ->].
        pose proof (convert_result_not_val _ _ _ _ _ _ _ _ (ci_ok _ _ _ Hinv)
                      Hss Helt (Hvs _ Hinv) Hsv Hc) as Hcv.
        apply bind_Ret in H as (u1 & s3 & Hr & H). injection H as <- <-.
        split; [|reflexivity].
        eapply uses_only_set_inst_kind; [|exact Hu1|exact Hr].
        simpl. intros Hin. apply elem_of_cons in Hin as [Hin|Hin];
          [congruence|].
        apply list_elem_of_singleton in Hin. congruence.
      * apply bind_Ret in H as (r & s1 & Hc & H).
        pose proof (uses_only_convert _ _ _ _ _ _ _ _ _ _ Hobj
                      (ci_ok _ _ _ Hinv) (ci_nval _ _ _ Hinv) Htv
                      (Hvs _ Hinv) Hnv (Hnload s) Huses Hc) as Hu1.
        apply bind_Ret in H as (conv & s2 & Hnn & H).
        apply nonnull_Ret in Hnn as [-> ->].
        pose proof (convert_result_not_val _ _ _ _ _ _ _ _ (ci_ok _ _ _ Hinv)
                      (ci_nval _ _ _ Hinv) Htv (Hvs _ Hinv) Hnv Hc) as Hcv.
        apply bind_Ret in H as (u1 & s3 & Hr & H). injection H as <- <-.
        split; [|reflexivity].
        eapply uses_only_set_inst_kind; [|exact Hu1|exact Hr].
        simpl. intros Hin. apply elem_of_cons in Hin as [Hin|Hin];
          [congruence|].
        apply list_elem_of_singleton in Hin. congruence.
    + (* cast *)
      destruct (decide (typeOf nval = ity i)) as [Hsame_ty|Hdiff].
      * destruct (decide (val <> valueOf i)) as [Hne|Hne].
        -- apply bind_Ret in H as (u2 & s5 & Hr & H).
           eapply uses_only_erase; [|exact H].
           eapply uses_only_replace; eauto.
        -- exfalso. apply dec_stable in Hne.
           destruct (li_shape _ _ _ _ Hhead i Hi Hlt) as (i0 & Hi0 & Hid0 & Hsh).
           rewrite Ek in Hsh. simpl in Hsh.
           rewrite (Hobject _ _ Hne i0 Hi0 Hid0) in Hsh. discriminate.
      * apply bind_Ret in H as (r & s1 & Hc & H).
        pose proof (uses_only_convert _ _ _ _ _ _ _ _ _ _ Hobj
                      (ci_ok _ _ _ Hinv) (ci_nval _ _ _ Hinv) Hity
                      (Hvs _ Hinv) Hnv (Hnload s) Huses Hc) as Hu1.
        apply bind_Ret in H as (conv & s2 & Hnn & H).
        apply nonnull_Ret in Hnn as [-> ->].
        pose proof (convert_result_not_val _ _ _ _ _ _ _ _ (ci_ok _ _ _ Hinv)
                      (ci_nval _ _ _ Hinv) Hity (Hvs _ Hinv) Hnv Hc) as Hcv.
        destruct (decide (valueOf i <> conv)) as [Hci|Hci].
        -- apply bind_Ret in H as (u2 & s5 & Hr & H).
           eapply uses_only_erase; [|exact H].
           eapply uses_only_replace; eauto.
        -- exfalso. apply dec_stable in Hci.
           destruct (change_inv_convert _ _ _ _ _ _ _ _ _ Hinv
                       (ci_nval _ _ _ Hinv) Hity Hc)
             as (_ & conv' & [= <-] & Hty & _).
           destruct (convert_result_fresh _ _ _ _ _ _ _ (ci_ok _ _ _ Hinv)
                       (ci_nval _ _ _ Hinv) Hity Hc) as [Hcx|(j & Hcj & Hj)].
           ++ rewrite Hcx in Hty. contradiction.
           ++ rewrite Hcj in Hci. injection Hci as Hci _. lia.
  - (* a global variable initialized with the object *)
    destruct (dyn_cast_Constant nval) as [nc|]; [|discriminate].
    apply bind_Ret in H as (gvDeclr & s1 & Hg & H).
    apply nonnull_Ret in Hg as [Hg ->].
    apply bind_Ret in H as (r & s1 & Hc & H).
    apply convertConstantToType_Ret in Hc as [-> (conv & -> & Hty)].
    apply bind_Ret in H as (conv' & s2 & Hnn & H).
    apply nonnull_Ret in Hnn as [[= <-] ->].
    apply bind_Ret in H as (u1 & s3 & Hr & H). injection H as <- <-.
    split; [|reflexivity].
    apply uses_only_tail in Huses; [|discriminate].
    destruct (decide (dyn_cast_GlobalVariable conv <> Some g));
      [|injection Hr as _ <-; exact Huses].
    eapply uses_only_set_global; eauto.
  - (* a constant built from the object *)
    destruct (dyn_cast_Constant nval) as [nc|] eqn:Hnc; [|discriminate].
    apply bind_Ret in H as (r & s1 & Hc & H).
    pose proof Hc as Hc'.
    apply convertConstantToType_Ret in Hc as [-> (conv & -> & Hty)].
    apply bind_Ret in H as (conv' & s2 & Hnn & H).
    apply nonnull_Ret in Hnn as [[= <-] ->].
    apply bind_Ret in H as (u1 & s3 & Hr & H). injection H as <- <-.
    split; [|reflexivity].
    apply uses_only_tail in Huses; [|discriminate].
    destruct (decide (c <> conv)); [|injection Hr as _ <-; exact Huses].
    eapply uses_only_replace; [exact Hobj| |exact Huses|exact Hr].
    destruct (convertConstantToType_not_other_global _ _ _ _ _ _ Hc')
      as [->|Hg].
    + destruct nval; try discriminate Hnc. injection Hnc as ->. exact Hnv.
    + intros <-. simpl in Hobj. destruct conv; try discriminate Hobj.
      eapply Hg. reflexivity.
Qed.

Lemma changeUsers_clears fuel m0 st0 val nval users :
  (forall i j, i ∈ all_insts (st_module st0) ->
     j ∈ all_insts (st_module st0) -> iid i = iid j -> i = j) ->
  (forall i, i ∈ all_insts (st_module st0) ->
     (iid i < next_id (st_module st0))%nat) ->
  (forall old new, old <> val -> subst_value old new val = val) ->
  (forall a t, val = VInst a t ->
     forall j, j ∈ all_insts (st_module st0) -> iid j = a ->
       shape (ikind j) = 0%nat) ->
  isChangeableObject m0 val = true ->
  value_scoped (st_module st0) val ->
  nval <> val ->
  (forall m, isAggregateType (typeOf nval) = true ->
     loadPointerOperand m nval = None) ->
  (forall e, typeOf val = TPtr e -> isAggregateType e = false) ->
  ty_ok (typeOf val) = true -> ty_ok (typeOf nval) = true ->
  forall s e' s',
    loop_inv st0 val s users ->
    change_inv (next_id (st_module st0)) nval s ->
    uses_only val users s ->
    changeUsers fuel val nval (typeOf val) users None s = Ret e' s' ->
    uses_only val [] s'.
Proof.
  intros Huniq Hfresh Hatomic Hobject Hobj Hvs Hnv Hnl Hnoagg Htv Htn.
  induction users as [|u rest IH]; intros s e' s' Hloop Hinv Huses H;
    simpl in H.
  - injection H as _ <-. exact Huses.
  - apply bind_Ret in H as (e1 & s1 & H1 & H2).
    destruct (changeUser_clears fuel m0 st0 val nval u rest s e1 s1 Hfresh
                Hobject Hobj Hvs Hnv Hnl Hnoagg Htv Htn Hloop Hinv Huses H1)
      as [Hu1 ->].
    eapply IH; [| | |exact H2].
    + exact (changeUser_inv st0 val Huniq Hfresh Hatomic Hobject fuel nval
               u rest None s None s1 Hloop H1).
    + exact (changeUser_ok fuel st0 val nval u rest None s None s1 Hfresh
               Htv Htn Hloop Hinv H1).
    + exact Hu1.
Qed.

(** The object that is declared is another one than the old object. *)
Lemma changeObjectDeclarationType_other objf val toType init wide st nval st1 :
  module_ok (st_module st) ->
  isChangeableObject (st_module st) val = true ->
  (forall g gl, globals (st_module st) !! g = Some gl ->
     (g < next_id (st_module st))%nat) ->
  typeOf val <> toType ->
  changeObjectDeclarationType objf val toType init wide st = Ret nval st1 ->
  nval <> val /\
  (forall m, isAggregateType (typeOf nval) = true ->
     loadPointerOperand m nval = None) /\
  value_scoped (st_module st) val.
Proof.
  intros Hok Hobj Hgl Hne H. unfold changeObjectDeclarationType in H.
  destruct (decide (typeOf val = toType)); [contradiction|].
  apply bind_Ret in H as (s0 & s0' & [= <- <-] & H).
  destruct val as [id t|f idx t|c].
  - apply bind_Ret in H as (alloca & s1 & Hl & H).
    apply nonnull_Ret in Hl as [Hl ->].
    apply lookup_inst_Some in Hl as [Hi Hid].
    apply (wf_fresh _ (ok_ids _ Hok)) in Hi.
    destruct (ikind alloca); try discriminate.
    destruct (negb (isValidElementType toType)); [discriminate|].
    apply bind_Ret in H as (r & s1 & Hnew & H).
    apply bind_Ret in H as (u1 & s2 & Hins & H).
    apply bind_Ret in H as (u2 & s3 & Hname & H). injection H as <- _.
    apply newInst_state in Hnew as [-> _]. unfold valueOf. simpl.
    split; [intros [= Heq _]; lia|]. split; [discriminate|].
    intros x ty [= <- _]. lia.
  - unfold modifyFunctionArgumentType in H.
    apply bind_Ret in H as (s0 & s0' & [= <- <-] & H).
    apply bind_Ret in H as (fn & s1 & Hl & H).
    apply nonnull_Ret in Hl as [Hl ->].
    destruct (bool_decide _); [|discriminate].
    apply bind_Ret in H as (u1 & s2 & Hm & H). injection H as <- _.
    split; [intros [= Heq]; simpl in Hne; congruence|].
    split; [reflexivity|]. intros x ty [=].
  - destruct c as [| | | |ogv t| | | | |]; try discriminate.
    apply bind_Ret in H as (old & s1 & Hl & H).
    apply nonnull_Ret in Hl as [Hl ->].
    apply Hgl in Hl.
    apply bind_Ret in H as (init' & s1 & Hinit & H).
    assert (s1 = st) as ->.
    { destruct init as [c|].
      - injection Hinit as _ <-. reflexivity.
      - apply bind_Ret in Hinit as (img & s2 & Hi & Hinit).
        apply nonnull_Ret in Hi as [_ ->]. injection Hinit as _ <-.
        reflexivity. }
    clear Hinit. cbv zeta in H.
    apply bind_Ret in H as (new & s2 & Hnew & H).
    apply newGlobalVariable_Ret in Hnew as (_ & -> & ->).
    apply bind_Ret in H as (u1 & s3 & Hset & H).
    apply bind_Ret in H as (u2 & s4 & Hcfg & H).
    injection H as <- _.
    split; [intros [= Heq _]; lia|]. split; [reflexivity|].
    intros x ty [=].
Qed.

(** Without a container for the obsolete instructions,
    [changeObjectType] leaves no instruction that has the old object as
    an operand: the loads and the casts of it are replaced and erased,
    and the stores and the other instructions get the new object, or a
    conversion of it, instead; the instructions that are inserted do not
    use it either.  This is for an object that does not hold an
    aggregate; the conversion of a loaded aggregate reads the pointer
    the value was loaded from. *)
Theorem changeObjectType_leaves_no_use :
  forall fuel objf val toType init dbg wideString st nval e' st',
    module_ok (st_module st) ->
    (forall g gl, globals (st_module st) !! g = Some gl ->
       wt_global gl /\ (g < next_id (st_module st))%nat) ->
    (forall i, i ∈ all_insts (st_module st) -> ty_ok (ity i) = true) ->
    ty_ok (typeOf val) = true -> ty_ok (typeOf nval) = true ->
    typeOf val <> toType ->
    (forall e, typeOf val = TPtr e -> isAggregateType e = false) ->
    changeObjectType fuel objf val toType init None dbg wideString st
      = Ret (nval, e') st' ->
    forall i, i ∈ all_insts (st_module st') -> val ∉ operands (ikind i).
Proof.
  intros fuel objf val toType init dbg wide st nval e' st' Hok Hgl Htys
    Htv Htn Hne Hnoagg H i Hi Hv.
  unfold changeObjectType in H.
  apply bind_Ret in H as (s0 & s0' & [= <- <-] & H).
  destruct (isChangeableObject (st_module st) val) eqn:Hobj;
    [simpl in H|discriminate].
  destruct (decide (typeOf val = toType)); [contradiction|].
  cbv zeta in H.
  apply bind_Ret in H as (nv & st1 & Hdecl & H).
  apply bind_Ret in H as (s1 & s1' & [= <- <-] & H).
  apply bind_Ret in H as (e1 & s2 & Hloop & H).
  injection H as -> _ <-.
  pose proof Hok as [[Hnd Hfresh Hscoped] Hwt].
  assert (forall g gl, globals (st_module st) !! g = Some gl -> wt_global gl)
    as Hgl1 by (intros g gl Hg; apply (Hgl g gl Hg)).
  assert (forall g gl, globals (st_module st) !! g = Some gl ->
            (g < next_id (st_module st))%nat)
    as Hgl2 by (intros g gl Hg; apply (Hgl g gl Hg)).
  pose proof (changeObjectDeclarationType_wf _ _ _ _ _ _ _ _ Hnd Hfresh Hwt
                Hgl1 Hobj Hdecl)
    as (Hnext & Hnd1 & Hfresh1 & Hwt1 & Hgl1' & Halloca).
  destruct (changeObjectDeclarationType_ok _ _ _ _ _ _ _ _ Hok Htys Htn
              n Hdecl) as (Hok1 & Hnv1 & Htys1).
  destruct (changeObjectDeclarationType_other _ _ _ _ _ _ _ _ Hok Hobj Hgl2
              n Hdecl) as (Hnv & Hnl & Hvs).
  assert (uses_only val [] s2) as Hnone.
  { eapply (changeUsers_clears fuel (st_module st) st1 val nval);
      [| | | | | | | | | | | | | |exact Hloop].
    - intros a b. apply NoDup_iid_inj. exact Hnd1.
    - exact Hfresh1.
    - eapply object_atomic. exact Hobj.
    - exact Halloca.
    - exact Hobj.
    - eapply value_scoped_mono; [exact Hnext|exact Hvs].
    - exact Hnv.
    - exact Hnl.
    - exact Hnoagg.
    - exact Htv.
    - exact Htn.
    - apply loop_inv_init; auto. eapply object_no_operands. exact Hobj.
    - split; auto.
    - destruct st1 as [m1 c1]. apply uses_only_init. }
  specialize (Hnone i Hi Hv). inversion Hnone.
Qed.

Lemma changeObjectType_leaves_no_use_witness :
  module_ok (st_module ex_slot_state) /\
  (forall g gl, globals (st_module ex_slot_state) !! g = Some gl ->
     wt_global gl /\ (g < next_id (st_module ex_slot_state))%nat) /\
  (forall i, i ∈ all_insts (st_module ex_slot_state) -> ty_ok (ity i) = true) /\
  ty_ok (typeOf ex_slot) = true /\
  typeOf ex_slot <> TFloat Float /\
  (forall e, typeOf ex_slot = TPtr e -> isAggregateType e = false) /\
  exists nval e st',
    ty_ok (typeOf nval) = true /\
    changeObjectType 5 None ex_slot (TFloat Float) None None false false
      ex_slot_state = Ret (nval, e) st' /\
    forall i, i ∈ all_insts (st_module st') -> ex_slot ∉ operands (ikind i).
Proof.
  assert (forall g gl, globals (st_module ex_slot_state) !! g = Some gl ->
            wt_global gl /\ (g < next_id (st_module ex_slot_state))%nat)
    as Hgl.
  { intros g gl Hg. simpl in Hg. rewrite lookup_empty in Hg. discriminate. }
  assert (forall i, i ∈ all_insts (st_module ex_slot_state) ->
            ty_ok (ity i) = true) as Htys.
  { apply Forall_forall. repeat constructor. }
  assert (typeOf ex_slot <> TFloat Float) as Hne by discriminate.
  assert (forall e, typeOf ex_slot = TPtr e -> isAggregateType e = false)
    as Hnoagg by (intros e [= <-]; reflexivity).
  split; [exact ex_slot_module_ok|]. split; [exact Hgl|].
  split; [exact Htys|]. split; [reflexivity|]. split; [exact Hne|].
  split; [exact Hnoagg|].
  eexists (VInst 6 (TPtr (TFloat Float))), _, _.
  split; [reflexivity|]. split; [vm_compute; reflexivity|].
  eapply (changeObjectType_leaves_no_use 5 None ex_slot (TFloat Float) None
            false false ex_slot_state (VInst 6 (TPtr (TFloat Float)))
            _ _ ex_slot_module_ok Hgl Htys eq_refl eq_refl Hne Hnoagg).
  vm_compute. reflexivity.
Defined.

(** ** The allocas are kept *)

Lemma alloca_map_operands r j t :
  ikind j = KAlloca t -> map_inst (map_operands r) j = j.
Proof. destruct j as [id n k ty]. simpl. intros ->. reflexivity. Qed.

Lemma alloca_replaceUsesOfWith from to j t :
  ikind j = KAlloca t -> map_inst (replaceUsesOfWith from to) j = j.
Proof. destruct j as [id n k ty]. simpl. intros ->. reflexivity. Qed.

Lemma alloca_kept_replaceAllUsesWith j t old new s u s' :
  ikind j = KAlloca t -> j ∈ all_insts (st_module s) ->
  replaceAllUsesWith old new s = Ret u s' ->
  j ∈ all_insts (st_module s').
Proof.
  intros Hk Hj H. injection H as _ <-. simpl.
  apply elem_of_all_insts_map. exists j. split; [exact Hj|].
  symmetry. eapply alloca_map_operands. exact Hk.
Qed.

Lemma alloca_kept_instReplaceUsesOfWith j t id from to s u s' :
  ikind j = KAlloca t -> j ∈ all_insts (st_module s) ->
  instReplaceUsesOfWith id from to s = Ret u s' ->
  j ∈ all_insts (st_module s').
Proof.
  intros Hk Hj H. unfold instReplaceUsesOfWith in H.
  apply bind_Ret in H as (s0 & s0' & [= <- <-] & H).
  destruct (has_inst _ _); [|discriminate]. injection H as _ <-. simpl.
  apply elem_of_all_insts_map. exists j. split; [exact Hj|].
  case_bool_decide; [|reflexivity].
  symmetry. eapply alloca_replaceUsesOfWith. exact Hk.
Qed.

Lemma kept_set_inst_kind j id k s u s' :
  iid j <> id -> j ∈ all_insts (st_module s) ->
  set_inst_kind id k s = Ret u s' ->
  j ∈ all_insts (st_module s').
Proof.
  intros Hid Hj H. injection H as _ <-. simpl.
  apply elem_of_all_insts_map. exists j. split; [exact Hj|].
  rewrite bool_decide_eq_false_2 by exact Hid. reflexivity.
Qed.

Lemma kept_eraseOrDefer j id e s e' s' :
  iid j <> id -> j ∈ all_insts (st_module s) ->
  eraseOrDefer id e s = Ret e' s' ->
  j ∈ all_insts (st_module s').
Proof.
  intros Hid Hj H. unfold eraseOrDefer in H. destruct e as [l|].
  - injection H as _ <-. exact Hj.
  - apply bind_Ret in H as (u & s1 & He & Hr). injection Hr as _ <-.
    injection He as _ <-. simpl.
    apply elem_of_all_insts in Hj as (f & blk & Hf & Hblk & Hj).
    apply elem_of_all_insts_map_blocks. exists f, blk.
    split; [exact Hf|]. split; [exact Hblk|].
    apply list_elem_of_filter. auto.
Qed.

Lemma kept_convertValueToType j fuel v t b s r s' :
  j ∈ all_insts (st_module s) ->
  convertValueToType fuel v t b s = Ret r s' ->
  j ∈ all_insts (st_module s').
Proof. intros Hj H. eapply keeping_convertToType; eauto. Qed.

Lemma changeUser_keeps_alloca fuel val nval origType u e s e' s' j t :
  module_ok (st_module s) ->
  ikind j = KAlloca t -> j ∈ all_insts (st_module s) ->
  changeUser fuel val nval origType u e s = Ret e' s' ->
  j ∈ all_insts (st_module s').
Proof.
  intros Hok Hk Hj H.
  unfold changeUser in H. cbv zeta in H.
  apply bind_Ret in H as (s0 & s0' & [= <- <-] & H).
  destruct u as [id|g|c].
  - apply bind_Ret in H as (i & s1 & Hl & H).
    apply nonnull_Ret in Hl as [Hl ->].
    apply lookup_inst_Some in Hl as [Hi Hid].
    assert (Hne : shape (ikind i) <> 0%nat -> iid j <> id).
    { intros Hs Heq. apply Hs.
      assert (i = j) as ->.
      { eapply NoDup_iid_inj; [apply (wf_nodup _ (ok_ids _ Hok))| | |];
          eauto. congruence. }
      rewrite Hk. reflexivity. }
    assert (Hother :
      (conv <- convertValueToType fuel (Some nval) (Some origType)
                 (Some id) ;;
       conv0 <- nonnull conv ;;
       (if decide (val <> conv0) then instReplaceUsesOfWith id val conv0
        else ret tt) ;;;
       ret e) s = Ret e' s' ->
      j ∈ all_insts (st_module s')).
    { intros H0. apply bind_Ret in H0 as (r & s1 & Hc & H0).
      apply bind_Ret in H0 as (conv & s2 & Hnn & H0).
      apply nonnull_Ret in Hnn as [-> ->].
      apply bind_Ret in H0 as (u1 & s3 & Hr & H0). injection H0 as _ <-.
      pose proof (kept_convertValueToType _ _ _ _ _ _ _ _ Hj Hc) as Hj1.
      destruct (decide (val <> conv)); [|injection Hr as _ <-; exact Hj1].
      eapply alloca_kept_instReplaceUsesOfWith; eauto. }
    destruct (ikind i) as [t'|p|src dst|op x|agg idx|agg elt idx|opc ops sig]
      eqn:Ek; try (apply Hother; exact H).
    + (* load *)
      specialize (Hne ltac:(discriminate)).
      destruct (negb (bool_decide (val = p))); [discriminate|].
      apply bind_Ret in H as (lt & s1 & Hlt' & H).
      apply nonnull_Ret in Hlt' as [Hlt' ->].
      apply bind_Ret in H as (newLoad & s1 & Hnew & H).
      apply bind_Ret in H as (u1 & s2 & Hins & H).
      pose proof (keeping_newInst _ _ _ _ _ _ Hnew j Hj) as Hj1.
      pose proof (keeping_insertBefore _ _ _ _ _ Hins j Hj1) as Hj2.
      apply bind_Ret in H as (r & s3 & Hc & H).
      pose proof (kept_convertValueToType _ _ _ _ _ _ _ _ Hj2 Hc) as Hj3.
      apply bind_Ret in H as (conv & s4 & Hnn & H).
      apply nonnull_Ret in Hnn as [-> ->].
      destruct (decide (conv <> valueOf i)); [|injection H as _ <-; exact Hj3].
      apply bind_Ret in H as (u2 & s5 & Hr & H).
      eapply kept_eraseOrDefer; [exact Hne| |exact H].
      eapply alloca_kept_replaceAllUsesWith; eauto.
    + (* store *)
      specialize (Hne ltac:(discriminate)).
      destruct (decide (val = dst)) as [Hdst|Hdst].
      * apply bind_Ret in H as (elt & s1 & He & H).
        apply nonnull_Ret in He as [He ->].
        apply bind_Ret in H as (r & s1 & Hc & H).
        apply bind_Ret in H as (conv & s2 & Hnn & H).
        apply nonnull_Ret in Hnn as [-> ->].
        apply bind_Ret in H as (u1 & s3 & Hr & H). injection H as _ <-.
        eapply kept_set_inst_kind; [exact Hne| |exact Hr].
        eapply kept_convertValueToType; eauto.
      * apply bind_Ret in H as (r & s1 & Hc & H).
        apply bind_Ret in H as (conv & s2 & Hnn & H).
        apply nonnull_Ret in Hnn as [-> ->].
        apply bind_Ret in H as (u1 & s3 & Hr & H). injection H as _ <-.
        eapply kept_set_inst_kind; [exact Hne| |exact Hr].
        eapply kept_convertValueToType; eauto.
    + (* cast *)
      specialize (Hne ltac:(discriminate)).
      destruct (decide (typeOf nval = ity i)) as [Hsame_ty|Hdiff].
      * destruct (decide (val <> valueOf i)) as [Hv|];
          [|injection H as _ <-; exact Hj].
        apply bind_Ret in H as (u2 & s5 & Hr & H).
        eapply kept_eraseOrDefer; [exact Hne| |exact H].
        eapply alloca_kept_replaceAllUsesWith; eauto.
      * apply bind_Ret in H as (r & s1 & Hc & H).
        apply bind_Ret in H as (conv & s2 & Hnn & H).
        apply nonnull_Ret in Hnn as [-> ->].
        pose proof (kept_convertValueToType _ _ _ _ _ _ _ _ Hj Hc) as Hj1.
        destruct (decide (valueOf i <> conv));
          [|injection H as _ <-; exact Hj1].
        apply bind_Ret in H as (u2 & s5 & Hr & H).
        eapply kept_eraseOrDefer; [exact Hne| |exact H].
        eapply alloca_kept_replaceAllUsesWith; eauto.
  - destruct (dyn_cast_Constant nval) as [nc|]; [|discriminate].
    apply bind_Ret in H as (gvDeclr & s1 & Hg & H).
    apply nonnull_Ret in Hg as [Hg ->].
    apply bind_Ret in H as (r & s1 & Hc & H).
    apply convertConstantToType_Ret in Hc as [-> (conv & -> & Hty)].
    apply bind_Ret in H as (conv' & s2 & Hnn & H).
    apply nonnull_Ret in Hnn as [[= <-] ->].
    apply bind_Ret in H as (u1 & s3 & Hr & H). injection H as _ <-.
    destruct (decide (dyn_cast_GlobalVariable conv <> Some g));
      injection Hr as _ <-; exact Hj.
  - destruct (dyn_cast_Constant nval) as [nc|]; [|discriminate].
    apply bind_Ret in H as (r & s1 & Hc & H).
    apply convertConstantToType_Ret in Hc as [-> (conv & -> & Hty)].
    apply bind_Ret in H as (conv' & s2 & Hnn & H).
    apply nonnull_Ret in Hnn as [[= <-] ->].
    apply bind_Ret in H as (u1 & s3 & Hr & H). injection H as _ <-.
    destruct (decide (c <> conv)); [|injection Hr as _ <-; exact Hj].
    eapply alloca_kept_replaceAllUsesWith; eauto.
Qed.

Lemma changeUsers_keeps_alloca fuel st0 val nval users j t :
  (forall i j, i ∈ all_insts (st_module st0) ->
     j ∈ all_insts (st_module st0) -> iid i = iid j -> i = j) ->
  (forall i, i ∈ all_insts (st_module st0) ->
     (iid i < next_id (st_module st0))%nat) ->
  (forall old new, old <> val -> subst_value old new val = val) ->
  (forall a t, val = VInst a t ->
     forall j, j ∈ all_insts (st_module st0) -> iid j = a ->
       shape (ikind j) = 0%nat) ->
  ty_ok (typeOf val) = true -> ty_ok (typeOf nval) = true ->
  ikind j = KAlloca t ->
  forall e s e' s',
    loop_inv st0 val s users ->
    change_inv (next_id (st_module st0)) nval s ->
    j ∈ all_insts (st_module s) ->
    changeUsers fuel val nval (typeOf val) users e s = Ret e' s' ->
    j ∈ all_insts (st_module s').
Proof.
  intros Huniq Hfresh Hatomic Hobject Htv Htn Hk.
  induction users as [|u rest IH]; intros e s e' s' Hloop Hinv Hj H;
    simpl in H.
  - injection H as _ <-. exact Hj.
  - apply bind_Ret in H as (e1 & s1 & H1 & H2).
    eapply IH; [| | |exact H2].
    + exact (changeUser_inv st0 val Huniq Hfresh Hatomic Hobject fuel nval
               u rest e s e1 s1 Hloop H1).
    + exact (changeUser_ok fuel st0 val nval u rest e s e1 s1 Hfresh Htv Htn
               Hloop Hinv H1).
    + eapply changeUser_keeps_alloca; [apply (ci_ok _ _ _ Hinv)|exact Hk
        |exact Hj|exact H1].
Qed.

(** The declaration of an alloca: the new one takes the name, the old one
    stays, without a name. *)
Lemma changeObjectDeclarationType_alloca objf id ty old t0 toType init wide
    st nval st1 :
  module_ok (st_module st) ->
  lookup_inst (st_module st) id = Some old -> ikind old = KAlloca t0 ->
  ty <> toType ->
  changeObjectDeclarationType objf (VInst id ty) toType init wide st
    = Ret nval st1 ->
  nval = VInst (next_id (st_module st)) (TPtr toType) /\
  mkInst (next_id (st_module st)) (iname old) (KAlloca toType) (TPtr toType)
    ∈ all_insts (st_module st1) /\
  mkInst id "" (KAlloca t0) (ity old) ∈ all_insts (st_module st1) /\
  (forall j, j ∈ all_insts (st_module st) -> iid j <> id ->
     j ∈ all_insts (st_module st1)).
Proof.
  intros Hok Hl Hk Hne H. unfold changeObjectDeclarationType in H.
  destruct (decide (typeOf (VInst id ty) = toType)); [contradiction|].
  apply bind_Ret in H as (s0 & s0' & [= <- <-] & H).
  apply bind_Ret in H as (alloca & s1 & Hl' & H).
  apply nonnull_Ret in Hl' as [Hl' ->].
  rewrite Hl in Hl'. injection Hl' as <-. rewrite Hk in H.
  apply lookup_inst_Some in Hl as [Hold Hid].
  pose proof (wf_fresh _ (ok_ids _ Hok) old Hold) as Hlt.
  destruct (negb (isValidElementType toType)); [discriminate|].
  apply bind_Ret in H as (r & s1 & Hnew & H).
  apply bind_Ret in H as (u1 & s2 & Hins & H).
  apply bind_Ret in H as (u2 & s3 & Hname & H). injection H as <- <-.
  assert (forall j, j ∈ all_insts (st_module st) ->
            j ∈ all_insts (st_module s2)) as Hkeep.
  { intros j Hj. eapply keeping_insertBefore; [exact Hins|].
    eapply keeping_newInst; eauto. }
  destruct (newInst_insertBefore_ok (iname old) (KAlloca toType)
              (TPtr toType) id st r s1 u1 s2 Hok)
    as (_ & -> & Hin2 & _);
    [intros x Hx; inversion Hx|reflexivity|exact Hnew|exact Hins|].
  injection Hname as _ <-. simpl.
  split; [reflexivity|]. split; [|split].
  - apply elem_of_all_insts_map. eexists. split; [exact Hin2|].
    simpl. rewrite bool_decide_eq_false_2 by lia. reflexivity.
  - apply elem_of_all_insts_map. exists old.
    split; [apply Hkeep; exact Hold|].
    rewrite bool_decide_eq_true_2 by exact Hid. rewrite Hk, Hid. reflexivity.
  - intros j Hj Hjid. apply elem_of_all_insts_map. exists j.
    split; [apply Hkeep; exact Hj|].
    rewrite bool_decide_eq_false_2 by exact Hjid. reflexivity.
Qed.

(** [changeObjectType] on an alloca: the object that is returned is a new
    alloca of the type asked for, which has taken the name of the old
    one; the old alloca is not erased but stays in the module without a
    name, and every other alloca of the module is kept as it is. *)
Theorem changeObjectType_redeclares_alloca :
  forall fuel objf id ty old t0 toType init e dbg wideString st nval e' st',
    module_ok (st_module st) ->
    (forall g gl, globals (st_module st) !! g = Some gl -> wt_global gl) ->
    (forall i, i ∈ all_insts (st_module st) -> ty_ok (ity i) = true) ->
    ty_ok ty = true -> ty_ok toType = true ->
    lookup_inst (st_module st) id = Some old -> ikind old = KAlloca t0 ->
    ty <> toType ->
    changeObjectType fuel objf (VInst id ty) toType init e dbg wideString st
      = Ret (nval, e') st' ->
    nval = VInst (next_id (st_module st)) (TPtr toType) /\
    mkInst (next_id (st_module st)) (iname old) (KAlloca toType) (TPtr toType)
      ∈ all_insts (st_module st') /\
    mkInst id "" (KAlloca t0) (ity old) ∈ all_insts (st_module st') /\
    (forall j t, ikind j = KAlloca t -> j ∈ all_insts (st_module st) ->
       iid j <> id -> j ∈ all_insts (st_module st')).
Proof.
  intros fuel objf id ty old t0 toType init e dbg wide st nval e' st' Hok
    Hgl Htys Htv Htt Hl Hk Hne H.
  unfold changeObjectType in H.
  apply bind_Ret in H as (s0 & s0' & [= <- <-] & H).
  destruct (isChangeableObject (st_module st) (VInst id ty)) eqn:Hobj;
    [simpl in H|discriminate].
  destruct (decide (ty = toType)); [contradiction|].
  cbv zeta in H.
  apply bind_Ret in H as (nv & st1 & Hdecl & H).
  apply bind_Ret in H as (s1 & s1' & [= <- <-] & H).
  apply bind_Ret in H as (e1 & s2 & Hloop & H).
  injection H as -> _ <-.
  pose proof Hok as [[Hnd Hfresh Hscoped] Hwt].
  pose proof (changeObjectDeclarationType_wf _ _ _ _ _ _ _ _ Hnd Hfresh Hwt
                Hgl Hobj Hdecl)
    as (Hnext & Hnd1 & Hfresh1 & Hwt1 & Hgl1 & Halloca).
  destruct (changeObjectDeclarationType_alloca _ _ _ _ _ _ _ _ _ _ _ Hok Hl
              Hk Hne Hdecl) as (Hnv & Hnew & Hold & Hothers).
  assert (ty_ok (typeOf nval) = true) as Htn by (rewrite Hnv; exact Htt).
  destruct (changeObjectDeclarationType_ok objf (VInst id ty) toType init
              wide st nval st1 Hok Htys Htn Hne Hdecl)
    as (Hok1 & Hnv1 & Htys1).
  assert (Hkept : forall j t, ikind j = KAlloca t ->
            j ∈ all_insts (st_module st1) -> j ∈ all_insts (st_module s2)).
  { intros j t Hjk Hj.
    eapply (changeUsers_keeps_alloca fuel st1 (VInst id ty) nval);
      [| | | | | |exact Hjk| | |exact Hj|exact Hloop].
    - intros a b. apply NoDup_iid_inj. exact Hnd1.
    - exact Hfresh1.
    - eapply object_atomic. exact Hobj.
    - exact Halloca.
    - exact Htv.
    - exact Htn.
    - apply loop_inv_init; auto. eapply object_no_operands. exact Hobj.
    - split; auto. }
  split; [exact Hnv|]. split; [|split].
  - eapply Hkept; [|exact Hnew]. reflexivity.
  - eapply Hkept; [|exact Hold]. reflexivity.
  - intros j t Hjk Hj Hjid. eapply Hkept; [exact Hjk|]. apply Hothers; auto.
Qed.

Lemma changeObjectType_redeclares_alloca_witness :
  module_ok (st_module ex_slot_state) /\
  (forall g gl, globals (st_module ex_slot_state) !! g = Some gl ->
     wt_global gl) /\
  (forall i, i ∈ all_insts (st_module ex_slot_state) -> ty_ok (ity i) = true) /\
  ty_ok (TPtr (TInt 32)) = true /\ ty_ok (TFloat Float) = true /\
  lookup_inst (st_module ex_slot_state) 1
    = Some (mkInst 1 "x" (KAlloca (TInt 32)) (TPtr (TInt 32))) /\
  TPtr (TInt 32) <> TFloat Float /\
  exists nval e st',
    changeObjectType 5 None (VInst 1 (TPtr (TInt 32))) (TFloat Float) None
      None false false ex_slot_state = Ret (nval, e) st' /\
    nval = VInst 6 (TPtr (TFloat Float)) /\
    mkInst 6 "x" (KAlloca (TFloat Float)) (TPtr (TFloat Float))
      ∈ all_insts (st_module st') /\
    mkInst 1 "" (KAlloca (TInt 32)) (TPtr (TInt 32))
      ∈ all_insts (st_module st') /\
    (forall j t, ikind j = KAlloca t ->
       j ∈ all_insts (st_module ex_slot_state) -> iid j <> 1%nat ->
       j ∈ all_insts (st_module st')).
Proof.
  assert (forall g gl, globals (st_module ex_slot_state) !! g = Some gl ->
            wt_global gl) as Hgl.
  { intros g gl Hg. simpl in Hg. rewrite lookup_empty in Hg. discriminate. }
  assert (forall i, i ∈ all_insts (st_module ex_slot_state) ->
            ty_ok (ity i) = true) as Htys.
  { apply Forall_forall. repeat constructor. }
  assert (TPtr (TInt 32) <> TFloat Float) as Hne by discriminate.
  split; [exact ex_slot_module_ok|]. split; [exact Hgl|].
  split; [exact Htys|]. split; [reflexivity|]. split; [reflexivity|].
  split; [reflexivity|]. split; [exact Hne|].
  eexists _, _, _. split; [vm_compute; reflexivity|].
  eapply (changeObjectType_redeclares_alloca 5 None 1 (TPtr (TInt 32))
            (mkInst 1 "x" (KAlloca (TInt 32)) (TPtr (TInt 32))) (TInt 32)
            (TFloat Float) None None false false ex_slot_state _ _ _
            ex_slot_module_ok Hgl Htys eq_refl eq_refl eq_refl eq_refl Hne).
  vm_compute. reflexivity.
Defined.

(** * The users of an object after its type was changed *)

(** ** The users are re-targeted *)


Lemma deferred_cons l id x : deferred (Some l) x -> deferred (Some (id :: l)) x.
Proof.
  intros (l' & [= <-] & Hx). eexists. split; [reflexivity|]. right. exact Hx.
Qed.

Lemma subst_value_is_object old new v :
  is_object v -> old <> v -> subst_value old new v = v.
Proof.
  intros Hv Hne. unfold subst_value.
  destruct (decide (v = old)); [congruence|].
  destruct Hv as [(id & t & ->)|[(f & idx & t & ->)|(g & t & ->)]];
    try reflexivity.
  destruct old as [| |o]; try reflexivity.
  destruct new as [| |n']; try reflexivity.
  simpl. destruct (decide (CGlobal g t = o)); [congruence|reflexivity].
Qed.

Lemma subst_value_fresh old new id t :
  old <> VInst id t -> subst_value old new (VInst id t) = VInst id t.
Proof.
  intros Hne. apply subst_value_is_object; [left; eauto|exact Hne].
Qed.

Lemma ri_tail st0 val nval e s u rest :
  (forall id, u <> UInst id) -> (forall g, u <> UGlobal g) ->
  retarget_inv st0 val nval e s (u :: rest) ->
  retarget_inv st0 val nval e s rest.
Proof.
  intros Hu Hu' [H1 H2 Hp Hg H3]. split.
  - intros i Hi Hlt Hv. destruct (H1 i Hi Hlt Hv) as [H|H]; [|auto].
    apply elem_of_cons in H as [H|H]; [|auto].
    exfalso. eapply Hu. symmetry. exact H.
  - intros i0 Hi0 Hv Hk.
    destruct (H2 i0 Hi0 Hv Hk) as (i & Hi & Hid & [[Ho H]|H]).
    + apply elem_of_cons in H as [H|H];
        [exfalso; eapply Hu; symmetry; exact H|].
      exists i. auto.
    + exists i. auto.
  - intros i0 Hi0 Hv Hk. destruct (Hp i0 Hi0 Hv Hk) as [H|H]; [|auto].
    apply elem_of_cons in H as [H|H]; [|auto].
    exfalso. eapply Hu. symmetry. exact H.
  - intros g gl c Hgl Hc Hv.
    pose proof (Hg g gl c Hgl Hc Hv) as H.
    apply elem_of_cons in H as [H|H]; [|exact H].
    exfalso. eapply Hu'. symmetry. exact H.
  - intros c Hc. apply H3. right. exact Hc.
Qed.

Lemma ginit_subst_init old new gl c :
  ginit (subst_init old new gl) = Some c ->
  exists c0, ginit gl = Some c0 /\
    (c = c0 \/ VConst c = subst_value old new (VConst c0)).
Proof.
  unfold subst_init. destruct old as [| |o]; try (intros H; eauto; fail).
  destruct new as [| |n]; try (intros H; eauto; fail). simpl.
  destruct (ginit gl) as [c0|]; [|discriminate]. simpl. intros [= <-].
  exists c0. split; [reflexivity|]. right. unfold subst_value.
  destruct (decide (VConst c0 = VConst o)) as [[= ->]|Hne].
  - rewrite subst_const_eq.
    destruct (decide (o = o)); [reflexivity|contradiction].
  - reflexivity.
Qed.

Lemma ri_only_adds st0 val nval e s s' rest :
  (forall i, i ∈ all_insts (st_module st0) ->
     (iid i < next_id (st_module st0))%nat) ->
  (next_id (st_module st0) <= next_id (st_module s))%nat ->
  only_adds s s' ->
  retarget_inv st0 val nval e s rest -> retarget_inv st0 val nval e s' rest.
Proof.
  intros Hfresh Hn Hadd [H1 H2 Hp Hg H3]. split; [| | | |exact H3].
  - intros i Hi Hlt Hv.
    destruct (oa_fresh _ _ Hadd i Hi) as [Hold|Hnew]; [|lia].
    apply (H1 i Hold Hlt Hv).
  - intros i0 Hi0 Hv Hk.
    destruct (H2 i0 Hi0 Hv Hk) as (i & Hi & Hid & H).
    exists i. split; [apply (oa_kept _ _ Hadd), Hi|]. auto.
  - intros i0 Hi0 Hv Hk.
    destruct (Hp i0 Hi0 Hv Hk) as [H|[H|H]]; [auto|auto|].
    right. right. intros i Hi Heq.
    destruct (oa_fresh _ _ Hadd i Hi) as [Hold|Hnew].
    + exact (H i Hold Heq).
    + apply Hfresh in Hi0. lia.
  - intros g gl c Hgl. rewrite (oa_globals _ _ Hadd) in Hgl.
    apply (Hg g gl c Hgl).
Qed.

Lemma ri_newInst_insertBefore st0 val nval e s rest name k t b i s1 u s' :
  (forall i, i ∈ all_insts (st_module st0) ->
     (iid i < next_id (st_module st0))%nat) ->
  (next_id (st_module st0) <= next_id (st_module s))%nat ->
  newInst name k t s = Ret i s1 ->
  insertBefore i b s1 = Ret u s' ->
  retarget_inv st0 val nval e s rest -> retarget_inv st0 val nval e s' rest.
Proof.
  intros Hfresh Hn Hnew Hins [H1 H2 Hp Hg H3].
  pose proof (keeping_insertBefore _ _ _ _ _ Hins) as Hkeep.
  apply newInst_state in Hnew as [-> ->].
  apply insertBefore_Ret in Hins as [_ ->].
  split; [| | |exact Hg|exact H3].
  - intros j Hj Hlt Hv. simpl in Hj.
    apply elem_of_all_insts_ins_before in Hj as [->|Hj];
      [simpl in Hlt; lia|].
    apply (H1 j Hj Hlt Hv).
  - intros i0 Hi0 Hv Hk.
    destruct (H2 i0 Hi0 Hv Hk) as (i & Hi & Hid & H).
    exists i. split; [apply Hkeep; exact Hi|]. auto.
  - intros i0 Hi0 Hv Hk.
    destruct (Hp i0 Hi0 Hv Hk) as [H|[H|H]]; [auto|auto|].
    right. right. intros j Hj Heq. simpl in Hj.
    apply elem_of_all_insts_ins_before in Hj as [->|Hj].
    + apply Hfresh in Hi0. simpl in Heq. lia.
    + exact (H j Hj Heq).
Qed.

Lemma ri_replaceAllUsesWith st0 val nval m0 e s rest old new u s' :
  isChangeableObject m0 val = true -> is_object nval ->
  old <> val -> new <> val -> old <> nval ->
  (forall id t, old = VInst id t -> (id < next_id (st_module st0))%nat) ->
  replaceAllUsesWith old new s = Ret u s' ->
  retarget_inv st0 val nval e s rest -> retarget_inv st0 val nval e s' rest.
Proof.
  intros Hobj Hnobj Hov Hnew Hon Hold Hr [H1 H2 Hp Hg H3]. injection Hr as _ <-.
  pose proof (object_atomic _ _ Hobj) as Hatomic.
  split; [| | | |exact H3].
  - intros i Hi Hlt Hv. simpl in Hi.
    apply elem_of_all_insts_map in Hi as (j & Hj & ->). simpl in *.
    apply elem_of_map_operands in Hv as (x & Hx & Hv). symmetry in Hv.
    destruct (subst_value_object _ _ _ _ _ Hobj Hv) as [->|Hc];
      [|contradiction].
    apply (H1 j Hj Hlt Hx).
  - intros i0 Hi0 Hv Hk.
    destruct (H2 i0 Hi0 Hv Hk) as (i & Hi & Hid & H).
    exists (map_inst (map_operands (subst_value old new)) i).
    split; [simpl; apply elem_of_all_insts_map; eauto|].
    split; [exact Hid|]. simpl. rewrite operands_map_operands.
    destruct H as [[Ho Hin]|(y & Hy & Hm)].
    + left. split; [|exact Hin].
      apply list_elem_of_fmap. exists val. split; [|exact Ho].
      symmetry. apply Hatomic, Hov.
    + right. exists y. split; [|exact Hm].
      apply list_elem_of_fmap. exists y. split; [|exact Hy].
      symmetry. destruct Hm as [->|(id & t & -> & Hid')].
      * apply subst_value_is_object; assumption.
      * apply subst_value_fresh. intros Heq.
        specialize (Hold _ _ Heq). lia.
  - intros i0 Hi0 Hv Hk.
    destruct (Hp i0 Hi0 Hv Hk) as [H|[H|H]]; [auto|auto|].
    right. right. intros i Hi Heq. simpl in Hi.
    apply elem_of_all_insts_map in Hi as (j & Hj & ->).
    exact (H j Hj Heq).
  - intros g gl c Hgl Hc Hv. simpl in Hgl. rewrite lookup_fmap in Hgl.
    destruct (globals (st_module s) !! g) as [gl0|] eqn:Hg0;
      [|discriminate]. injection Hgl as <-.
    destruct (ginit_subst_init _ _ _ _ Hc) as (c0 & Hc0 & [->|Hs]).
    + apply (Hg g gl0 c0 Hg0 Hc0 Hv).
    + rewrite Hv in Hs. symmetry in Hs.
      destruct (subst_value_object _ _ _ _ _ Hobj Hs) as [Hy|Hy];
        [|contradiction].
      apply (Hg g gl0 c0 Hg0 Hc0 Hy).
Qed.

Lemma ri_eraseOrDefer st0 val nval e s rest id e' s' :
  (exists i0, i0 ∈ all_insts (st_module st0) /\ iid i0 = id /\
     replaced_kind (ikind i0)) ->
  (forall i j, i ∈ all_insts (st_module st0) ->
     j ∈ all_insts (st_module st0) -> iid i = iid j -> i = j) ->
  eraseOrDefer id e s = Ret e' s' ->
  retarget_inv st0 val nval e s (UInst id :: rest) ->
  retarget_inv st0 val nval e' s' rest.
Proof.
  intros (j0 & Hj0 & Hjd & Hjk) Huniq He [H1 H2 Hp Hg H3].
  assert (forall g gl c, globals (st_module s) !! g = Some gl ->
            ginit gl = Some c -> VConst c = val -> UGlobal g ∈ rest) as Hg'.
  { intros g gl c Hgl Hc Hv. pose proof (Hg g gl c Hgl Hc Hv) as H.
    apply elem_of_cons in H as [H|H]; [discriminate H|exact H]. }
  assert (forall i0, i0 ∈ all_insts (st_module st0) ->
            ~ replaced_kind (ikind i0) -> iid i0 <> id) as Hother.
  { intros i0 Hi0 Hk Heq. apply Hk.
    rewrite (Huniq i0 j0 Hi0 Hj0); [exact Hjk|congruence]. }
  unfold eraseOrDefer in He. destruct e as [l|].
  - injection He as <- <-. split.
    + intros i Hi Hlt Hv.
      destruct (H1 i Hi Hlt Hv) as [H|[Hd Hk]].
      * apply elem_of_cons in H as [H|H]; [|auto].
        injection H as H. right. split.
        -- eexists. split; [reflexivity|]. rewrite H. left.
        -- exists j0. rewrite H. auto.
      * right. split; [apply deferred_cons; exact Hd|exact Hk].
    + intros i0 Hi0 Hv Hk.
      destruct (H2 i0 Hi0 Hv Hk) as (i & Hi & Hid & [[Ho H]|H]).
      * apply elem_of_cons in H as [H|H].
        -- injection H as H. exfalso. eapply Hother; eauto.
        -- exists i. auto.
      * exists i. auto.
    + intros i0 Hi0 Hv Hk.
      destruct (Hp i0 Hi0 Hv Hk) as [H|[H|H]].
      * apply elem_of_cons in H as [H|H]; [|auto].
        injection H as H. right. left. eexists. split; [reflexivity|].
        rewrite H. left.
      * right. left. apply deferred_cons. exact H.
      * auto.
    + exact Hg'.
    + intros c Hc. apply H3. right. exact Hc.
  - apply bind_Ret in He as (u & s1 & He & Hr). injection Hr as <- <-.
    injection He as _ <-. split.
    + intros i Hi Hlt Hv. simpl in Hi.
      apply elem_of_all_insts_map_blocks in Hi as (f & blk & Hf & Hblk & Hi).
      apply list_elem_of_filter in Hi as [Hne Hi].
      assert (i ∈ all_insts (st_module s)) as Hi0
        by (apply elem_of_all_insts; eauto).
      destruct (H1 i Hi0 Hlt Hv) as [H|H]; [|auto].
      apply elem_of_cons in H as [H|H]; [|auto].
      injection H as H. contradiction.
    + intros i0 Hi0 Hv Hk.
      destruct (H2 i0 Hi0 Hv Hk) as (i & Hi & Hid & H).
      exists i. split.
      * simpl. apply elem_of_all_insts in Hi as (f & blk & Hf & Hblk & Hi).
        apply elem_of_all_insts_map_blocks. exists f, blk.
        split; [exact Hf|]. split; [exact Hblk|].
        apply list_elem_of_filter. split; [|exact Hi].
        rewrite Hid. apply Hother; assumption.
      * split; [exact Hid|]. destruct H as [[Ho H]|H]; [|auto].
        apply elem_of_cons in H as [H|H]; [|auto].
        injection H as H. exfalso. eapply Hother; eauto.
    + intros i0 Hi0 Hv Hk.
      assert (forall i, i ∈ all_insts
                (map_blocks (filter (fun i => iid i <> id)) (st_module s)) ->
              i ∈ all_insts (st_module s) /\ iid i <> id) as Hsub.
      { intros i Hi.
        apply elem_of_all_insts_map_blocks in Hi
          as (f & blk & Hf & Hblk & Hi).
        apply list_elem_of_filter in Hi as [Hne Hi].
        split; [apply elem_of_all_insts; eauto|exact Hne]. }
      destruct (Hp i0 Hi0 Hv Hk) as [H|[H|H]]; [|auto|].
      * apply elem_of_cons in H as [H|H]; [|auto].
        injection H as H. right. right. intros i Hi. rewrite H.
        apply (Hsub i Hi).
      * right. right. intros i Hi. apply H, (Hsub i Hi).
    + exact Hg'.
    + intros c Hc. apply H3. right. exact Hc.
Qed.

Lemma ri_set_inst_kind st0 val nval e s rest id k u s' :
  (forall i0, i0 ∈ all_insts (st_module st0) -> replaced_kind (ikind i0) ->
     iid i0 <> id) ->
  val ∉ operands k ->
  (exists y, y ∈ operands k /\
     made_by_change (next_id (st_module st0)) nval y) ->
  set_inst_kind id k s = Ret u s' ->
  retarget_inv st0 val nval e s (UInst id :: rest) ->
  retarget_inv st0 val nval e s' rest.
Proof.
  intros Hnrep Hk Hm Hs [H1 H2 Hp Hg H3]. injection Hs as _ <-.
  assert (forall g gl c, globals (st_module s) !! g = Some gl ->
            ginit gl = Some c -> VConst c = val -> UGlobal g ∈ rest) as Hg'.
  { intros g gl c Hgl Hc Hv. pose proof (Hg g gl c Hgl Hc Hv) as H.
    apply elem_of_cons in H as [H|H]; [discriminate H|exact H]. }
  split.
  - intros i Hi Hlt Hv. simpl in Hi.
    apply elem_of_all_insts_map in Hi as (j & Hj & ->).
    case_bool_decide as Hid; simpl in *; [contradiction|].
    destruct (H1 j Hj Hlt Hv) as [H|H]; [|auto].
    apply elem_of_cons in H as [H|H]; [|auto].
    injection H as H. contradiction.
  - intros i0 Hi0 Hv Hk0.
    destruct (H2 i0 Hi0 Hv Hk0) as (i & Hi & Hid & H).
    destruct (decide (iid i = id)) as [Heq|Hne].
    + exists (mkInst (iid i) (iname i) k (ity i)).
      split; [|split; [exact Hid|right; exact Hm]].
      simpl. apply elem_of_all_insts_map. exists i. split; [exact Hi|].
      rewrite bool_decide_eq_true_2 by exact Heq. reflexivity.
    + exists i. split; [|split; [exact Hid|]].
      * simpl. apply elem_of_all_insts_map. exists i. split; [exact Hi|].
        rewrite bool_decide_eq_false_2 by exact Hne. reflexivity.
      * destruct H as [[Ho H]|H]; [|auto].
        apply elem_of_cons in H as [H|H]; [|auto].
        injection H as H. congruence.
  - intros i0 Hi0 Hv Hk0.
    destruct (Hp i0 Hi0 Hv Hk0) as [H|[H|H]]; [|auto|].
    + apply elem_of_cons in H as [H|H]; [|auto].
      injection H as H. exfalso. exact (Hnrep i0 Hi0 Hk0 H).
    + right. right. intros i Hi Heq. simpl in Hi.
      apply elem_of_all_insts_map in Hi as (j & Hj & ->).
      apply (H j Hj). destruct (bool_decide _); exact Heq.
  - exact Hg'.
  - intros c Hc. apply H3. right. exact Hc.
Qed.

Lemma ri_instReplaceUsesOfWith st0 val nval e s rest id conv u s' :
  (forall i0, i0 ∈ all_insts (st_module st0) -> replaced_kind (ikind i0) ->
     iid i0 <> id) ->
  value_scoped (st_module st0) val -> nval <> val ->
  conv <> val -> made_by_change (next_id (st_module st0)) nval conv ->
  instReplaceUsesOfWith id val conv s = Ret u s' ->
  retarget_inv st0 val nval e s (UInst id :: rest) ->
  retarget_inv st0 val nval e s' rest.
Proof.
  intros Hnrep Hvs0 Hnv Hc Hm Hs [H1 H2 Hp Hg H3].
  unfold instReplaceUsesOfWith in Hs.
  apply bind_Ret in Hs as (s0 & s0' & [= <- <-] & Hs).
  destruct (has_inst _ _); [|discriminate]. injection Hs as _ <-.
  assert (forall g gl c, globals (st_module s) !! g = Some gl ->
            ginit gl = Some c -> VConst c = val -> UGlobal g ∈ rest) as Hg'.
  { intros g gl c Hgl Hc0 Hv. pose proof (Hg g gl c Hgl Hc0 Hv) as H.
    apply elem_of_cons in H as [H|H]; [discriminate H|exact H]. }
  assert (forall y, made_by_change (next_id (st_module st0)) nval y ->
            y <> val) as Hmv.
  { intros y [->|(a & t & -> & Ha)]; [exact Hnv|].
    intros <-. specialize (Hvs0 _ _ eq_refl). lia. }
  split.
  - intros i Hi Hlt Hv. simpl in Hi.
    apply elem_of_all_insts_map in Hi as (j & Hj & ->).
    case_bool_decide as Hid; simpl in *.
    + exfalso. apply elem_of_replaceUsesOfWith in Hv as (x & Hx & Hv).
      unfold replace_value in Hv. destruct (decide (x = val)); congruence.
    + destruct (H1 j Hj Hlt Hv) as [H|H]; [|auto].
      apply elem_of_cons in H as [H|H]; [|auto].
      injection H as H. contradiction.
  - intros i0 Hi0 Hv Hk0.
    destruct (H2 i0 Hi0 Hv Hk0) as (i & Hi & Hid & H).
    destruct (decide (iid i = id)) as [Heq|Hne].
    + exists (map_inst (replaceUsesOfWith val conv) i).
      split; [|split; [exact Hid|right]].
      * simpl. apply elem_of_all_insts_map. exists i. split; [exact Hi|].
        rewrite bool_decide_eq_true_2 by exact Heq. reflexivity.
      * simpl. rewrite replaceUsesOfWith_map_operands, operands_map_operands.
        destruct H as [[Ho _]|(y & Hy & Hmy)].
        -- exists conv. split; [|exact Hm].
           apply list_elem_of_fmap. exists val. split; [|exact Ho].
           unfold replace_value.
           destruct (decide (val = val)); [reflexivity|contradiction].
        -- exists y. split; [|exact Hmy].
           apply list_elem_of_fmap. exists y. split; [|exact Hy].
           unfold replace_value.
           destruct (decide (y = val)) as [Hy'|]; [|reflexivity].
           exfalso. exact (Hmv y Hmy Hy').
    + exists i. split; [|split; [exact Hid|]].
      * simpl. apply elem_of_all_insts_map. exists i. split; [exact Hi|].
        rewrite bool_decide_eq_false_2 by exact Hne. reflexivity.
      * destruct H as [[Ho H]|H]; [|auto].
        apply elem_of_cons in H as [H|H]; [|auto].
        injection H as H. congruence.
  - intros i0 Hi0 Hv Hk0.
    destruct (Hp i0 Hi0 Hv Hk0) as [H|[H|H]]; [|auto|].
    + apply elem_of_cons in H as [H|H]; [|auto].
      injection H as H. exfalso. exact (Hnrep i0 Hi0 Hk0 H).
    + right. right. intros i Hi Heq. simpl in Hi.
      apply elem_of_all_insts_map in Hi as (j & Hj & ->).
      apply (H j Hj). destruct (bool_decide _); exact Heq.
  - exact Hg'.
  - intros c Hc'. apply H3. right. exact Hc'.
Qed.


Lemma ri_global_user st0 val nval e s rest g gl conv u s' :
  VConst conv <> val ->
  ginit gl = (fun i => if decide (VConst i = val) then conv else i)
               <$> (globals (st_module s) !! g ≫= ginit) ->
  set_global g gl s = Ret u s' ->
  retarget_inv st0 val nval e s (UGlobal g :: rest) ->
  retarget_inv st0 val nval e s' rest.
Proof.
  intros Hcv Hgl Hs [H1 H2 Hp Hg H3]. injection Hs as _ <-. split.
  - intros i Hi Hlt Hv. destruct (H1 i Hi Hlt Hv) as [H|H]; [|auto].
    apply elem_of_cons in H as [H|H]; [discriminate H|auto].
  - intros i0 Hi0 Hv Hk.
    destruct (H2 i0 Hi0 Hv Hk) as (i & Hi & Hid & [[Ho H]|H]).
    + apply elem_of_cons in H as [H|H]; [discriminate H|].
      exists i. auto.
    + exists i. auto.
  - intros i0 Hi0 Hv Hk. destruct (Hp i0 Hi0 Hv Hk) as [H|H]; [|auto].
    apply elem_of_cons in H as [H|H]; [discriminate H|auto].
  - intros g' gl' c Hgl' Hc Hv. simpl in Hgl'.
    destruct (decide (g = g')) as [<-|Hne].
    + exfalso. rewrite lookup_insert_eq in Hgl'. injection Hgl' as <-.
      rewrite Hgl in Hc.
      destruct (globals (st_module s) !! g ≫= ginit) as [i|];
        [|discriminate]. simpl in Hc. injection Hc as <-.
      destruct (decide (VConst i = val)); contradiction.
    + rewrite lookup_insert_ne in Hgl' by exact Hne.
      pose proof (Hg g' gl' c Hgl' Hc Hv) as H.
      apply elem_of_cons in H as [H|H]; [|exact H].
      injection H as H. congruence.
  - intros c Hc. apply H3. right. exact Hc.
Qed.

(** ** The declarations are kept by the loop *)

Lemma decls_kept_refl m : decls_kept m m.
Proof. split; eauto. Qed.

Lemma decls_kept_trans m1 m2 m3 :
  decls_kept m1 m2 -> decls_kept m2 m3 -> decls_kept m1 m3.
Proof.
  intros [Hf1 Hg1] [Hf2 Hg2]. split.
  - intros f fn H. destruct (Hf1 f fn H) as (fn1 & H1 & <-).
    apply (Hf2 f fn1 H1).
  - intros g gl H. destruct (Hg1 g gl H) as (gl1 & H1 & <-).
    apply (Hg2 g gl1 H1).
Qed.

Lemma decls_kept_edit m n g (h : Global -> Global) w :
  (forall gl, gvalty (h gl) = gvalty gl) ->
  decls_kept m
    (mkModule n (functions (map_blocks g m)) (h <$> globals m) w).
Proof.
  intros Hh. split.
  - intros f fn H.
    change (lookup_function (mkModule n (functions (map_blocks g m))
                               (h <$> globals m) w) f)
      with (lookup_function (map_blocks g m) f).
    rewrite lookup_function_map_blocks, H. eexists. split; reflexivity.
  - intros k gl H. simpl. rewrite lookup_fmap, H. eexists.
    split; [reflexivity|apply Hh].
Qed.

Lemma keeps_decls_bind {A B} (c : M A) (k : A -> M B) :
  keeps_decls c -> (forall a, keeps_decls (k a)) -> keeps_decls (bind c k).
Proof.
  intros Hc Hk st b st' H. apply bind_Ret in H as (a & st1 & H1 & H2).
  eapply decls_kept_trans; [eapply Hc; exact H1|eapply Hk; exact H2].
Qed.

Lemma keeps_decls_ret {A} (a : A) : keeps_decls (ret a).
Proof. intros st b st' [= _ <-]. apply decls_kept_refl. Qed.

Lemma keeps_decls_abort {A} : keeps_decls (@abort A).
Proof. intros st b st' H. discriminate. Qed.

Lemma keeps_decls_out_of_fuel {A} : keeps_decls (@out_of_fuel A).
Proof. intros st b st' H. discriminate. Qed.

Lemma keeps_decls_get : keeps_decls get.
Proof. intros st b st' [= _ <-]. apply decls_kept_refl. Qed.

Lemma keeps_decls_nonnull {A} (o : option A) : keeps_decls (nonnull o).
Proof. destruct o; [apply keeps_decls_ret|apply keeps_decls_abort]. Qed.

Lemma keeps_decls_newInst name k t : keeps_decls (newInst name k t).
Proof. intros st i st' [= _ <-]. split; eauto. Qed.

Lemma keeps_decls_map_blocks g : keeps_decls (modify_module (map_blocks g)).
Proof.
  intros st u st' [= _ <-]. simpl.
  pose proof (decls_kept_edit (st_module st) (next_id (st_module st)) g
                (fun gl => gl) (word_bits (st_module st))
                (fun gl => eq_refl)) as H.
  rewrite map_fmap_id in H. exact H.
Qed.

Lemma keeps_decls_replaceAllUsesWith old new :
  keeps_decls (replaceAllUsesWith old new).
Proof.
  intros st u st' [= _ <-]. simpl. apply decls_kept_edit.
  intros gl. unfold subst_init. destruct old, new; reflexivity.
Qed.

Ltac keeps_decls_step :=
  match goal with
  | |- keeps_decls (bind _ _) => apply keeps_decls_bind; [|intros ?]
  | |- keeps_decls (ret _) => apply keeps_decls_ret
  | |- keeps_decls abort => apply keeps_decls_abort
  | |- keeps_decls out_of_fuel => apply keeps_decls_out_of_fuel
  | |- keeps_decls get => apply keeps_decls_get
  | |- keeps_decls (nonnull _) => apply keeps_decls_nonnull
  | |- keeps_decls (newInst _ _ _) => apply keeps_decls_newInst
  | |- keeps_decls (modify_module (map_blocks _)) =>
    apply keeps_decls_map_blocks
  | |- keeps_decls (replaceAllUsesWith _ _) =>
    apply keeps_decls_replaceAllUsesWith
  | |- keeps_decls (if ?b then _ else _) => destruct b
  | |- keeps_decls (match ?x with _ => _ end) => destruct x
  end.

Lemma keeps_decls_insertBefore i b : keeps_decls (insertBefore i b).
Proof. unfold insertBefore. repeat keeps_decls_step. Qed.

Lemma keeps_decls_insertAfter i a : keeps_decls (insertAfter i a).
Proof. unfold insertAfter. repeat keeps_decls_step. Qed.

Lemma keeps_decls_insertBeforeAfter i b a :
  keeps_decls (insertBeforeAfter i b a).
Proof.
  unfold insertBeforeAfter, insertBefore, insertAfter.
  repeat keeps_decls_step.
Qed.

Lemma keeps_decls_castStep op v cval t b a ce :
  keeps_decls (castStep op v cval t b a ce).
Proof.
  unfold castStep.
  repeat first [apply keeps_decls_insertBeforeAfter | keeps_decls_step].
Qed.

Lemma keeps_decls_convertToType fuel :
  forall val type b a ce, keeps_decls (convertToType fuel val type b a ce).
Proof.
  induction fuel as [|fuel IH]; intros val type b a ce; simpl.
  - apply keeps_decls_out_of_fuel.
  - cbv zeta.
    repeat first [apply IH | apply keeps_decls_castStep
                 | apply keeps_decls_insertBeforeAfter
                 | apply keeps_decls_insertAfter
                 | apply keeps_decls_insertBefore | keeps_decls_step].
Qed.

Lemma keeps_decls_changeUser fuel val nval origType user e :
  keeps_decls (changeUser fuel val nval origType user e).
Proof.
  destruct user as [id|g|c].
  - unfold changeUser, convertValueToType, set_inst_kind,
      instReplaceUsesOfWith, eraseOrDefer, eraseFromParent, insertBefore.
    cbv zeta.
    repeat first [apply keeps_decls_convertToType | keeps_decls_step].
  - intros st a st' H. unfold changeUser in H. cbv zeta in H.
    apply bind_Ret in H as (s0 & s0' & [= <- <-] & H).
    destruct (dyn_cast_Constant nval) as [nc|]; [|discriminate].
    apply bind_Ret in H as (gvDeclr & s1 & Hg & H).
    apply nonnull_Ret in Hg as [Hg ->].
    apply bind_Ret in H as (r & s1 & Hc & H).
    apply convertConstantToType_Ret in Hc as [-> (conv & -> & Hty)].
    apply bind_Ret in H as (conv' & s2 & Hnn & H).
    apply nonnull_Ret in Hnn as [[= <-] ->].
    apply bind_Ret in H as (u1 & s3 & Hr & H). injection H as _ <-.
    destruct (decide (dyn_cast_GlobalVariable conv <> Some g));
      [|injection Hr as _ <-; apply decls_kept_refl].
    injection Hr as _ <-. simpl. split; [eauto|].
    intros k gl Hk. simpl.
    destruct (decide (g = k)) as [->|Hne].
    + rewrite lookup_insert_eq. eexists. split; [reflexivity|]. simpl.
      congruence.
    + rewrite lookup_insert_ne by exact Hne. eauto.
  - unfold changeUser, convertConstantToType. cbv zeta.
    repeat first [apply keeps_decls_convertToType | keeps_decls_step].
Qed.


Lemma convert_made_by_change fuel n0 nval x t b s conv s' :
  change_inv n0 nval s -> value_scoped (st_module s) x -> ty_ok t = true ->
  made_by_change n0 nval x ->
  convertValueToType fuel (Some x) (Some t) (Some b) s = Ret (Some conv) s' ->
  made_by_change n0 nval conv.
Proof.
  intros Hinv Hx Ht Hm H.
  destruct (convert_result_fresh _ _ _ _ _ _ _ (ci_ok _ _ _ Hinv) Hx Ht H)
    as [->|(j & -> & Hj)]; [exact Hm|].
  right. exists (iid j), (ity j). split; [reflexivity|].
  pose proof (ci_next _ _ _ Hinv). lia.
Qed.

Lemma ri_convert st0 val nval fuel e s rest x t b r s' :
  (forall i, i ∈ all_insts (st_module st0) ->
     (iid i < next_id (st_module st0))%nat) ->
  change_inv (next_id (st_module st0)) nval s ->
  convertValueToType fuel (Some x) (Some t) (Some b) s = Ret r s' ->
  retarget_inv st0 val nval e s rest -> retarget_inv st0 val nval e s' rest.
Proof.
  intros Hfresh Hinv H. unfold convertValueToType in H.
  apply ri_only_adds; [exact Hfresh|apply (ci_next _ _ _ Hinv)|].
  eapply convertToType_only_adds. exact H.
Qed.

Lemma changeUser_retargets fuel m0 st0 val nval u rest e s e' s' :
  (forall i j, i ∈ all_insts (st_module st0) ->
     j ∈ all_insts (st_module st0) -> iid i = iid j -> i = j) ->
  (forall i, i ∈ all_insts (st_module st0) ->
     (iid i < next_id (st_module st0))%nat) ->
  (forall a t, val = VInst a t ->
     forall j, j ∈ all_insts (st_module st0) -> iid j = a ->
       shape (ikind j) = 0%nat) ->
  (forall a t, nval = VInst a t ->
     forall j, j ∈ all_insts (st_module st0) -> iid j = a ->
       shape (ikind j) = 0%nat) ->
  isChangeableObject m0 val = true ->
  is_object nval ->
  value_scoped (st_module st0) val ->
  nval <> val ->
  ty_ok (typeOf val) = true -> ty_ok (typeOf nval) = true ->
  (forall g t, nval = VConst (CGlobal g t) ->
     exists gl, globals (st_module s) !! g = Some gl /\
       t = TPtr (gvalty gl)) ->
  loop_inv st0 val s (u :: rest) ->
  change_inv (next_id (st_module st0)) nval s ->
  retarget_inv st0 val nval e s (u :: rest) ->
  changeUser fuel val nval (typeOf val) u e s = Ret e' s' ->
  retarget_inv st0 val nval e' s' rest.
Proof.
  intros Huniq Hfresh Hobject Hnobject Hobj Hnobj Hvs0 Hnv Htv Htn Hdg Hhead
    Hinv Hri H.
  pose proof (object_atomic _ _ Hobj) as Hatomic.
  assert (Hvs : forall s1, change_inv (next_id (st_module st0)) nval s1 ->
                  value_scoped (st_module s1) val).
  { intros s1 Hi1. eapply value_scoped_mono; [|exact Hvs0].
    apply (ci_next _ _ _ Hi1). }
  assert (Hmn : made_by_change (next_id (st_module st0)) nval nval)
    by (left; reflexivity).
  unfold changeUser in H. cbv zeta in H.
  apply bind_Ret in H as (s0 & s0' & [= <- <-] & H).
  destruct u as [id|g|c].
  - (* an instruction *)
    apply bind_Ret in H as (i & s1 & Hl & H).
    apply nonnull_Ret in Hl as [Hl ->].
    apply lookup_inst_Some in Hl as [Hi Hid].
    assert (Hlt : (iid i < next_id (st_module st0))%nat).
    { destruct (li_ids _ _ _ _ Hhead id) as (j & Hj & Hjd); [left|].
      rewrite Hid, <- Hjd. apply Hfresh, Hj. }
    pose proof (ok_insts _ (ci_ok _ _ _ Hinv) i Hi) as Hwt.
    pose proof (ci_types _ _ _ Hinv i Hi Hlt) as Hity.
    pose proof (ci_next _ _ _ Hinv) as Hn0.
    assert (Hops : forall v, v ∈ operands (ikind i) ->
                     value_scoped (st_module s) v).
    { intros v Hv. eapply operand_scoped; eauto. apply Hinv. }
    destruct (li_shape _ _ _ _ Hhead i Hi Hlt) as (i0 & Hi0 & Hid0 & Hsh0).
    assert (Hrep : replaced_kind (ikind i) ->
              exists j0, j0 ∈ all_insts (st_module st0) /\ iid j0 = id /\
                replaced_kind (ikind j0)).
    { intros Hk. exists i0. split; [exact Hi0|]. split; [congruence|].
      unfold replaced_kind in *. rewrite Hsh0. exact Hk. }
    assert (Hres : replaced_kind (ikind i) ->
              valueOf i <> val /\ valueOf i <> nval /\
              forall a t, valueOf i = VInst a t ->
                (a < next_id (st_module st0))%nat).
    { intros Hk. unfold replaced_kind in Hk. rewrite <- Hsh0 in Hk.
      split; [|split].
      - intros Heq. unfold valueOf in Heq. symmetry in Heq.
        pose proof (Hobject _ _ Heq i0 Hi0 Hid0) as Hz. lia.
      - intros Heq. unfold valueOf in Heq. symmetry in Heq.
        pose proof (Hnobject _ _ Heq i0 Hi0 Hid0) as Hz. lia.
      - intros a t [= <- _]. exact Hlt. }
    assert (Hnrep : ~ replaced_kind (ikind i) ->
              forall j0, j0 ∈ all_insts (st_module st0) ->
                replaced_kind (ikind j0) -> iid j0 <> id).
    { intros Hk j0 Hj0 Hjk Hjd. apply Hk.
      rewrite (Huniq j0 i0 Hj0 Hi0) in Hjk by congruence.
      unfold replaced_kind in *. rewrite <- Hsh0. exact Hjk. }
    unfold wt_inst in Hwt.
    assert (Hother :
      ~ replaced_kind (ikind i) ->
      (conv <- convertValueToType fuel (Some nval) (Some (typeOf val))
                 (Some id) ;;
       conv0 <- nonnull conv ;;
       (if decide (val <> conv0) then instReplaceUsesOfWith id val conv0
        else ret tt) ;;;
       ret e) s = Ret e' s' ->
      retarget_inv st0 val nval e' s' rest).
    { intros Hnk H0. apply bind_Ret in H0 as (r & s1 & Hc & H0).
      pose proof (ri_convert _ _ _ _ _ _ _ _ _ _ _ _ Hfresh Hinv Hc
                    Hri) as Hri1.
      apply bind_Ret in H0 as (conv & s2 & Hnn & H0).
      apply nonnull_Ret in Hnn as [-> ->].
      pose proof (convert_result_not_val _ _ _ _ _ _ _ _ (ci_ok _ _ _ Hinv)
                    (ci_nval _ _ _ Hinv) Htv (Hvs _ Hinv) Hnv Hc) as Hcv.
      pose proof (convert_made_by_change _ _ _ _ _ _ _ _ _ Hinv
                    (ci_nval _ _ _ Hinv) Htv Hmn Hc) as Hcm.
      apply bind_Ret in H0 as (u1 & s3 & Hr & H0). injection H0 as <- <-.
      destruct (decide (val <> conv)); [|exfalso; apply Hcv; symmetry;
        apply dec_stable; assumption].
      exact (ri_instReplaceUsesOfWith st0 val nval e s1 rest id conv u1 s3
               (Hnrep Hnk) Hvs0 Hnv Hcv Hcm Hr Hri1). }
    destruct (ikind i) as [t|p|src dst|op x|agg idx|agg elt idx|opc ops sig]
      eqn:Ek;
      try (apply Hother; [intros [Hk|Hk]; discriminate Hk|exact H]).
    + (* load *)
      destruct (Hres (or_introl eq_refl)) as (Hrv & Hrn & Hrl).
      destruct (negb (bool_decide (val = p))); [discriminate|].
      apply bind_Ret in H as (lt & s1 & Hlt' & H).
      apply nonnull_Ret in Hlt' as [Hlt' ->].
      apply getPointerElementType_Some in Hlt'.
      apply bind_Ret in H as (newLoad & s1 & Hnew & H).
      apply bind_Ret in H as (u1 & s2 & Hins & H).
      pose proof (ri_newInst_insertBefore st0 val nval e s _ _ _ _ _ _ _ _ _
                    Hfresh Hn0 Hnew Hins Hri) as Hri2.
      assert (forall x, x ∈ operands (KLoad nval) ->
                value_scoped (st_module s) x) as Hlops.
      { intros x Hx. apply list_elem_of_singleton in Hx as ->. apply Hinv. }
      destruct (change_inv_newInst_insertBefore _ _ "" (KLoad nval) lt id s
                  newLoad s1 u1 s2 Hinv Hlops Hlt' Hnew Hins)
        as (Hinv2 & Hnl_eq & Hn2).
      apply bind_Ret in H as (r & s3 & Hc & H).
      assert (value_scoped (st_module s2) (valueOf newLoad)) as Hls.
      { rewrite Hnl_eq. intros x t [= <- _]. lia. }
      assert (valueOf newLoad <> val) as Hlv.
      { rewrite Hnl_eq. intros <-.
        specialize (Hvs _ Hinv _ _ eq_refl). simpl in Hvs. lia. }
      pose proof (ri_convert _ _ _ _ _ _ _ _ _ _ _ _ Hfresh Hinv2 Hc
                    Hri2) as Hri3.
      apply bind_Ret in H as (conv & s4 & Hnn & H).
      apply nonnull_Ret in Hnn as [-> ->].
      pose proof (convert_result_not_val _ _ _ _ _ _ _ _ (ci_ok _ _ _ Hinv2)
                    Hls Hity (Hvs _ Hinv2) Hlv Hc) as Hcv.
      destruct (decide (conv <> valueOf i)) as [Hci|Hci].
      * apply bind_Ret in H as (u2 & s5 & Hr & H).
        refine (ri_eraseOrDefer st0 val nval _ _ _ _ _ _
                  (Hrep (or_introl eq_refl)) Huniq H _).
        exact (ri_replaceAllUsesWith st0 val nval m0 e s3 _ _ _ u2 s5
                 Hobj Hnobj Hrv Hcv Hrn Hrl Hr Hri3).
      * exfalso. apply dec_stable in Hci.
        destruct (convert_result_fresh _ _ _ _ _ _ _ (ci_ok _ _ _ Hinv2)
                    Hls Hity Hc) as [Hcx|(j & Hcj & Hj)].
        -- rewrite Hcx, Hnl_eq in Hci. injection Hci as Hci _. lia.
        -- rewrite Hcj in Hci. injection Hci as Hci _. lia.
    + (* store *)
      assert (~ replaced_kind (KStore src dst)) as Hstore
        by (intros [Hk|Hk]; discriminate Hk).
      destruct (decide (val = dst)) as [Hdst|Hdst].
      * apply bind_Ret in H as (elt & s1 & He & H).
        apply nonnull_Ret in He as [He ->].
        apply getPointerElementType_Some in He.
        assert (ty_ok elt = true) as Helt by (rewrite He in Htn; exact Htn).
        apply bind_Ret in H as (r & s1 & Hc & H).
        assert (value_scoped (st_module s) src) as Hss
          by (apply Hops; left).
        assert (typeOf val = TPtr (typeOf src)) as Hvt
          by (rewrite Hdst; exact Hwt).
        assert (src <> val) as Hsv.
        { intros Heq. rewrite Heq in Hvt.
          exact (Ty_not_pointer_to_itself _ Hvt). }
        pose proof (ri_convert _ _ _ _ _ _ _ _ _ _ _ _ Hfresh Hinv Hc
                      Hri) as Hri1.
        apply bind_Ret in H as (conv & s2 & Hnn & H).
        apply nonnull_Ret in Hnn as [-> ->].
        pose proof (convert_result_not_val _ _ _ _ _ _ _ _ (ci_ok _ _ _ Hinv)
                      Hss Helt (Hvs _ Hinv) Hsv Hc) as Hcv.
        apply bind_Ret in H as (u1 & s3 & Hr & H). injection H as <- <-.
        refine (ri_set_inst_kind st0 val nval e s1 rest id _ u1 s3
                  (Hnrep Hstore) _ _ Hr Hri1).
        -- simpl. intros Hin. apply elem_of_cons in Hin as [Hin|Hin];
             [congruence|].
           apply list_elem_of_singleton in Hin. congruence.
        -- exists nval. split; [simpl; right; left|exact Hmn].
      * apply bind_Ret in H as (r & s1 & Hc & H).
        pose proof (ri_convert _ _ _ _ _ _ _ _ _ _ _ _ Hfresh Hinv Hc
                      Hri) as Hri1.
        apply bind_Ret in H as (conv & s2 & Hnn & H).
        apply nonnull_Ret in Hnn as [-> ->].
        pose proof (convert_result_not_val _ _ _ _ _ _ _ _ (ci_ok _ _ _ Hinv)
                      (ci_nval _ _ _ Hinv) Htv (Hvs _ Hinv) Hnv Hc) as Hcv.
        pose proof (convert_made_by_change _ _ _ _ _ _ _ _ _ Hinv
                      (ci_nval _ _ _ Hinv) Htv Hmn Hc) as Hcm.
        apply bind_Ret in H as (u1 & s3 & Hr & H). injection H as <- <-.
        refine (ri_set_inst_kind st0 val nval e s1 rest id _ u1 s3
                  (Hnrep Hstore) _ _ Hr Hri1).
        -- simpl. intros Hin. apply elem_of_cons in Hin as [Hin|Hin];
             [congruence|].
           apply list_elem_of_singleton in Hin. congruence.
        -- exists conv. split; [simpl; left|exact Hcm].
    + (* cast *)
      destruct (Hres (or_intror eq_refl)) as (Hrv & Hrn & Hrl).
      destruct (decide (typeOf nval = ity i)) as [Hsame_ty|Hdiff].
      * destruct (decide (val <> valueOf i)) as [Hne|Hne];
          [|exfalso; apply Hrv; symmetry; apply dec_stable; exact Hne].
        apply bind_Ret in H as (u2 & s5 & Hr & H).
        refine (ri_eraseOrDefer st0 val nval _ _ _ _ _ _
                  (Hrep (or_intror eq_refl)) Huniq H _).
        exact (ri_replaceAllUsesWith st0 val nval m0 e s _ _ _ u2 s5
                 Hobj Hnobj Hrv Hnv Hrn Hrl Hr Hri).
      * apply bind_Ret in H as (r & s1 & Hc & H).
        pose proof (ri_convert _ _ _ _ _ _ _ _ _ _ _ _ Hfresh Hinv Hc
                      Hri) as Hri1.
        apply bind_Ret in H as (conv & s2 & Hnn & H).
        apply nonnull_Ret in Hnn as [-> ->].
        pose proof (convert_result_not_val _ _ _ _ _ _ _ _ (ci_ok _ _ _ Hinv)
                      (ci_nval _ _ _ Hinv) Hity (Hvs _ Hinv) Hnv Hc) as Hcv.
        destruct (decide (valueOf i <> conv)) as [Hci|Hci].
        -- apply bind_Ret in H as (u2 & s5 & Hr & H).
           refine (ri_eraseOrDefer st0 val nval _ _ _ _ _ _
                     (Hrep (or_intror eq_refl)) Huniq H _).
           exact (ri_replaceAllUsesWith st0 val nval m0 e s1 _ _ _ u2 s5
                    Hobj Hnobj Hrv Hcv Hrn Hrl Hr Hri1).
        -- exfalso. apply dec_stable in Hci.
           destruct (change_inv_convert _ _ _ _ _ _ _ _ _ Hinv
                       (ci_nval _ _ _ Hinv) Hity Hc)
             as (_ & conv' & [= <-] & Hty & _).
           destruct (convert_result_fresh _ _ _ _ _ _ _ (ci_ok _ _ _ Hinv)
                       (ci_nval _ _ _ Hinv) Hity Hc) as [Hcx|(j & Hcj & Hj)].
           ++ rewrite Hcx in Hty. contradiction.
           ++ rewrite Hcj in Hci. injection Hci as Hci _. lia.
  - (* a global variable initialized with the object *)
    destruct (dyn_cast_Constant nval) as [nc|] eqn:Hnc; [|discriminate].
    apply bind_Ret in H as (gvDeclr & s1 & Hg & H).
    apply nonnull_Ret in Hg as [Hg ->].
    apply bind_Ret in H as (r & s1 & Hc & H).
    pose proof Hc as Hc'.
    apply convertConstantToType_Ret in Hc as [-> (conv & -> & Hty)].
    apply bind_Ret in H as (conv' & s2 & Hnn & H).
    apply nonnull_Ret in Hnn as [[= <-] ->].
    apply bind_Ret in H as (u1 & s3 & Hr & H). injection H as <- <-.
    assert (nval = VConst nc) as Hnval
      by (destruct nval; try discriminate Hnc; simpl in Hnc; congruence).
    destruct (decide (dyn_cast_GlobalVariable conv <> Some g)) as [Hd|Hd].
    + refine (ri_global_user st0 val nval e s rest g _ conv u1 s3 _ _ Hr Hri).
      * destruct (convertConstantToType_not_other_global _ _ _ _ _ _ Hc')
          as [->|Hgn].
        -- rewrite <- Hnval. exact Hnv.
        -- intros <-. simpl in Hobj. destruct conv; try discriminate Hobj.
           eapply Hgn. reflexivity.
      * rewrite Hg. reflexivity.
    + exfalso. apply dec_stable in Hd.
      destruct conv as [| | | |g' ty| | | | |]; try discriminate Hd.
      injection Hd as ->.
      destruct (convertConstantToType_not_other_global _ _ _ _ _ _ Hc')
        as [<-|Hgn]; [|eapply Hgn; reflexivity].
      destruct (Hdg g ty Hnval) as (gl & Hgl & Ht).
      rewrite Hg in Hgl. injection Hgl as <-. simpl in Hty.
      rewrite Hty in Ht. exact (Ty_not_pointer_to_itself _ Ht).
  - (* a constant built from the object *)
    destruct (dyn_cast_Constant nval) as [nc|] eqn:Hnc; [|discriminate].
    apply bind_Ret in H as (r & s1 & Hc & H).
    pose proof Hc as Hc'.
    apply convertConstantToType_Ret in Hc as [-> (conv & -> & Hty)].
    apply bind_Ret in H as (conv' & s2 & Hnn & H).
    apply nonnull_Ret in Hnn as [[= <-] ->].
    apply bind_Ret in H as (u1 & s3 & Hr & H). injection H as <- <-.
    pose proof (ri_consts _ _ _ _ _ _ Hri c (list_elem_of_here _ _)) as Hcc.
    pose proof (li_consts _ _ _ _ Hhead c (list_elem_of_here _ _)) as Hcv.
    apply ri_tail in Hri; [|discriminate|discriminate].
    destruct (decide (c <> conv)); [|injection Hr as _ <-; exact Hri].
    refine (ri_replaceAllUsesWith st0 val nval m0 e s _ _ _ u1 s3
             Hobj Hnobj Hcv _ _ _ Hr Hri).
    + destruct (convertConstantToType_not_other_global _ _ _ _ _ _ Hc')
        as [->|Hg].
      * destruct nval; try discriminate Hnc. injection Hnc as ->. exact Hnv.
      * intros <-. simpl in Hobj. destruct conv; try discriminate Hobj.
        eapply Hg. reflexivity.
    + intros <-.
      destruct Hnobj as [(a & t & Hn)|[(f & idx & t & Hn)|(g & t & Hn)]];
        try discriminate Hn.
      injection Hn as ->. apply Hcc. reflexivity.
    + intros a t Ha. discriminate Ha.
Qed.

Lemma changeUsers_retargets fuel m0 st0 val nval users :
  (forall i j, i ∈ all_insts (st_module st0) ->
     j ∈ all_insts (st_module st0) -> iid i = iid j -> i = j) ->
  (forall i, i ∈ all_insts (st_module st0) ->
     (iid i < next_id (st_module st0))%nat) ->
  (forall a t, val = VInst a t ->
     forall j, j ∈ all_insts (st_module st0) -> iid j = a ->
       shape (ikind j) = 0%nat) ->
  (forall a t, nval = VInst a t ->
     forall j, j ∈ all_insts (st_module st0) -> iid j = a ->
       shape (ikind j) = 0%nat) ->
  isChangeableObject m0 val = true ->
  is_object nval ->
  value_scoped (st_module st0) val ->
  nval <> val ->
  ty_ok (typeOf val) = true -> ty_ok (typeOf nval) = true ->
  forall e s e' s',
    (forall g t, nval = VConst (CGlobal g t) ->
       exists gl, globals (st_module s) !! g = Some gl /\
         t = TPtr (gvalty gl)) ->
    loop_inv st0 val s users ->
    change_inv (next_id (st_module st0)) nval s ->
    retarget_inv st0 val nval e s users ->
    changeUsers fuel val nval (typeOf val) users e s = Ret e' s' ->
    retarget_inv st0 val nval e' s' [].
Proof.
  intros Huniq Hfresh Hobject Hnobject Hobj Hnobj Hvs Hnv Htv Htn.
  pose proof (object_atomic _ _ Hobj) as Hatomic.
  induction users as [|u rest IH]; intros e s e' s' Hdg Hloop Hinv Hri H;
    simpl in H.
  - injection H as <- <-. exact Hri.
  - apply bind_Ret in H as (e1 & s1 & H1 & H2).
    eapply IH; [| | | |exact H2].
    + intros g t Hn. destruct (Hdg g t Hn) as (gl & Hgl & ->).
      destruct (keeps_decls_changeUser _ _ _ _ _ _ _ _ _ H1) as [_ Hkg].
      destruct (Hkg g gl Hgl) as (gl' & Hgl' & Ht).
      exists gl'. split; [exact Hgl'|]. rewrite Ht. reflexivity.
    + exact (changeUser_inv st0 val Huniq Hfresh Hatomic Hobject fuel nval
               u rest e s e1 s1 Hloop H1).
    + exact (changeUser_ok fuel st0 val nval u rest e s e1 s1 Hfresh
               Htv Htn Hloop Hinv H1).
    + exact (changeUser_retargets fuel m0 st0 val nval u rest e s e1 s1
               Huniq Hfresh Hobject Hnobject Hobj Hnobj Hvs Hnv Htv Htn
               Hdg Hloop Hinv Hri H1).
Qed.

Lemma retarget_inv_init st val nval e :
  retarget_inv st val nval e st (users_of (st_module st) val).
Proof.
  destruct st as [m cfg]. split.
  - intros i Hi _ Hv. left. apply (uses_only_init m cfg val i Hi Hv).
  - intros i0 Hi0 Hv _. exists i0. split; [exact Hi0|].
    split; [reflexivity|]. left. split; [exact Hv|].
    apply (uses_only_init m cfg val i0 Hi0 Hv).
  - intros i0 Hi0 Hv _. left. apply (uses_only_init m cfg val i0 Hi0 Hv).
  - intros g gl c Hgl Hc <-. simpl in Hgl. unfold users_of.
    apply elem_of_app. right. apply elem_of_app. left.
    apply list_elem_of_In, in_flat_map. exists (g, gl).
    split; [apply list_elem_of_In, elem_of_map_to_list; exact Hgl|].
    rewrite Hc. apply list_elem_of_In, elem_of_app. left.
    destruct (decide (c = c)); [left|contradiction].
  - intros c Hc. apply elem_of_users_of_const in Hc as (vc & _ & Hvc).
    intros Hnil. rewrite Hnil in Hvc. inversion Hvc.
Qed.







(** ** The order of the users *)

Lemma loop_inv_perm st0 val s l l' :
  l ≡ₚ l' -> loop_inv st0 val s l -> loop_inv st0 val s l'.
Proof.
  intros Hp [H1 H2 H3 H4 H5 H6]. split; auto.
  - intros i src dst Hi Hlt Hk Hin. rewrite <- Hp in Hin. eauto.
  - intros i0 src dst Hi Hk.
    rewrite <- (proj1 (Permutation_count_occ User_eq_dec l l') Hp). eauto.
  - intros id Hin. rewrite <- Hp in Hin. auto.
  - intros c Hin. rewrite <- Hp in Hin. auto.
Qed.

Lemma retarget_inv_perm st0 val nval e s l l' :
  l ≡ₚ l' -> retarget_inv st0 val nval e s l ->
  retarget_inv st0 val nval e s l'.
Proof.
  intros Hp [H1 H2 H3 H4 H5]. split.
  - intros i Hi Hlt Hv. rewrite <- Hp. auto.
  - intros i0 Hi0 Hv Hk.
    destruct (H2 i0 Hi0 Hv Hk) as (i & Hi & Hid & H).
    exists i. rewrite <- Hp. auto.
  - intros i0 Hi0 Hv Hk. rewrite <- Hp. auto.
  - intros g gl c Hgl Hc Hv. rewrite <- Hp. eauto.
  - intros c Hc. rewrite <- Hp in Hc. auto.
Qed.

(** The loop of [changeObjectType] settles the users in whatever order it
    visits them: the invariants hold at its end for every arrangement of
    the copied users. *)
Lemma changeUsers_in_any_order fuel m0 st1 val nval us e e' s2 :
  module_ok (st_module st1) ->
  (forall g gl, globals (st_module st1) !! g = Some gl -> wt_global gl) ->
  (forall i, i ∈ all_insts (st_module st1) -> ty_ok (ity i) = true) ->
  isChangeableObject m0 val = true ->
  (forall a t, val = VInst a t ->
     forall j, j ∈ all_insts (st_module st1) -> iid j = a ->
       shape (ikind j) = 0%nat) ->
  (forall a t, nval = VInst a t ->
     forall j, j ∈ all_insts (st_module st1) -> iid j = a ->
       shape (ikind j) = 0%nat) ->
  is_object nval -> declared (st_module st1) nval ->
  value_scoped (st_module st1) val -> value_scoped (st_module st1) nval ->
  nval <> val ->
  ty_ok (typeOf val) = true -> ty_ok (typeOf nval) = true ->
  us ≡ₚ users_of (st_module st1) val ->
  changeUsers fuel val nval (typeOf val) us e st1 = Ret e' s2 ->
  loop_inv st1 val s2 [] /\
  change_inv (next_id (st_module st1)) nval s2 /\
  retarget_inv st1 val nval e' s2 [].
Proof.
  intros Hok Hgl Htys Hobj Halloca Hnobject Hnobj Hdecl Hvs Hnvs Hnv Htv Htn
    Hp Hloop.
  pose proof Hok as [[Hnd Hfresh Hscoped] Hwt].
  assert (Huniq : forall i j, i ∈ all_insts (st_module st1) ->
            j ∈ all_insts (st_module st1) -> iid i = iid j -> i = j).
  { intros i j. apply NoDup_iid_inj. exact Hnd. }
  pose proof (object_atomic _ _ Hobj) as Hatomic.
  assert (Hl0 : loop_inv st1 val st1 us).
  { apply (loop_inv_perm _ _ _ (users_of (st_module st1) val));
      [symmetry; exact Hp|].
    apply loop_inv_init; auto. eapply object_no_operands. exact Hobj. }
  assert (Hc0 : change_inv (next_id (st_module st1)) nval st1)
    by (split; auto).
  assert (Hr0 : retarget_inv st1 val nval e st1 us).
  { apply (retarget_inv_perm _ _ _ _ _ (users_of (st_module st1) val));
      [symmetry; exact Hp|apply retarget_inv_init]. }
  assert (Hdg : forall g t, nval = VConst (CGlobal g t) ->
            exists gl, globals (st_module st1) !! g = Some gl /\
              t = TPtr (gvalty gl)).
  { intros g t Hn. rewrite Hn in Hdecl. exact Hdecl. }
  split; [|split].
  - exact (changeUsers_inv st1 val fuel nval us Huniq Hfresh Hatomic
             Halloca e st1 e' s2 Hl0 Hloop).
  - exact (changeUsers_ok fuel st1 val nval us Huniq Hfresh Hatomic
             Halloca Htv Htn e st1 e' s2 Hl0 Hc0 Hloop).
  - exact (changeUsers_retargets fuel m0 st1 val nval us Huniq Hfresh
             Halloca Hnobject Hobj Hnobj Hvs Hnv Htv Htn e st1 e' s2 Hdg
             Hl0 Hc0 Hr0 Hloop).
Qed.
